(** * hive-spoke: trust verification, schema validation and aggregation

    A shallow embedding of the validation / verification pipeline of the
    hive-spoke command line tool ([src/commands/verify.ts],
    [src/commands/pull.ts], [src/commands/validate.ts] and the zod schemas
    under [src/schemas/]), together with the properties its specification
    states about it.

    JavaScript strings are sequences of UTF-16 code units; they are modelled
    as lists of [N].  Time values are integral numbers of milliseconds and are
    modelled in [Z] (every difference of two time values compared below is
    compared with an exactly representable bound, and rounding to the nearest
    double is monotone, so exact integer arithmetic decides the same
    comparisons). *)

From Stdlib Require Import List Bool Arith ZArith NArith Lia.
From Stdlib Require Import Ascii String DecimalString.
From Stdlib Require QArith Qround.
Import ListNotations.

Set Implicit Arguments.
Set Warnings "-register-all".

(* ================================================================== *)
(** * JavaScript strings *)
(* ================================================================== *)

Definition jsstring := list N.

(** Literals are written as Rocq strings and converted code unit by code
    unit (all literals of the program that are written this way are ASCII). *)
Definition js (s : string) : jsstring :=
  List.map N_of_ascii (list_ascii_of_string s).

Fixpoint str_eqb (a b : jsstring) : bool :=
  match a, b with
  | [], [] => true
  | x :: a', y :: b' => N.eqb x y && str_eqb a' b'
  | _, _ => false
  end.

(** [WhiteSpace] and [LineTerminator] of ECMAScript: the characters matched
    by the regular expression class [\s] and removed by [String.prototype.trim]. *)
Definition is_ws (c : N) : bool :=
  ((9 <=? c) && (c <=? 13) || (c =? 32) || (c =? 160) || (c =? 5760)
   || (8192 <=? c) && (c <=? 8202) || (c =? 8232) || (c =? 8233)
   || (c =? 8239) || (c =? 8287) || (c =? 12288) || (c =? 65279))%N.

Fixpoint trimStart (s : jsstring) : jsstring :=
  match s with
  | c :: s' => if is_ws c then trimStart s' else s
  | [] => []
  end.

Definition trimEnd (s : jsstring) : jsstring := rev (trimStart (rev s)).

(** [s.trim()] *)
Definition trim (s : jsstring) : jsstring := trimEnd (trimStart s).

(** [s.startsWith(p)] *)
Fixpoint startsWith (s p : jsstring) {struct p} : bool :=
  match p, s with
  | [], _ => true
  | y :: p', x :: s' => N.eqb x y && startsWith s' p'
  | _ :: _, [] => false
  end.

(** [s.split(sep)] for a separator of one code unit.  The empty string
    splits into one empty piece. *)
Fixpoint split_on (sep : N) (s : jsstring) : list jsstring :=
  match s with
  | [] => [[]]
  | c :: s' =>
      let r := split_on sep s' in
      if N.eqb c sep then [] :: r
      else match r with
           | t :: ts => (c :: t) :: ts
           | [] => [[c]]
           end
  end.

(** [s.split(/\s+/)]: the pieces between maximal runs of white space.  A
    string that begins (ends) with white space has an empty first (last)
    piece; the empty string splits into one empty piece. *)
Fixpoint split_ws (s : jsstring) : list jsstring :=
  match s with
  | [] => [[]]
  | c :: s' =>
      let r := split_ws s' in
      if is_ws c then
        match s' with
        | c' :: _ => if is_ws c' then r else [] :: r
        | [] => [] :: r
        end
      else match r with
           | t :: ts => (c :: t) :: ts
           | [] => [[c]]
           end
  end.

(** [parts.join(sep)] *)
Fixpoint join (sep : jsstring) (parts : list jsstring) : jsstring :=
  match parts with
  | [] => []
  | [p] => p
  | p :: rest => p ++ sep ++ join sep rest
  end.

(* ================================================================== *)
(** * The allowed-signers registry ([verify.ts], [parseAllowedSigners]) *)
(* ================================================================== *)

Record AllowedSigner := mkSigner {
  email : jsstring;
  keyType : jsstring;
  publicKey : jsstring
}.

(** A JavaScript [Map]: iteration follows insertion order, and [set] on a key
    that is already present replaces the value and keeps the key's place. *)
Definition JsMap (V : Type) := list (jsstring * V).

Fixpoint Map_set {V} (k : jsstring) (v : V) (m : JsMap V) : JsMap V :=
  match m with
  | [] => [(k, v)]
  | (k', v') :: m' =>
      if str_eqb k' k then (k', v) :: m' else (k', v') :: Map_set k v m'
  end.

Fixpoint Map_get {V} (k : jsstring) (m : JsMap V) : option V :=
  match m with
  | [] => None
  | (k', v') :: m' => if str_eqb k' k then Some v' else Map_get k m'
  end.

Definition Map_size {V} (m : JsMap V) : nat := List.length m.

Definition Map_keys {V} (m : JsMap V) : list jsstring := List.map fst m.

Definition space : jsstring := [32%N].
Definition hash : jsstring := [35%N].
Definition newline : N := 10%N.

(** One iteration of the loop over the lines of the file. *)
Definition parse_line (signers : JsMap AllowedSigner) (line : jsstring)
  : JsMap AllowedSigner :=
  let trimmed := trim line in
  match trimmed with
  | [] => signers
  | _ :: _ =>
      if startsWith trimmed hash then signers
      else
        let parts := split_ws trimmed in
        if 3 <=? List.length parts then
          match parts with
          | email :: keyType :: publicKey :: _ =>
              let fullKey := keyType ++ space ++ publicKey in
              Map_set email (mkSigner email keyType fullKey) signers
          | _ => signers
          end
        else signers
  end.

(** [parseAllowedSigners(filePath)]; the argument is the content of the file,
    [None] when the file does not exist. *)
Definition parseAllowedSigners (file : option jsstring) : JsMap AllowedSigner :=
  match file with
  | None => []
  | Some content => fold_left parse_line (split_on newline content) []
  end.

(* ================================================================== *)
(** * Key matching ([verify.ts], the loop over [allowedSigners]) *)
(* ================================================================== *)

(** The flags the loop sets.  [visited] is a ghost counter of the loop
    iterations that were started; the program does not compute it. *)
Record KeyMatch := mkKeyMatch {
  inAllowedSigners : bool;
  keyMatch : bool;
  visited : nat
}.

(** [parts[i]] with [undefined] out of range; the callers compare two such
    reads only after checking both lengths. *)
Definition part (parts : list jsstring) (i : nat) : jsstring := nth i parts [].

(** The condition of the second [if]: both keys have at least two pieces and
    their key-type and key-data pieces are equal. *)
Definition keyPartsMatch (spokeKey signerKey : jsstring) : bool :=
  let spokeKeyParts := split_ws spokeKey in
  let signerKeyParts := split_ws signerKey in
  (2 <=? List.length spokeKeyParts) && (2 <=? List.length signerKeyParts)
  && str_eqb (part spokeKeyParts 0) (part signerKeyParts 0)
  && str_eqb (part spokeKeyParts 1) (part signerKeyParts 1).

(** The variant that reads [projects/<name>/.collab/manifest.yaml] from the
    hub checkout: prefix test first, then the comparison of the pieces. *)
Fixpoint matchLoop_local (spokeKey : jsstring) (entries : JsMap AllowedSigner)
  (n : nat) : KeyMatch :=
  match entries with
  | [] => mkKeyMatch false false n
  | (_email, signer) :: rest =>
      if startsWith spokeKey (publicKey signer) then mkKeyMatch true true (S n)
      else if keyPartsMatch spokeKey (publicKey signer)
           then mkKeyMatch true true (S n)
           else matchLoop_local spokeKey rest (S n)
  end.

(** The variant that fetches the manifest from the spoke repository: the
    comparison of the pieces only. *)
Fixpoint matchLoop_remote (spokeKey : jsstring) (entries : JsMap AllowedSigner)
  (n : nat) : KeyMatch :=
  match entries with
  | [] => mkKeyMatch false false n
  | (_email, signer) :: rest =>
      if keyPartsMatch spokeKey (publicKey signer)
      then mkKeyMatch true true (S n)
      else matchLoop_remote spokeKey rest (S n)
  end.

(* ================================================================== *)
(** * The registry and the matching rule in the specification's words *)
(* ================================================================== *)

(** The white-space separated tokens of a string: its maximal runs of
    characters that are not white space. *)
Fixpoint words (s : jsstring) : list jsstring :=
  match s with
  | [] => []
  | c :: s' =>
      if is_ws c then words s'
      else match s' with
           | [] => [[c]]
           | c' :: _ =>
               if is_ws c' then [c] :: words s'
               else match words s' with
                    | t :: ts => (c :: t) :: ts
                    | [] => [[c]]
                    end
           end
  end.

(** A comment line: its first character that is not white space is [#]. *)
Definition is_comment (line : jsstring) : bool := startsWith (trimStart line) hash.

(** The entry a line of the trust-anchor file stands for, as the program
    builds it: first token, second token, and the second and third tokens
    joined by one space. *)
Definition line_entry (line : jsstring) : option AllowedSigner :=
  if is_comment line then None
  else match words line with
       | e :: kt :: kd :: _ => Some (mkSigner e kt (kt ++ space ++ kd))
       | _ => None
       end.

(** The comparison key as the specification words it: the key type followed
    by all remaining tokens, rejoined. *)
Definition rejoined_key (line : jsstring) : jsstring :=
  match words line with
  | _ :: kt :: rest => kt ++ space ++ join space rest
  | _ => []
  end.

Fixpoint filter_map {A B} (f : A -> option B) (l : list A) : list B :=
  match l with
  | [] => []
  | x :: l' => match f x with
               | Some y => y :: filter_map f l'
               | None => filter_map f l'
               end
  end.

(** The entries of the well-formed lines of a text, in file order. *)
Definition line_entries (text : jsstring) : list AllowedSigner :=
  filter_map line_entry (split_on newline text).

Definition has_email (e : jsstring) (s : AllowedSigner) : bool :=
  str_eqb (email s) e.

(** The last entry of a list that is filed under a given email. *)
Definition last_for (e : jsstring) (l : list AllowedSigner) : option AllowedSigner :=
  find (has_email e) (rev l).

Definition mem_str (k : jsstring) (l : list jsstring) : bool :=
  existsb (str_eqb k) l.

(** The distinct strings of a list, in order of first occurrence. *)
Fixpoint distinct_acc (seen l : list jsstring) : list jsstring :=
  match l with
  | [] => []
  | k :: l' => if mem_str k seen then distinct_acc seen l'
               else k :: distinct_acc (seen ++ [k]) l'
  end.

Definition distinct (l : list jsstring) : list jsstring := distinct_acc [] l.

(** Tier (a): the spoke key begins with the registry key. *)
Definition prefix_match (spokeKey signerKey : jsstring) : Prop :=
  exists rest, spokeKey = signerKey ++ rest.

(** Tier (b): both keys split into at least two pieces on white space, and
    the key-type and key-data pieces are pairwise equal. *)
Definition pieces_match (spokeKey signerKey : jsstring) : Prop :=
  exists t d r r', split_ws spokeKey = t :: d :: r
                /\ split_ws signerKey = t :: d :: r'.

(** Whether a string begins, or ends, with a white-space character. *)
Definition starts_ws (s : jsstring) : bool :=
  match s with
  | c :: _ => is_ws c
  | [] => false
  end.

Fixpoint ends_ws (s : jsstring) : bool :=
  match s with
  | [] => false
  | c :: s' => match s' with
               | [] => is_ws c
               | _ :: _ => ends_ws s'
               end
  end.

(** Filing one entry under its email ([signers.set(email, entry)]). *)
Definition file_entry (m : JsMap AllowedSigner) (s : AllowedSigner)
  : JsMap AllowedSigner := Map_set (email s) s m.

(** The matching rule of each variant. *)
Definition entry_matches_local (spokeKey : jsstring) (s : AllowedSigner) : Prop :=
  prefix_match spokeKey (publicKey s) \/ pieces_match spokeKey (publicKey s).

Definition entry_matches_remote (spokeKey : jsstring) (s : AllowedSigner) : Prop :=
  pieces_match spokeKey (publicKey s).

(** First-match semantics of a scan of the registry under a matching rule
    [P]: the flags are set exactly when some entry matches; in that case the
    scan stopped at the first matching entry in insertion order, and
    otherwise it went through the whole registry. *)
Definition first_match (P : AllowedSigner -> Prop) (reg : JsMap AllowedSigner)
  (r : KeyMatch) : Prop :=
  (inAllowedSigners r = true <-> exists kv, In kv reg /\ P (snd kv))
  /\ keyMatch r = inAllowedSigners r
  /\ (inAllowedSigners r = true ->
        exists before kv after,
          reg = before ++ kv :: after /\ P (snd kv)
          /\ (forall x, In x before -> ~ P (snd x))
          /\ visited r = S (List.length before))
  /\ (inAllowedSigners r = false ->
        (forall x, In x reg -> ~ P (snd x)) /\ visited r = List.length reg).

(** A scan with one boolean test per entry, the common shape of the two
    loops. *)
Fixpoint scan (t : AllowedSigner -> bool) (entries : JsMap AllowedSigner)
  (n : nat) : KeyMatch :=
  match entries with
  | [] => mkKeyMatch false false n
  | (_, signer) :: rest =>
      if t signer then mkKeyMatch true true (S n) else scan t rest (S n)
  end.

(** A registry of one signer, and three spoke keys. *)
Definition alice_registry : JsMap AllowedSigner :=
  parseAllowedSigners (Some (js "alice@example.com ssh-ed25519 AAAA123")).

Definition alice_key : jsstring := js "ssh-ed25519 AAAA123".
Definition other_key : jsstring := js "ssh-ed25519 ZZZZ999".
Definition longer_key : jsstring := js "ssh-ed25519 AAAA123X".

(** A trust-anchor text with a comment, a blank line, a short line and three
    well-formed lines, two of them under the same email. *)
Definition sample_signers : jsstring :=
  js "# hub signers

a@x ssh-ed25519 AAAA
b@x ssh-ed25519 BBBB
broken line
a@x ssh-ed25519 CCCC".

(* ================================================================== *)
(** * Decoded documents *)
(* ================================================================== *)

(** A JavaScript number, as far as the schemas can tell numbers apart: an
    integer, a number that is not an integer (a fraction or an infinity,
    with its sign), or NaN. *)
Inductive jsnumber :=
| NumInt (z : Z)
| NumFrac (negative : bool)
| NumNaN.

(** What the YAML decoder returns.  Besides the JSON kinds, an unquoted
    timestamp is decoded into a [Date] object.  An object is an association
    list; a property read takes the first binding (decoded mappings have
    pairwise distinct keys). *)
Inductive value :=
| VUndefined
| VNull
| VBool (b : bool)
| VNum (n : jsnumber)
| VStr (s : jsstring)
| VDate
| VArr (items : list value)
| VObj (props : list (jsstring * value)).

(** [data[key]] *)
Definition get (key : jsstring) (props : list (jsstring * value)) : value :=
  match Map_get key props with
  | Some v => v
  | None => VUndefined
  end.

(** [key in data] *)
Definition has_key (key : jsstring) (props : list (jsstring * value)) : bool :=
  mem_str key (List.map fst props).

(* ================================================================== *)
(** * Regular expressions *)
(* ================================================================== *)

(** The regular expressions of the schemas are anchored at both ends and use
    character classes, concatenation and [+] only; whether such an expression
    matches is decided by derivatives. *)
Inductive regexp :=
| Nothing
| Eps
| Class (f : N -> bool)
| Seq (a b : regexp)
| Alt (a b : regexp)
| Star (a : regexp).

Fixpoint nullable (r : regexp) : bool :=
  match r with
  | Nothing => false
  | Eps => true
  | Class _ => false
  | Seq a b => nullable a && nullable b
  | Alt a b => nullable a || nullable b
  | Star _ => true
  end.

Fixpoint deriv (c : N) (r : regexp) : regexp :=
  match r with
  | Nothing => Nothing
  | Eps => Nothing
  | Class f => if f c then Eps else Nothing
  | Seq a b =>
      if nullable a then Alt (Seq (deriv c a) b) (deriv c b)
      else Seq (deriv c a) b
  | Alt a b => Alt (deriv c a) (deriv c b)
  | Star a => Seq (deriv c a) (Star a)
  end.

(** [/^r$/.test(s)] *)
Fixpoint test (r : regexp) (s : jsstring) : bool :=
  match s with
  | [] => nullable r
  | c :: s' => test (deriv c r) s'
  end.

Definition Plus (a : regexp) : regexp := Seq a (Star a).

Fixpoint Lit (s : jsstring) : regexp :=
  match s with
  | [] => Eps
  | c :: s' => Seq (Class (N.eqb c)) (Lit s')
  end.

Definition in_range (lo hi c : N) : bool := ((lo <=? c) && (c <=? hi))%N.

(** [[a-zA-Z0-9]] *)
Definition alnum (c : N) : bool :=
  in_range 97 122 c || in_range 65 90 c || in_range 48 57 c.

(** [\w] *)
Definition word (c : N) : bool := alnum c || N.eqb c 95.

Definition one_of (s : string) (c : N) : bool := existsb (N.eqb c) (js s).

(** [/^[\w-]+\/[\w.-]+$/] *)
Definition re_org_repo : regexp :=
  Seq (Plus (Class (fun c => word c || one_of "-" c)))
      (Seq (Lit (js "/")) (Plus (Class (fun c => word c || one_of ".-" c)))).

(** [/^[a-zA-Z0-9-]+$/] *)
Definition re_handle : regexp := Plus (Class (fun c => alnum c || one_of "-" c)).

(** [/^SHA256:[A-Za-z0-9+/=]+$/] *)
Definition re_fingerprint : regexp :=
  Seq (Lit (js "SHA256:")) (Plus (Class (fun c => alnum c || one_of "+/=" c))).

(* ================================================================== *)
(** * Schemas: the fragment of zod the program uses *)
(* ================================================================== *)

(** Modelled from the spec: the zod library is a dependency of the
    repository and not part of its sources.  The combinators the schemas
    are written with are modelled after section 4.1 of the specification
    (every field is checked and every violation is collected, each with the
    path of the field and a message; absent optional fields take their
    defaults; unknown fields are permitted and dropped) and after the
    documented behaviour of the library: a value of the wrong kind of type
    aborts the validation of that field, a failed check or refinement on a
    value of the right kind marks the result dirty, and a parse succeeds
    when its status is valid. *)

Inductive ZodParsedType :=
| t_undefined | t_null | t_boolean | t_number | t_nan | t_string | t_date
| t_array | t_object | t_integer | t_float.

Definition getParsedType (data : value) : ZodParsedType :=
  match data with
  | VUndefined => t_undefined
  | VNull => t_null
  | VBool _ => t_boolean
  | VNum NumNaN => t_nan
  | VNum _ => t_number
  | VStr _ => t_string
  | VDate => t_date
  | VArr _ => t_array
  | VObj _ => t_object
  end.

Inductive PathSeg :=
| Key (k : jsstring)
| Index (i : nat).

(** What was expected where a value of another kind was found: a kind of
    type, or, by an enumeration, one of its values. *)
Inductive Expected :=
| a_type (t : ZodParsedType)
| one_value_of (values : list jsstring).

(** The validation of [invalid_string], and the [type] of [too_small]. *)
Inductive StringValidation :=
| v_regex
| v_startsWith (prefix : jsstring).

Inductive SizedType := sized_string | sized_number.

(** The code of an issue together with the fields the library attaches to
    an issue of that code; the default error map composes its text from
    them. *)
Inductive ZodIssueCode :=
| invalid_type (expected : Expected) (received : ZodParsedType)
| invalid_literal (expected : jsstring) (received : value)
| invalid_enum_value (options : list jsstring) (received : jsstring)
| too_small (type : SizedType) (minimum : Z) (inclusive : bool)
| invalid_string (validation : StringValidation)
| custom.

(** [message] is [None] when the text comes from the library's default
    error map. *)
Record ZodIssue := mkIssue {
  code : ZodIssueCode;
  path : list PathSeg;
  message : option jsstring
}.

Inductive StringCheck :=
| Min (n : nat) (msg : option jsstring)
| Regex (r : regexp) (msg : option jsstring)
| StartsWith (prefix : jsstring) (msg : option jsstring).

Inductive NumberCheck :=
| Int
| Nonnegative.

Inductive ZodType :=
| ZodString (checks : list StringCheck)
| ZodLiteral (lit : jsstring)
| ZodEnum (values : list jsstring) (errorMap : option jsstring)
| ZodBoolean
| ZodNumber (checks : list NumberCheck)
| ZodObject (shape : list (jsstring * ZodType))
| ZodArray (element : ZodType)
| ZodOptional (inner : ZodType)
| ZodDefault (inner : ZodType) (defaultValue : value)
| ZodEffects (inner : ZodType) (refinement : value -> bool) (msg : option jsstring).

Inductive ParseStatus := valid | dirty | aborted.

Record ParseReturn := mkReturn {
  status : ParseStatus;
  output : value;
  issues : list ZodIssue
}.

Definition OK (v : value) : ParseReturn := mkReturn valid v [].
Definition INVALID (iss : list ZodIssue) : ParseReturn := mkReturn aborted VUndefined iss.

Definition string_check_ok (c : StringCheck) (input : jsstring) : bool :=
  match c with
  | Min n _ => n <=? List.length input
  | Regex r _ => test r input
  | StartsWith prefix _ => startsWith input prefix
  end.

Definition string_check_issue (c : StringCheck) (p : list PathSeg) : ZodIssue :=
  match c with
  | Min n msg => mkIssue (too_small sized_string (Z.of_nat n) true) p msg
  | Regex _ msg => mkIssue (invalid_string v_regex) p msg
  | StartsWith prefix msg => mkIssue (invalid_string (v_startsWith prefix)) p msg
  end.

Definition number_check_ok (c : NumberCheck) (n : jsnumber) : bool :=
  match c, n with
  | Int, NumInt _ => true
  | Int, _ => false
  | Nonnegative, NumInt z => (0 <=? z)%Z
  | Nonnegative, NumFrac negative => negb negative
  | Nonnegative, NumNaN => false
  end.

Definition number_check_issue (c : NumberCheck) (p : list PathSeg) : ZodIssue :=
  match c with
  | Int => mkIssue (invalid_type (a_type t_integer) t_float) p None
  | Nonnegative => mkIssue (too_small sized_number 0 true) p None
  end.

(** The issues of the checks that fail, in the order of the checks. *)
Definition failed_checks {C I} (ok : C -> I -> bool)
  (issue : C -> list PathSeg -> ZodIssue) (checks : list C) (input : I)
  (p : list PathSeg) : list ZodIssue :=
  flat_map (fun c => if ok c input then [] else [issue c p]) checks.

Definition checked (data : value) (iss : list ZodIssue) : ParseReturn :=
  mkReturn (match iss with [] => valid | _ :: _ => dirty end) data iss.

Definition is_aborted (r : ParseReturn) : bool :=
  match status r with aborted => true | _ => false end.

Definition is_dirty (r : ParseReturn) : bool :=
  match status r with dirty => true | _ => false end.

Definition merge_status (rs : list ParseReturn) : ParseStatus :=
  if existsb is_aborted rs then aborted
  else if existsb is_dirty rs then dirty
  else valid.

(** A property is set on the result when its value is defined or when the
    key was present in the input. *)
Definition keep (props : list (jsstring * value)) (pair : jsstring * ParseReturn)
  : option (jsstring * value) :=
  let (k, r) := pair in
  match output r with
  | VUndefined => if has_key k props then Some (k, VUndefined) else None
  | v => Some (k, v)
  end.

Definition mergeObject (props : list (jsstring * value))
  (pairs : list (jsstring * ParseReturn)) : ParseReturn :=
  let st := merge_status (List.map snd pairs) in
  mkReturn st
    (match st with
     | aborted => VUndefined
     | _ => VObj (filter_map (keep props) pairs)
     end)
    (flat_map (fun pair => issues (snd pair)) pairs).

Definition mergeArray (results : list ParseReturn) : ParseReturn :=
  let st := merge_status results in
  mkReturn st
    (match st with
     | aborted => VUndefined
     | _ => VArr (List.map output results)
     end)
    (flat_map issues results).

Fixpoint mapi {A B} (f : nat -> A -> B) (i : nat) (l : list A) : list B :=
  match l with
  | [] => []
  | x :: l' => f i x :: mapi f (S i) l'
  end.

Fixpoint _parse (schema : ZodType) (p : list PathSeg) (data : value)
  {struct schema} : ParseReturn :=
  match schema with
  | ZodString checks =>
      match data with
      | VStr input =>
          checked data (failed_checks string_check_ok string_check_issue checks input p)
      | _ =>
          INVALID [mkIssue (invalid_type (a_type t_string) (getParsedType data)) p
                     None]
      end
  | ZodLiteral lit =>
      match data with
      | VStr input =>
          if str_eqb input lit then OK data
          else INVALID [mkIssue (invalid_literal lit data) p None]
      | _ => INVALID [mkIssue (invalid_literal lit data) p None]
      end
  | ZodEnum values errorMap =>
      match data with
      | VStr input =>
          if mem_str input values then OK data
          else INVALID [mkIssue (invalid_enum_value values input) p errorMap]
      | _ =>
          INVALID [mkIssue (invalid_type (one_value_of values) (getParsedType data))
                     p errorMap]
      end
  | ZodBoolean =>
      match data with
      | VBool _ => OK data
      | _ =>
          INVALID [mkIssue (invalid_type (a_type t_boolean) (getParsedType data)) p
                     None]
      end
  | ZodNumber checks =>
      match data with
      | VNum NumNaN => INVALID [mkIssue (invalid_type (a_type t_number) t_nan) p None]
      | VNum n =>
          checked data (failed_checks number_check_ok number_check_issue checks n p)
      | _ =>
          INVALID [mkIssue (invalid_type (a_type t_number) (getParsedType data)) p
                     None]
      end
  | ZodObject shape =>
      match data with
      | VObj props =>
          mergeObject props
            (List.map (fun field =>
                         match field with
                         | (k, s) => (k, _parse s (p ++ [Key k]) (get k props))
                         end) shape)
      | _ =>
          INVALID [mkIssue (invalid_type (a_type t_object) (getParsedType data)) p
                     None]
      end
  | ZodArray element =>
      match data with
      | VArr items =>
          mergeArray (mapi (fun i item => _parse element (p ++ [Index i]) item) 0 items)
      | _ =>
          INVALID [mkIssue (invalid_type (a_type t_array) (getParsedType data)) p
                     None]
      end
  | ZodOptional inner =>
      match data with
      | VUndefined => OK VUndefined
      | _ => _parse inner p data
      end
  | ZodDefault inner defaultValue =>
      match data with
      | VUndefined => _parse inner p defaultValue
      | _ => _parse inner p data
      end
  | ZodEffects inner refinement msg =>
      let r := _parse inner p data in
      match status r with
      | aborted => INVALID (issues r)
      | _ =>
          if refinement (output r) then r
          else mkReturn dirty (output r) (issues r ++ [mkIssue custom p msg])
      end
  end.

(** [schema.safeParse(raw)]: the typed document, or the collected issues. *)
Definition safeParse (schema : ZodType) (raw : value) : value + list ZodIssue :=
  let r := _parse schema [] raw in
  match status r with
  | valid => inl (output r)
  | _ => inr (issues r)
  end.

(** The keys of every object shape are pairwise distinct (a shape is a
    JavaScript object), and no default value is [undefined]. *)
Fixpoint distinct_keys (ks : list jsstring) : bool :=
  match ks with
  | [] => true
  | k :: ks' => negb (mem_str k ks') && distinct_keys ks'
  end.

Fixpoint wf_schema (schema : ZodType) : bool :=
  match schema with
  | ZodObject shape =>
      distinct_keys (List.map fst shape)
      && forallb (fun field => match field with (_, s) => wf_schema s end) shape
  | ZodArray element => wf_schema element
  | ZodOptional inner => wf_schema inner
  | ZodDefault inner defaultValue =>
      match defaultValue with VUndefined => false | _ => wf_schema inner end
  | ZodEffects inner _ _ => wf_schema inner
  | _ => true
  end.

(** ** What a schema demands, field by field *)

(** [violates schema data p]: the part of [data] at the relative path [p]
    breaks the constraint that [schema] puts on that field.  The relation
    follows one path through the schema and the data and looks at no other
    field.  A field whose value is of the wrong kind of type is violated as a
    whole; its checks, refinements and sub-fields are then not examined. *)
Inductive violates : ZodType -> value -> list PathSeg -> Prop :=
| viol_string_type checks data :
    (forall input, data <> VStr input) -> violates (ZodString checks) data []
| viol_string_check checks input c :
    In c checks -> string_check_ok c input = false ->
    violates (ZodString checks) (VStr input) []
| viol_literal lit data :
    data <> VStr lit -> violates (ZodLiteral lit) data []
| viol_enum values errorMap data :
    (forall input, data = VStr input -> mem_str input values = false) ->
    violates (ZodEnum values errorMap) data []
| viol_boolean data :
    (forall b, data <> VBool b) -> violates ZodBoolean data []
| viol_number_type checks data :
    (forall n, data = VNum n -> n = NumNaN) -> violates (ZodNumber checks) data []
| viol_number_check checks n c :
    n <> NumNaN -> In c checks -> number_check_ok c n = false ->
    violates (ZodNumber checks) (VNum n) []
| viol_object_type shape data :
    (forall props, data <> VObj props) -> violates (ZodObject shape) data []
| viol_object_field shape props k s p :
    In (k, s) shape -> violates s (get k props) p ->
    violates (ZodObject shape) (VObj props) (Key k :: p)
| viol_array_type element data :
    (forall items, data <> VArr items) -> violates (ZodArray element) data []
| viol_array_item element items i item p :
    nth_error items i = Some item -> violates element item p ->
    violates (ZodArray element) (VArr items) (Index i :: p)
| viol_optional inner data p :
    data <> VUndefined -> violates inner data p ->
    violates (ZodOptional inner) data p
| viol_default_absent inner defaultValue p :
    violates inner defaultValue p ->
    violates (ZodDefault inner defaultValue) VUndefined p
| viol_default_present inner defaultValue data p :
    data <> VUndefined -> violates inner data p ->
    violates (ZodDefault inner defaultValue) data p
| viol_effects_inner inner refinement msg data p :
    violates inner data p -> violates (ZodEffects inner refinement msg) data p
| viol_effects inner refinement msg data :
    status (_parse inner [] data) <> aborted ->
    refinement (output (_parse inner [] data)) = false ->
    violates (ZodEffects inner refinement msg) data [].

(** What a schema asks of the value of one field: that it be of a kind of
    type, pass a check, equal the literal, be one of the values of the
    enumeration, or pass the refinement.  The messages are those the schema
    gives for the constraint. *)
Inductive Constraint :=
| of_kind (expected : Expected) (errorMap : option jsstring)
| string_check (c : StringCheck)
| equals_literal (lit : jsstring)
| one_of_enum (values : list jsstring) (errorMap : option jsstring)
| number_check (c : NumberCheck)
| passes_refinement (msg : option jsstring).

(** The message that the schema gives for a constraint, if it gives one. *)
Definition constraint_message (c : Constraint) : option jsstring :=
  match c with
  | of_kind _ errorMap => errorMap
  | string_check (Min _ msg) | string_check (Regex _ msg)
  | string_check (StartsWith _ msg) => msg
  | equals_literal _ => None
  | one_of_enum _ errorMap => errorMap
  | number_check _ => None
  | passes_refinement msg => msg
  end.

(** The violation that reports that the value [data], found at the path
    [p], breaks the constraint [c]. *)
Definition issue_of (c : Constraint) (data : value) (p : list PathSeg) : ZodIssue :=
  match c with
  | of_kind expected errorMap =>
      mkIssue (invalid_type expected (getParsedType data)) p errorMap
  | string_check c => string_check_issue c p
  | equals_literal lit => mkIssue (invalid_literal lit data) p None
  | one_of_enum values errorMap =>
      mkIssue (invalid_enum_value values
                 match data with VStr input => input | _ => [] end) p errorMap
  | number_check c => number_check_issue c p
  | passes_refinement msg => mkIssue custom p msg
  end.

(** [breaks schema data p c v]: the part [v] of [data] at the relative path
    [p] breaks the constraint [c] that [schema] puts on that field.  As in
    [violates], the checks, the refinement and the sub-fields of a value of
    the wrong kind of type are not examined. *)
Inductive breaks : ZodType -> value -> list PathSeg -> Constraint -> value -> Prop :=
| br_string_kind checks data :
    (forall input, data <> VStr input) ->
    breaks (ZodString checks) data [] (of_kind (a_type t_string) None) data
| br_string_check checks input c :
    In c checks -> string_check_ok c input = false ->
    breaks (ZodString checks) (VStr input) [] (string_check c) (VStr input)
| br_literal lit data :
    data <> VStr lit -> breaks (ZodLiteral lit) data [] (equals_literal lit) data
| br_enum_kind values errorMap data :
    (forall input, data <> VStr input) ->
    breaks (ZodEnum values errorMap) data []
      (of_kind (one_value_of values) errorMap) data
| br_enum values errorMap input :
    mem_str input values = false ->
    breaks (ZodEnum values errorMap) (VStr input) []
      (one_of_enum values errorMap) (VStr input)
| br_boolean data :
    (forall b, data <> VBool b) ->
    breaks ZodBoolean data [] (of_kind (a_type t_boolean) None) data
| br_number_kind checks data :
    (forall n, data = VNum n -> n = NumNaN) ->
    breaks (ZodNumber checks) data [] (of_kind (a_type t_number) None) data
| br_number_check checks n c :
    n <> NumNaN -> In c checks -> number_check_ok c n = false ->
    breaks (ZodNumber checks) (VNum n) [] (number_check c) (VNum n)
| br_object_kind shape data :
    (forall props, data <> VObj props) ->
    breaks (ZodObject shape) data [] (of_kind (a_type t_object) None) data
| br_object_field shape props k s p c v :
    In (k, s) shape -> breaks s (get k props) p c v ->
    breaks (ZodObject shape) (VObj props) (Key k :: p) c v
| br_array_kind element data :
    (forall items, data <> VArr items) ->
    breaks (ZodArray element) data [] (of_kind (a_type t_array) None) data
| br_array_item element items i item p c v :
    nth_error items i = Some item -> breaks element item p c v ->
    breaks (ZodArray element) (VArr items) (Index i :: p) c v
| br_optional inner data p c v :
    data <> VUndefined -> breaks inner data p c v ->
    breaks (ZodOptional inner) data p c v
| br_default_absent inner defaultValue p c v :
    breaks inner defaultValue p c v ->
    breaks (ZodDefault inner defaultValue) VUndefined p c v
| br_default_present inner defaultValue data p c v :
    data <> VUndefined -> breaks inner data p c v ->
    breaks (ZodDefault inner defaultValue) data p c v
| br_effects_inner inner refinement msg data p c v :
    breaks inner data p c v -> breaks (ZodEffects inner refinement msg) data p c v
| br_effects inner refinement msg data :
    status (_parse inner [] data) <> aborted ->
    refinement (output (_parse inner [] data)) = false ->
    breaks (ZodEffects inner refinement msg) data [] (passes_refinement msg) data.

(** [typed schema doc]: [doc] is a document of the type the schema infers,
    and it satisfies every constraint of the schema. *)
Inductive typed : ZodType -> value -> Prop :=
| typed_string checks input :
    (forall c, In c checks -> string_check_ok c input = true) ->
    typed (ZodString checks) (VStr input)
| typed_literal lit : typed (ZodLiteral lit) (VStr lit)
| typed_enum values errorMap input :
    mem_str input values = true -> typed (ZodEnum values errorMap) (VStr input)
| typed_boolean b : typed ZodBoolean (VBool b)
| typed_number checks n :
    n <> NumNaN -> (forall c, In c checks -> number_check_ok c n = true) ->
    typed (ZodNumber checks) (VNum n)
| typed_object shape props :
    (forall k s, In (k, s) shape -> typed s (get k props)) ->
    typed (ZodObject shape) (VObj props)
| typed_array element items :
    (forall item, In item items -> typed element item) ->
    typed (ZodArray element) (VArr items)
| typed_optional_absent inner : typed (ZodOptional inner) VUndefined
| typed_optional_present inner doc :
    typed inner doc -> typed (ZodOptional inner) doc
| typed_default inner defaultValue doc :
    typed inner doc -> doc <> VUndefined ->
    typed (ZodDefault inner defaultValue) doc
| typed_effects inner refinement msg doc :
    typed inner doc -> refinement doc = true ->
    typed (ZodEffects inner refinement msg) doc.

(** An issue, and a result, reported below a path. *)
Definition at_path (p : list PathSeg) (i : ZodIssue) : ZodIssue :=
  mkIssue (code i) (p ++ path i) (message i).

Definition relocate (p : list PathSeg) (r : ParseReturn) : ParseReturn :=
  mkReturn (status r) (output r) (List.map (at_path p) (issues r)).

Definition relocate_field (p : list PathSeg) (pair : jsstring * ParseReturn)
  : jsstring * ParseReturn := (fst pair, relocate p (snd pair)).

(* ================================================================== *)
(** * The manifest schema ([schemas/manifest.ts]) *)
(* ================================================================== *)

Definition ACCEPTED_LICENSES : list jsstring :=
  [js "MIT"; js "Apache-2.0"; js "BSD-2-Clause"; js "BSD-3-Clause";
   js "CC-BY-4.0"; js "AGPL-3.0"].

Definition ed25519_prefix : jsstring := js "ssh-ed25519 ".

Definition ManifestSchema : ZodType :=
  ZodObject
    [(js "schemaVersion", ZodLiteral (js "1.0"));
     (js "name", ZodString [Min 1 (Some (js "Project name is required"))]);
     (js "hub",
      ZodString [Regex re_org_repo (Some (js "Hub must be in org/repo format"))]);
     (js "project",
      ZodString [Min 1 (Some (js "Project identifier is required"))]);
     (js "maintainer",
      ZodString
        [Regex re_handle (Some (js "Maintainer must be a valid GitHub handle"))]);
     (js "license",
      ZodEnum ACCEPTED_LICENSES
        (Some (js "License must be one of: " ++ join (js ", ") ACCEPTED_LICENSES)));
     (js "identity",
      ZodObject
        [(js "handle",
          ZodString [Min 1 (Some (js "Identity handle is required"))]);
         (js "publicKey",
          ZodString
            [StartsWith ed25519_prefix
               (Some (js "Public key must be an Ed25519 SSH key"))]);
         (js "fingerprint",
          ZodOptional
            (ZodString
               [Regex re_fingerprint
                  (Some (js "Fingerprint must be SHA256 format"))]))]);
     (js "security",
      ZodDefault
        (ZodOptional
           (ZodObject
              [(js "reflexes",
                ZodDefault
                  (ZodOptional
                     (ZodObject
                        [(js "signing",
                          ZodDefault (ZodOptional ZodBoolean) (VBool false));
                         (js "secretScanning",
                          ZodDefault (ZodOptional ZodBoolean) (VBool false));
                         (js "sandboxEnforcer",
                          ZodDefault (ZodOptional ZodBoolean) (VBool false));
                         (js "contentFilter",
                          ZodDefault (ZodOptional ZodBoolean) (VBool false))]))
                  (VObj []))]))
        (VObj []));
     (js "status",
      ZodOptional
        (ZodObject
           [(js "test", ZodOptional (ZodString [Min 1 None]));
            (js "healthCheck", ZodOptional (ZodString [Min 1 None]))]))].

(** ** The typed documents *)

Module Manifest.
Record identity_t := mkIdentity {
  handle : jsstring;
  publicKey : jsstring;
  fingerprint : option jsstring
}.
Record reflexes_t := mkReflexes {
  signing : bool;
  secretScanning : bool;
  sandboxEnforcer : bool;
  contentFilter : bool
}.
Record security_t := mkSecurity { reflexes : reflexes_t }.
Record status_t := mkStatus {
  test : option jsstring;
  healthCheck : option jsstring
}.
Record t := mk {
  name : jsstring;
  hub : jsstring;
  project : jsstring;
  maintainer : jsstring;
  license : jsstring;
  identity : identity_t;
  security : security_t;
  status : option status_t
}.
End Manifest.

Module SpokeStatus.
Record tests_t := mkTests { passing : Z; failing : Z }.
Record git_t := mkGit {
  branch : jsstring;
  lastCommit : jsstring;
  dirty : bool;
  behindRemote : Z
}.
Record t := mk {
  generatedAt : jsstring;
  generatedBy : jsstring;
  phase : jsstring;
  tests : tests_t;
  git : git_t
}.
End SpokeStatus.

Module Operator.
Record signing_t := mkSigning {
  publicKey : jsstring;
  fingerprint : option jsstring
}.
(** The entries of [identities] and [hives] are kept as validated values;
    the program only counts them. *)
Record t := mk {
  handle : jsstring;
  name : option jsstring;
  signing : signing_t;
  identities : list value;
  skills : list jsstring;
  availability : jsstring;
  hives : list value
}.
End Operator.

(** Reading a validated value at the type the schema infers. *)
Definition bind {A B} (x : option A) (f : A -> option B) : option B :=
  match x with
  | Some a => f a
  | None => None
  end.

Notation "'let?' x ':=' e 'in' k" := (bind e (fun x => k))
  (at level 10, x name, e at level 100, k at level 200).

Definition as_string (v : value) : option jsstring :=
  match v with VStr s => Some s | _ => None end.

Definition as_boolean (v : value) : option bool :=
  match v with VBool b => Some b | _ => None end.

Definition as_integer (v : value) : option Z :=
  match v with VNum (NumInt z) => Some z | _ => None end.

Definition as_object (v : value) : option (list (jsstring * value)) :=
  match v with VObj props => Some props | _ => None end.

Definition as_optional {A} (f : value -> option A) (v : value) : option (option A) :=
  match v with
  | VUndefined => Some None
  | _ => bind (f v) (fun a => Some (Some a))
  end.

Fixpoint as_array {A} (f : value -> option A) (items : list value) : option (list A) :=
  match items with
  | [] => Some []
  | x :: rest =>
      let? a := f x in
      let? l := as_array f rest in
      Some (a :: l)
  end.

Definition as_list {A} (f : value -> option A) (v : value) : option (list A) :=
  match v with VArr items => as_array f items | _ => None end.

Definition as_identity (v : value) : option Manifest.identity_t :=
  let? o := as_object v in
  let? handle := as_string (get (js "handle") o) in
  let? publicKey := as_string (get (js "publicKey") o) in
  let? fingerprint := as_optional as_string (get (js "fingerprint") o) in
  Some (Manifest.mkIdentity handle publicKey fingerprint).

Definition as_reflexes (v : value) : option Manifest.reflexes_t :=
  let? o := as_object v in
  let? signing := as_boolean (get (js "signing") o) in
  let? secretScanning := as_boolean (get (js "secretScanning") o) in
  let? sandboxEnforcer := as_boolean (get (js "sandboxEnforcer") o) in
  let? contentFilter := as_boolean (get (js "contentFilter") o) in
  Some (Manifest.mkReflexes signing secretScanning sandboxEnforcer contentFilter).

Definition as_security (v : value) : option Manifest.security_t :=
  let? o := as_object v in
  let? reflexes := as_reflexes (get (js "reflexes") o) in
  Some (Manifest.mkSecurity reflexes).

Definition as_manifest_status (v : value) : option Manifest.status_t :=
  let? o := as_object v in
  let? test := as_optional as_string (get (js "test") o) in
  let? healthCheck := as_optional as_string (get (js "healthCheck") o) in
  Some (Manifest.mkStatus test healthCheck).

Definition as_Manifest (v : value) : option Manifest.t :=
  let? o := as_object v in
  let? name := as_string (get (js "name") o) in
  let? hub := as_string (get (js "hub") o) in
  let? project := as_string (get (js "project") o) in
  let? maintainer := as_string (get (js "maintainer") o) in
  let? license := as_string (get (js "license") o) in
  let? identity := as_identity (get (js "identity") o) in
  let? security := as_security (get (js "security") o) in
  let? status := as_optional as_manifest_status (get (js "status") o) in
  Some (Manifest.mk name hub project maintainer license identity security status).

Definition as_tests (v : value) : option SpokeStatus.tests_t :=
  let? o := as_object v in
  let? passing := as_integer (get (js "passing") o) in
  let? failing := as_integer (get (js "failing") o) in
  Some (SpokeStatus.mkTests passing failing).

Definition as_git (v : value) : option SpokeStatus.git_t :=
  let? o := as_object v in
  let? branch := as_string (get (js "branch") o) in
  let? lastCommit := as_string (get (js "lastCommit") o) in
  let? dirty := as_boolean (get (js "dirty") o) in
  let? behindRemote := as_integer (get (js "behindRemote") o) in
  Some (SpokeStatus.mkGit branch lastCommit dirty behindRemote).

Definition as_SpokeStatus (v : value) : option SpokeStatus.t :=
  let? o := as_object v in
  let? generatedAt := as_string (get (js "generatedAt") o) in
  let? generatedBy := as_string (get (js "generatedBy") o) in
  let? phase := as_string (get (js "phase") o) in
  let? tests := as_tests (get (js "tests") o) in
  let? git := as_git (get (js "git") o) in
  Some (SpokeStatus.mk generatedAt generatedBy phase tests git).

Definition as_signing (v : value) : option Operator.signing_t :=
  let? o := as_object v in
  let? publicKey := as_string (get (js "publicKey") o) in
  let? fingerprint := as_optional as_string (get (js "fingerprint") o) in
  Some (Operator.mkSigning publicKey fingerprint).

Definition as_Operator (v : value) : option Operator.t :=
  let? o := as_object v in
  let? handle := as_string (get (js "handle") o) in
  let? name := as_optional as_string (get (js "name") o) in
  let? signing := as_signing (get (js "signing") o) in
  let? identities := as_list Some (get (js "identities") o) in
  let? skills := as_list as_string (get (js "skills") o) in
  let? availability := as_string (get (js "availability") o) in
  let? hives := as_list Some (get (js "hives") o) in
  Some (Operator.mk handle name signing identities skills availability hives).

(** [Schema.parse(raw)]: the typed document, or the [ZodError] it throws.
    The second component of the pair is the reader of the validated value;
    it does not fail on a value the schema accepted. *)
Definition parse_as {A} (schema : ZodType) (read : value -> option A)
  (raw : value) : A + list ZodIssue :=
  match safeParse schema raw with
  | inl doc => match read doc with
               | Some a => inl a
               | None => inr []
               end
  | inr err => inr err
  end.

Definition ManifestSchema_parse : value -> Manifest.t + list ZodIssue :=
  parse_as ManifestSchema as_Manifest.

(* ================================================================== *)
(** * The environment of a run *)
(* ================================================================== *)

(** What the YAML decoder does with a text: it throws, or returns a value. *)
Inductive YamlResult :=
| YamlThrows (message : jsstring)
| YamlValue (raw : value).

(** What a [try] block can catch: a [ZodError] with its issues, or another
    error with its message. *)
Inductive Thrown :=
| ZodError (issues : list ZodIssue)
| YamlException (message : jsstring)
| TypeError (message : jsstring)
| Error (message : jsstring).

(** The message of a [TypeError] is worded by the JavaScript engine; the
    model keeps the kind of the error only. *)
Definition cannot_read_property : jsstring := js "TypeError".

Definition Try (A : Type) : Type := A + Thrown.

Definition try_bind {A B} (x : Try A) (f : A -> Try B) : Try B :=
  match x with
  | inl a => f a
  | inr e => inr e
  end.

Notation "'let!' x ':=' e 'in' k" := (try_bind e (fun x => k))
  (at level 10, x name, e at level 100, k at level 200).

(** [Schema.parse(raw)] inside a [try] block. *)
Definition parse_or_throw {A} (parse : value -> A + list ZodIssue) (raw : value)
  : Try A :=
  match parse raw with
  | inl a => inl a
  | inr err => inr (ZodError err)
  end.

Definition no_projects_dir : jsstring :=
  js "No projects/ directory found. Run this from the hub repo root.".

Definition signers_not_found (signersPath : jsstring) : jsstring :=
  js "allowed-signers file not found at " ++ signersPath
  ++ js ". Use --allowed-signers to specify path.".

Definition em_dash : jsstring := [8212%N].
Definition dquote : jsstring := [34%N].

(** JavaScript truthiness. *)
Definition truthy (v : value) : bool :=
  match v with
  | VUndefined | VNull => false
  | VBool b => b
  | VNum (NumInt z) => negb (z =? 0)%Z
  | VNum (NumFrac _) => true
  | VNum NumNaN => false
  | VStr s => match s with [] => false | _ :: _ => true end
  | VDate | VArr _ | VObj _ => true
  end.

(** [v.key] for one of the keys the program reads ([source], [repo],
    [branch]): a [TypeError] on [undefined] and [null], the property of an
    object, and [undefined] on every other value. *)
Definition prop (v : value) (key : jsstring) : Try value :=
  match v with
  | VUndefined | VNull => inr (TypeError cannot_read_property)
  | VObj props => inl (get key props)
  | _ => inl VUndefined
  end.

(** [v?.key] *)
Definition opt_prop (v : value) (key : jsstring) : Try value :=
  match v with
  | VUndefined | VNull => inl VUndefined
  | _ => prop v key
  end.

(** ** Aggregation results ([pull.ts]) *)

Module SpokeEntry.
(** [repo] exists in the variant that fetches from the spoke repositories
    only; it holds whatever [PROJECT.yaml] has under [source.repo]. *)
Record t := mk {
  project : jsstring;
  repo : option value;
  maintainer : jsstring;
  phase : jsstring;
  tests : SpokeStatus.tests_t;
  dirty : bool;
  behindRemote : Z;
  lastCommit : jsstring;
  generatedAt : jsstring;
  license : jsstring;
  reflexes : Manifest.reflexes_t;
  stale : bool
}.
End SpokeEntry.

(** The lines a run prints, by kind.  The per-spoke lines are printed only
    when the run is not in JSON mode. *)
Inductive ConsoleLine :=
| line_no_collab (project : jsstring)
| line_no_project_yaml (project : jsstring)
| line_no_source_repo (project : jsstring)
| line_no_collab_in (project : jsstring) (repo : value)
| line_spoke (entry : SpokeEntry.t) (hasStatus : bool)
| line_fail (project : jsstring) (err : Thrown).

(** What a run of the variant that reads the hub checkout finds for one
    directory under [projects/]: whether [.collab/] exists, the contents of
    [manifest.yaml] and [status.yaml] when they exist, and the instant the
    clock shows when the staleness of this spoke is computed. *)
Record LocalSpoke := mkLocalSpoke {
  l_project : jsstring;
  l_collabDir : bool;
  l_manifestFile : option jsstring;
  l_statusFile : option jsstring;
  l_clock : Z
}.

(** What a run of the variant that fetches from the spoke repositories finds
    for one directory: the content of [PROJECT.yaml] when it exists, what the
    two fetches return ([None] for [null]), and the clock. *)
Record RemoteSpoke := mkRemoteSpoke {
  r_project : jsstring;
  r_projectYamlFile : option jsstring;
  r_manifestContent : option jsstring;
  r_statusContent : option jsstring;
  r_clock : Z
}.

Record LocalPull := mkLocalPull {
  lp_spokes : list SpokeEntry.t;
  lp_withCollab : nat;
  lp_withoutCollab : nat;
  lp_console : list ConsoleLine
}.

Record RemotePull := mkRemotePull {
  rp_spokes : list SpokeEntry.t;
  rp_fetched : nat;
  rp_noRepo : nat;
  rp_noCollab : nat;
  rp_console : list ConsoleLine
}.

(** ** Verification results ([verify.ts]) *)

Module VerifyResult.
Record t := mk {
  project : jsstring;
  repo : option value;
  handle : jsstring;
  fingerprint : option jsstring;
  inAllowedSigners : bool;
  keyMatch : bool;
  issues : list jsstring
}.
End VerifyResult.

Record VerifySummary := mkVerifySummary {
  total : nat;
  verified : nat;
  unverified : nat;
  results : list VerifyResult.t
}.

Definition issue_not_registered_local : jsstring :=
  js "Public key NOT in allowed-signers " ++ em_dash
  ++ js " operator is not registered on hub".

Definition issue_not_registered_remote : jsstring :=
  js "Public key NOT in allowed-signers " ++ em_dash
  ++ js " operator not registered on hub".

Definition issue_no_fingerprint : jsstring :=
  js "No fingerprint in manifest " ++ em_dash ++ js " cannot verify key binding".

Definition issue_invalid_manifest : jsstring := js "Invalid manifest.yaml".

(** [!spokeFingerprint]: [null] and the empty string are falsy. *)
Definition no_fingerprint (spokeFingerprint : option jsstring) : bool :=
  match spokeFingerprint with
  | None => true
  | Some [] => true
  | Some (_ :: _) => false
  end.

(** [results.filter((r) => r.issues.length === 0).length] *)
Definition count_verified (rs : list VerifyResult.t) : nat :=
  List.length
    (filter (fun r => List.length (VerifyResult.issues r) =? 0) rs).

Definition summarize (rs : list VerifyResult.t) : VerifySummary :=
  let verified := count_verified rs in
  mkVerifySummary (List.length rs) verified (List.length rs - verified) rs.

(** The result pushed when the manifest does not load or validate. *)
Definition invalid_result (project : jsstring) (repo : option value)
  : VerifyResult.t :=
  VerifyResult.mk project repo (js "unknown") None false false
    [issue_invalid_manifest].

(** The part of one iteration after the manifest has been validated. *)
Definition verify_manifest (local : bool) (project : jsstring)
  (repo : option value) (allowedSigners : JsMap AllowedSigner)
  (manifest : Manifest.t) : VerifyResult.t :=
  let spokeKey := Manifest.publicKey (Manifest.identity manifest) in
  let spokeFingerprint := Manifest.fingerprint (Manifest.identity manifest) in
  let m := if local then matchLoop_local spokeKey allowedSigners 0
           else matchLoop_remote spokeKey allowedSigners 0 in
  let issues1 :=
    if negb (inAllowedSigners m)
    then [if local then issue_not_registered_local
          else issue_not_registered_remote]
    else [] in
  let issues2 :=
    if no_fingerprint spokeFingerprint then issues1 ++ [issue_no_fingerprint]
    else issues1 in
  VerifyResult.mk project repo (Manifest.handle (Manifest.identity manifest))
    spokeFingerprint (inAllowedSigners m) (keyMatch m) issues2.

(** ** Compliance results ([validate.ts]) *)

Record ValidationResult := mkValidationResult {
  errors : list jsstring;
  warnings : list jsstring
}.

Definition push_error (msg : jsstring) (r : ValidationResult) : ValidationResult :=
  mkValidationResult (errors r ++ [msg]) (warnings r).

Definition push_warning (msg : jsstring) (r : ValidationResult) : ValidationResult :=
  mkValidationResult (errors r) (warnings r ++ [msg]).

Definition handle_mismatch (manifest : Manifest.t) (operator : Operator.t)
  : jsstring :=
  js "Handle mismatch: manifest " ++ dquote
  ++ Manifest.handle (Manifest.identity manifest) ++ dquote
  ++ js " vs operator " ++ dquote ++ Operator.handle operator ++ dquote.

Definition key_mismatch : jsstring :=
  js "Public key mismatch between manifest.yaml and operator.yaml".

(** [validateCrossFile(manifest, operator, results)]; what it prints is left
    out, what it pushes onto [results] is kept. *)
Definition validateCrossFile (manifest : option Manifest.t)
  (operator : option Operator.t) (results : ValidationResult) : ValidationResult :=
  match manifest with
  | None => results
  | Some manifest =>
      match operator with
      | None => results
      | Some operator =>
          let results1 :=
            if str_eqb (Manifest.handle (Manifest.identity manifest))
                       (Operator.handle operator)
            then results
            else push_error (handle_mismatch manifest operator) results in
          if str_eqb (Manifest.publicKey (Manifest.identity manifest))
                     (Operator.publicKey (Operator.signing operator))
          then results1
          else push_error key_mismatch results1
      end
  end.

(** [issue.path.join(".")] *)
Definition path_segment (seg : PathSeg) : jsstring :=
  match seg with
  | Key k => k
  | Index i => js (NilEmpty.string_of_uint (Nat.to_uint i))
  end.

Definition dotted (p : list PathSeg) : jsstring :=
  join (js ".") (List.map path_segment p).

(** [s.includes(sub)] *)
Fixpoint includes (s sub : jsstring) : bool :=
  startsWith s sub
  || match s with
     | [] => false
     | _ :: s' => includes s' sub
     end.

(** ** The constraints of the data model, on the typed documents *)

Fixpoint all_typed (props : list (jsstring * value))
  (shape : list (jsstring * ZodType)) : Prop :=
  match shape with
  | [] => True
  | (k, s) :: rest => typed s (get k props) /\ all_typed props rest
  end.

Definition nonempty (s : jsstring) : Prop := 1 <= List.length s.

Definition nonempty_if_present (s : option jsstring) : Prop :=
  forall x, s = Some x -> nonempty x.

Definition fingerprint_ok (fp : option jsstring) : Prop :=
  forall x, fp = Some x -> test re_fingerprint x = true.

(** Section 3 of the specification, Manifest. *)
Definition Manifest_valid (m : Manifest.t) : Prop :=
  nonempty (Manifest.name m)
  /\ test re_org_repo (Manifest.hub m) = true
  /\ nonempty (Manifest.project m)
  /\ test re_handle (Manifest.maintainer m) = true
  /\ In (Manifest.license m) ACCEPTED_LICENSES
  /\ nonempty (Manifest.handle (Manifest.identity m))
  /\ prefix_match (Manifest.publicKey (Manifest.identity m)) ed25519_prefix
  /\ fingerprint_ok (Manifest.fingerprint (Manifest.identity m))
  /\ (forall st, Manifest.status m = Some st ->
        nonempty_if_present (Manifest.test st)
        /\ nonempty_if_present (Manifest.healthCheck st)).

(** Section 3 of the specification, Operator (the fields the program
    reads). *)
Definition Operator_valid (o : Operator.t) : Prop :=
  nonempty (Operator.handle o)
  /\ prefix_match (Operator.publicKey (Operator.signing o)) ed25519_prefix
  /\ fingerprint_ok (Operator.fingerprint (Operator.signing o))
  /\ In (Operator.availability o) [js "open"; js "busy"; js "offline"].

(* ================================================================== *)
(** * Notions used by the properties beyond the specification *)
(* ================================================================== *)

(** A token: a string that is not empty and holds no white space. *)
Definition token (w : jsstring) : Prop :=
  w <> [] /\ forallb (fun c => negb (is_ws c)) w = true.

(** A text with every line feed turned into carriage return, line feed. *)
Definition to_crlf (text : jsstring) : jsstring :=
  flat_map (fun c => if N.eqb c newline then [13%N; newline] else [c]) text.

(** [l'] is [l] followed by white space. *)
Definition padded (l l' : jsstring) : Prop :=
  exists w, forallb is_ws w = true /\ l' = l ++ w.

Definition has_manifest (sp : LocalSpoke) : bool :=
  match l_manifestFile sp with Some _ => true | None => false end.

(* ================================================================== *)
(** * The signing configuration and its check ([utils/git.ts],
      [validate.ts]) *)
(* ================================================================== *)

Module SigningConfig.
(** [null] is [None]. *)
Record t := mk {
  format : option jsstring;
  signingKey : option jsstring;
  gpgSign : bool;
  publicKey : option jsstring;
  fingerprint : option jsstring
}.
End SigningConfig.

(** Truthiness of a value that is a string or [null] (or [undefined]). *)
Definition truthy_string (s : option jsstring) : bool :=
  match s with
  | Some (_ :: _) => true
  | _ => false
  end.

Definition warn_format : jsstring :=
  js "gpg.format is not 'ssh' " ++ em_dash ++ js " commit signing may not work".

Definition warn_gpgSign : jsstring :=
  js "commit.gpgSign is not true " ++ em_dash
  ++ js " commits won't be signed automatically".

Definition warn_no_signing_key : jsstring := js "No signing key configured".

Definition warn_fingerprint_mismatch : jsstring :=
  js "Signing key fingerprint does not match manifest.yaml identity.fingerprint".

(** [validateSigning(manifest, results)]; [signing] is what
    [getSigningConfig()] returned.  What the function prints is left out. *)
Definition validateSigning (manifest : option Manifest.t)
  (signing : SigningConfig.t) (results : ValidationResult) : ValidationResult :=
  let results1 :=
    match SigningConfig.format signing with
    | Some f => if str_eqb f (js "ssh") then results
                else push_warning warn_format results
    | None => push_warning warn_format results
    end in
  let results2 :=
    if SigningConfig.gpgSign signing then results1
    else push_warning warn_gpgSign results1 in
  let results3 :=
    if truthy_string (SigningConfig.signingKey signing) then results2
    else push_warning warn_no_signing_key results2 in
  match SigningConfig.fingerprint signing with
  | Some (c :: fp) =>
      match manifest with
      | Some m =>
          match Manifest.fingerprint (Manifest.identity m) with
          | Some (c' :: fp') =>
              if str_eqb (c :: fp) (c' :: fp') then results3
              else push_warning warn_fingerprint_mismatch results3
          | _ => results3
          end
      | None => results3
      end
  | _ => results3
  end.

(** The decimal text of a length. *)
Definition nat_text (n : nat) : jsstring :=
  js (NilEmpty.string_of_uint (Nat.to_uint n)).

(** The decimal text of an integral number (below 10^21 in absolute value,
    where JavaScript prints all the digits). *)
Definition int_text (z : Z) : jsstring := js (NilEmpty.string_of_int (Z.to_int z)).

(** What a run of [validate] leaves behind: the collected results, the
    verdict that [result] prints, and the exit code ([None] when the run
    does not assign [process.exitCode]). *)
Record ValidateRun := mkValidateRun {
  v_results : ValidationResult;
  v_passed : bool;
  v_message : jsstring;
  v_exitCode : option nat
}.

(** The summary at the end of the [validate] command. *)
Definition validate_summary (strict : bool) (results : ValidationResult)
  : ValidateRun :=
  let hasErrors := 0 <? List.length (errors results) in
  let hasWarnings := 0 <? List.length (warnings results) in
  let strictFail := strict && hasWarnings in
  if hasErrors then
    mkValidateRun results false
      (js "Spoke validation FAILED " ++ em_dash ++ js " "
       ++ nat_text (List.length (errors results)) ++ js " error(s)")
      (Some 1)
  else if strictFail then
    mkValidateRun results false
      (js "Spoke validation FAILED (strict) " ++ em_dash ++ js " "
       ++ nat_text (List.length (warnings results)) ++ js " warning(s)")
      (Some 2)
  else
    mkValidateRun results true
      (if hasWarnings
       then js "Spoke is compliant with "
            ++ nat_text (List.length (warnings results)) ++ js " warning(s)"
       else js "Spoke is compliant and ready to project to hub")
      None.

(** The two conditions of [validateSigning] that are not plain flags. *)
Definition format_is_ssh (signing : SigningConfig.t) : bool :=
  match SigningConfig.format signing with
  | Some f => str_eqb f (js "ssh")
  | None => false
  end.

Definition fingerprint_conflict (manifest : option Manifest.t)
  (signing : SigningConfig.t) : bool :=
  match SigningConfig.fingerprint signing, manifest with
  | Some (c :: fp), Some m =>
      match Manifest.fingerprint (Manifest.identity m) with
      | Some (c' :: fp') => negb (str_eqb (c :: fp) (c' :: fp'))
      | _ => false
      end
  | _, _ => false
  end.

(* ================================================================== *)
(** * Git and SSH helpers ([utils/git.ts]) *)
(* ================================================================== *)

(** [result.trim() || null] *)
Definition trim_or_null (result : jsstring) : option jsstring :=
  match trim result with
  | [] => None
  | c :: t => Some (c :: t)
  end.

(** The first occurrence of [p] in [s], as the parts of [s] before and
    after it ([s.indexOf(p)] and the two slices around the match). *)
Fixpoint find_first (s p : jsstring) {struct s} : option (jsstring * jsstring) :=
  if startsWith s p then Some ([], skipn (List.length p) s)
  else match s with
       | [] => None
       | c :: s' =>
           match find_first s' p with
           | Some (before, after) => Some (c :: before, after)
           | None => None
           end
       end.

(** [GetSubstitution] of ECMAScript for a pattern that is a string (no
    captures): [$$] is a dollar sign, [$&] the matched text, [$`] the text
    before the match, [$'] the text after it; every other character stands
    for itself. *)
Fixpoint GetSubstitution (matched before after replacement : jsstring) : jsstring :=
  match replacement with
  | [] => []
  | c :: r =>
      if N.eqb c 36 then
        match r with
        | d :: r' =>
            if N.eqb d 36 then 36%N :: GetSubstitution matched before after r'
            else if N.eqb d 38 then matched ++ GetSubstitution matched before after r'
            else if N.eqb d 96 then before ++ GetSubstitution matched before after r'
            else if N.eqb d 39 then after ++ GetSubstitution matched before after r'
            else c :: GetSubstitution matched before after r
        | [] => [c]
        end
      else c :: GetSubstitution matched before after r
  end.

(** [s.replace(pattern, replacement)] for a pattern that is a string: the
    first occurrence is replaced, if there is one. *)
Definition String_replace (s pattern replacement : jsstring) : jsstring :=
  match find_first s pattern with
  | Some (before, after) =>
      before ++ GetSubstitution pattern before after replacement ++ after
  | None => s
  end.

Fixpoint take_while (f : N -> bool) (s : jsstring) : jsstring :=
  match s with
  | c :: s' => if f c then c :: take_while f s' else []
  | [] => []
  end.

(** [[A-Za-z0-9+/=]] *)
Definition base64_char (c : N) : bool := alnum c || one_of "+/=" c.

(** [result.match(/(SHA256:[A-Za-z0-9+/=]+)/)], the first capture group of
    the leftmost match: at the first position where [SHA256:] is followed by
    a character of the class, that prefix and the longest run of characters
    of the class. *)
Fixpoint match_fingerprint (result : jsstring) : option jsstring :=
  match result with
  | [] => None
  | c :: rest =>
      if startsWith result (js "SHA256:") then
        match take_while base64_char (skipn 7 result) with
        | [] => match_fingerprint rest
        | d :: run => Some (js "SHA256:" ++ d :: run)
        end
      else match_fingerprint rest
  end.

(** What the helpers of [utils/git.ts] ask of the machine: the text that
    [git config <key>] prints, the home directory, the text of a file, the
    text that [ssh-keygen -l -f <path>] prints, and the text that
    [gh api user --jq .login] prints; [None] when the command or the read
    fails ([HOME]: when the variable is not set). *)
Record GitHost := mkGitHost {
  git_config : jsstring -> option jsstring;
  env_HOME : option jsstring;
  file_text : jsstring -> option jsstring;
  ssh_keygen_l : jsstring -> option jsstring;
  gh_login : option jsstring
}.

(** [getConfig(key)] inside [getSigningConfig], and the three helpers of the
    same shape. *)
Definition getConfig (h : GitHost) (key : jsstring) : option jsstring :=
  match git_config h key with
  | Some result => trim_or_null result
  | None => None
  end.

Definition getGitUserName (h : GitHost) : option jsstring :=
  match git_config h (js "user.name") with
  | Some result => trim_or_null result
  | None => None
  end.

Definition getGitUserEmail (h : GitHost) : option jsstring :=
  match git_config h (js "user.email") with
  | Some result => trim_or_null result
  | None => None
  end.

Definition getGitHubHandle (h : GitHost) : option jsstring :=
  match gh_login h with
  | Some result => trim_or_null result
  | None => None
  end.

(** [a ?? b] *)
Definition or_default {A} (a : option A) (b : A) : A :=
  match a with
  | Some x => x
  | None => b
  end.

Definition orElse {A} (a b : option A) : option A :=
  match a with
  | Some _ => a
  | None => b
  end.

Definition keyPath_of (h : GitHost) (signingKey : jsstring) : jsstring :=
  String_replace signingKey (js "~") (or_default (env_HOME h) []).

Definition privKeyPath_of (keyPath : jsstring) : jsstring :=
  String_replace keyPath (js ".pub") [].

(** [getSigningConfig(cwd)] *)
Definition getSigningConfig (h : GitHost) : SigningConfig.t :=
  let format := getConfig h (js "gpg.format") in
  let signingKey := getConfig h (js "user.signingKey") in
  let gpgSign :=
    match getConfig h (js "commit.gpgSign") with
    | Some v => str_eqb v (js "true")
    | None => false
    end in
  match signingKey with
  | Some (c :: key) =>
      let keyPath := keyPath_of h (c :: key) in
      let publicKey :=
        match file_text h keyPath with
        | Some keyContent => Some (trim keyContent)
        | None => None
        end in
      let privKeyPath := privKeyPath_of keyPath in
      let fingerprint :=
        match ssh_keygen_l h privKeyPath with
        | Some result => match_fingerprint result
        | None => None
        end in
      SigningConfig.mk format signingKey gpgSign publicKey fingerprint
  | _ => SigningConfig.mk format signingKey gpgSign None None
  end.

(* ================================================================== *)
(** * The strings a regular expression matches *)
(* ================================================================== *)

(** The language of a regular expression, against which the decision by
    derivatives is checked. *)
Inductive matches : regexp -> jsstring -> Prop :=
| m_eps : matches Eps []
| m_class f c : f c = true -> matches (Class f) [c]
| m_seq a b s1 s2 : matches a s1 -> matches b s2 -> matches (Seq a b) (s1 ++ s2)
| m_alt_l a b s : matches a s -> matches (Alt a b) s
| m_alt_r a b s : matches b s -> matches (Alt a b) s
| m_star_nil a : matches (Star a) []
| m_star_app a s1 s2 :
    matches a s1 -> matches (Star a) s2 -> matches (Star a) (s1 ++ s2).

(** A string that is not empty and whose characters all belong to a class. *)
Definition run_of (f : N -> bool) (s : jsstring) : Prop :=
  s <> [] /\ forallb f s = true.

(** The character classes of the patterns of the schemas. *)
Definition owner_char (c : N) : bool := word c || one_of "-" c.
Definition repo_char (c : N) : bool := word c || one_of ".-" c.
Definition handle_char (c : N) : bool := alnum c || one_of "-" c.

(** [result] holds [SHA256:] followed by a character of the class
    [[A-Za-z0-9+/=]]. *)
Definition has_fingerprint (result : jsstring) : Prop :=
  exists before c after,
    result = before ++ js "SHA256:" ++ c :: after /\ base64_char c = true.

(* ================================================================== *)
(** * Scaffolding a spoke ([commands/init.ts]) *)
(* ================================================================== *)

Module InitOptions.
Record t := mk {
  hub : jsstring;
  project : option jsstring;
  name : option jsstring;
  overwrite : bool
}.
End InitOptions.

(** What [init] asks of the machine besides [GitHost]: the working
    directory, the exit code of [git rev-parse --is-inside-work-tree]
    ([None] when the command throws), whether [.collab/] exists, the text of
    each of the four calls of [new Date().toISOString()] that enter the
    documents, and the version of the tool. *)
Record InitHost := mkInitHost {
  i_cwd : jsstring;
  i_rev_parse : option Z;
  i_collabExists : bool;
  i_git : GitHost;
  i_generatedAt : jsstring;
  i_lastCommit : jsstring;
  i_verified_at : jsstring;
  i_joined : jsstring;
  i_version : jsstring
}.

(** [isGitRepo(cwd)] *)
Definition isGitRepo (exitCode : option Z) : bool :=
  match exitCode with
  | Some c => (c =? 0)%Z
  | None => false
  end.

(** [array.pop()], [undefined] on an empty array. *)
Definition pop {A} (l : list A) : option A :=
  match rev l with
  | x :: _ => Some x
  | [] => None
  end.

Definition slash : N := 47%N.
Definition at_sign : N := 64%N.

(** [opts.project ?? cwd.split("/").pop() ?? "unknown"] *)
Definition init_repoName (opts : InitOptions.t) (cwd : jsstring) : jsstring :=
  or_default (orElse (InitOptions.project opts) (pop (split_on slash cwd)))
    (js "unknown").

Definition init_gitName (g : GitHost) : jsstring :=
  or_default (getGitUserName g) (js "operator").

Definition init_gitEmail (g : GitHost) : jsstring :=
  or_default (getGitUserEmail g) [].

(** [ghHandle ?? gitName ?? gitEmail.split("@")[0] ?? "operator"] *)
Definition init_maintainerHandle (g : GitHost) : jsstring :=
  or_default
    (orElse (orElse (getGitHubHandle g) (Some (init_gitName g)))
       (nth_error (split_on at_sign (init_gitEmail g)) 0))
    (js "operator").

Definition placeholder_key : jsstring := js "ssh-ed25519 <your-public-key-here>".

(** [signing.publicKey ?? "ssh-ed25519 <your-public-key-here>"] *)
Definition init_publicKey (signing : SigningConfig.t) : jsstring :=
  or_default (SigningConfig.publicKey signing) placeholder_key.

(** [...(signing.fingerprint ? { fingerprint: signing.fingerprint } : {})] *)
Definition fingerprint_field (signing : SigningConfig.t)
  : list (jsstring * value) :=
  match SigningConfig.fingerprint signing with
  | Some (c :: fp) => [(js "fingerprint", VStr (c :: fp))]
  | _ => []
  end.

Definition init_manifest (hub repoName maintainerHandle : jsstring)
  (signing : SigningConfig.t) : value :=
  VObj
    [(js "schemaVersion", VStr (js "1.0"));
     (js "name", VStr repoName);
     (js "hub", VStr hub);
     (js "project", VStr repoName);
     (js "maintainer", VStr maintainerHandle);
     (js "license", VStr (js "MIT"));
     (js "identity",
      VObj ([(js "handle", VStr maintainerHandle);
             (js "publicKey", VStr (init_publicKey signing))]
            ++ fingerprint_field signing));
     (js "security",
      VObj [(js "reflexes",
             VObj [(js "signing", VBool (SigningConfig.gpgSign signing));
                   (js "secretScanning", VBool false);
                   (js "sandboxEnforcer", VBool false);
                   (js "contentFilter", VBool false)])]);
     (js "status", VObj [(js "test", VStr (js "bun test"))])].

Definition init_status (generatedAt lastCommit version : jsstring) : value :=
  VObj
    [(js "schemaVersion", VStr (js "1.0"));
     (js "generatedAt", VStr generatedAt);
     (js "generatedBy", VStr (js "hive-spoke " ++ version));
     (js "phase", VStr (js "specify"));
     (js "tests",
      VObj [(js "passing", VNum (NumInt 0)); (js "failing", VNum (NumInt 0))]);
     (js "git",
      VObj [(js "branch", VStr (js "main"));
            (js "lastCommit", VStr lastCommit);
            (js "dirty", VBool false);
            (js "behindRemote", VNum (NumInt 0))])].

Definition init_operator (hub maintainerHandle displayName : jsstring)
  (ghHandle : option jsstring) (signing : SigningConfig.t)
  (verified_at joined : jsstring) : value :=
  VObj
    [(js "schemaVersion", VStr (js "1.0"));
     (js "handle", VStr maintainerHandle);
     (js "name", VStr displayName);
     (js "signing",
      VObj ([(js "publicKey", VStr (init_publicKey signing))]
            ++ fingerprint_field signing));
     (js "identities",
      VArr (match ghHandle with
            | Some (c :: gh) =>
                [VObj [(js "provider", VStr (js "github"));
                       (js "id", VStr (c :: gh));
                       (js "verified", VBool true);
                       (js "verified_at", VStr verified_at)]]
            | _ => []
            end));
     (js "skills", VArr []);
     (js "availability", VStr (js "open"));
     (js "hives",
      VArr [VObj [(js "hive", VStr hub);
                  (js "role", VStr (js "contributor"));
                  (js "trust_zone", VStr (js "untrusted"));
                  (js "identity_provider", VStr (js "github"));
                  (js "joined", VStr joined);
                  (js "contributions", VNum (NumInt 0));
                  (js "reviews", VNum (NumInt 0));
                  (js "swarms", VNum (NumInt 0))]])].

(** The three documents that [init] hands to [writeYaml]. *)
Record InitResult := mkInitResult {
  manifest_yaml : value;
  status_yaml : value;
  operator_yaml : value
}.

Definition not_a_git_repo : jsstring :=
  js "Not a git repository. Run 'git init' first.".

Definition invalid_hub_format (hub : jsstring) : jsstring :=
  js "Invalid hub format: " ++ dquote ++ hub ++ dquote
  ++ js ". Must be org/repo (e.g., mellanon/pai-collab).".

Definition collab_exists : jsstring :=
  js ".collab/ already exists. Use --overwrite to replace.".

(** The action of the [init] command; what it prints is left out. *)
Definition init (opts : InitOptions.t) (host : InitHost) : Try InitResult :=
  if negb (isGitRepo (i_rev_parse host)) then inr (Error not_a_git_repo)
  else if negb (test re_org_repo (InitOptions.hub opts))
  then inr (Error (invalid_hub_format (InitOptions.hub opts)))
  else if i_collabExists host && negb (InitOptions.overwrite opts)
  then inr (Error collab_exists)
  else
    let repoName := init_repoName opts (i_cwd host) in
    let gitName := init_gitName (i_git host) in
    let displayName := or_default (InitOptions.name opts) gitName in
    let signing := getSigningConfig (i_git host) in
    let ghHandle := getGitHubHandle (i_git host) in
    let maintainerHandle := init_maintainerHandle (i_git host) in
    inl (mkInitResult
           (init_manifest (InitOptions.hub opts) repoName maintainerHandle signing)
           (init_status (i_generatedAt host) (i_lastCommit host) (i_version host))
           (init_operator (InitOptions.hub opts) maintainerHandle displayName
              ghHandle signing (i_verified_at host) (i_joined host))).

(** The fingerprint that goes into the documents of [init]. *)
Definition init_fingerprint (signing : SigningConfig.t) : option jsstring :=
  match SigningConfig.fingerprint signing with
  | Some (c :: fp) => Some (c :: fp)
  | _ => None
  end.

(** The typed manifest that [init] means to write. *)
Definition init_manifest_typed (hub repoName maintainerHandle : jsstring)
  (signing : SigningConfig.t) : Manifest.t :=
  Manifest.mk repoName hub repoName maintainerHandle (js "MIT")
    (Manifest.mkIdentity maintainerHandle (init_publicKey signing)
       (init_fingerprint signing))
    (Manifest.mkSecurity
       (Manifest.mkReflexes (SigningConfig.gpgSign signing) false false false))
    (Some (Manifest.mkStatus (Some (js "bun test")) None)).

(** The fingerprint of a signing configuration, when there is one, has the
    shape the schemas ask for. *)
Definition signing_fingerprint_ok (signing : SigningConfig.t) : Prop :=
  forall fp, init_fingerprint signing = Some fp -> test re_fingerprint fp = true.

(** [v === true] *)
Definition is_true (v : value) : bool :=
  match v with
  | VBool b => b
  | _ => false
  end.

(** The properties of a value that is a mapping, none otherwise. *)
Definition props_of (v : value) : list (jsstring * value) :=
  match v with
  | VObj props => props
  | _ => []
  end.

(* ================================================================== *)
(** * Sample documents and a sample host *)
(* ================================================================== *)

Definition field (k : string) (v : value) : jsstring * value := (js k, v).

Definition obj (fields : list (jsstring * value)) : value := VObj fields.

Definition str (s : string) : value := VStr (js s).

Definition int (z : Z) : value := VNum (NumInt z).

(** The minimal manifest of the test suite ([schemas.test.ts]). *)
Definition minimal_manifest : value :=
  obj [field "schemaVersion" (str "1.0"); field "name" (str "test-project");
       field "hub" (str "org/repo"); field "project" (str "test");
       field "maintainer" (str "testuser"); field "license" (str "MIT");
       field "identity"
        (obj [field "handle" (str "testuser");
             field "publicKey" (str "ssh-ed25519 AAAA_test_key")])].

Definition minimal_manifest_yaml : jsstring :=
  js "schemaVersion: '1.0'
name: test-project
hub: org/repo
project: test
maintainer: testuser
license: MIT
identity:
  handle: testuser
  publicKey: ssh-ed25519 AAAA_test_key
".

(** The same manifest with the key and the fingerprint of alice. *)
Definition alice_manifest : value :=
  obj [field "schemaVersion" (str "1.0"); field "name" (str "test-project");
       field "hub" (str "org/repo"); field "project" (str "test");
       field "maintainer" (str "alice"); field "license" (str "MIT");
       field "identity"
        (obj [field "handle" (str "alice");
             field "publicKey" (str "ssh-ed25519 AAAA123");
             field "fingerprint" (str "SHA256:abc")])].

Definition alice_manifest_yaml : jsstring :=
  js "schemaVersion: '1.0'
name: test-project
hub: org/repo
project: test
maintainer: alice
license: MIT
identity:
  handle: alice
  publicKey: ssh-ed25519 AAAA123
  fingerprint: SHA256:abc
".

(** The valid status of the test suite. *)
Definition valid_status : value :=
  obj [field "schemaVersion" (str "1.0");
       field "generatedAt" (str "2026-02-07T00:00:00Z");
       field "generatedBy" (str "hive-spoke 0.1.0");
       field "phase" (str "build");
       field "tests" (obj [field "passing" (int 10); field "failing" (int 0)]);
       field "git"
        (obj [field "branch" (str "main");
             field "lastCommit" (str "2026-02-07T00:00:00Z");
             field "dirty" (VBool false);
             field "behindRemote" (int 0)])].

Definition valid_status_yaml : jsstring :=
  js "schemaVersion: '1.0'
generatedAt: '2026-02-07T00:00:00Z'
generatedBy: hive-spoke 0.1.0
phase: build
tests:
  passing: 10
  failing: 0
git:
  branch: main
  lastCommit: '2026-02-07T00:00:00Z'
  dirty: false
  behindRemote: 0
".

(** A status document that decodes and does not validate, and a text that
    does not decode. *)
Definition bad_phase_yaml : jsstring := js "phase: invalid-phase
".

Definition unclosed_yaml : jsstring := js "tests: [".

Definition project_yaml : jsstring :=
  js "name: test
source:
  repo: org/test
".

(** A manifest that breaks three constraints at once. *)
Definition broken_manifest : value :=
  obj [field "schemaVersion" (str "1.0"); field "name" (str "test-project");
       field "hub" (str "not-a-valid-hub"); field "project" (str "test");
       field "maintainer" (str "testuser"); field "license" (str "GPL-3.0");
       field "identity"
        (obj [field "handle" (str "testuser");
             field "publicKey" (str "ssh-rsa AAAA...")])].

Definition broken_manifest_yaml : jsstring :=
  js "schemaVersion: '1.0'
name: test-project
hub: not-a-valid-hub
project: test
maintainer: testuser
license: GPL-3.0
identity:
  handle: testuser
  publicKey: ssh-rsa AAAA...
".

(** A manifest whose [identity] is a string, and that is valid otherwise. *)
Definition flat_identity_manifest : value :=
  obj [field "schemaVersion" (str "1.0"); field "name" (str "test-project");
       field "hub" (str "org/repo"); field "project" (str "test");
       field "maintainer" (str "testuser"); field "license" (str "MIT");
       field "identity" (str "ssh-rsa AAAA...")].

(** A decoder that knows the sample texts (and refuses every other text
    that is not empty). *)
Definition sample_load (content : jsstring) : YamlResult :=
  if str_eqb content minimal_manifest_yaml then YamlValue minimal_manifest
  else if str_eqb content broken_manifest_yaml then YamlValue broken_manifest
  else if str_eqb content alice_manifest_yaml then YamlValue alice_manifest
  else if str_eqb content valid_status_yaml then YamlValue valid_status
  else if str_eqb content bad_phase_yaml
       then YamlValue (obj [field "phase" (str "invalid-phase")])
  else if str_eqb content project_yaml
       then YamlValue (obj [field "name" (str "test");
                            field "source" (obj [field "repo" (str "org/test")])])
  else match content with
       | [] => YamlValue VUndefined
       | _ :: _ => YamlThrows (js "YAMLException")
       end.

(** 2026-02-07T00:00:00Z is 20491 days after the epoch. *)
Definition sample_instant : Z := 20491 * 86400000.

(** A date parser that knows one timestamp. *)
Definition sample_Date_parse (s : jsstring) : option Z :=
  if str_eqb s (js "2026-02-07T00:00:00Z") then Some sample_instant else None.

(** The texts of the library's default error map, in English. *)
Definition type_name (t : ZodParsedType) : jsstring :=
  match t with
  | t_undefined => js "undefined" | t_null => js "null"
  | t_boolean => js "boolean" | t_number => js "number" | t_nan => js "nan"
  | t_string => js "string" | t_date => js "date" | t_array => js "array"
  | t_object => js "object" | t_integer => js "integer" | t_float => js "float"
  end.

Definition quoted_values (values : list jsstring) : jsstring :=
  join (js " | ") (List.map (fun v => js "'" ++ v ++ js "'") values).

Definition sample_defaultErrorMap (c : ZodIssueCode) : jsstring :=
  match c with
  | invalid_type _ t_undefined => js "Required"
  | invalid_type expected received =>
      js "Expected "
      ++ match expected with
         | a_type t => type_name t
         | one_value_of values => quoted_values values
         end
      ++ js ", received " ++ type_name received
  | invalid_literal expected _ =>
      js "Invalid literal value, expected " ++ dquote ++ expected ++ dquote
  | invalid_enum_value options received =>
      js "Invalid enum value. Expected " ++ quoted_values options
      ++ js ", received '" ++ received ++ js "'"
  | too_small sized_string minimum inclusive =>
      js "String must contain "
      ++ (if inclusive then js "at least " else js "over ")
      ++ int_text minimum ++ js " character(s)"
  | too_small sized_number minimum inclusive =>
      js "Number must be "
      ++ (if inclusive then js "greater than or equal to " else js "greater than ")
      ++ int_text minimum
  | invalid_string v_regex => js "Invalid"
  | invalid_string (v_startsWith prefix) =>
      js "Invalid input: must start with " ++ dquote ++ prefix ++ dquote
  | custom => js "Invalid input"
  end.

(** ** Offending fields of a raw manifest *)

(** [raw.key], [undefined] when [raw] is not a mapping. *)
Definition field_of (raw : value) (key : string) : value :=
  match raw with
  | VObj props => get (js key) props
  | _ => VUndefined
  end.

Definition missing_or_bad_hub (raw : value) : Prop :=
  forall s, field_of raw "hub" = VStr s -> test re_org_repo s = false.

Definition bad_license (raw : value) : Prop :=
  forall s, field_of raw "license" = VStr s -> ~ In s ACCEPTED_LICENSES.

Definition bad_publicKey (raw : value) : Prop :=
  forall s, field_of (field_of raw "identity") "publicKey" = VStr s ->
            ~ prefix_match s ed25519_prefix.

(** Validation of the raw manifest [raw] fails with a violation at the path
    [p]. *)
Definition rejected_with_path (raw : value) (p : list PathSeg) : Prop :=
  exists err i, ManifestSchema_parse raw = inr err /\ In i err /\ path i = p.

(** The typed documents of the sample manifests and of the sample status. *)
Definition minimal_manifest_typed : Manifest.t :=
  Manifest.mk (js "test-project") (js "org/repo") (js "test") (js "testuser")
    (js "MIT")
    (Manifest.mkIdentity (js "testuser") (js "ssh-ed25519 AAAA_test_key") None)
    (Manifest.mkSecurity (Manifest.mkReflexes false false false false))
    None.

Definition alice_manifest_typed : Manifest.t :=
  Manifest.mk (js "test-project") (js "org/repo") (js "test") (js "alice")
    (js "MIT")
    (Manifest.mkIdentity (js "alice") (js "ssh-ed25519 AAAA123")
       (Some (js "SHA256:abc")))
    (Manifest.mkSecurity (Manifest.mkReflexes false false false false))
    None.

Definition valid_status_typed : SpokeStatus.t :=
  SpokeStatus.mk (js "2026-02-07T00:00:00Z") (js "hive-spoke 0.1.0") (js "build")
    (SpokeStatus.mkTests 10 0)
    (SpokeStatus.mkGit (js "main") (js "2026-02-07T00:00:00Z") false 0).

(** An operator bob who signs with the key of alice. *)
Definition bob_operator : Operator.t :=
  Operator.mk (js "bob") None
    (Operator.mkSigning (js "ssh-ed25519 AAAA123") None) [] [] (js "open") [].

(** Spokes of the hub checkout variant: one without status, one with a valid
    status, one whose status decodes but does not validate, one whose status
    does not decode, one whose manifest does not decode. *)
Definition spoke_without_status : LocalSpoke :=
  mkLocalSpoke (js "spoke-1") true (Some minimal_manifest_yaml) None sample_instant.

Definition spoke_with_status : LocalSpoke :=
  mkLocalSpoke (js "spoke-3") true (Some minimal_manifest_yaml)
    (Some valid_status_yaml) (sample_instant + 6 * 86400000).

Definition spoke_bad_status : LocalSpoke :=
  mkLocalSpoke (js "spoke-4") true (Some minimal_manifest_yaml)
    (Some bad_phase_yaml) sample_instant.

Definition spoke_undecodable_status : LocalSpoke :=
  mkLocalSpoke (js "spoke-5") true (Some minimal_manifest_yaml)
    (Some unclosed_yaml) sample_instant.

Definition spoke_bad_manifest : LocalSpoke :=
  mkLocalSpoke (js "spoke-2") true (Some unclosed_yaml) None sample_instant.

Definition empty_pull : LocalPull := mkLocalPull [] 0 0 [].

(** An operator profile whose hive has an unknown role, and a status with a
    negative count. *)
Definition bad_role_operator : value :=
  obj [field "schemaVersion" (str "1.0"); field "handle" (str "mellanon");
       field "signing" (obj [field "publicKey" (str "ssh-ed25519 AAAA_test_key")]);
       field "hives"
        (VArr [obj [field "hive" (str "mellanon/pai-collab");
                    field "role" (str "admin")]])].

Definition negative_tests_status : value :=
  obj [field "schemaVersion" (str "1.0");
       field "generatedAt" (str "2026-02-07T00:00:00Z");
       field "generatedBy" (str "hive-spoke 0.1.0");
       field "phase" (str "build");
       field "tests" (obj [field "passing" (int (-1)); field "failing" (int 0)]);
       field "git"
        (obj [field "branch" (str "main");
             field "lastCommit" (str "2026-02-07T00:00:00Z");
             field "dirty" (VBool false);
             field "behindRemote" (int 0)])].

(** ** A sample machine for [init] *)

(** The operator profile with the required fields only, and one with
    skills, an availability and a hive. *)
Definition minimal_operator : value :=
  obj [field "schemaVersion" (str "1.0"); field "handle" (str "testuser");
       field "signing" (obj [field "publicKey" (str "ssh-ed25519 AAAA_test_key")])].

Definition skilled_operator : value :=
  obj [field "schemaVersion" (str "1.0"); field "handle" (str "mellanon");
       field "signing" (obj [field "publicKey" (str "ssh-ed25519 AAAA_test_key")]);
       field "skills" (VArr [str "protocol-design"; str "specflow"]);
       field "availability" (str "busy");
       field "hives"
        (VArr [obj [field "hive" (str "mellanon/pai-collab");
                    field "role" (str "maintainer")]])].

Definition line_feed : jsstring := [10%N].

(** A machine on which alice signs with an SSH key: the texts that the
    commands print end in a line feed. *)
Definition sample_git : GitHost :=
  mkGitHost
    (fun key =>
       if str_eqb key (js "user.name") then Some (js "Alice" ++ line_feed)
       else if str_eqb key (js "user.email")
       then Some (js "alice@example.com" ++ line_feed)
       else if str_eqb key (js "gpg.format") then Some (js "ssh" ++ line_feed)
       else if str_eqb key (js "commit.gpgSign") then Some (js "true" ++ line_feed)
       else if str_eqb key (js "user.signingKey")
       then Some (js "~/.ssh/id_ed25519.pub" ++ line_feed)
       else None)
    (Some (js "/home/alice"))
    (fun path =>
       if str_eqb path (js "/home/alice/.ssh/id_ed25519.pub")
       then Some (js "ssh-ed25519 AAAA123 alice@laptop" ++ line_feed)
       else None)
    (fun path =>
       if str_eqb path (js "/home/alice/.ssh/id_ed25519")
       then Some (js "256 SHA256:abc123 alice@laptop (ED25519)" ++ line_feed)
       else None)
    (Some (js "alice" ++ line_feed)).

(** A machine without git identity, GitHub login or signing key. *)
Definition bare_git : GitHost :=
  mkGitHost (fun _ => None) None (fun _ => None) (fun _ => None) None.

Definition sample_init_host : InitHost :=
  mkInitHost (js "/home/alice/work/my-spoke") (Some 0%Z) false sample_git
    (js "2026-02-07T00:00:00Z") (js "2026-02-07T00:00:00Z")
    (js "2026-02-07T00:00:00Z") (js "2026-02-07T00:00:00Z") (js "0.1.0").

Definition sample_init_options : InitOptions.t :=
  InitOptions.mk (js "mellanon/pai-collab") None None false.

(** What [init] hands to [writeYaml] on that machine. *)
Definition sample_init_result : InitResult :=
  mkInitResult
    (init_manifest (js "mellanon/pai-collab") (js "my-spoke") (js "alice")
       (getSigningConfig sample_git))
    (init_status (js "2026-02-07T00:00:00Z") (js "2026-02-07T00:00:00Z")
       (js "0.1.0"))
    (init_operator (js "mellanon/pai-collab") (js "alice") (js "Alice")
       (Some (js "alice")) (getSigningConfig sample_git)
       (js "2026-02-07T00:00:00Z") (js "2026-02-07T00:00:00Z")).

(** A manifest that turns one reflex on. *)
Definition signing_manifest : value :=
  obj [field "schemaVersion" (str "1.0"); field "name" (str "test-project");
       field "hub" (str "org/repo"); field "project" (str "test");
       field "maintainer" (str "testuser"); field "license" (str "MIT");
       field "identity"
        (obj [field "handle" (str "testuser");
             field "publicKey" (str "ssh-ed25519 AAAA_test_key")]);
       field "security" (obj [field "reflexes" (obj [field "signing" (VBool true)])])].

(* ================================================================== *)
(** * The typed documents in terms of the raw input *)
(* ================================================================== *)

(** What the typed document of a valid raw input holds, read off the raw
    input itself: the value of every field the schema declares, the default
    where an optional field with a default is absent, nothing for an absent
    optional field without default, and nothing of the fields the schema
    does not declare. *)
Definition text_of (v : value) : jsstring :=
  match v with VStr s => s | _ => [] end.

Definition text_opt (v : value) : option jsstring :=
  match v with VStr s => Some s | _ => None end.

Definition int_of (v : value) : Z :=
  match v with VNum (NumInt z) => z | _ => 0%Z end.

Definition items_of (v : value) : list value :=
  match v with VArr items => items | _ => [] end.

(** A mapping reduced to the keys [keys], in their order; a key that the
    mapping does not hold is left out. *)
Definition strip (keys : list jsstring) (entry : value) : value :=
  match entry with
  | VObj props =>
      VObj (filter_map
              (fun k => match get k props with
                        | VUndefined =>
                            if has_key k props then Some (k, VUndefined) else None
                        | v => Some (k, v)
                        end) keys)
  | _ => entry
  end.

Definition read_Manifest (raw : value) : Manifest.t :=
  let identity := field_of raw "identity" in
  let flags := field_of (field_of raw "security") "reflexes" in
  Manifest.mk (text_of (field_of raw "name")) (text_of (field_of raw "hub"))
    (text_of (field_of raw "project")) (text_of (field_of raw "maintainer"))
    (text_of (field_of raw "license"))
    (Manifest.mkIdentity (text_of (field_of identity "handle"))
       (text_of (field_of identity "publicKey"))
       (text_opt (field_of identity "fingerprint")))
    (Manifest.mkSecurity
       (Manifest.mkReflexes (is_true (field_of flags "signing"))
          (is_true (field_of flags "secretScanning"))
          (is_true (field_of flags "sandboxEnforcer"))
          (is_true (field_of flags "contentFilter"))))
    (match field_of raw "status" with
     | VUndefined => None
     | st => Some (Manifest.mkStatus (text_opt (field_of st "test"))
                     (text_opt (field_of st "healthCheck")))
     end).

Definition read_SpokeStatus (raw : value) : SpokeStatus.t :=
  let tests := field_of raw "tests" in
  let git := field_of raw "git" in
  SpokeStatus.mk (text_of (field_of raw "generatedAt"))
    (text_of (field_of raw "generatedBy")) (text_of (field_of raw "phase"))
    (SpokeStatus.mkTests (int_of (field_of tests "passing"))
       (int_of (field_of tests "failing")))
    (SpokeStatus.mkGit (text_of (field_of git "branch"))
       (text_of (field_of git "lastCommit")) (is_true (field_of git "dirty"))
       (int_of (field_of git "behindRemote"))).

Definition identity_keys : list jsstring :=
  [js "provider"; js "id"; js "verified"; js "verified_at"].

Definition hive_keys : list jsstring :=
  [js "hive"; js "role"; js "trust_zone"; js "identity_provider"; js "joined";
   js "contributions"; js "reviews"; js "swarms"].

Definition read_Operator (raw : value) : Operator.t :=
  let signing := field_of raw "signing" in
  Operator.mk (text_of (field_of raw "handle")) (text_opt (field_of raw "name"))
    (Operator.mkSigning (text_of (field_of signing "publicKey"))
       (text_opt (field_of signing "fingerprint")))
    (List.map (strip identity_keys) (items_of (field_of raw "identities")))
    (List.map text_of (items_of (field_of raw "skills")))
    (match field_of raw "availability" with
     | VUndefined => js "open"
     | v => text_of v
     end)
    (List.map (strip hive_keys) (items_of (field_of raw "hives"))).

(** The schemas whose valid output is the input itself. *)
Fixpoint is_leaf (schema : ZodType) : bool :=
  match schema with
  | ZodString _ | ZodLiteral _ | ZodEnum _ _ | ZodBoolean | ZodNumber _ => true
  | ZodOptional inner => is_leaf inner
  | ZodEffects inner _ _ => is_leaf inner
  | _ => false
  end.

(* ================================================================== *)
(** * The program over its host *)
(* ================================================================== *)

Section Host.

(** [Date.parse] of the host, [None] for [NaN]. *)
Variable Date_parse : jsstring -> option Z.

(** [load] of js-yaml. *)
Variable load : jsstring -> YamlResult.

(** The text that the library's default error map composes, from the code of
    an issue and the data attached to it, for an issue that carries no
    message of its own. *)
Variable defaultErrorMap : ZodIssueCode -> jsstring.

(** ** The status and operator schemas ([schemas/status.ts],
    [schemas/operator.ts]) *)

Definition LIFECYCLE_PHASES : list jsstring :=
  [js "specify"; js "build"; js "harden"; js "contrib-prep"; js "review";
   js "shipped"; js "evolving"].

(** [(val) => !isNaN(Date.parse(val))] *)
Definition date_parses (val : value) : bool :=
  match val with
  | VStr s => match Date_parse s with Some _ => true | None => false end
  | _ => false
  end.

Definition StatusSchema : ZodType :=
  ZodObject
    [(js "schemaVersion", ZodLiteral (js "1.0"));
     (js "generatedAt",
      ZodEffects (ZodString []) date_parses
        (Some (js "generatedAt must be a valid ISO 8601 timestamp")));
     (js "generatedBy", ZodString [Min 1 (Some (js "generatedBy is required"))]);
     (js "phase",
      ZodEnum LIFECYCLE_PHASES
        (Some (js "Phase must be one of: " ++ join (js ", ") LIFECYCLE_PHASES)));
     (js "tests",
      ZodObject
        [(js "passing", ZodNumber [Int; Nonnegative]);
         (js "failing", ZodNumber [Int; Nonnegative])]);
     (js "git",
      ZodObject
        [(js "branch", ZodString [Min 1 (Some (js "Branch name is required"))]);
         (js "lastCommit",
          ZodEffects (ZodString []) date_parses
            (Some (js "lastCommit must be a valid date")));
         (js "dirty", ZodBoolean);
         (js "behindRemote", ZodNumber [Int; Nonnegative])])].

Definition IdentityEntrySchema : ZodType :=
  ZodObject
    [(js "provider", ZodString [Min 1 None]);
     (js "id", ZodString [Min 1 None]);
     (js "verified", ZodBoolean);
     (js "verified_at",
      ZodOptional
        (ZodEffects (ZodString []) date_parses (Some (js "Must be valid ISO 8601"))))].

Definition HiveEntrySchema : ZodType :=
  ZodObject
    [(js "hive",
      ZodString [Regex re_org_repo (Some (js "Hive must be in org/repo format"))]);
     (js "role",
      ZodOptional (ZodEnum [js "contributor"; js "reviewer"; js "maintainer"] None));
     (js "trust_zone",
      ZodOptional (ZodEnum [js "untrusted"; js "trusted"; js "maintainer"] None));
     (js "identity_provider", ZodOptional (ZodString []));
     (js "joined",
      ZodOptional
        (ZodEffects (ZodString []) date_parses (Some (js "Must be valid ISO 8601"))));
     (js "contributions", ZodOptional (ZodNumber [Int; Nonnegative]));
     (js "reviews", ZodOptional (ZodNumber [Int; Nonnegative]));
     (js "swarms", ZodOptional (ZodNumber [Int; Nonnegative]))].

Definition OperatorTier1Shape : list (jsstring * ZodType) :=
  [(js "schemaVersion", ZodLiteral (js "1.0"));
   (js "handle", ZodString [Min 1 (Some (js "Handle is required"))]);
   (js "name", ZodOptional (ZodString []));
   (js "signing",
    ZodObject
      [(js "publicKey",
        ZodString [StartsWith ed25519_prefix (Some (js "Must be an Ed25519 SSH key"))]);
       (js "fingerprint",
        ZodOptional
          (ZodString [Regex re_fingerprint (Some (js "Must be SHA256 format"))]))]);
   (js "identities",
    ZodDefault (ZodOptional (ZodArray IdentityEntrySchema)) (VArr []));
   (js "skills", ZodDefault (ZodOptional (ZodArray (ZodString []))) (VArr []));
   (js "availability",
    ZodDefault (ZodOptional (ZodEnum [js "open"; js "busy"; js "offline"] None))
      (VStr (js "open")))].

Definition OperatorTier2Shape : list (jsstring * ZodType) :=
  [(js "hives", ZodDefault (ZodOptional (ZodArray HiveEntrySchema)) (VArr []))].

(** [a.merge(b)]: the shape [{...a, ...b}]. *)
Definition merge_shapes (a b : list (jsstring * ZodType))
  : list (jsstring * ZodType) :=
  fold_left (fun shape field => Map_set (fst field) (snd field) shape) b a.

Definition OperatorSchema : ZodType :=
  ZodObject (merge_shapes OperatorTier1Shape OperatorTier2Shape).

Definition StatusSchema_parse : value -> SpokeStatus.t + list ZodIssue :=
  parse_as StatusSchema as_SpokeStatus.

Definition OperatorSchema_parse : value -> Operator.t + list ZodIssue :=
  parse_as OperatorSchema as_Operator.

(** ** Reading documents *)

(** [load(content)] inside a [try] block. *)
Definition load_or_throw (content : jsstring) : Try value :=
  match load content with
  | YamlThrows message => inr (YamlException message)
  | YamlValue raw => inl raw
  end.

(** [loadYaml(filePath)]; the argument is the content of the file, [None]
    when the file does not exist (the message of the error then also names
    the path; every caller has checked that the file exists). *)
Definition loadYaml (file : option jsstring) : Try value :=
  match file with
  | None => inr (Error (js "File not found"))
  | Some content => load_or_throw content
  end.

(** ** Staleness and aggregation ([pull.ts]) *)

(** [isStale(generatedAt, thresholdDays)]; [now] is the instant that
    [new Date()] yields.  A difference with [NaN] is [NaN], and [NaN > x] is
    false. *)
Definition isStale (now : Z) (generatedAt : jsstring) (thresholdDays : Z) : bool :=
  match Date_parse generatedAt with
  | Some generated =>
      let diffMs := (now - generated)%Z in
      (diffMs >? thresholdDays * 24 * 60 * 60 * 1000)%Z
  | None => false
  end.

(** The default of the second parameter of [isStale]. *)
Definition default_thresholdDays : Z := 7.

(** [status ? isStale(status.generatedAt) : true] *)
Definition stale_flag (now : Z) (status : option SpokeStatus.t) : bool :=
  match status with
  | Some st => isStale now (SpokeStatus.generatedAt st) default_thresholdDays
  | None => true
  end.

(** The entry built from a validated manifest and an optional validated
    status. *)
Definition make_entry (repo : option value) (manifest : Manifest.t)
  (status : option SpokeStatus.t) (stale : bool) : SpokeEntry.t :=
  SpokeEntry.mk
    (Manifest.project manifest)
    repo
    (Manifest.maintainer manifest)
    (match status with Some st => SpokeStatus.phase st | None => js "unknown" end)
    (match status with
     | Some st => SpokeStatus.tests st
     | None => SpokeStatus.mkTests 0 0
     end)
    (match status with
     | Some st => SpokeStatus.dirty (SpokeStatus.git st)
     | None => false
     end)
    (match status with
     | Some st => SpokeStatus.behindRemote (SpokeStatus.git st)
     | None => 0%Z
     end)
    (match status with
     | Some st => SpokeStatus.lastCommit (SpokeStatus.git st)
     | None => js "unknown"
     end)
    (match status with Some st => SpokeStatus.generatedAt st | None => js "never" end)
    (Manifest.license manifest)
    (Manifest.reflexes (Manifest.security manifest))
    stale.

(** The body of the [try] block of one iteration.  [manifestRaw] is what
    decoding the manifest gives ([loadYaml] on the file in the hub checkout,
    [load] on the fetched text otherwise); [statusRaw] is what decoding the
    status gives, and [None] when the condition that guards the status
    branch is false.  The second component of the result tells the caller
    whether there was a status. *)
Definition try_entry (repo : option value) (manifestRaw : Try value)
  (statusRaw : option (Try value)) (now : Z)
  : Try (SpokeEntry.t * option SpokeStatus.t) :=
  let! rawManifest := manifestRaw in
  let! manifest := parse_or_throw ManifestSchema_parse rawManifest in
  let! status :=
    match statusRaw with
    | None => inl None
    | Some decoded =>
        let! rawStatus := decoded in
        let! st := parse_or_throw StatusSchema_parse rawStatus in
        inl (Some st)
    end in
  let stale := stale_flag now status in
  inl (make_entry repo manifest status stale, status).

Definition when_not (json : bool) (line : ConsoleLine) : list ConsoleLine :=
  if json then [] else [line].

(** One iteration of the loop over the project directories, hub checkout
    variant. *)
Definition pull_step_local (json : bool) (acc : LocalPull) (sp : LocalSpoke)
  : LocalPull :=
  match l_collabDir sp, l_manifestFile sp with
  | true, Some _ =>
      let withCollab := S (lp_withCollab acc) in
      match try_entry None (loadYaml (l_manifestFile sp))
              (match l_statusFile sp with
               | Some _ => Some (loadYaml (l_statusFile sp))
               | None => None
               end)
              (l_clock sp)
      with
      | inl (entry, status) =>
          mkLocalPull (lp_spokes acc ++ [entry]) withCollab (lp_withoutCollab acc)
            (lp_console acc
             ++ when_not json
                  (line_spoke entry
                     (match status with Some _ => true | None => false end)))
      | inr err =>
          mkLocalPull (lp_spokes acc) withCollab (lp_withoutCollab acc)
            (lp_console acc ++ when_not json (line_fail (l_project sp) err))
      end
  | _, _ =>
      mkLocalPull (lp_spokes acc) (lp_withCollab acc) (S (lp_withoutCollab acc))
        (lp_console acc ++ when_not json (line_no_collab (l_project sp)))
  end.

(** The [pull] command, hub checkout variant; [projects] is [None] when the
    [projects/] directory does not exist. *)
Definition pull_local (json : bool) (projects : option (list LocalSpoke))
  : Try LocalPull :=
  match projects with
  | None => inr (Error no_projects_dir)
  | Some dirs => inl (fold_left (pull_step_local json) dirs (mkLocalPull [] 0 0 []))
  end.

(** [projectYaml.source?.repo].  (The branch, [source.branch] or [main], only
    goes into the fetches, whose results the run is given.) *)
Definition source_repo (projectYaml : value) : Try value :=
  let! source := prop projectYaml (js "source") in
  opt_prop source (js "repo").

(** One iteration, spoke repository variant.  Loading [PROJECT.yaml] and
    reading [source] happen outside the [try] block. *)
Definition pull_step_remote (json : bool) (acc : RemotePull) (sp : RemoteSpoke)
  : Try RemotePull :=
  match r_projectYamlFile sp with
  | None =>
      inl (mkRemotePull (rp_spokes acc) (rp_fetched acc) (S (rp_noRepo acc))
             (rp_noCollab acc)
             (rp_console acc ++ when_not json (line_no_project_yaml (r_project sp))))
  | Some _ =>
      let! projectYaml := loadYaml (r_projectYamlFile sp) in
      let! repo := source_repo projectYaml in
      if negb (truthy repo) then
        inl (mkRemotePull (rp_spokes acc) (rp_fetched acc) (S (rp_noRepo acc))
               (rp_noCollab acc)
               (rp_console acc ++ when_not json (line_no_source_repo (r_project sp))))
      else
        match r_manifestContent sp with
        | Some (c :: manifestContent') =>
            match try_entry (Some repo) (load_or_throw (c :: manifestContent'))
                    (match r_statusContent sp with
                     | Some (c' :: statusContent') =>
                         Some (load_or_throw (c' :: statusContent'))
                     | _ => None
                     end)
                    (r_clock sp)
            with
            | inl (entry, status) =>
                inl (mkRemotePull (rp_spokes acc ++ [entry]) (S (rp_fetched acc))
                       (rp_noRepo acc) (rp_noCollab acc)
                       (rp_console acc
                        ++ when_not json
                             (line_spoke entry
                                (match status with Some _ => true | None => false end))))
            | inr err =>
                inl (mkRemotePull (rp_spokes acc) (rp_fetched acc) (rp_noRepo acc)
                       (rp_noCollab acc)
                       (rp_console acc ++ when_not json (line_fail (r_project sp) err)))
            end
        | _ =>
            inl (mkRemotePull (rp_spokes acc) (rp_fetched acc) (rp_noRepo acc)
                   (S (rp_noCollab acc))
                   (rp_console acc
                    ++ when_not json (line_no_collab_in (r_project sp) repo)))
        end
  end.

Fixpoint try_fold {A S} (step : S -> A -> Try S) (l : list A) (acc : S) : Try S :=
  match l with
  | [] => inl acc
  | x :: l' => let! acc' := step acc x in try_fold step l' acc'
  end.

Definition pull_remote (json : bool) (projects : option (list RemoteSpoke))
  : Try RemotePull :=
  match projects with
  | None => inr (Error no_projects_dir)
  | Some dirs => try_fold (pull_step_remote json) dirs (mkRemotePull [] 0 0 0 [])
  end.

(** ** Verification ([verify.ts]) *)

(** One iteration, hub checkout variant: a directory without manifest is
    skipped; otherwise exactly one result is pushed. *)
Definition verify_step_local (allowedSigners : JsMap AllowedSigner)
  (acc : list VerifyResult.t) (sp : LocalSpoke) : list VerifyResult.t :=
  match l_manifestFile sp with
  | None => acc
  | Some _ =>
      match (let! raw := loadYaml (l_manifestFile sp) in
             parse_or_throw ManifestSchema_parse raw)
      with
      | inr _ => acc ++ [invalid_result (l_project sp) None]
      | inl manifest =>
          acc ++ [verify_manifest true (l_project sp) None allowedSigners manifest]
      end
  end.

Definition verify_local (projects : option (list LocalSpoke))
  (signersPath : jsstring) (signersFile : option jsstring) : Try VerifySummary :=
  match projects, signersFile with
  | None, _ => inr (Error no_projects_dir)
  | Some _, None => inr (Error (signers_not_found signersPath))
  | Some dirs, Some _ =>
      let allowedSigners := parseAllowedSigners signersFile in
      inl (summarize (fold_left (verify_step_local allowedSigners) dirs []))
  end.

Definition verify_step_remote (allowedSigners : JsMap AllowedSigner)
  (acc : list VerifyResult.t) (sp : RemoteSpoke) : Try (list VerifyResult.t) :=
  match r_projectYamlFile sp with
  | None => inl acc
  | Some _ =>
      let! projectYaml := loadYaml (r_projectYamlFile sp) in
      let! repo := source_repo projectYaml in
      if negb (truthy repo) then inl acc
      else
        match r_manifestContent sp with
        | Some (c :: manifestContent') =>
            match (let! raw := load_or_throw (c :: manifestContent') in
                   parse_or_throw ManifestSchema_parse raw)
            with
            | inr _ => inl (acc ++ [invalid_result (r_project sp) (Some repo)])
            | inl manifest =>
                inl (acc ++ [verify_manifest false (r_project sp) (Some repo)
                               allowedSigners manifest])
            end
        | _ => inl acc
        end
  end.

Definition verify_remote (projects : option (list RemoteSpoke))
  (signersPath : jsstring) (signersFile : option jsstring) : Try VerifySummary :=
  match projects, signersFile with
  | None, _ => inr (Error no_projects_dir)
  | Some _, None => inr (Error (signers_not_found signersPath))
  | Some dirs, Some _ =>
      let allowedSigners := parseAllowedSigners signersFile in
      let! rs := try_fold (verify_step_remote allowedSigners) dirs [] in
      inl (summarize rs)
  end.

(** ** Compliance validation ([validate.ts]) *)

Definition issue_message (i : ZodIssue) : jsstring :=
  match message i with
  | Some m => m
  | None => defaultErrorMap (code i)
  end.

(** [`${file}: ${path} -- ${issue.message}`], with an em dash. *)
Definition issue_line (file : jsstring) (i : ZodIssue) : jsstring :=
  file ++ js ": " ++ dotted (path i) ++ js " " ++ em_dash ++ js " "
  ++ issue_message i.

Definition placeholder : jsstring := js "<your-public-key-here>".

(** [validateManifest(collabDir, results)]; the argument is the content of
    [manifest.yaml], [None] when the file does not exist.  What the function
    prints is left out. *)
Definition validateManifest (file : option jsstring) (results : ValidationResult)
  : option Manifest.t * ValidationResult :=
  match file with
  | None => (None, push_error (js "manifest.yaml not found") results)
  | Some _ =>
      match (let! raw := loadYaml file in
             parse_or_throw ManifestSchema_parse raw)
      with
      | inl manifest =>
          (Some manifest,
           if includes (Manifest.publicKey (Manifest.identity manifest)) placeholder
           then push_warning
                  (js "manifest.yaml: publicKey is still a placeholder") results
           else results)
      | inr (ZodError err) =>
          (None,
           fold_left (fun r i => push_error (issue_line (js "manifest.yaml") i) r)
             err results)
      | inr (YamlException m) | inr (TypeError m) | inr (Error m) =>
          (None, push_error (js "manifest.yaml: " ++ m) results)
      end
  end.

(** ** Schema validation in the specification's words *)

(** What the specification asks of the validation of a raw input against a
    document schema: either the input breaks no constraint and the typed
    document is returned, or the list of violations is not empty and holds
    the violation of every constraint that a field breaks, with the path of
    the field, and nothing else. *)
Definition reports_every_violation (schema : ZodType) (raw : value) : Prop :=
  match safeParse schema raw with
  | inl doc => (forall p c v, ~ breaks schema raw p c v) /\ typed schema doc
  | inr err =>
      err <> []
      /\ (forall p c v, breaks schema raw p c v -> In (issue_of c v p) err)
      /\ (forall i, In i err ->
            exists p c v, breaks schema raw p c v /\ i = issue_of c v p)
      /\ (forall p, violates schema raw p <-> exists i, In i err /\ path i = p)
  end.

(** What the specification asks of the compliance report for one document
    with the decoded content [raw]: when [raw] validates, the typed document
    is handed on and no error is added; otherwise nothing is handed on and
    the report gains one error line per violation, in their order, made of
    the name of the file, the dotted path of the field and the message. *)
Definition validation_report {A} (parse : value -> A + list ZodIssue)
  (file : jsstring) (raw : value) (results : ValidationResult)
  (run : option A * ValidationResult) : Prop :=
  match parse raw with
  | inl a => fst run = Some a /\ errors (snd run) = errors results
  | inr err =>
      run = (None,
             mkValidationResult
               (errors results
                ++ List.map
                     (fun i => file ++ js ": " ++ dotted (path i) ++ js " "
                               ++ em_dash ++ js " " ++ issue_message i) err)
               (warnings results))
  end.

(** Section 3 of the specification, Status. *)
Definition Status_valid (st : SpokeStatus.t) : Prop :=
  (exists t, Date_parse (SpokeStatus.generatedAt st) = Some t)
  /\ nonempty (SpokeStatus.generatedBy st)
  /\ In (SpokeStatus.phase st) LIFECYCLE_PHASES
  /\ (0 <= SpokeStatus.passing (SpokeStatus.tests st))%Z
  /\ (0 <= SpokeStatus.failing (SpokeStatus.tests st))%Z
  /\ nonempty (SpokeStatus.branch (SpokeStatus.git st))
  /\ (exists t, Date_parse (SpokeStatus.lastCommit (SpokeStatus.git st)) = Some t)
  /\ (0 <= SpokeStatus.behindRemote (SpokeStatus.git st))%Z.

(** ** Aggregation in the specification's words *)

(** What the status document of a spoke amounts to. *)
Inductive StatusDoc :=
| StatusAbsent
| StatusUnparseable (err : Thrown)
| StatusValid (st : SpokeStatus.t).

Definition classify_status (statusRaw : option (Try value)) : StatusDoc :=
  match statusRaw with
  | None => StatusAbsent
  | Some (inr err) => StatusUnparseable err
  | Some (inl raw) =>
      match StatusSchema_parse raw with
      | inl st => StatusValid st
      | inr err => StatusUnparseable (ZodError err)
      end
  end.

(** The entry of a spoke without status document: the manifest fields and
    the defaults of the status fields. *)
Definition default_entry (repo : option value) (m : Manifest.t) : SpokeEntry.t :=
  SpokeEntry.mk (Manifest.project m) repo (Manifest.maintainer m)
    (js "unknown") (SpokeStatus.mkTests 0 0) false 0%Z (js "unknown") (js "never")
    (Manifest.license m) (Manifest.reflexes (Manifest.security m)) true.

(** The entry of a spoke with a valid status document. *)
Definition status_entry (repo : option value) (m : Manifest.t)
  (st : SpokeStatus.t) (now : Z) : SpokeEntry.t :=
  SpokeEntry.mk (Manifest.project m) repo (Manifest.maintainer m)
    (SpokeStatus.phase st) (SpokeStatus.tests st)
    (SpokeStatus.dirty (SpokeStatus.git st))
    (SpokeStatus.behindRemote (SpokeStatus.git st))
    (SpokeStatus.lastCommit (SpokeStatus.git st))
    (SpokeStatus.generatedAt st)
    (Manifest.license m) (Manifest.reflexes (Manifest.security m))
    (isStale now (SpokeStatus.generatedAt st) 7).

(** The entries a spoke with a valid manifest contributes. *)
Definition entries_for (repo : option value) (m : Manifest.t) (now : Z)
  (sd : StatusDoc) : list SpokeEntry.t :=
  match sd with
  | StatusAbsent => [default_entry repo m]
  | StatusValid st => [status_entry repo m st now]
  | StatusUnparseable _ => []
  end.

(** The state of one spoke in an aggregation run. *)
Inductive Outcome :=
| NoSourceRepo
| NoDeclaration
| Unparseable (err : Thrown)
| Declared (entry : SpokeEntry.t) (hasStatus : bool).

Definition outcome_of (r : Try (SpokeEntry.t * option SpokeStatus.t)) : Outcome :=
  match r with
  | inl (entry, status) =>
      Declared entry (match status with Some _ => true | None => false end)
  | inr err => Unparseable err
  end.

(** The status branch of each variant: entered when [status.yaml] exists,
    respectively when the fetched text is not empty. *)
Definition local_status (sp : LocalSpoke) : option (Try value) :=
  match l_statusFile sp with
  | Some _ => Some (loadYaml (l_statusFile sp))
  | None => None
  end.

Definition remote_status (sp : RemoteSpoke) : option (Try value) :=
  match r_statusContent sp with
  | Some (c :: statusContent') => Some (load_or_throw (c :: statusContent'))
  | _ => None
  end.

Definition local_outcome (sp : LocalSpoke) : Outcome :=
  match l_collabDir sp, l_manifestFile sp with
  | true, Some content =>
      outcome_of (try_entry None (load_or_throw content) (local_status sp) (l_clock sp))
  | _, _ => NoDeclaration
  end.

(** [inr] when the iteration throws outside its [try] block, which happens
    on [PROJECT.yaml] only. *)
Definition remote_outcome (sp : RemoteSpoke) : Try Outcome :=
  match r_projectYamlFile sp with
  | None => inl NoSourceRepo
  | Some content =>
      let! projectYaml := load_or_throw content in
      let! repo := source_repo projectYaml in
      if truthy repo then
        match r_manifestContent sp with
        | Some (c :: manifestContent') =>
            inl (outcome_of (try_entry (Some repo) (load_or_throw (c :: manifestContent'))
                               (remote_status sp) (r_clock sp)))
        | _ => inl NoDeclaration
        end
      else inl NoSourceRepo
  end.

Definition entries_of (o : Outcome) : list SpokeEntry.t :=
  match o with
  | Declared entry _ => [entry]
  | _ => []
  end.

Definition failures_of (project : jsstring) (o : Outcome) : list ConsoleLine :=
  match o with
  | Unparseable err => [line_fail project err]
  | _ => []
  end.

Definition is_no_declaration (o : Outcome) : bool :=
  match o with NoDeclaration => true | _ => false end.

Definition is_no_source_repo (o : Outcome) : bool :=
  match o with NoSourceRepo => true | _ => false end.

Definition is_declared (o : Outcome) : bool :=
  match o with Declared _ _ => true | _ => false end.

Definition is_failure (line : ConsoleLine) : bool :=
  match line with line_fail _ _ => true | _ => false end.

Definition count {A} (f : A -> bool) (l : list A) : nat := List.length (filter f l).

Fixpoint try_map {A B} (f : A -> Try B) (l : list A) : Try (list B) :=
  match l with
  | [] => inl []
  | x :: l' =>
      let! y := f x in
      let! ys := try_map f l' in
      inl (y :: ys)
  end.

(** The line one iteration prints outside JSON mode. *)
Definition local_line (project : jsstring) (o : Outcome) : ConsoleLine :=
  match o with
  | Declared entry hasStatus => line_spoke entry hasStatus
  | Unparseable err => line_fail project err
  | _ => line_no_collab project
  end.

Definition flag (b : bool) : nat := if b then 1 else 0.

Definition failure_lines (json : bool) (project : jsstring) (o : Outcome)
  : list ConsoleLine :=
  if json then [] else failures_of project o.

(** One iteration of the spoke repository variant, as a change of the
    accumulated result. *)
Definition remote_step_result (json : bool) (acc r : RemotePull)
  (project : jsstring) (o : Outcome) : Prop :=
  rp_spokes r = rp_spokes acc ++ entries_of o
  /\ rp_fetched r = rp_fetched acc + flag (is_declared o)
  /\ rp_noRepo r = rp_noRepo acc + flag (is_no_source_repo o)
  /\ rp_noCollab r = rp_noCollab acc + flag (is_no_declaration o)
  /\ filter is_failure (rp_console r)
     = filter is_failure (rp_console acc) ++ failure_lines json project o.

(** ** Verification in the specification's words *)

(** Whether the scan of the registry finds the key of a manifest. *)
Definition key_matched (local : bool) (allowedSigners : JsMap AllowedSigner)
  (m : Manifest.t) : bool :=
  inAllowedSigners
    (if local
     then matchLoop_local (Manifest.publicKey (Manifest.identity m)) allowedSigners 0
     else matchLoop_remote (Manifest.publicKey (Manifest.identity m)) allowedSigners 0).

Definition issue_not_registered (local : bool) : jsstring :=
  if local then issue_not_registered_local else issue_not_registered_remote.

(** The issues of one spoke according to the two rules. *)
Definition expected_issues (local : bool) (allowedSigners : JsMap AllowedSigner)
  (m : Manifest.t) : list jsstring :=
  (if key_matched local allowedSigners m then [] else [issue_not_registered local])
  ++ match Manifest.fingerprint (Manifest.identity m) with
     | None => [issue_no_fingerprint]
     | Some _ => []
     end.

Definition is_verified (r : VerifyResult.t) : Prop := VerifyResult.issues r = [].

(** ** Notions used by the properties beyond the specification *)

Definition is_unparseable (o : Outcome) : bool :=
  match o with Unparseable _ => true | _ => false end.

(** A verification result that reports the key as not registered. *)
Definition unmatched (r : VerifyResult.t) : Prop :=
  VerifyResult.inAllowedSigners r = false /\ VerifyResult.issues r <> [].

(** ** The other checks of [validate] ([validate.ts]) *)

Definition status_not_found : jsstring :=
  js "status.yaml not found " ++ em_dash ++ js " run 'hive-spoke status' to generate".

(** [(Date.now() - generatedDate.getTime()) / (1000 * 60 * 60 * 24)].  The
    quotient is taken in the rationals: for two instants less than 2^53 ms
    apart the difference is exact, and neither the comparison of the rounded
    quotient with 7 nor its floor differs from that of the exact one. *)
Definition daysSince (now generated : Z) : QArith_base.Q :=
  QArith_base.Qdiv (QArith_base.inject_Z (now - generated))
    (QArith_base.inject_Z (1000 * 60 * 60 * 24)).

Definition status_age_warning (days : QArith_base.Q) : jsstring :=
  js "status.yaml: generated " ++ int_text (Qround.Qfloor days)
  ++ js " days ago " ++ em_dash ++ js " consider regenerating".

(** [validateStatus(collabDir, results)]; [file] is the content of
    [status.yaml], [None] when the file does not exist, and [now] is what
    [Date.now()] yields.  A validated [generatedAt] parses; were it not to,
    the difference would be [NaN] and the comparison false. *)
Definition validateStatus (file : option jsstring) (now : Z)
  (results : ValidationResult) : option SpokeStatus.t * ValidationResult :=
  match file with
  | None => (None, push_warning status_not_found results)
  | Some _ =>
      match (let! raw := loadYaml file in
             parse_or_throw StatusSchema_parse raw)
      with
      | inl status =>
          (Some status,
           match Date_parse (SpokeStatus.generatedAt status) with
           | Some generated =>
               let days := daysSince now generated in
               if negb (QArith_base.Qle_bool days (QArith_base.inject_Z 7))
               then push_warning (status_age_warning days) results
               else results
           | None => results
           end)
      | inr (ZodError err) =>
          (None,
           fold_left (fun r i => push_error (issue_line (js "status.yaml") i) r)
             err results)
      | inr (YamlException m) | inr (TypeError m) | inr (Error m) =>
          (None, push_error (js "status.yaml: " ++ m) results)
      end
  end.

(** [validateOperator(collabDir, results)] *)
Definition validateOperator (file : option jsstring) (results : ValidationResult)
  : option Operator.t * ValidationResult :=
  match file with
  | None => (None, push_warning (js "operator.yaml not found") results)
  | Some _ =>
      match (let! raw := loadYaml file in
             parse_or_throw OperatorSchema_parse raw)
      with
      | inl operator => (Some operator, results)
      | inr (ZodError err) =>
          (None,
           fold_left (fun r i => push_error (issue_line (js "operator.yaml") i) r)
             err results)
      | inr (YamlException m) | inr (TypeError m) | inr (Error m) =>
          (None, push_error (js "operator.yaml: " ++ m) results)
      end
  end.

(** The action of the [validate] command.  The three files are given by
    their contents, [signing] is what [getSigningConfig()] returns and [now]
    what [Date.now()] yields in [validateStatus].  The report on the
    security reflexes only prints, and is left out. *)
Definition validate (strict : bool) (manifestFile statusFile operatorFile : option jsstring)
  (signing : SigningConfig.t) (now : Z) : ValidateRun :=
  let results := mkValidationResult [] [] in
  let (manifest, results1) := validateManifest manifestFile results in
  let (status, results2) := validateStatus statusFile now results1 in
  let (operator, results3) := validateOperator operatorFile results2 in
  let results4 := validateSigning manifest signing results3 in
  let results5 := validateCrossFile manifest operator results4 in
  validate_summary strict results5.

(** What a document check adds to the results, and what it returns. *)
Definition no_results : ValidationResult := mkValidationResult [] [].

Definition add_results (a b : ValidationResult) : ValidationResult :=
  mkValidationResult (errors a ++ errors b) (warnings a ++ warnings b).

(** The typed document of a file that exists, loads and validates. *)
Definition accepted {A} (parse : value -> A + list ZodIssue)
  (file : option jsstring) : option A :=
  match file with
  | None => None
  | Some _ =>
      match (let! raw := loadYaml file in parse_or_throw parse raw) with
      | inl a => Some a
      | inr _ => None
      end
  end.

(** A file that exists and does not load or validate. *)
Definition rejected {A} (parse : value -> A + list ZodIssue)
  (file : option jsstring) : Prop :=
  exists content e,
    file = Some content
    /\ (let! raw := loadYaml file in parse_or_throw parse raw) = inr e.

(** The manifest and the operator disagree on the handle or on the key. *)
Definition cross_mismatch (m : Manifest.t) (o : Operator.t) : Prop :=
  Manifest.handle (Manifest.identity m) <> Operator.handle o
  \/ Manifest.publicKey (Manifest.identity m)
     <> Operator.publicKey (Operator.signing o).

(** The signing configuration is complete: SSH format, automatic signing,
    and a signing key. *)
Definition signing_configured (signing : SigningConfig.t) : Prop :=
  SigningConfig.format signing = Some (js "ssh")
  /\ SigningConfig.gpgSign signing = true
  /\ truthy_string (SigningConfig.signingKey signing) = true.

(** The fingerprint of the signing key and the fingerprint the manifest
    declares are both there, and differ. *)
Definition fingerprints_differ (manifest : option Manifest.t)
  (signing : SigningConfig.t) : Prop :=
  exists m fp fp',
    manifest = Some m
    /\ SigningConfig.fingerprint signing = Some fp
    /\ Manifest.fingerprint (Manifest.identity m) = Some fp'
    /\ fp <> [] /\ fp' <> [] /\ fp <> fp'.

(** The typed status and the typed operator profile that [init] means to
    write. *)
Definition init_status_typed (generatedAt lastCommit version : jsstring)
  : SpokeStatus.t :=
  SpokeStatus.mk generatedAt (js "hive-spoke " ++ version) (js "specify")
    (SpokeStatus.mkTests 0 0)
    (SpokeStatus.mkGit (js "main") lastCommit false 0).

Definition init_identities (ghHandle : option jsstring) (verified_at : jsstring)
  : list value :=
  match ghHandle with
  | Some (c :: gh) =>
      [VObj [(js "provider", VStr (js "github")); (js "id", VStr (c :: gh));
             (js "verified", VBool true); (js "verified_at", VStr verified_at)]]
  | _ => []
  end.

Definition init_hive (hub joined : jsstring) : value :=
  VObj [(js "hive", VStr hub); (js "role", VStr (js "contributor"));
        (js "trust_zone", VStr (js "untrusted"));
        (js "identity_provider", VStr (js "github"));
        (js "joined", VStr joined);
        (js "contributions", VNum (NumInt 0));
        (js "reviews", VNum (NumInt 0));
        (js "swarms", VNum (NumInt 0))].

Definition init_operator_typed (hub maintainerHandle displayName : jsstring)
  (ghHandle : option jsstring) (signing : SigningConfig.t)
  (verified_at joined : jsstring) : Operator.t :=
  Operator.mk maintainerHandle (Some displayName)
    (Operator.mkSigning (init_publicKey signing) (init_fingerprint signing))
    (init_identities ghHandle verified_at) [] (js "open")
    [init_hive hub joined].

(** The text is one that [Date.parse] reads. *)
Definition parses (s : jsstring) : Prop := exists t, Date_parse s = Some t.

(* ================================================================== *)
(** * Properties *)
(* ================================================================== *)

Example split_ws_ex1 : split_ws (js "a  b c") = [js "a"; js "b"; js "c"].
Proof. reflexivity. Qed.
Example split_ws_ex2 : split_ws (js " a ") = [[]; js "a"; []].
Proof. reflexivity. Qed.
Example split_on_ex : split_on 10 [97; 10; 10; 98]%N = [[97]; []; [98]]%N.
Proof. reflexivity. Qed.
Example trim_ex : trim (js "  a b  ") = js "a b".
Proof. reflexivity. Qed.

(** ** Strings *)

Lemma str_eqb_eq (a b : jsstring) : str_eqb a b = true <-> a = b.
Proof.
  revert b; induction a as [|x a IH]; intros [|y b]; simpl; split; intro H;
    try reflexivity; try discriminate.
  - apply andb_true_iff in H as [H1 H2].
    apply N.eqb_eq in H1. apply IH in H2. congruence.
  - inversion H; subst. rewrite N.eqb_refl. simpl. now apply IH.
Qed.

Lemma str_eqb_refl (a : jsstring) : str_eqb a a = true.
Proof. now apply str_eqb_eq. Qed.

Lemma str_eqb_neq (a b : jsstring) : str_eqb a b = false <-> a <> b.
Proof.
  split; intro H.
  - intro E. apply str_eqb_eq in E. congruence.
  - destruct (str_eqb a b) eqn:E; [|reflexivity].
    apply str_eqb_eq in E. contradiction.
Qed.

Lemma str_eqb_sym (a b : jsstring) : str_eqb a b = str_eqb b a.
Proof.
  destruct (str_eqb a b) eqn:E.
  - apply str_eqb_eq in E. subst. now rewrite str_eqb_refl.
  - symmetry. apply str_eqb_neq. apply str_eqb_neq in E. congruence.
Qed.

Lemma startsWith_prefix (s p : jsstring) :
  startsWith s p = true <-> prefix_match s p.
Proof.
  unfold prefix_match. revert s; induction p as [|y p IH]; intros s; simpl.
  - split; [intros _; now exists s | now destruct s].
  - destruct s as [|x s].
    + split; [discriminate | intros [r Hr]; discriminate].
    + rewrite andb_true_iff, N.eqb_eq, IH. split.
      * intros [-> [r ->]]. now exists r.
      * intros [r Hr]. inversion Hr; subst. split; [reflexivity | now exists r].
Qed.

(** ** White space, [trim] and [split] *)

Lemma trimStart_split (s : jsstring) :
  exists w, s = w ++ trimStart s /\ forallb is_ws w = true.
Proof.
  induction s as [|c s [w [E W]]]; simpl.
  - now exists [].
  - destruct (is_ws c) eqn:C.
    + exists (c :: w). simpl. rewrite C, W. split; [now f_equal | reflexivity].
    + now exists [].
Qed.

Lemma trimStart_starts (s : jsstring) : starts_ws (trimStart s) = false.
Proof.
  induction s as [|c s IH]; simpl; [reflexivity|].
  destruct (is_ws c) eqn:C; [assumption | simpl; assumption].
Qed.

Lemma trimEnd_split (s : jsstring) :
  exists w, s = trimEnd s ++ w /\ forallb is_ws w = true.
Proof.
  unfold trimEnd. destruct (trimStart_split (rev s)) as [w [E W]].
  exists (rev w). split.
  - rewrite <- rev_app_distr, <- E. now rewrite rev_involutive.
  - rewrite forallb_forall in *. intros x Hx. apply W. now apply in_rev.
Qed.

Lemma ends_ws_snoc (s : jsstring) (c : N) : ends_ws (s ++ [c]) = is_ws c.
Proof.
  induction s as [|x s IH]; simpl; [reflexivity|].
  destruct (s ++ [c]) eqn:E; [now destruct s | assumption].
Qed.

Lemma ends_ws_rev (l : jsstring) : ends_ws (rev l) = starts_ws l.
Proof. destruct l as [|c l]; simpl; [reflexivity | apply ends_ws_snoc]. Qed.

Lemma trimEnd_ends (s : jsstring) : ends_ws (trimEnd s) = false.
Proof. unfold trimEnd. rewrite ends_ws_rev. apply trimStart_starts. Qed.

Lemma trimEnd_starts (s : jsstring) :
  starts_ws s = false -> starts_ws (trimEnd s) = false.
Proof.
  intros H. destruct (trimEnd_split s) as [w [E W]].
  destruct (trimEnd s) as [|c t] eqn:T; [reflexivity|].
  rewrite E in H. exact H.
Qed.

Lemma trim_starts (s : jsstring) : starts_ws (trim s) = false.
Proof. apply trimEnd_starts, trimStart_starts. Qed.

Lemma trim_ends (s : jsstring) : ends_ws (trim s) = false.
Proof. apply trimEnd_ends. Qed.

Lemma words_trimStart (s : jsstring) : words (trimStart s) = words s.
Proof.
  induction s as [|c s IH]; [reflexivity|].
  simpl trimStart. destruct (is_ws c) eqn:C; [|reflexivity].
  rewrite IH. simpl. now rewrite C.
Qed.

Lemma words_all_ws (w : jsstring) : forallb is_ws w = true -> words w = [].
Proof.
  induction w as [|c w IH]; simpl; [reflexivity|].
  intros H. apply andb_true_iff in H as [C W]. rewrite C. auto.
Qed.

Lemma words_starts (s : jsstring) :
  s <> [] -> starts_ws s = false -> words s <> [].
Proof.
  destruct s as [|c s]; [congruence|]. simpl. intros _ ->.
  destruct s as [|c' s]; [discriminate|].
  destruct (is_ws c'); [discriminate|].
  destruct (words (c' :: s)); discriminate.
Qed.

Lemma words_app_ws (s w : jsstring) :
  forallb is_ws w = true -> words (s ++ w) = words s.
Proof.
  intros W. induction s as [|c s IH].
  - simpl. now apply words_all_ws.
  - change ((c :: s) ++ w) with (c :: (s ++ w)).
    simpl. destruct (is_ws c) eqn:C; [exact IH|].
    destruct s as [|c' s].
    + simpl. destruct w as [|x w]; [reflexivity|].
      simpl in W. apply andb_true_iff in W as [X W]. rewrite X.
      f_equal. change (words (x :: w) = []). apply words_all_ws.
      simpl. now rewrite X, W.
    + change ((c' :: s) ++ w) with (c' :: (s ++ w)) in *.
      cbv iota. destruct (is_ws c'); now rewrite IH.
Qed.

Lemma words_trim (s : jsstring) : words (trim s) = words s.
Proof.
  unfold trim. rewrite <- (words_trimStart s).
  destruct (trimEnd_split (trimStart s)) as [w [E W]].
  rewrite E at 2. now rewrite words_app_ws.
Qed.

(** What [split(/\s+/)] returns, in terms of the tokens: an empty piece in
    front when the string is empty or begins with white space, then the
    tokens, then an empty piece when the string ends with white space. *)
Lemma split_ws_words (s : jsstring) :
  split_ws s =
  (match s with [] => [[]] | c :: _ => if is_ws c then [[]] else [] end)
  ++ words s ++ (if ends_ws s then [[]] else []).
Proof.
  induction s as [|c s IH]; [reflexivity|].
  cbn [split_ws words ends_ws]. rewrite IH. clear IH.
  destruct (is_ws c) eqn:C.
  - destruct s as [|c' s]; [reflexivity|].
    destruct (is_ws c'); reflexivity.
  - destruct s as [|c' s]; [reflexivity|].
    destruct (is_ws c') eqn:C'; [reflexivity|].
    pose proof (@words_starts (c' :: s)) as Hne.
    destruct (words (c' :: s)) as [|t ts]; [|reflexivity].
    exfalso. apply Hne; [discriminate | exact C' | reflexivity].
Qed.

Lemma split_ws_trim (line : jsstring) :
  trim line <> [] -> split_ws (trim line) = words line.
Proof.
  intros H. rewrite split_ws_words, trim_ends, words_trim, app_nil_r.
  pose proof (trim_starts line) as S.
  destruct (trim line) as [|c t]; [congruence|].
  simpl in S. now rewrite S.
Qed.

Lemma trim_nil_words (line : jsstring) : trim line = [] -> words line = [].
Proof. intros H. rewrite <- words_trim, H. reflexivity. Qed.

Lemma trim_comment (line : jsstring) :
  startsWith (trim line) hash = is_comment line.
Proof.
  unfold is_comment, trim.
  pose proof (trimStart_starts line) as S.
  destruct (trimEnd_split (trimStart line)) as [w [E W]].
  pose proof (trimEnd_starts _ S) as S'.
  destruct (trimEnd (trimStart line)) as [|c t] eqn:T.
  - simpl in E. rewrite E. destruct w as [|x w]; [reflexivity|].
    simpl in W. apply andb_true_iff in W as [X _].
    rewrite E in S. simpl in S. congruence.
  - rewrite E. reflexivity.
Qed.

(** ** The insertion-ordered map *)

Lemma Map_get_set {V} (k k' : jsstring) (v : V) (m : JsMap V) :
  Map_get k (Map_set k' v m) = if str_eqb k' k then Some v else Map_get k m.
Proof.
  induction m as [|[k0 v0] m IH]; simpl.
  - reflexivity.
  - destruct (str_eqb k0 k') eqn:E; simpl.
    + apply str_eqb_eq in E. subst k0.
      destruct (str_eqb k' k); reflexivity.
    + destruct (str_eqb k0 k) eqn:E'; [|exact IH].
      apply str_eqb_eq in E'. subst k0. now rewrite str_eqb_sym, E.
Qed.

Lemma Map_set_keys {V} (k : jsstring) (v : V) (m : JsMap V) :
  Map_keys (Map_set k v m) =
  if mem_str k (Map_keys m) then Map_keys m else Map_keys m ++ [k].
Proof.
  unfold Map_keys. induction m as [|[k0 v0] m IH]; simpl; [reflexivity|].
  rewrite (str_eqb_sym k k0).
  destruct (str_eqb k0 k) eqn:E; simpl; [reflexivity|].
  rewrite IH. destruct (mem_str k (map fst m)); reflexivity.
Qed.

Lemma Map_set_fresh {V} (k : jsstring) (v : V) (m : JsMap V) :
  mem_str k (Map_keys m) = false -> Map_set k v m = m ++ [(k, v)].
Proof.
  unfold Map_keys. induction m as [|[k0 v0] m IH]; simpl; [reflexivity|].
  intros H. apply orb_false_iff in H as [H1 H2].
  rewrite str_eqb_sym, H1. f_equal. auto.
Qed.

Lemma mem_str_In (k : jsstring) (l : list jsstring) :
  mem_str k l = true <-> In k l.
Proof.
  unfold mem_str. rewrite existsb_exists. split.
  - intros [x [Hx E]]. apply str_eqb_eq in E. now subst.
  - intros H. exists k. split; [assumption | apply str_eqb_refl].
Qed.

Lemma mem_str_app (k : jsstring) (l l' : list jsstring) :
  mem_str k (l ++ l') = mem_str k l || mem_str k l'.
Proof. apply existsb_app. Qed.

Lemma find_app {A} (P : A -> bool) (l l' : list A) :
  find P (l ++ l') = match find P l with Some x => Some x | None => find P l' end.
Proof.
  induction l as [|x l IH]; simpl; [reflexivity|].
  destruct (P x); [reflexivity | exact IH].
Qed.

Lemma last_for_cons (e : jsstring) (s : AllowedSigner) (l : list AllowedSigner) :
  last_for e (s :: l) =
  match last_for e l with
  | Some x => Some x
  | None => if has_email e s then Some s else None
  end.
Proof. unfold last_for. simpl. now rewrite find_app. Qed.

Lemma fold_file_entry_get (e : jsstring) (l : list AllowedSigner)
  (m : JsMap AllowedSigner) :
  Map_get e (fold_left file_entry l m) =
  match last_for e l with Some s => Some s | None => Map_get e m end.
Proof.
  revert m; induction l as [|s l IH]; intros m; [reflexivity|].
  simpl fold_left. rewrite IH, last_for_cons.
  destruct (last_for e l); [reflexivity|].
  unfold file_entry, has_email. rewrite Map_get_set.
  destruct (str_eqb (email s) e); reflexivity.
Qed.

Lemma fold_file_entry_keys (l : list AllowedSigner) (m : JsMap AllowedSigner) :
  Map_keys (fold_left file_entry l m) =
  Map_keys m ++ distinct_acc (Map_keys m) (List.map email l).
Proof.
  revert m; induction l as [|s l IH]; intros m; simpl.
  - now rewrite app_nil_r.
  - rewrite IH. unfold file_entry. rewrite Map_set_keys.
    destruct (mem_str (email s) (Map_keys m)); [reflexivity|].
    now rewrite <- app_assoc.
Qed.

Lemma fold_file_entry_fresh (l : list AllowedSigner) (m : JsMap AllowedSigner) :
  NoDup (List.map email l) ->
  (forall s, In s l -> mem_str (email s) (Map_keys m) = false) ->
  fold_left file_entry l m = m ++ List.map (fun s => (email s, s)) l.
Proof.
  revert m; induction l as [|s l IH]; intros m ND Fr; simpl.
  - now rewrite app_nil_r.
  - inversion ND as [|? ? Hnin ND']; subst.
    unfold file_entry at 2. rewrite Map_set_fresh by (apply Fr; now left).
    fold (file_entry).
    rewrite IH; [now rewrite <- app_assoc | assumption |].
    intros x Hx. unfold Map_keys. rewrite map_app. simpl.
    rewrite mem_str_app. fold (Map_keys m). rewrite (Fr x) by now right. simpl.
    rewrite orb_false_r. apply str_eqb_neq. intros E.
    apply Hnin. rewrite <- E. now apply in_map.
Qed.

Lemma distinct_acc_NoDup (seen l : list jsstring) :
  NoDup (distinct_acc seen l)
  /\ (forall k, In k (distinct_acc seen l) -> In k l /\ ~ In k seen)
  /\ (forall k, In k l -> In k seen \/ In k (distinct_acc seen l)).
Proof.
  revert seen; induction l as [|k l IH]; intros seen; simpl.
  - repeat split; try constructor; try contradiction.
  - destruct (mem_str k seen) eqn:M.
    + destruct (IH seen) as (N & I & C). repeat split.
      * assumption.
      * right. now apply I.
      * now apply I.
      * intros x [->|Hx]; [left; now apply mem_str_In | now apply C].
    + destruct (IH (seen ++ [k])) as (N & I & C). repeat split.
      * constructor; [|assumption]. intros H. apply I in H as [_ H].
        apply H. apply in_or_app. right. now left.
      * destruct H as [->|H]; [now left | right; now apply I].
      * destruct H as [->|H].
        -- intros H. apply mem_str_In in H. congruence.
        -- apply I in H as [_ H]. intros H'. apply H.
           apply in_or_app. now left.
      * intros x [->|Hx]; [right; now left|].
        destruct (C x Hx) as [H|H]; [|right; now right].
        apply in_app_or in H as [H|[->|[]]]; [now left | right; now left].
Qed.

Lemma distinct_acc_length (seen l : list jsstring) :
  List.length (distinct_acc seen l) <= List.length l.
Proof.
  revert seen; induction l as [|k l IH]; intros seen; simpl; [lia|].
  destruct (mem_str k seen); [specialize (IH seen) | specialize (IH (seen ++ [k]))];
    simpl; lia.
Qed.

Lemma distinct_acc_seen_lt (seen l : list jsstring) (x : jsstring) :
  In x l -> In x seen ->
  List.length (distinct_acc seen l) < List.length l.
Proof.
  revert seen; induction l as [|k l IH]; intros seen Hl Hs; simpl; [contradiction|].
  destruct (mem_str k seen) eqn:M.
  - pose proof (distinct_acc_length seen l). lia.
  - destruct Hl as [->|Hl].
    + apply mem_str_In in Hs. congruence.
    + simpl. apply Nat.succ_lt_mono with (n := List.length (distinct_acc (seen ++ [k]) l)) (m := List.length l).
      apply IH; [assumption | apply in_or_app; now left].
Qed.

Lemma distinct_acc_twice_lt (seen l : list jsstring) (e : jsstring) :
  2 <= List.length (filter (str_eqb e) l) ->
  List.length (distinct_acc seen l) < List.length l.
Proof.
  revert seen; induction l as [|k l IH]; intros seen H; simpl in *; [lia|].
  destruct (str_eqb e k) eqn:E.
  - apply str_eqb_eq in E. subst k. simpl in H.
    assert (In e l) as Hin.
    { destruct (filter (str_eqb e) l) as [|y ys] eqn:F; [simpl in H; lia|].
      assert (In y (filter (str_eqb e) l)) as Hy by (rewrite F; now left).
      apply filter_In in Hy as [Hy Ey]. apply str_eqb_eq in Ey. now subst. }
    destruct (mem_str e seen) eqn:M.
    + pose proof (distinct_acc_length seen l). lia.
    + simpl. apply -> Nat.succ_lt_mono.
      apply distinct_acc_seen_lt with (x := e); [assumption|].
      apply in_or_app. right. now left.
  - destruct (mem_str k seen).
    + specialize (IH seen H). lia.
    + specialize (IH (seen ++ [k]) H). simpl. lia.
Qed.

Lemma NoDup_count_one (e : jsstring) (l : list jsstring) :
  NoDup l -> In e l -> List.length (filter (fun k => str_eqb k e) l) = 1.
Proof.
  induction 1 as [|k l Hnin ND IH]; simpl; [contradiction|].
  intros [->|Hin].
  - rewrite str_eqb_refl. simpl. f_equal.
    rewrite (proj2 (length_zero_iff_nil _)); [reflexivity|].
    destruct (filter (fun k => str_eqb k e) l) as [|y ys] eqn:F; [reflexivity|].
    assert (In y (filter (fun k => str_eqb k e) l)) as Hy by (rewrite F; now left).
    apply filter_In in Hy as [Hy Ey]. apply str_eqb_eq in Ey. now subst.
  - destruct (str_eqb k e) eqn:E; [|now apply IH].
    apply str_eqb_eq in E. now subst.
Qed.

Lemma find_rev_last {A} (P : A -> bool) (l : list A) (s : A) :
  find P (rev l) = Some s ->
  exists before after, l = before ++ s :: after /\ P s = true
                       /\ (forall x, In x after -> P x = false).
Proof.
  induction l as [|x l IH] using rev_ind; [discriminate|].
  rewrite rev_app_distr. simpl. destruct (P x) eqn:Px.
  - intros [= <-]. exists l, []. repeat split; [assumption | contradiction].
  - intros H. destruct (IH H) as (b & a & -> & Ps & Ha).
    exists b, (a ++ [x]). rewrite <- app_assoc. repeat split; [assumption|].
    intros y Hy. apply in_app_or in Hy as [Hy|[<-|[]]]; auto.
Qed.

Lemma find_rev_none {A} (P : A -> bool) (l : list A) :
  find P (rev l) = None -> filter P l = [].
Proof.
  intros H. destruct (filter P l) as [|y ys] eqn:F; [reflexivity|].
  assert (In y (filter P l)) as Hy by (rewrite F; now left).
  apply filter_In in Hy as [Hy Py].
  pose proof (find_none _ _ H y (proj1 (in_rev _ _) Hy)). congruence.
Qed.

(** ** Parsing the trust-anchor file *)

Lemma parse_line_entry (m : JsMap AllowedSigner) (line : jsstring) :
  parse_line m line =
  match line_entry line with
  | Some s => file_entry m s
  | None => m
  end.
Proof.
  unfold parse_line, line_entry. rewrite <- trim_comment.
  destruct (trim line) as [|c t] eqn:T.
  - rewrite (trim_nil_words line T). reflexivity.
  - rewrite <- T. destruct (startsWith (trim line) hash); [reflexivity|].
    rewrite split_ws_trim by (rewrite T; discriminate).
    destruct (words line) as [|e [|kt [|kd rest]]]; reflexivity.
Qed.

Lemma fold_parse_line (lines : list jsstring) (m : JsMap AllowedSigner) :
  fold_left parse_line lines m =
  fold_left file_entry (filter_map line_entry lines) m.
Proof.
  revert m; induction lines as [|line lines IH]; intros m; [reflexivity|].
  simpl. rewrite parse_line_entry.
  destruct (line_entry line); simpl; apply IH.
Qed.

Lemma parseAllowedSigners_fold (text : jsstring) :
  parseAllowedSigners (Some text) = fold_left file_entry (line_entries text) [].
Proof. apply fold_parse_line. Qed.

Lemma line_entry_none (line : jsstring) :
  trim line = [] \/ is_comment line = true \/ List.length (words line) < 3 ->
  line_entry line = None.
Proof.
  unfold line_entry. intros [H|[H|H]].
  - rewrite (trim_nil_words line H). now destruct (is_comment line).
  - now rewrite H.
  - destruct (is_comment line); [reflexivity|].
    destruct (words line) as [|e [|kt [|kd rest]]]; simpl in H; try reflexivity; lia.
Qed.

Lemma count_has_email (e : jsstring) (l : list AllowedSigner) :
  List.length (filter (str_eqb e) (List.map email l))
  = List.length (filter (has_email e) l).
Proof.
  induction l as [|s l IH]; [reflexivity|]. simpl.
  unfold has_email at 1. rewrite (str_eqb_sym e).
  destruct (str_eqb (email s) e); simpl; now rewrite IH.
Qed.

Lemma count_key {V} (e : jsstring) (m : JsMap V) :
  List.length (filter (fun kv => str_eqb (fst kv) e) m)
  = List.length (filter (fun k => str_eqb k e) (Map_keys m)).
Proof.
  unfold Map_keys. induction m as [|[k v] m IH]; [reflexivity|].
  simpl. destruct (str_eqb k e); simpl; now rewrite IH.
Qed.

(** C2, as amended.  The registry parsed from a trust-anchor text is
    determined by the entries of its well-formed lines (not blank, not a
    comment, at least three tokens), where the entry of a line has the first
    token as email, the second as key type and, as comparison key, the key
    type and the THIRD token joined by one space (tokens after the third are
    dropped).  Looking up an email yields the entry of the last well-formed
    line with that email; the keys are the distinct emails in order of first
    occurrence; when the emails are pairwise distinct the registry is exactly
    the list of these entries, one per well-formed line; blank lines, comment
    lines and lines with fewer than three tokens contribute nothing. *)
Theorem parseAllowedSigners_entries (text : jsstring) :
  let reg := parseAllowedSigners (Some text) in
  let entries := line_entries text in
  (forall e, Map_get e reg = last_for e entries)
  /\ Map_keys reg = distinct (List.map email entries)
  /\ (NoDup (List.map email entries) ->
      reg = List.map (fun s => (email s, s)) entries)
  /\ (forall line, line_entry line <> None ->
        trim line <> [] /\ is_comment line = false
        /\ exists e kt kd rest,
             words line = e :: kt :: kd :: rest
             /\ line_entry line = Some (mkSigner e kt (kt ++ space ++ kd))).
Proof.
  cbv zeta. rewrite parseAllowedSigners_fold. repeat split.
  - intros e. rewrite fold_file_entry_get. now destruct (last_for e _).
  - now rewrite fold_file_entry_keys.
  - intros ND. now rewrite fold_file_entry_fresh.
  - intros T. apply H. apply line_entry_none. now left.
  - destruct (is_comment line) eqn:C; [|reflexivity].
    exfalso. apply H. apply line_entry_none. right. now left.
  - unfold line_entry in *. destruct (is_comment line); [congruence|].
    destruct (words line) as [|e [|kt [|kd rest]]]; try congruence.
    now exists e, kt, kd, rest.
Qed.

(** C2, counterexample.  On a line with a fourth token the stored comparison
    key is not the key type followed by all remaining tokens rejoined: the
    fourth token is dropped. *)
Lemma parseAllowedSigners_drops_fourth_token :
  let line := js "alice@example.com ssh-ed25519 AAAA123 alice@laptop" in
  exists s,
    Map_get (js "alice@example.com") (parseAllowedSigners (Some line)) = Some s
    /\ publicKey s = js "ssh-ed25519 AAAA123"
    /\ rejoined_key line = js "ssh-ed25519 AAAA123 alice@laptop"
    /\ publicKey s <> rejoined_key line.
Proof.
  eexists. split; [reflexivity|]. split; [reflexivity|].
  split; [reflexivity | discriminate].
Qed.

(** C10.  When two or more well-formed lines carry the same email, the
    registry has exactly one entry under that email, it is the entry of the
    last such line, and the size of the registry is the number of distinct
    emails, which is smaller than the number of well-formed lines. *)
Theorem parseAllowedSigners_last_wins (text e : jsstring) :
  let reg := parseAllowedSigners (Some text) in
  let entries := line_entries text in
  2 <= List.length (filter (has_email e) entries) ->
  List.length (filter (fun kv => str_eqb (fst kv) e) reg) = 1
  /\ (exists before s after,
         entries = before ++ s :: after /\ email s = e
         /\ (forall x, In x after -> email x <> e)
         /\ Map_get e reg = Some s)
  /\ Map_size reg = List.length (distinct (List.map email entries))
  /\ Map_size reg < List.length entries.
Proof.
  cbv zeta. intros H.
  destruct (parseAllowedSigners_entries text) as (Hget & Hkeys & _).
  cbv zeta in Hget, Hkeys.
  assert (Map_size (parseAllowedSigners (Some text))
          = List.length (distinct (List.map email (line_entries text)))) as Hsize.
  { unfold Map_size. rewrite <- Hkeys. unfold Map_keys. now rewrite length_map. }
  pose proof (count_has_email e (line_entries text)) as Hcount.
  repeat split.
  - rewrite count_key. rewrite Hkeys. unfold distinct.
    destruct (distinct_acc_NoDup [] (List.map email (line_entries text)))
      as (ND & _ & C).
    apply NoDup_count_one; [assumption|].
    destruct (filter (str_eqb e) (List.map email (line_entries text)))
      as [|y ys] eqn:F; [rewrite <- Hcount in H; simpl in H; lia|].
    assert (In y (filter (str_eqb e) (List.map email (line_entries text)))) as Hy
      by (rewrite F; now left).
    apply filter_In in Hy as [Hy Ey]. apply str_eqb_eq in Ey. subst y.
    destruct (C e Hy) as [[]|Hd]. exact Hd.
  - rewrite Hget. unfold last_for.
    destruct (find (has_email e) (rev (line_entries text))) as [s|] eqn:F.
    + destruct (find_rev_last _ _ F) as (b & a & E & Ps & Ha).
      exists b, s, a. repeat split; try assumption.
      * now apply str_eqb_eq.
      * intros x Hx. apply str_eqb_neq. now apply Ha.
    + apply find_rev_none in F. rewrite F in H. simpl in H. lia.
  - exact Hsize.
  - rewrite Hsize. unfold distinct.
    rewrite <- (length_map email (line_entries text)).
    apply distinct_acc_twice_lt with (e := e). now rewrite Hcount.
Qed.

(** C10 at a concrete text. *)
Lemma parseAllowedSigners_last_wins_witness :
  2 <= List.length (filter (has_email (js "a@x")) (line_entries sample_signers))
  /\ Map_get (js "a@x") (parseAllowedSigners (Some sample_signers))
     = Some (mkSigner (js "a@x") (js "ssh-ed25519") (js "ssh-ed25519 CCCC"))
  /\ Map_size (parseAllowedSigners (Some sample_signers)) = 2
  /\ Map_size (parseAllowedSigners (Some sample_signers))
     < List.length (line_entries sample_signers).
Proof.
  assert (2 <= List.length (filter (has_email (js "a@x"))
                              (line_entries sample_signers))) as H
    by (vm_compute; lia).
  split; [exact H|].
  destruct (parseAllowedSigners_last_wins sample_signers (js "a@x") H)
    as (_ & _ & _ & Hlt).
  split; [reflexivity|]. split; [reflexivity | exact Hlt].
Defined.

(** ** Key matching *)

Lemma keyPartsMatch_pieces (spokeKey signerKey : jsstring) :
  keyPartsMatch spokeKey signerKey = true <-> pieces_match spokeKey signerKey.
Proof.
  unfold keyPartsMatch, pieces_match, part.
  destruct (split_ws spokeKey) as [|t [|d r]];
    destruct (split_ws signerKey) as [|t' [|d' r']]; simpl;
    try (split; [discriminate | intros (? & ? & ? & ? & ? & ?); discriminate]).
  rewrite andb_true_iff, !str_eqb_eq. split.
  - intros [-> ->]. now exists t', d', r, r'.
  - intros (? & ? & ? & ? & E1 & E2). inversion E1; inversion E2; subst. auto.
Qed.

Lemma matchLoop_local_scan (spokeKey : jsstring) (entries : JsMap AllowedSigner)
  (n : nat) :
  matchLoop_local spokeKey entries n =
  scan (fun s => startsWith spokeKey (publicKey s)
                 || keyPartsMatch spokeKey (publicKey s)) entries n.
Proof.
  revert n; induction entries as [|[k s] rest IH]; intros n; simpl; [reflexivity|].
  destruct (startsWith spokeKey (publicKey s)); simpl; [reflexivity|].
  destruct (keyPartsMatch spokeKey (publicKey s)); [reflexivity | apply IH].
Qed.

Lemma matchLoop_remote_scan (spokeKey : jsstring) (entries : JsMap AllowedSigner)
  (n : nat) :
  matchLoop_remote spokeKey entries n =
  scan (fun s => keyPartsMatch spokeKey (publicKey s)) entries n.
Proof.
  revert n; induction entries as [|[k s] rest IH]; intros n; simpl; [reflexivity|].
  destruct (keyPartsMatch spokeKey (publicKey s)); [reflexivity | apply IH].
Qed.

Section Scan.
Variable t : AllowedSigner -> bool.
Variable P : AllowedSigner -> Prop.
Hypothesis t_spec : forall s, t s = true <-> P s.

Lemma scan_flags (entries : JsMap AllowedSigner) (n : nat) :
  keyMatch (scan t entries n) = inAllowedSigners (scan t entries n).
Proof.
  revert n; induction entries as [|[k s] rest IH]; intros n; simpl; [reflexivity|].
  destruct (t s); [reflexivity | apply IH].
Qed.

Lemma scan_hit (entries : JsMap AllowedSigner) (n : nat) :
  inAllowedSigners (scan t entries n) = true ->
  exists before kv after,
    entries = before ++ kv :: after /\ P (snd kv)
    /\ (forall x, In x before -> ~ P (snd x))
    /\ visited (scan t entries n) = S (n + List.length before).
Proof.
  revert n; induction entries as [|[k s] rest IH]; intros n; simpl; [discriminate|].
  destruct (t s) eqn:T; simpl.
  - intros _. exists [], (k, s), rest. repeat split.
    + now apply t_spec.
    + contradiction.
    + simpl. f_equal. lia.
  - intros H. destruct (IH (S n) H) as (b & kv & a & -> & Pkv & Hb & Hv).
    exists ((k, s) :: b), kv, a. repeat split; try assumption.
    + intros x [<-|Hx]; [|now apply Hb].
      simpl. intros Ps. apply t_spec in Ps. congruence.
    + rewrite Hv. simpl. lia.
Qed.

Lemma scan_miss (entries : JsMap AllowedSigner) (n : nat) :
  inAllowedSigners (scan t entries n) = false ->
  (forall x, In x entries -> ~ P (snd x))
  /\ visited (scan t entries n) = n + List.length entries.
Proof.
  revert n; induction entries as [|[k s] rest IH]; intros n; simpl.
  - intros _. split; [contradiction | lia].
  - destruct (t s) eqn:T; simpl; [discriminate|].
    intros H. destruct (IH (S n) H) as [Hn Hv]. split.
    + intros x [<-|Hx]; [|now apply Hn].
      simpl. intros Ps. apply t_spec in Ps. congruence.
    + rewrite Hv. lia.
Qed.

Lemma scan_first_match (entries : JsMap AllowedSigner) :
  first_match P entries (scan t entries 0).
Proof.
  unfold first_match. split; [split|split; [|split]].
  - intros H. destruct (@scan_hit entries 0 H) as (b & kv & a & -> & Pkv & _).
    exists kv. split; [apply in_or_app; right; now left | assumption].
  - intros (kv & Hin & Pkv).
    destruct (inAllowedSigners (scan t entries 0)) eqn:E; [reflexivity|].
    destruct (@scan_miss entries 0 E) as [Hn _]. exfalso. now apply (Hn kv).
  - apply scan_flags.
  - intros H. destruct (@scan_hit entries 0 H) as (b & kv & a & E & Pkv & Hb & Hv).
    now exists b, kv, a.
  - intros H. exact (@scan_miss entries 0 H).
Qed.
End Scan.

(** C1, as amended.  For every spoke key and every registry, the loop visits
    the entries in insertion order, sets [inAllowedSigners] (and [keyMatch])
    exactly when some entry matches, stops at the first matching entry, and
    leaves the flags false after exhausting the registry.  In the variant
    that reads the spoke documents from the hub checkout an entry matches
    when (a) the spoke key begins with the entry's key or (b) the first two
    white-space separated pieces of both keys are pairwise equal; in the
    variant that fetches them from the spoke repository an entry matches
    under (b) alone. *)
Theorem verify_first_match (spokeKey : jsstring) (reg : JsMap AllowedSigner) :
  first_match (entry_matches_local spokeKey) reg (matchLoop_local spokeKey reg 0)
  /\ first_match (entry_matches_remote spokeKey) reg
       (matchLoop_remote spokeKey reg 0).
Proof.
  split.
  - rewrite matchLoop_local_scan. apply scan_first_match.
    intros s. unfold entry_matches_local.
    rewrite orb_true_iff, startsWith_prefix, keyPartsMatch_pieces. reflexivity.
  - rewrite matchLoop_remote_scan. apply scan_first_match.
    intros s. apply keyPartsMatch_pieces.
Qed.

(** C1, counterexample.  The registry entry [ssh-ed25519 AAAA123] is a prefix
    of the spoke key [ssh-ed25519 AAAA123X], so the entry matches under (a);
    the variant that fetches from the spoke repository reports no match. *)
Lemma verify_remote_ignores_prefix :
  (exists kv, In kv alice_registry
              /\ prefix_match longer_key (publicKey (snd kv)))
  /\ inAllowedSigners (matchLoop_remote longer_key alice_registry 0) = false
  /\ inAllowedSigners (matchLoop_local longer_key alice_registry 0) = true.
Proof.
  split; [|split; reflexivity].
  eexists. split; [left; reflexivity|]. simpl. now exists (js "X").
Qed.

Example verify_alice_matches :
  inAllowedSigners (matchLoop_local alice_key alice_registry 0) = true
  /\ inAllowedSigners (matchLoop_remote alice_key alice_registry 0) = true.
Proof. split; reflexivity. Qed.

Example verify_other_does_not_match :
  inAllowedSigners (matchLoop_local other_key alice_registry 0) = false
  /\ inAllowedSigners (matchLoop_remote other_key alice_registry 0) = false.
Proof. split; reflexivity. Qed.

(** ** Schemas: the validation collects every violation *)

Lemma ZodType_nested_ind (P : ZodType -> Prop) :
  (forall checks, P (ZodString checks)) ->
  (forall lit, P (ZodLiteral lit)) ->
  (forall values errorMap, P (ZodEnum values errorMap)) ->
  P ZodBoolean ->
  (forall checks, P (ZodNumber checks)) ->
  (forall shape, Forall (fun field => P (snd field)) shape -> P (ZodObject shape)) ->
  (forall element, P element -> P (ZodArray element)) ->
  (forall inner, P inner -> P (ZodOptional inner)) ->
  (forall inner d, P inner -> P (ZodDefault inner d)) ->
  (forall inner f msg, P inner -> P (ZodEffects inner f msg)) ->
  forall schema, P schema.
Proof.
  intros Hs Hl He Hb Hn Ho Ha Hopt Hd Hf.
  fix IH 1. intros [checks|lit|values em| |checks|shape|el|inner|inner d|inner f msg].
  - apply Hs.
  - apply Hl.
  - apply He.
  - apply Hb.
  - apply Hn.
  - apply Ho. induction shape as [|[k s] rest IHr]; constructor.
    + apply IH.
    + apply IHr.
  - apply Ha, IH.
  - apply Hopt, IH.
  - apply Hd, IH.
  - apply Hf, IH.
Qed.

Lemma failed_checks_at {C I} (ok : C -> I -> bool)
  (issue : C -> list PathSeg -> ZodIssue) (checks : list C) (input : I)
  (p : list PathSeg) :
  (forall c q, issue c q = mkIssue (code (issue c [])) q (message (issue c []))) ->
  failed_checks ok issue checks input p
  = List.map (at_path p) (failed_checks ok issue checks input []).
Proof.
  intros Hi. unfold failed_checks.
  induction checks as [|c cs IH]; simpl; [reflexivity|].
  rewrite map_app, <- IH. f_equal.
  destruct (ok c input); simpl; [reflexivity|].
  unfold at_path. rewrite (Hi c p), (Hi c []). simpl. now rewrite app_nil_r.
Qed.

Lemma string_check_issue_at (c : StringCheck) (q : list PathSeg) :
  string_check_issue c q
  = mkIssue (code (string_check_issue c [])) q (message (string_check_issue c [])).
Proof. destruct c; reflexivity. Qed.

Lemma number_check_issue_at (c : NumberCheck) (q : list PathSeg) :
  number_check_issue c q
  = mkIssue (code (number_check_issue c [])) q (message (number_check_issue c [])).
Proof. destruct c; reflexivity. Qed.

Lemma at_path_app (p q : list PathSeg) (i : ZodIssue) :
  at_path (p ++ q) i = at_path p (at_path q i).
Proof. unfold at_path. simpl. now rewrite app_assoc. Qed.

Lemma at_path_nil (i : ZodIssue) : at_path [] i = i.
Proof. now destruct i. Qed.

Lemma map_at_path_nil (l : list ZodIssue) : List.map (at_path []) l = l.
Proof.
  induction l as [|i l IH]; simpl; [reflexivity|].
  now rewrite at_path_nil, IH.
Qed.

Lemma relocate_app (p q : list PathSeg) (r : ParseReturn) :
  relocate (p ++ q) r = relocate p (relocate q r).
Proof.
  unfold relocate. simpl. f_equal. rewrite map_map.
  apply map_ext. intros i. apply at_path_app.
Qed.

Lemma relocate_checked (p : list PathSeg) (data : value) (iss : list ZodIssue) :
  checked data (List.map (at_path p) iss) = relocate p (checked data iss).
Proof. destruct iss; reflexivity. Qed.

Lemma merge_status_relocate (p : list PathSeg) (rs : list ParseReturn) :
  merge_status (List.map (relocate p) rs) = merge_status rs.
Proof.
  unfold merge_status.
  assert (forall f : ParseReturn -> bool,
             (forall r, f (relocate p r) = f r) ->
             existsb f (List.map (relocate p) rs) = existsb f rs) as H.
  { intros f Hf. induction rs as [|r rs IH]; simpl; [reflexivity|].
    now rewrite Hf, IH. }
  rewrite !H; reflexivity.
Qed.

Lemma flat_map_map_issues {A} (f : ZodIssue -> ZodIssue)
  (g : A -> list ZodIssue) (l : list A) :
  flat_map (fun x => List.map f (g x)) l = List.map f (flat_map g l).
Proof.
  induction l as [|x l IH]; simpl; [reflexivity|].
  now rewrite map_app, IH.
Qed.

Lemma mergeObject_relocate (p : list PathSeg) (props : list (jsstring * value))
  (pairs : list (jsstring * ParseReturn)) :
  mergeObject props (List.map (relocate_field p) pairs)
  = relocate p (mergeObject props pairs).
Proof.
  unfold mergeObject. unfold relocate at 1. simpl.
  assert (List.map snd (List.map (relocate_field p) pairs)
          = List.map (relocate p) (List.map snd pairs)) as E1.
  { rewrite !map_map. reflexivity. }
  assert (filter_map (keep props) (List.map (relocate_field p) pairs)
          = filter_map (keep props) pairs) as E2.
  { clear E1. induction pairs as [|[k r] l IH]; simpl; [reflexivity|].
    destruct (output r); rewrite IH; reflexivity. }
  assert (flat_map (fun pair => issues (snd pair)) (List.map (relocate_field p) pairs)
          = List.map (at_path p) (flat_map (fun pair => issues (snd pair)) pairs)) as E3.
  { clear E1 E2. rewrite <- flat_map_map_issues.
    induction pairs as [|[k r] l IH]; simpl; [reflexivity|]. now rewrite IH. }
  rewrite E1, E2, E3, merge_status_relocate. reflexivity.
Qed.

Lemma mergeArray_relocate (p : list PathSeg) (rs : list ParseReturn) :
  mergeArray (List.map (relocate p) rs) = relocate p (mergeArray rs).
Proof.
  unfold mergeArray. rewrite merge_status_relocate.
  assert (List.map output (List.map (relocate p) rs) = List.map output rs) as E1
    by (rewrite map_map; reflexivity).
  assert (flat_map issues (List.map (relocate p) rs)
          = List.map (at_path p) (flat_map issues rs)) as E2.
  { clear E1. rewrite <- flat_map_map_issues.
    induction rs as [|r l IH]; simpl; [reflexivity|]. now rewrite IH. }
  rewrite E1, E2. reflexivity.
Qed.

Lemma mapi_ext {A B} (f g : nat -> A -> B) (i : nat) (l : list A) :
  (forall j x, f j x = g j x) -> mapi f i l = mapi g i l.
Proof.
  intros H. revert i; induction l as [|x l IH]; intros i; simpl; [reflexivity|].
  now rewrite H, IH.
Qed.

Lemma map_mapi {A B C} (h : B -> C) (f : nat -> A -> B) (i : nat) (l : list A) :
  List.map h (mapi f i l) = mapi (fun j x => h (f j x)) i l.
Proof.
  revert i; induction l as [|x l IH]; intros i; simpl; [reflexivity|].
  now rewrite IH.
Qed.

(** The status and the output of a parse do not depend on the path at which
    it runs, and its issues are those of the parse at the root, reported
    below that path. *)
Ltac relocate_leaf :=
  unfold relocate, INVALID, OK, at_path; simpl; rewrite ?app_nil_r; reflexivity.

Lemma parse_relocate (schema : ZodType) :
  forall p data, _parse schema p data = relocate p (_parse schema [] data).
Proof.
  induction schema as [checks|lit|values em| |checks|shape IH|el IH|inner IH
                      |inner d IH|inner f msg IH] using ZodType_nested_ind;
    intros p data.
  - destruct data; try relocate_leaf. cbn [_parse].
    rewrite (failed_checks_at _ _ _ _ p string_check_issue_at).
    apply relocate_checked.
  - destruct data; try relocate_leaf. simpl.
    destruct (str_eqb s lit); relocate_leaf.
  - destruct data; try relocate_leaf. simpl.
    destruct (mem_str s values); relocate_leaf.
  - destruct data; relocate_leaf.
  - destruct data as [| | |n| | | |]; try relocate_leaf. cbn [_parse].
    destruct n; try relocate_leaf;
      rewrite (failed_checks_at _ _ _ _ p number_check_issue_at);
      apply relocate_checked.
  - destruct data; try relocate_leaf. simpl.
    rewrite <- mergeObject_relocate. f_equal.
    rewrite map_map. apply map_ext_in. intros [k s] Hin.
    rewrite Forall_forall in IH. specialize (IH (k, s) Hin). simpl in IH.
    unfold relocate_field. simpl. f_equal.
    rewrite (IH (p ++ [Key k])), (IH [Key k]). apply relocate_app.
  - destruct data; try relocate_leaf. simpl.
    rewrite <- mergeArray_relocate. f_equal.
    rewrite map_mapi. apply mapi_ext. intros j x.
    rewrite (IH (p ++ [Index j])), (IH [Index j]). apply relocate_app.
  - destruct data; try relocate_leaf; simpl; apply IH.
  - destruct data; simpl; apply IH.
  - simpl. rewrite (IH p data).
    destruct (_parse inner [] data) as [st out iss]. simpl.
    destruct st; simpl; try reflexivity;
      destruct (f out); unfold relocate, at_path; simpl;
      rewrite ?map_app; simpl; rewrite ?app_nil_r; reflexivity.
Qed.

Lemma merge_status_valid (rs : list ParseReturn) :
  merge_status rs = valid <-> forall r, In r rs -> status r = valid.
Proof.
  unfold merge_status. induction rs as [|r rs IH]; simpl.
  - split; [contradiction | reflexivity].
  - unfold is_aborted at 1, is_dirty at 1.
    destruct (status r) eqn:S; simpl.
    + rewrite IH. split.
      * intros H x [<-|Hx]; [assumption | now apply H].
      * intros H x Hx. apply H. now right.
    + split; [|intros H; specialize (H r (or_introl eq_refl)); congruence].
      destruct (existsb is_aborted rs); discriminate.
    + split; [discriminate|].
      intros H; specialize (H r (or_introl eq_refl)); congruence.
Qed.

Lemma flat_map_nil {A B} (f : A -> list B) (l : list A) :
  flat_map f l = [] <-> forall x, In x l -> f x = [].
Proof.
  induction l as [|x l IH]; simpl.
  - split; [contradiction | reflexivity].
  - split.
    + intros H. apply app_eq_nil in H as [H1 H2].
      intros y [<-|Hy]; [assumption | now apply IH].
    + intros H. rewrite (H x (or_introl eq_refl)). simpl.
      apply IH. intros y Hy. apply H. now right.
Qed.

Lemma In_mapi {A B} (f : nat -> A -> B) (n : nat) (l : list A) (y : B) :
  In y (mapi f n l) <->
  exists i x, nth_error l i = Some x /\ y = f (n + i) x.
Proof.
  revert n; induction l as [|a l IH]; intros n; simpl.
  - split; [contradiction|]. intros (i & x & H & _). now destruct i.
  - rewrite IH. split.
    + intros [<-|(i & x & H & ->)].
      * exists 0, a. split; [reflexivity | now rewrite Nat.add_0_r].
      * exists (S i), x. split; [assumption | f_equal; lia].
    + intros (i & x & H & ->). destruct i as [|i]; simpl in H.
      * left. inversion H; subst. now rewrite Nat.add_0_r.
      * right. exists i, x. split; [assumption | f_equal; lia].
Qed.

(** A parse is valid exactly when it reported no issue. *)
Lemma parse_valid_iff (schema : ZodType) :
  forall p data,
    status (_parse schema p data) = valid <-> issues (_parse schema p data) = [].
Proof.
  induction schema as [checks|lit|values em| |checks|shape IH|el IH|inner IH
                      |inner d IH|inner f msg IH] using ZodType_nested_ind;
    intros p data.
  - destruct data; simpl; try (split; discriminate).
    destruct (failed_checks _ _ _ _ _); simpl; split; try reflexivity; discriminate.
  - destruct data; simpl; try (split; discriminate).
    destruct (str_eqb s lit); simpl; split; try reflexivity; discriminate.
  - destruct data; simpl; try (split; discriminate).
    destruct (mem_str s values); simpl; split; try reflexivity; discriminate.
  - destruct data; simpl; split; try reflexivity; discriminate.
  - destruct data as [| | |n| | | |]; simpl; try (split; discriminate).
    destruct n; simpl; try (split; discriminate);
      destruct (failed_checks _ _ _ _ _); simpl; split; try reflexivity; discriminate.
  - destruct data; simpl; try (split; discriminate).
    rewrite merge_status_valid, flat_map_nil. rewrite Forall_forall in IH.
    split.
    + intros H [k r] Hin. simpl.
      apply in_map_iff in Hin as ([k' s] & E & Hin). inversion E; subst.
      apply (IH (k, s) Hin). apply H. apply in_map_iff.
      eexists. split; [|apply in_map_iff; exists (k, s); split; [reflexivity | exact Hin]].
      reflexivity.
    + intros H r Hin. apply in_map_iff in Hin as ([k r'] & E & Hin).
      simpl in E. subst r'. pose proof (H _ Hin) as Hr. simpl in Hr.
      apply in_map_iff in Hin as ([k' s] & E & Hin). inversion E; subst.
      now apply (IH (k, s) Hin).
  - destruct data; simpl; try (split; discriminate).
    rewrite merge_status_valid, flat_map_nil. split.
    + intros H r Hin. pose proof (H r Hin) as Hr.
      apply In_mapi in Hin as (i & x & _ & ->). now apply IH.
    + intros H r Hin. pose proof (H r Hin) as Hr.
      apply In_mapi in Hin as (i & x & _ & ->). now apply IH.
  - destruct data; simpl; try apply IH. split; reflexivity.
  - destruct data; simpl; apply IH.
  - simpl. specialize (IH p data).
    destruct (_parse inner p data) as [st out iss]. simpl in *.
    destruct st; simpl.
    + destruct (f out); simpl; [exact IH|].
      split; [discriminate | intros H; now apply app_eq_nil in H as [_ H]].
    + destruct (f out); simpl; [exact IH|].
      split; [discriminate | intros H; now apply app_eq_nil in H as [_ H]].
    + split; [discriminate|]. intros H. apply IH in H. discriminate.
Qed.

Lemma failed_checks_In {C I} (ok : C -> I -> bool)
  (issue : C -> list PathSeg -> ZodIssue) (checks : list C) (input : I)
  (p : list PathSeg) (i : ZodIssue) :
  In i (failed_checks ok issue checks input p) <->
  exists c, In c checks /\ ok c input = false /\ i = issue c p.
Proof.
  unfold failed_checks. rewrite in_flat_map. split.
  - intros (c & Hc & Hi). exists c. destruct (ok c input); [contradiction|].
    destruct Hi as [<-|[]]. auto.
  - intros (c & Hc & Hok & ->). exists c. rewrite Hok. split; [assumption | now left].
Qed.

Lemma string_check_issue_path (c : StringCheck) (p : list PathSeg) :
  path (string_check_issue c p) = p.
Proof. now destruct c. Qed.

Lemma number_check_issue_path (c : NumberCheck) (p : list PathSeg) :
  path (number_check_issue c p) = p.
Proof. now destruct c. Qed.

Lemma parse_object_issues (shape : list (jsstring * ZodType))
  (props : list (jsstring * value)) (i : ZodIssue) :
  In i (issues (_parse (ZodObject shape) [] (VObj props))) <->
  exists k s i0, In (k, s) shape
                 /\ In i0 (issues (_parse s [] (get k props)))
                 /\ i = at_path [Key k] i0.
Proof.
  simpl. rewrite in_flat_map. split.
  - intros ([k r] & Hin & Hi). simpl in Hi.
    apply in_map_iff in Hin as ([k' s] & E & Hin). inversion E; subst.
    rewrite parse_relocate in Hi. simpl in Hi.
    apply in_map_iff in Hi as (i0 & <- & Hi0). now exists k, s, i0.
  - intros (k & s & i0 & Hin & Hi0 & ->).
    exists (k, _parse s [Key k] (get k props)). split.
    + apply in_map_iff. exists (k, s). split; [reflexivity | assumption].
    + simpl. rewrite parse_relocate. simpl. now apply in_map.
Qed.

Lemma parse_array_issues (element : ZodType) (items : list value) (i : ZodIssue) :
  In i (issues (_parse (ZodArray element) [] (VArr items))) <->
  exists n item i0, nth_error items n = Some item
                    /\ In i0 (issues (_parse element [] item))
                    /\ i = at_path [Index n] i0.
Proof.
  simpl. rewrite in_flat_map. split.
  - intros (r & Hin & Hi). apply In_mapi in Hin as (n & item & Hn & ->).
    rewrite parse_relocate in Hi. simpl in Hi.
    apply in_map_iff in Hi as (i0 & <- & Hi0). now exists n, item, i0.
  - intros (n & item & i0 & Hn & Hi0 & ->).
    exists (_parse element [Index n] item). split.
    + apply In_mapi. now exists n, item.
    + rewrite parse_relocate. simpl. now apply in_map.
Qed.

Lemma violates_reported (schema : ZodType) (data : value) (q : list PathSeg) :
  violates schema data q ->
  exists i, In i (issues (_parse schema [] data)) /\ path i = q.
Proof.
  induction 1 as [checks data Hd|checks input c Hc Hok|lit data Hd
                 |values em data Hd|data Hd|checks data Hd|checks n c Hn Hc Hok
                 |shape data Hd|shape props k s p Hin Hv IH|el data Hd
                 |el items n item p Hn Hv IH|inner data p Hd Hv IH
                 |inner d p Hv IH|inner d data p Hd Hv IH
                 |inner f msg data p Hv IH|inner f msg data Hst Hf].
  - destruct data; try (eexists; split; [left; reflexivity | reflexivity]).
    now destruct (Hd s).
  - eexists. split.
    + cbn [_parse issues checked]. apply failed_checks_In.
      exists c. repeat split; assumption.
    + apply string_check_issue_path.
  - destruct data; try (eexists; split; [left; reflexivity | reflexivity]).
    simpl. destruct (str_eqb s lit) eqn:E.
    + apply str_eqb_eq in E. congruence.
    + eexists; split; [left; reflexivity | reflexivity].
  - destruct data; try (eexists; split; [left; reflexivity | reflexivity]).
    simpl. rewrite (Hd s eq_refl).
    eexists; split; [left; reflexivity | reflexivity].
  - destruct data; try (eexists; split; [left; reflexivity | reflexivity]).
    now destruct (Hd b).
  - destruct data as [| | |n| | | |];
      try (eexists; split; [left; reflexivity | reflexivity]).
    rewrite (Hd n eq_refl). eexists; split; [left; reflexivity | reflexivity].
  - destruct n; try congruence.
    + eexists. split.
      * cbn [_parse issues checked]. apply failed_checks_In.
        exists c. repeat split; assumption.
      * apply number_check_issue_path.
    + eexists. split.
      * cbn [_parse issues checked]. apply failed_checks_In.
        exists c. repeat split; assumption.
      * apply number_check_issue_path.
  - destruct data; try (eexists; split; [left; reflexivity | reflexivity]).
    now destruct (Hd props).
  - destruct IH as (i0 & Hi0 & <-). exists (at_path [Key k] i0). split.
    + apply parse_object_issues. now exists k, s, i0.
    + reflexivity.
  - destruct data; try (eexists; split; [left; reflexivity | reflexivity]).
    now destruct (Hd items).
  - destruct IH as (i0 & Hi0 & <-). exists (at_path [Index n] i0). split.
    + apply parse_array_issues. now exists n, item, i0.
    + reflexivity.
  - destruct IH as (i0 & Hi0 & <-). exists i0. split; [|reflexivity].
    destruct data; try assumption. congruence.
  - destruct IH as (i0 & Hi0 & <-). now exists i0.
  - destruct IH as (i0 & Hi0 & <-). exists i0. split; [|reflexivity].
    destruct data; try assumption. congruence.
  - destruct IH as (i0 & Hi0 & <-). exists i0. split; [|reflexivity].
    simpl. destruct (_parse inner [] data) as [st out iss]. simpl in *.
    destruct st; simpl; try assumption;
      destruct (f out); simpl; try assumption; apply in_or_app; now left.
  - exists (mkIssue custom [] msg). split; [|reflexivity].
    simpl. destruct (_parse inner [] data) as [st out iss]. simpl in *.
    rewrite Hf. destruct st; simpl; try congruence;
      apply in_or_app; right; now left.
Qed.

Lemma reported_violates (schema : ZodType) :
  forall data i, In i (issues (_parse schema [] data)) ->
                 violates schema data (path i).
Proof.
  induction schema as [checks|lit|values em| |checks|shape IH|el IH|inner IH
                      |inner d IH|inner f msg IH] using ZodType_nested_ind;
    intros data i Hi.
  - destruct data;
      try (destruct Hi as [<-|[]]; apply viol_string_type; discriminate).
    cbn [_parse issues checked] in Hi.
    apply failed_checks_In in Hi as (c & Hc & Hok & ->).
    rewrite string_check_issue_path. now apply viol_string_check with (c := c).
  - destruct data;
      try (destruct Hi as [<-|[]]; apply viol_literal; discriminate).
    simpl in Hi. destruct (str_eqb s lit) eqn:E; [contradiction|].
    destruct Hi as [<-|[]]. apply viol_literal.
    apply str_eqb_neq in E. congruence.
  - destruct data;
      try (destruct Hi as [<-|[]]; apply viol_enum; discriminate).
    simpl in Hi. destruct (mem_str s values) eqn:E; [contradiction|].
    destruct Hi as [<-|[]]. apply viol_enum. now intros ? [= <-].
  - destruct data;
      try (destruct Hi as [<-|[]]; apply viol_boolean; discriminate).
    contradiction.
  - destruct data as [| | |n| | | |];
      try (destruct Hi as [<-|[]]; apply viol_number_type; discriminate).
    destruct n.
    + cbn [_parse issues checked] in Hi.
      apply failed_checks_In in Hi as (c & Hc & Hok & ->).
      rewrite number_check_issue_path.
      apply viol_number_check with (c := c); [discriminate | assumption..].
    + cbn [_parse issues checked] in Hi.
      apply failed_checks_In in Hi as (c & Hc & Hok & ->).
      rewrite number_check_issue_path.
      apply viol_number_check with (c := c); [discriminate | assumption..].
    + destruct Hi as [<-|[]]. apply viol_number_type. now intros ? [= <-].
  - destruct data;
      try (destruct Hi as [<-|[]]; apply viol_object_type; discriminate).
    apply parse_object_issues in Hi as (k & s & i0 & Hin & Hi0 & ->).
    rewrite Forall_forall in IH. simpl.
    apply viol_object_field with (s := s); [assumption|].
    now apply (IH (k, s) Hin).
  - destruct data;
      try (destruct Hi as [<-|[]]; apply viol_array_type; discriminate).
    apply parse_array_issues in Hi as (n & item & i0 & Hn & Hi0 & ->).
    simpl. apply viol_array_item with (item := item); [assumption|].
    now apply IH.
  - destruct data; try (apply viol_optional; [discriminate | now apply IH]).
    contradiction.
  - destruct data;
      try (apply viol_default_present; [discriminate | now apply IH]).
    apply viol_default_absent. now apply IH.
  - simpl in Hi.
    destruct (status (_parse inner [] data)) eqn:St.
    + destruct (f (output (_parse inner [] data))) eqn:F.
      * apply viol_effects_inner. now apply IH.
      * simpl in Hi. apply in_app_or in Hi as [Hi|[<-|[]]].
        -- apply viol_effects_inner. now apply IH.
        -- apply viol_effects; [congruence | assumption].
    + destruct (f (output (_parse inner [] data))) eqn:F.
      * apply viol_effects_inner. now apply IH.
      * simpl in Hi. apply in_app_or in Hi as [Hi|[<-|[]]].
        -- apply viol_effects_inner. now apply IH.
        -- apply viol_effects; [congruence | assumption].
    + apply viol_effects_inner. now apply IH.
Qed.

(** ** Schemas: one violation for every broken constraint *)

Lemma issue_of_at (c : Constraint) (v : value) (q p : list PathSeg) :
  at_path q (issue_of c v p) = issue_of c v (q ++ p).
Proof. destruct c as [| [] | | | [] |]; reflexivity. Qed.

Lemma issue_of_path (c : Constraint) (v : value) (p : list PathSeg) :
  path (issue_of c v p) = p.
Proof. destruct c as [| [] | | | [] |]; reflexivity. Qed.

Lemma issue_of_message (c : Constraint) (v : value) (p : list PathSeg) :
  message (issue_of c v p) = constraint_message c.
Proof. destruct c as [| [] | | | [] |]; reflexivity. Qed.

Lemma breaks_reported (schema : ZodType) (data : value) (q : list PathSeg)
  (c : Constraint) (v : value) :
  breaks schema data q c v -> In (issue_of c v q) (issues (_parse schema [] data)).
Proof.
  induction 1 as [checks data Hd|checks input c Hc Hok|lit data Hd
                 |values em data Hd|values em input Hm|data Hd|checks data Hd
                 |checks n c Hn Hc Hok
                 |shape data Hd|shape props k s p c v Hin Hv IH|el data Hd
                 |el items n item p c v Hn Hv IH|inner data p c v Hd Hv IH
                 |inner d p c v Hv IH|inner d data p c v Hd Hv IH
                 |inner f msg data p c v Hv IH|inner f msg data Hst Hf].
  - destruct data; try (left; reflexivity). now destruct (Hd s).
  - cbn [_parse issues checked issue_of]. apply failed_checks_In.
    exists c. repeat split; assumption.
  - destruct data; try (left; reflexivity). simpl.
    destruct (str_eqb s lit) eqn:E; [|left; reflexivity].
    apply str_eqb_eq in E. congruence.
  - destruct data; try (left; reflexivity). now destruct (Hd s).
  - simpl. rewrite Hm. left; reflexivity.
  - destruct data; try (left; reflexivity). now destruct (Hd b).
  - destruct data as [| | |n| | | |]; try (left; reflexivity).
    rewrite (Hd n eq_refl). left; reflexivity.
  - destruct n; try congruence;
      cbn [_parse issues checked issue_of]; apply failed_checks_In;
      exists c; repeat split; assumption.
  - destruct data; try (left; reflexivity). now destruct (Hd props).
  - apply parse_object_issues. exists k, s, (issue_of c v p).
    split; [assumption|]. split; [assumption|]. now rewrite issue_of_at.
  - destruct data; try (left; reflexivity). now destruct (Hd items).
  - apply parse_array_issues. exists n, item, (issue_of c v p).
    split; [assumption|]. split; [assumption|]. now rewrite issue_of_at.
  - destruct data; try assumption. congruence.
  - assumption.
  - destruct data; try assumption. congruence.
  - simpl. destruct (_parse inner [] data) as [st out iss]. simpl in *.
    destruct st; simpl; try assumption;
      destruct (f out); simpl; try assumption; apply in_or_app; now left.
  - simpl. destruct (_parse inner [] data) as [st out iss]. simpl in *.
    rewrite Hf. destruct st; simpl; try congruence;
      apply in_or_app; right; now left.
Qed.

Lemma reported_breaks (schema : ZodType) :
  forall data i, In i (issues (_parse schema [] data)) ->
                 exists p c v, breaks schema data p c v /\ i = issue_of c v p.
Proof.
  induction schema as [checks|lit|values em| |checks|shape IH|el IH|inner IH
                      |inner d IH|inner f msg IH] using ZodType_nested_ind;
    intros data i Hi.
  - destruct data;
      try (destruct Hi as [<-|[]];
           eexists [], _, _; split;
           [apply br_string_kind; discriminate | reflexivity]).
    cbn [_parse issues checked] in Hi.
    apply failed_checks_In in Hi as (c & Hc & Hok & ->).
    exists [], (string_check c), (VStr s).
    split; [now apply br_string_check | reflexivity].
  - destruct data;
      try (destruct Hi as [<-|[]];
           eexists [], _, _; split;
           [apply br_literal; discriminate | reflexivity]).
    simpl in Hi. destruct (str_eqb s lit) eqn:E; [contradiction|].
    destruct Hi as [<-|[]]. exists [], (equals_literal lit), (VStr s).
    split; [|reflexivity].
    apply br_literal. apply str_eqb_neq in E. congruence.
  - destruct data;
      try (destruct Hi as [<-|[]];
           eexists [], _, _; split;
           [apply br_enum_kind; discriminate | reflexivity]).
    simpl in Hi. destruct (mem_str s values) eqn:E; [contradiction|].
    destruct Hi as [<-|[]]. exists [], (one_of_enum values em), (VStr s).
    split; [now apply br_enum | reflexivity].
  - destruct data;
      try (destruct Hi as [<-|[]];
           eexists [], _, _; split;
           [apply br_boolean; discriminate | reflexivity]).
    contradiction.
  - destruct data as [| | |n| | | |];
      try (destruct Hi as [<-|[]];
           eexists [], _, _; split;
           [apply br_number_kind; discriminate | reflexivity]).
    destruct n.
    + cbn [_parse issues checked] in Hi.
      apply failed_checks_In in Hi as (c & Hc & Hok & ->).
      exists [], (number_check c), (VNum (NumInt z)). split; [|reflexivity].
      apply br_number_check; [discriminate | assumption..].
    + cbn [_parse issues checked] in Hi.
      apply failed_checks_In in Hi as (c & Hc & Hok & ->).
      exists [], (number_check c), (VNum (NumFrac negative)). split; [|reflexivity].
      apply br_number_check; [discriminate | assumption..].
    + destruct Hi as [<-|[]].
      exists [], (of_kind (a_type t_number) None), (VNum NumNaN).
      split; [|reflexivity].
      apply br_number_kind. now intros ? [= <-].
  - destruct data;
      try (destruct Hi as [<-|[]];
           eexists [], _, _; split;
           [apply br_object_kind; discriminate | reflexivity]).
    apply parse_object_issues in Hi as (k & s & i0 & Hin & Hi0 & ->).
    rewrite Forall_forall in IH.
    destruct (IH (k, s) Hin _ _ Hi0) as (p & c & v & Hb & ->).
    exists (Key k :: p), c, v. split; [|now rewrite issue_of_at].
    now apply br_object_field with (s := s).
  - destruct data;
      try (destruct Hi as [<-|[]];
           eexists [], _, _; split;
           [apply br_array_kind; discriminate | reflexivity]).
    apply parse_array_issues in Hi as (n & item & i0 & Hn & Hi0 & ->).
    destruct (IH _ _ Hi0) as (p & c & v & Hb & ->).
    exists (Index n :: p), c, v. split; [|now rewrite issue_of_at].
    now apply br_array_item with (item := item).
  - destruct data; try contradiction;
      (destruct (IH _ _ Hi) as (p & c & v & Hb & ->); exists p, c, v;
       split; [apply br_optional; [discriminate | assumption] | reflexivity]).
  - destruct data;
      (destruct (IH _ _ Hi) as (p & c & v & Hb & ->); exists p, c, v;
       split; [|reflexivity]);
      try (apply br_default_present; [discriminate | assumption]).
    now apply br_default_absent.
  - simpl in Hi.
    assert (forall i0, In i0 (issues (_parse inner [] data)) ->
              exists p c v, breaks (ZodEffects inner f msg) data p c v
                            /\ i0 = issue_of c v p) as Inner.
    { intros i0 H0. destruct (IH _ _ H0) as (p & c & v & Hb & ->).
      exists p, c, v. split; [now apply br_effects_inner | reflexivity]. }
    destruct (status (_parse inner [] data)) eqn:St.
    + destruct (f (output (_parse inner [] data))) eqn:F; [now apply Inner|].
      simpl in Hi. apply in_app_or in Hi as [Hi|[<-|[]]]; [now apply Inner|].
      exists [], (passes_refinement msg), data. split; [|reflexivity].
      apply br_effects; [congruence | assumption].
    + destruct (f (output (_parse inner [] data))) eqn:F; [now apply Inner|].
      simpl in Hi. apply in_app_or in Hi as [Hi|[<-|[]]]; [now apply Inner|].
      exists [], (passes_refinement msg), data. split; [|reflexivity].
      apply br_effects; [congruence | assumption].
    + now apply Inner.
Qed.

(** ** Schemas: a valid parse returns a typed document *)

Lemma Map_get_absent {V} (k : jsstring) (m : JsMap V) :
  mem_str k (List.map fst m) = false -> Map_get k m = None.
Proof.
  induction m as [|[k' v] m IH]; simpl; [reflexivity|].
  intros H. apply orb_false_iff in H as [H1 H2].
  rewrite str_eqb_sym, H1. auto.
Qed.

Lemma keep_keys (props : list (jsstring * value))
  (pairs : list (jsstring * ParseReturn)) (k : jsstring) :
  mem_str k (List.map fst pairs) = false ->
  mem_str k (List.map fst (filter_map (keep props) pairs)) = false.
Proof.
  induction pairs as [|[k' r] l IH]; simpl; [reflexivity|].
  intros H. apply orb_false_iff in H as [H1 H2].
  destruct (output r); simpl; rewrite ?H1, ?IH; try reflexivity; try assumption.
  destruct (has_key k' props); simpl; rewrite ?H1, ?IH; auto.
Qed.

Lemma get_kept (props : list (jsstring * value))
  (pairs : list (jsstring * ParseReturn)) (k : jsstring) (r : ParseReturn) :
  distinct_keys (List.map fst pairs) = true -> In (k, r) pairs ->
  get k (filter_map (keep props) pairs) = output r.
Proof.
  induction pairs as [|[k' r'] l IH]; simpl; [contradiction|].
  intros D [E|Hin]; apply andb_true_iff in D as [D1 D2];
    apply negb_true_iff in D1.
  - inversion E; subst. unfold get.
    destruct (output r) eqn:O; simpl; rewrite ?str_eqb_refl; try reflexivity.
    destruct (has_key k props); simpl; rewrite ?str_eqb_refl; [reflexivity|].
    now rewrite Map_get_absent by now apply keep_keys.
  - assert (str_eqb k' k = false) as Hne.
    { apply str_eqb_neq. intros ->.
      assert (mem_str k (List.map fst l) = true) as M.
      { apply mem_str_In. apply in_map_iff. now exists (k, r). }
      congruence. }
    specialize (IH D2 Hin). unfold get in *.
    destruct (output r'); simpl; rewrite ?Hne; try assumption.
    destruct (has_key k' props); simpl; rewrite ?Hne; assumption.
Qed.

Lemma wf_schema_field (shape : list (jsstring * ZodType)) (k : jsstring)
  (s : ZodType) :
  wf_schema (ZodObject shape) = true -> In (k, s) shape -> wf_schema s = true.
Proof.
  simpl. intros H Hin. apply andb_true_iff in H as [_ H].
  rewrite forallb_forall in H. exact (H (k, s) Hin).
Qed.

(** A valid parse of a defined value returns a defined value. *)
Lemma parse_defined (schema : ZodType) :
  wf_schema schema = true ->
  forall p data, data <> VUndefined ->
                 status (_parse schema p data) = valid ->
                 output (_parse schema p data) <> VUndefined.
Proof.
  induction schema as [checks|lit|values em| |checks|shape IH|el IH|inner IH
                      |inner d IH|inner f msg IH] using ZodType_nested_ind;
    intros W p data Hd St.
  - destruct data; discriminate.
  - destruct data; try discriminate. simpl in *.
    destruct (str_eqb s lit); discriminate.
  - destruct data; try discriminate. simpl in *.
    destruct (mem_str s values); discriminate.
  - destruct data; discriminate.
  - destruct data as [| | |n| | | |]; try discriminate.
    destruct n; discriminate.
  - destruct data; try discriminate. simpl in St |- *. rewrite St. discriminate.
  - destruct data; try discriminate. simpl in St |- *. rewrite St. discriminate.
  - destruct data; try congruence; simpl in *; apply IH; auto; discriminate.
  - simpl in W. destruct d; try discriminate;
      (destruct data; simpl in *; apply IH; auto; discriminate).
  - simpl in St |- *. specialize (IH W p data Hd).
    destruct (_parse inner p data) as [st out iss]. simpl in *.
    destruct st; simpl in *; try discriminate;
      destruct (f out); simpl in *; try discriminate. auto.
Qed.

Lemma parse_typed (schema : ZodType) :
  wf_schema schema = true ->
  forall p data, status (_parse schema p data) = valid ->
                 typed schema (output (_parse schema p data)).
Proof.
  induction schema as [checks|lit|values em| |checks|shape IH|el IH|inner IH
                      |inner d IH|inner f msg IH] using ZodType_nested_ind;
    intros W p data St.
  - destruct data; try discriminate. cbn [_parse] in *.
    constructor. intros c Hc.
    destruct (string_check_ok c s) eqn:E; [reflexivity|]. exfalso.
    assert (In (string_check_issue c p)
              (failed_checks string_check_ok string_check_issue checks s p)) as Hi
      by (apply failed_checks_In; now exists c).
    destruct (failed_checks _ _ _ _ _); [contradiction | discriminate].
  - destruct data; try discriminate. simpl in *.
    destruct (str_eqb s lit) eqn:E; [|discriminate].
    apply str_eqb_eq in E. subst. constructor.
  - destruct data; try discriminate. simpl in *.
    destruct (mem_str s values) eqn:E; [|discriminate]. now constructor.
  - destruct data; try discriminate. constructor.
  - destruct data as [| | |n| | | |]; try discriminate.
    assert (n <> NumNaN) as Hn by (intros ->; discriminate).
    assert (_parse (ZodNumber checks) p (VNum n)
            = checked (VNum n)
                (failed_checks number_check_ok number_check_issue checks n p)) as E
      by (destruct n; [reflexivity | reflexivity | congruence]).
    rewrite E in *. constructor; [assumption|]. intros c Hc.
    destruct (number_check_ok c n) eqn:Ok; [reflexivity|]. exfalso.
    assert (In (number_check_issue c p)
              (failed_checks number_check_ok number_check_issue checks n p)) as Hi
      by (apply failed_checks_In; now exists c).
    destruct (failed_checks _ _ _ _ _); [contradiction | discriminate].
  - destruct data; try discriminate. simpl in St |- *.
    rewrite St. constructor. intros k s Hin.
    pose proof W as W'. simpl in W'. apply andb_true_iff in W' as [D _].
    rewrite Forall_forall in IH.
    set (pairs := List.map (fun field : jsstring * ZodType =>
                              let (k0, s0) := field in
                              (k0, _parse s0 (p ++ [Key k0]) (get k0 props))) shape) in *.
    assert (In (k, _parse s (p ++ [Key k]) (get k props)) pairs) as Hp
      by (apply in_map_iff; now exists (k, s)).
    rewrite (@get_kept props pairs k (_parse s (p ++ [Key k]) (get k props)));
      [| |exact Hp].
    + apply (IH (k, s) Hin); [now apply wf_schema_field with (shape := shape) (k := k)|].
      apply merge_status_valid with (r := _parse s (p ++ [Key k]) (get k props)) in St;
        [assumption|].
      apply in_map_iff. now exists (k, _parse s (p ++ [Key k]) (get k props)).
    + unfold pairs. rewrite map_map.
      erewrite map_ext; [exact D|]. now intros [].
  - destruct data; try discriminate. simpl in St |- *.
    rewrite St. constructor. intros item Hin.
    apply in_map_iff in Hin as (r & <- & Hr).
    pose proof (proj1 (merge_status_valid _) St r Hr) as Sr.
    apply In_mapi in Hr as (i & x & _ & ->). now apply IH.
  - destruct data; try (apply typed_optional_present; now apply IH).
    apply typed_optional_absent.
  - simpl in W. destruct d; try discriminate;
      (destruct data; simpl in St |- *;
       (apply typed_default;
        [now apply IH
        |eapply parse_defined; [exact W| |exact St]; discriminate])).
  - simpl in St |- *. specialize (IH W p data).
    destruct (_parse inner p data) as [st out iss]. simpl in *.
    destruct st; simpl in *; try discriminate;
      destruct (f out) eqn:F; simpl in *; try discriminate.
    apply typed_effects; auto.
Qed.

Lemma safeParse_reports (schema : ZodType) (raw : value) :
  wf_schema schema = true -> reports_every_violation schema raw.
Proof.
  intros W. unfold reports_every_violation, safeParse.
  pose proof (parse_valid_iff schema [] raw) as V.
  assert (forall p, violates schema raw p <->
                    exists i, In i (issues (_parse schema [] raw)) /\ path i = p) as R.
  { intros p. split; [apply violates_reported|].
    intros (i & Hi & <-). now apply reported_violates. }
  destruct (status (_parse schema [] raw)) eqn:St.
  - split.
    + intros p c v Hb. apply breaks_reported in Hb.
      rewrite (proj1 V eq_refl) in Hb. contradiction.
    + now apply parse_typed.
  - split; [intros E; apply V in E; discriminate|].
    split; [intros p c v; apply breaks_reported|].
    split; [apply reported_breaks | exact R].
  - split; [intros E; apply V in E; discriminate|].
    split; [intros p c v; apply breaks_reported|].
    split; [apply reported_breaks | exact R].
Qed.

Lemma wf_ManifestSchema : wf_schema ManifestSchema = true.
Proof. reflexivity. Qed.

Lemma wf_StatusSchema : wf_schema StatusSchema = true.
Proof. reflexivity. Qed.

Lemma wf_OperatorSchema : wf_schema OperatorSchema = true.
Proof. reflexivity. Qed.

(** ** Reading a validated document at its type *)

Lemma typed_object_inv (shape : list (jsstring * ZodType)) (doc : value) :
  typed (ZodObject shape) doc ->
  exists props, doc = VObj props /\ all_typed props shape.
Proof.
  intros H. inversion H as [| | | | |? props Hf| | | | |]; subst.
  exists props. split; [reflexivity|].
  induction shape as [|[k s] rest IH]; simpl; [exact I|]. split.
  - apply Hf. now left.
  - apply IH.
    + constructor. intros k' s' Hin. apply Hf. now right.
    + intros k' s' Hin. apply Hf. now right.
Qed.

Lemma typed_string_inv (checks : list StringCheck) (doc : value) :
  typed (ZodString checks) doc ->
  exists s, doc = VStr s /\ as_string doc = Some s
            /\ forall c, In c checks -> string_check_ok c s = true.
Proof. intros H. inversion H; subst. eauto. Qed.

Lemma typed_enum_inv (values : list jsstring) (em : option jsstring) (doc : value) :
  typed (ZodEnum values em) doc ->
  exists s, doc = VStr s /\ as_string doc = Some s /\ In s values.
Proof.
  intros H. inversion H; subst. eexists. repeat split. now apply mem_str_In.
Qed.

Lemma typed_boolean_inv (doc : value) :
  typed ZodBoolean doc -> exists b, doc = VBool b /\ as_boolean doc = Some b.
Proof. intros H. inversion H; subst. eauto. Qed.

Lemma typed_count_inv (doc : value) :
  typed (ZodNumber [Int; Nonnegative]) doc ->
  exists z, doc = VNum (NumInt z) /\ as_integer doc = Some z /\ (0 <= z)%Z.
Proof.
  intros H. inversion H as [| | | |? n Hn Hc| | | | | |]; subst.
  pose proof (Hc Int (or_introl eq_refl)) as H1.
  pose proof (Hc Nonnegative (or_intror (or_introl eq_refl))) as H2.
  destruct n; try discriminate. simpl in H2.
  exists z. repeat split. now apply Z.leb_le.
Qed.

Lemma typed_optional_inv (inner : ZodType) (doc : value) :
  typed (ZodOptional inner) doc -> doc = VUndefined \/ typed inner doc.
Proof. intros H. inversion H; subst; auto. Qed.

Lemma typed_default_optional_inv (inner : ZodType) (d doc : value) :
  typed (ZodDefault (ZodOptional inner) d) doc -> typed inner doc.
Proof.
  intros H. inversion H as [| | | | | | | | |? ? ? Hi Hd|]; subst.
  apply typed_optional_inv in Hi as [->|Hi]; [congruence | assumption].
Qed.

Lemma typed_date_inv (msg : option jsstring) (doc : value) :
  typed (ZodEffects (ZodString []) date_parses msg) doc ->
  exists s t, doc = VStr s /\ as_string doc = Some s /\ Date_parse s = Some t.
Proof.
  intros H. inversion H as [| | | | | | | | | |? ? ? ? Hi Hf]; subst.
  apply typed_string_inv in Hi as (s & -> & _ & _). simpl in Hf.
  destruct (Date_parse s) as [t|] eqn:E; [|discriminate].
  now exists s, t.
Qed.

Lemma typed_array_inv (element : ZodType) (doc : value) :
  typed (ZodArray element) doc ->
  exists items, doc = VArr items /\ forall item, In item items -> typed element item.
Proof. intros H. inversion H; subst. eauto. Qed.

Lemma as_optional_string (checks : list StringCheck) (doc : value) :
  typed (ZodOptional (ZodString checks)) doc ->
  exists o, as_optional as_string doc = Some o
            /\ forall s, o = Some s ->
                 forall c, In c checks -> string_check_ok c s = true.
Proof.
  intros H. apply typed_optional_inv in H as [->|H].
  - exists None. split; [reflexivity | discriminate].
  - apply typed_string_inv in H as (s & -> & _ & Hc).
    exists (Some s). split; [reflexivity|]. now intros ? [= <-].
Qed.

Lemma as_array_total {A} (f : value -> option A) (items : list value) :
  (forall item, In item items -> exists a, f item = Some a) ->
  exists l, as_array f items = Some l.
Proof.
  induction items as [|x rest IH]; intros H; simpl.
  - now exists [].
  - destruct (H x (or_introl eq_refl)) as [a ->].
    destruct IH as [l ->]; [intros; apply H; now right|].
    simpl. now eexists.
Qed.

Ltac read_fields :=
  repeat match goal with
         | E : ?x = Some _ |- context [bind ?x _] => rewrite E; cbn [bind]
         end.

Lemma min1_nonempty (msg : option jsstring) (s : jsstring) :
  (forall c, In c [Min 1 msg] -> string_check_ok c s = true) -> nonempty s.
Proof.
  intros H. specialize (H _ (or_introl eq_refl)). simpl in H.
  unfold nonempty. destruct s; [discriminate | simpl; lia].
Qed.

Lemma regex_matches (r : regexp) (msg : option jsstring) (s : jsstring) :
  (forall c, In c [Regex r msg] -> string_check_ok c s = true) -> test r s = true.
Proof. intros H. exact (H _ (or_introl eq_refl)). Qed.

Lemma startsWith_matches (p : jsstring) (msg : option jsstring) (s : jsstring) :
  (forall c, In c [StartsWith p msg] -> string_check_ok c s = true) ->
  prefix_match s p.
Proof. intros H. apply startsWith_prefix. exact (H _ (or_introl eq_refl)). Qed.

Lemma as_identity_typed (doc : value) :
  typed (ZodObject
           [(js "handle",
             ZodString [Min 1 (Some (js "Identity handle is required"))]);
            (js "publicKey",
             ZodString
               [StartsWith ed25519_prefix
                  (Some (js "Public key must be an Ed25519 SSH key"))]);
            (js "fingerprint",
             ZodOptional
               (ZodString
                  [Regex re_fingerprint
                     (Some (js "Fingerprint must be SHA256 format"))]))]) doc ->
  exists i, as_identity doc = Some i
            /\ nonempty (Manifest.handle i)
            /\ prefix_match (Manifest.publicKey i) ed25519_prefix
            /\ fingerprint_ok (Manifest.fingerprint i).
Proof.
  intros H. apply typed_object_inv in H as (props & -> & H).
  cbn [all_typed] in H. destruct H as (H1 & H2 & H3 & _).
  apply typed_string_inv in H1 as (h & _ & E1 & C1).
  apply typed_string_inv in H2 as (k & _ & E2 & C2).
  apply as_optional_string in H3 as (fp & E3 & C3).
  unfold as_identity. cbn [as_object bind]. read_fields.
  eexists. split; [reflexivity|]. cbn.
  split; [now apply min1_nonempty in C1|].
  split; [now apply startsWith_matches in C2|].
  intros x Hx. eapply regex_matches. exact (C3 x Hx).
Qed.

Lemma as_reflexes_typed (doc : value) :
  typed (ZodObject
           [(js "signing", ZodDefault (ZodOptional ZodBoolean) (VBool false));
            (js "secretScanning", ZodDefault (ZodOptional ZodBoolean) (VBool false));
            (js "sandboxEnforcer", ZodDefault (ZodOptional ZodBoolean) (VBool false));
            (js "contentFilter", ZodDefault (ZodOptional ZodBoolean) (VBool false))])
    doc ->
  exists r, as_reflexes doc = Some r.
Proof.
  intros H. apply typed_object_inv in H as (props & -> & H).
  cbn [all_typed] in H. destruct H as (H1 & H2 & H3 & H4 & _).
  apply typed_default_optional_inv, typed_boolean_inv in H1 as (b1 & _ & E1).
  apply typed_default_optional_inv, typed_boolean_inv in H2 as (b2 & _ & E2).
  apply typed_default_optional_inv, typed_boolean_inv in H3 as (b3 & _ & E3).
  apply typed_default_optional_inv, typed_boolean_inv in H4 as (b4 & _ & E4).
  unfold as_reflexes. cbn [as_object bind]. read_fields. now eexists.
Qed.

Lemma as_Manifest_typed (doc : value) :
  typed ManifestSchema doc ->
  exists m, as_Manifest doc = Some m /\ Manifest_valid m.
Proof.
  intros H. apply typed_object_inv in H as (props & -> & H).
  cbn [all_typed] in H.
  destruct H as (_ & H2 & H3 & H4 & H5 & H6 & H7 & H8 & H9 & _).
  apply typed_string_inv in H2 as (name & _ & E2 & C2).
  apply typed_string_inv in H3 as (hub & _ & E3 & C3).
  apply typed_string_inv in H4 as (project & _ & E4 & C4).
  apply typed_string_inv in H5 as (maintainer & _ & E5 & C5).
  apply typed_enum_inv in H6 as (license & _ & E6 & C6).
  apply as_identity_typed in H7 as (identity & E7 & C7).
  apply typed_default_optional_inv, typed_object_inv in H8 as (sec & Es & H8).
  cbn [all_typed] in H8. destruct H8 as (H8 & _).
  apply typed_default_optional_inv, as_reflexes_typed in H8 as (reflexes & E8).
  assert (exists st, as_optional as_manifest_status (get (js "status") props) = Some st
                     /\ forall x, st = Some x ->
                          nonempty_if_present (Manifest.test x)
                          /\ nonempty_if_present (Manifest.healthCheck x))
    as (st & E9 & C9).
  { apply typed_optional_inv in H9 as [->|H9].
    - exists None. split; [reflexivity | discriminate].
    - apply typed_object_inv in H9 as (sp & -> & H9).
      cbn [all_typed] in H9. destruct H9 as (T1 & T2 & _).
      apply as_optional_string in T1 as (t1 & Et1 & Ct1).
      apply as_optional_string in T2 as (t2 & Et2 & Ct2).
      unfold as_optional, as_manifest_status. cbn [as_object bind]. read_fields.
      eexists. split; [reflexivity|]. intros x [= <-]. cbn. split.
      + intros y Hy. eapply min1_nonempty. exact (Ct1 y Hy).
      + intros y Hy. eapply min1_nonempty. exact (Ct2 y Hy). }
  assert (as_security (get (js "security") props)
          = Some (Manifest.mkSecurity reflexes)) as E8'.
  { rewrite Es. unfold as_security. cbn [as_object bind]. now read_fields. }
  unfold as_Manifest. cbn [as_object bind]. read_fields.
  eexists. split; [reflexivity|].
  destruct C7 as (C7a & C7b & C7c).
  unfold Manifest_valid. cbn.
  repeat split; try assumption.
  - now apply min1_nonempty in C2.
  - now apply regex_matches in C3.
  - now apply min1_nonempty in C4.
  - now apply regex_matches in C5.
  - now apply C9.
  - now apply C9.
Qed.

Lemma as_SpokeStatus_typed (doc : value) :
  typed StatusSchema doc ->
  exists st, as_SpokeStatus doc = Some st /\ Status_valid st.
Proof.
  intros H. apply typed_object_inv in H as (props & -> & H).
  cbn [all_typed] in H. destruct H as (_ & H2 & H3 & H4 & H5 & H6 & _).
  apply typed_date_inv in H2 as (generatedAt & t & _ & E2 & C2).
  apply typed_string_inv in H3 as (generatedBy & _ & E3 & C3).
  apply typed_enum_inv in H4 as (phase & _ & E4 & C4).
  apply typed_object_inv in H5 as (tp & Et & H5).
  cbn [all_typed] in H5. destruct H5 as (T1 & T2 & _).
  apply typed_count_inv in T1 as (passing & _ & Ep & Cp).
  apply typed_count_inv in T2 as (failing & _ & Ef & Cf).
  apply typed_object_inv in H6 as (gp & Eg & H6).
  cbn [all_typed] in H6. destruct H6 as (G1 & G2 & G3 & G4 & _).
  apply typed_string_inv in G1 as (branch & _ & Eb & Cb).
  apply typed_date_inv in G2 as (lastCommit & t' & _ & El & Cl).
  apply typed_boolean_inv in G3 as (dirty & _ & Ed).
  apply typed_count_inv in G4 as (behind & _ & Er & Cr).
  assert (as_tests (get (js "tests") props)
          = Some (SpokeStatus.mkTests passing failing)) as E5.
  { rewrite Et. unfold as_tests. cbn [as_object bind]. now read_fields. }
  assert (as_git (get (js "git") props)
          = Some (SpokeStatus.mkGit branch lastCommit dirty behind)) as E6.
  { rewrite Eg. unfold as_git. cbn [as_object bind]. now read_fields. }
  unfold as_SpokeStatus. cbn [as_object bind]. read_fields.
  eexists. split; [reflexivity|].
  unfold Status_valid. cbn. repeat split; try assumption.
  - now exists t.
  - now apply min1_nonempty in C3.
  - now apply min1_nonempty in Cb.
  - now exists t'.
Qed.

Lemma OperatorSchema_shape :
  OperatorSchema = ZodObject (OperatorTier1Shape ++ OperatorTier2Shape).
Proof. reflexivity. Qed.

Lemma as_Operator_typed (doc : value) :
  typed OperatorSchema doc ->
  exists o, as_Operator doc = Some o /\ Operator_valid o.
Proof.
  rewrite OperatorSchema_shape. unfold OperatorTier1Shape, OperatorTier2Shape.
  cbn [app]. intros H. apply typed_object_inv in H as (props & -> & H).
  cbn [all_typed] in H.
  destruct H as (_ & H2 & H3 & H4 & H5 & H6 & H7 & H8 & _).
  apply typed_string_inv in H2 as (handle & _ & E2 & C2).
  assert (exists name, as_optional as_string (get (js "name") props) = Some name)
    as (name & E3).
  { apply as_optional_string in H3 as (name & E & _). now exists name. }
  apply typed_object_inv in H4 as (sp & Es & H4).
  cbn [all_typed] in H4. destruct H4 as (S1 & S2 & _).
  apply typed_string_inv in S1 as (key & _ & Ek & Ck).
  apply as_optional_string in S2 as (fp & Efp & Cfp).
  assert (as_signing (get (js "signing") props)
          = Some (Operator.mkSigning key fp)) as E4.
  { rewrite Es. unfold as_signing. cbn [as_object bind]. now read_fields. }
  apply typed_default_optional_inv, typed_array_inv in H5 as (ids & Ei & _).
  assert (as_list Some (get (js "identities") props) = Some ids) as E5.
  { rewrite Ei. simpl. clear. induction ids as [|x l IH]; simpl; [reflexivity|].
    now rewrite IH. }
  apply typed_default_optional_inv, typed_array_inv in H6 as (sk & Esk & Hsk).
  assert (exists skills, as_list as_string (get (js "skills") props) = Some skills)
    as (skills & E6).
  { rewrite Esk. simpl. apply as_array_total. intros item Hin.
    apply Hsk, typed_string_inv in Hin as (s & _ & E & _). now exists s. }
  apply typed_default_optional_inv, typed_enum_inv in H7 as (av & _ & E7 & C7).
  apply typed_default_optional_inv, typed_array_inv in H8 as (hv & Eh & _).
  assert (as_list Some (get (js "hives") props) = Some hv) as E8.
  { rewrite Eh. simpl. clear. induction hv as [|x l IH]; simpl; [reflexivity|].
    now rewrite IH. }
  unfold as_Operator. cbn [as_object bind]. read_fields.
  eexists. split; [reflexivity|].
  unfold Operator_valid. cbn. repeat split; try assumption.
  - now apply min1_nonempty in C2.
  - now apply startsWith_matches in Ck.
  - intros x Hx. eapply regex_matches. exact (Cfp x Hx).
Qed.

(** [Schema.parse] returns the typed document exactly when the validation
    reports no issue, and the document then satisfies the constraints of
    the data model. *)
Lemma parse_as_typed {A} (schema : ZodType) (read : value -> option A)
  (ok : A -> Prop) (raw : value) :
  wf_schema schema = true ->
  (forall doc, typed schema doc -> exists a, read doc = Some a /\ ok a) ->
  match parse_as schema read raw with
  | inl a => issues (_parse schema [] raw) = [] /\ ok a
             /\ exists doc, safeParse schema raw = inl doc /\ read doc = Some a
  | inr err => err <> [] /\ safeParse schema raw = inr err
  end.
Proof.
  intros W R. unfold parse_as.
  pose proof (@safeParse_reports schema raw W) as Hr.
  unfold reports_every_violation in Hr.
  unfold safeParse in *.
  pose proof (parse_valid_iff schema [] raw) as V.
  destruct (status (_parse schema [] raw)) eqn:St.
  - destruct Hr as [_ Ht]. destruct (R _ Ht) as (a & Ea & Hok). rewrite Ea.
    split; [now apply V|]. split; [assumption|]. now eexists.
  - now destruct Hr.
  - now destruct Hr.
Qed.

Lemma ManifestSchema_parse_spec (raw : value) :
  match ManifestSchema_parse raw with
  | inl m => issues (_parse ManifestSchema [] raw) = [] /\ Manifest_valid m
             /\ exists doc, safeParse ManifestSchema raw = inl doc
                            /\ as_Manifest doc = Some m
  | inr err => err <> [] /\ safeParse ManifestSchema raw = inr err
  end.
Proof. apply parse_as_typed; [reflexivity | apply as_Manifest_typed]. Qed.

Lemma StatusSchema_parse_spec (raw : value) :
  match StatusSchema_parse raw with
  | inl st => issues (_parse StatusSchema [] raw) = [] /\ Status_valid st
              /\ exists doc, safeParse StatusSchema raw = inl doc
                             /\ as_SpokeStatus doc = Some st
  | inr err => err <> [] /\ safeParse StatusSchema raw = inr err
  end.
Proof. apply parse_as_typed; [reflexivity | apply as_SpokeStatus_typed]. Qed.

Lemma OperatorSchema_parse_spec (raw : value) :
  match OperatorSchema_parse raw with
  | inl o => issues (_parse OperatorSchema [] raw) = [] /\ Operator_valid o
             /\ exists doc, safeParse OperatorSchema raw = inl doc
                            /\ as_Operator doc = Some o
  | inr err => err <> [] /\ safeParse OperatorSchema raw = inr err
  end.
Proof. apply parse_as_typed; [reflexivity | apply as_Operator_typed]. Qed.

(** ** Staleness and aggregation *)

Lemma try_entry_manifest_valid (repo : option value) (raw : value)
  (m : Manifest.t) (statusRaw : option (Try value)) (now : Z) :
  ManifestSchema_parse raw = inl m ->
  try_entry repo (inl raw) statusRaw now =
  match classify_status statusRaw with
  | StatusAbsent => inl (default_entry repo m, None)
  | StatusValid st => inl (status_entry repo m st now, Some st)
  | StatusUnparseable err => inr err
  end.
Proof.
  intros Hm. unfold try_entry, parse_or_throw, classify_status. simpl.
  rewrite Hm. simpl.
  destruct statusRaw as [[rawStatus|err]|]; simpl; try reflexivity.
  destruct (StatusSchema_parse rawStatus); reflexivity.
Qed.

Lemma try_entry_manifest_invalid (repo : option value) (raw : value)
  (err : list ZodIssue) (statusRaw : option (Try value)) (now : Z) :
  ManifestSchema_parse raw = inr err ->
  try_entry repo (inl raw) statusRaw now = inr (ZodError err).
Proof.
  intros Hm. unfold try_entry, parse_or_throw. simpl. now rewrite Hm.
Qed.

Lemma pull_step_local_outcome (json : bool) (acc : LocalPull) (sp : LocalSpoke) :
  pull_step_local json acc sp =
  let o := local_outcome sp in
  mkLocalPull (lp_spokes acc ++ entries_of o)
    (lp_withCollab acc + flag (negb (is_no_declaration o)))
    (lp_withoutCollab acc + flag (is_no_declaration o))
    (lp_console acc ++ when_not json (local_line (l_project sp) o)).
Proof.
  unfold pull_step_local, local_outcome, local_status.
  destruct (l_collabDir sp), (l_manifestFile sp) as [content|]; cbn zeta;
    try (cbn; rewrite ?app_nil_r, ?Nat.add_0_r, ?Nat.add_1_r; reflexivity).
  change (loadYaml (Some content)) with (load_or_throw content).
  destruct (try_entry None (load_or_throw content) _ (l_clock sp))
    as [[entry status]|err];
    cbn; rewrite ?app_nil_r, ?Nat.add_0_r, ?Nat.add_1_r; reflexivity.
Qed.

Lemma pull_fold_local (json : bool) (dirs : list LocalSpoke) (acc : LocalPull) :
  let r := fold_left (pull_step_local json) dirs acc in
  lp_spokes r
  = lp_spokes acc ++ flat_map (fun sp => entries_of (local_outcome sp)) dirs
  /\ lp_withCollab r
     = lp_withCollab acc
       + count (fun sp => negb (is_no_declaration (local_outcome sp))) dirs
  /\ lp_withoutCollab r
     = lp_withoutCollab acc
       + count (fun sp => is_no_declaration (local_outcome sp)) dirs
  /\ lp_console r
     = lp_console acc
       ++ flat_map (fun sp => when_not json
                                (local_line (l_project sp) (local_outcome sp))) dirs.
Proof.
  revert acc; induction dirs as [|sp dirs IH]; intros acc; cbn zeta.
  - simpl. rewrite !app_nil_r. unfold count. simpl. now rewrite !Nat.add_0_r.
  - simpl fold_left. specialize (IH (pull_step_local json acc sp)).
    cbn zeta in IH. destruct IH as (I1 & I2 & I3 & I4).
    rewrite I1, I2, I3, I4, pull_step_local_outcome. cbn zeta. simpl.
    unfold count. simpl.
    rewrite <- !app_assoc.
    destruct (is_no_declaration (local_outcome sp)); simpl;
      repeat split; try reflexivity; lia.
Qed.

Lemma filter_when_not (json : bool) (line : ConsoleLine) :
  filter is_failure (when_not json line)
  = if json then [] else if is_failure line then [line] else [].
Proof. destruct json; simpl; [reflexivity|]. now destruct (is_failure line). Qed.

Ltac remote_step_done :=
  eexists; split; [reflexivity|]; unfold remote_step_result, failure_lines;
  cbn [rp_spokes rp_fetched rp_noRepo rp_noCollab rp_console entries_of
       is_declared is_no_source_repo is_no_declaration flag failures_of];
  rewrite ?filter_app, ?filter_when_not, ?app_nil_r, ?Nat.add_0_r, ?Nat.add_1_r;
  cbn [is_failure];
  repeat split; reflexivity.

Lemma pull_step_remote_outcome (json : bool) (acc : RemotePull) (sp : RemoteSpoke) :
  match remote_outcome sp with
  | inr e => pull_step_remote json acc sp = inr e
  | inl o =>
      exists r, pull_step_remote json acc sp = inl r
                /\ remote_step_result json acc r (r_project sp) o
  end.
Proof.
  unfold pull_step_remote, remote_outcome, remote_status.
  destruct (r_projectYamlFile sp) as [content|]; [|remote_step_done].
  change (loadYaml (Some content)) with (load_or_throw content).
  destruct (load_or_throw content) as [projectYaml|e]; [|reflexivity].
  cbn [try_bind].
  destruct (source_repo projectYaml) as [repo|e]; [|reflexivity].
  cbn [try_bind].
  destruct (truthy repo); cbn [negb]; [|remote_step_done].
  destruct (r_manifestContent sp) as [[|c manifestContent']|];
    try remote_step_done.
  destruct (try_entry (Some repo) _ _ (r_clock sp)) as [[entry status]|err];
    cbn [outcome_of]; remote_step_done.
Qed.

Lemma pull_fold_remote (json : bool) (dirs : list RemoteSpoke) (acc : RemotePull) :
  match try_map remote_outcome dirs with
  | inr e => try_fold (pull_step_remote json) dirs acc = inr e
  | inl os =>
      exists r,
        try_fold (pull_step_remote json) dirs acc = inl r
        /\ rp_spokes r = rp_spokes acc ++ flat_map entries_of os
        /\ rp_fetched r = rp_fetched acc + count is_declared os
        /\ rp_noRepo r = rp_noRepo acc + count is_no_source_repo os
        /\ rp_noCollab r = rp_noCollab acc + count is_no_declaration os
        /\ filter is_failure (rp_console r)
           = filter is_failure (rp_console acc)
             ++ flat_map (fun so => failure_lines json (r_project (fst so)) (snd so))
                  (combine dirs os)
  end.
Proof.
  revert acc; induction dirs as [|sp dirs IH]; intros acc.
  - simpl. exists acc. unfold count. simpl.
    rewrite !app_nil_r, !Nat.add_0_r. repeat split; reflexivity.
  - simpl. pose proof (pull_step_remote_outcome json acc sp) as Hs.
    destruct (remote_outcome sp) as [o|e]; [|now rewrite Hs].
    destruct Hs as (r1 & -> & S1 & S2 & S3 & S4 & S5). cbn [try_bind].
    specialize (IH r1).
    destruct (try_map remote_outcome dirs) as [os|e]; [|exact IH].
    destruct IH as (r & -> & I1 & I2 & I3 & I4 & I5).
    exists r. split; [reflexivity|]. cbn [try_bind].
    rewrite I1, I2, I3, I4, I5, S1, S2, S3, S4, S5.
    unfold count. simpl. rewrite <- !app_assoc.
    destruct o; simpl; repeat split; try reflexivity; lia.
Qed.

Lemma try_entry_inv (repo : option value) (manifestRaw : Try value)
  (statusRaw : option (Try value)) (now : Z) (entry : SpokeEntry.t)
  (status : option SpokeStatus.t) :
  try_entry repo manifestRaw statusRaw now = inl (entry, status) ->
  exists raw m,
    manifestRaw = inl raw /\ ManifestSchema_parse raw = inl m
    /\ match classify_status statusRaw with
       | StatusAbsent => status = None /\ entry = default_entry repo m
       | StatusValid st => status = Some st /\ entry = status_entry repo m st now
       | StatusUnparseable _ => False
       end.
Proof.
  intros H. destruct manifestRaw as [raw|e]; [|discriminate].
  destruct (ManifestSchema_parse raw) as [m|err] eqn:Hm.
  - rewrite (try_entry_manifest_valid repo raw statusRaw now Hm) in H.
    exists raw, m. repeat split; try assumption.
    destruct (classify_status statusRaw); inversion H; auto.
  - rewrite (try_entry_manifest_invalid repo raw statusRaw now Hm) in H.
    discriminate.
Qed.

Lemma classify_status_valid (statusRaw : option (Try value)) (st : SpokeStatus.t) :
  classify_status statusRaw = StatusValid st -> Status_valid st.
Proof.
  unfold classify_status. destruct statusRaw as [[raw|e]|]; try discriminate.
  pose proof (StatusSchema_parse_spec raw) as S.
  destruct (StatusSchema_parse raw) as [st'|err]; [|discriminate].
  intros [= <-]. apply S.
Qed.

Lemma try_entry_stale (repo : option value) (manifestRaw : Try value)
  (statusRaw : option (Try value)) (now : Z) (entry : SpokeEntry.t)
  (status : option SpokeStatus.t) :
  try_entry repo manifestRaw statusRaw now = inl (entry, status) ->
  (statusRaw = None <-> status = None)
  /\ (status = None -> SpokeEntry.stale entry = true)
  /\ (forall st, status = Some st ->
        exists t,
          Date_parse (SpokeStatus.generatedAt st) = Some t
          /\ (SpokeEntry.stale entry = true <-> (now - t > 604800000)%Z)
          /\ (t = now - 7 * 86400000 -> SpokeEntry.stale entry = false)%Z
          /\ (t = now - 7 * 86400000 - 1000 -> SpokeEntry.stale entry = true)%Z
          /\ (t = now - 6 * 86400000 -> SpokeEntry.stale entry = false)%Z).
Proof.
  intros H. apply try_entry_inv in H as (raw & m & _ & _ & H).
  destruct (classify_status statusRaw) as [|err|st0] eqn:C; [| contradiction |].
  - destruct H as [-> ->]. split; [|split].
    + split; [reflexivity|]. intros _.
      destruct statusRaw as [[raw'|e]|]; [| discriminate | reflexivity].
      simpl in C. destruct (StatusSchema_parse raw'); discriminate.
    + reflexivity.
    + discriminate.
  - destruct H as [-> ->]. split; [|split].
    + split; [intros ->; discriminate | discriminate].
    + discriminate.
    + intros st [= <-].
      destruct (classify_status_valid _ C) as ((t & Ht) & _).
      exists t. split; [exact Ht|]. cbn [status_entry SpokeEntry.stale].
      unfold isStale. rewrite Ht. cbv zeta.
      split; [|repeat split].
      * rewrite Z.gtb_lt. lia.
      * intros ->. rewrite Z.gtb_ltb. apply Z.ltb_ge. lia.
      * intros ->. apply Z.gtb_lt. lia.
      * intros ->. rewrite Z.gtb_ltb. apply Z.ltb_ge. lia.
Qed.

Lemma outcome_of_declared (r : Try (SpokeEntry.t * option SpokeStatus.t))
  (e : SpokeEntry.t) :
  In e (entries_of (outcome_of r)) -> exists status, r = inl (e, status).
Proof.
  destruct r as [[entry status]|err]; simpl; [|contradiction].
  intros [<-|[]]. now exists status.
Qed.

Lemma try_map_In {A B} (f : A -> Try B) (l : list A) (ys : list B) (y : B) :
  try_map f l = inl ys -> In y ys -> exists x, In x l /\ f x = inl y.
Proof.
  revert ys; induction l as [|x l IH]; intros ys; simpl.
  - intros [= <-] [].
  - destruct (f x) as [y0|e] eqn:Fx; [|discriminate]. cbn [try_bind].
    destruct (try_map f l) as [ys0|e]; [|discriminate]. cbn [try_bind].
    intros [= <-] [<-|Hin].
    + exists x. split; [now left | assumption].
    + destruct (IH ys0 eq_refl Hin) as (x' & Hx & Fx').
      exists x'. split; [now right | assumption].
Qed.

Lemma local_entry_from_try_entry (sp : LocalSpoke) (e : SpokeEntry.t) :
  In e (entries_of (local_outcome sp)) ->
  exists content status,
    l_manifestFile sp = Some content
    /\ try_entry None (load_or_throw content) (local_status sp) (l_clock sp)
       = inl (e, status).
Proof.
  unfold local_outcome. destruct (l_collabDir sp); [|contradiction].
  destruct (l_manifestFile sp) as [content|]; [|contradiction].
  intros H. apply outcome_of_declared in H as (status & H). now exists content, status.
Qed.

Lemma remote_entry_from_try_entry (sp : RemoteSpoke) (o : Outcome)
  (e : SpokeEntry.t) :
  remote_outcome sp = inl o -> In e (entries_of o) ->
  exists repo content status,
    r_manifestContent sp = Some content
    /\ try_entry (Some repo) (load_or_throw content) (remote_status sp) (r_clock sp)
       = inl (e, status).
Proof.
  unfold remote_outcome. destruct (r_projectYamlFile sp) as [pc|];
    [|intros [= <-] []].
  destruct (load_or_throw pc) as [projectYaml|err]; [|discriminate].
  cbn [try_bind]. destruct (source_repo projectYaml) as [repo|err]; [|discriminate].
  cbn [try_bind]. destruct (truthy repo); [|intros [= <-] []].
  destruct (r_manifestContent sp) as [[|c cs]|]; try (intros [= <-] []).
  intros [= <-] H. apply outcome_of_declared in H as (status & H).
  now exists repo, (c :: cs), status.
Qed.

(** C3.  Every entry of an aggregation run, in either variant, is built by
    the body of the [try] block of the iteration of its spoke, [try_entry],
    from the documents of that spoke at the instant [now] that [new Date()]
    yields.  When the status document is absent the stale flag of the entry
    is true.  Otherwise the status was validated, so its [generatedAt]
    parses to an instant [t], and the flag is true exactly when [now - t]
    is greater than 604,800,000 ms: a status generated exactly seven days
    ago is not stale, one generated seven days and one second ago is stale,
    one generated six days ago is not. *)
Theorem stale_flag_boundary :
  (forall repo manifestRaw statusRaw now entry status,
      try_entry repo manifestRaw statusRaw now = inl (entry, status) ->
      (statusRaw = None <-> status = None)
      /\ (status = None -> SpokeEntry.stale entry = true)
      /\ (forall st, status = Some st ->
            exists t,
              Date_parse (SpokeStatus.generatedAt st) = Some t
              /\ (SpokeEntry.stale entry = true <-> (now - t > 604800000)%Z)
              /\ (t = now - 7 * 86400000 -> SpokeEntry.stale entry = false)%Z
              /\ (t = now - 7 * 86400000 - 1000 ->
                  SpokeEntry.stale entry = true)%Z
              /\ (t = now - 6 * 86400000 -> SpokeEntry.stale entry = false)%Z))
  /\ (forall json dirs r entry,
        pull_local json (Some dirs) = inl r -> In entry (lp_spokes r) ->
        exists sp content status,
          In sp dirs /\ l_manifestFile sp = Some content
          /\ try_entry None (load_or_throw content) (local_status sp) (l_clock sp)
             = inl (entry, status))
  /\ (forall json dirs r entry,
        pull_remote json (Some dirs) = inl r -> In entry (rp_spokes r) ->
        exists sp repo content status,
          In sp dirs /\ r_manifestContent sp = Some content
          /\ try_entry (Some repo) (load_or_throw content) (remote_status sp)
               (r_clock sp) = inl (entry, status)).
Proof.
  split; [|split].
  - intros repo manifestRaw statusRaw now entry status. apply try_entry_stale.
  - intros json dirs r entry [= <-] Hin.
    destruct (pull_fold_local json dirs (mkLocalPull [] 0 0 [])) as (I1 & _).
    cbn zeta in I1. rewrite I1 in Hin. simpl in Hin.
    apply in_flat_map in Hin as (sp & Hsp & He).
    apply local_entry_from_try_entry in He as (content & status & Hf & Ht).
    now exists sp, content, status.
  - intros json dirs r entry Hr Hin. unfold pull_remote in Hr.
    pose proof (pull_fold_remote json dirs (mkRemotePull [] 0 0 0 [])) as H.
    destruct (try_map remote_outcome dirs) as [os|e] eqn:Eos; [|congruence].
    destruct H as (r' & Er & I1 & _). rewrite Er in Hr. injection Hr as <-.
    rewrite I1 in Hin. simpl in Hin.
    apply in_flat_map in Hin as (o & Ho & He).
    destruct (@try_map_In _ _ remote_outcome dirs os o Eos Ho) as (sp & Hsp & Hout).
    destruct (@remote_entry_from_try_entry sp o entry Hout He)
      as (repo & content & status & Hc & Ht).
    now exists sp, repo, content, status.
Qed.

Lemma local_outcome_valid_manifest (sp : LocalSpoke) (content : jsstring)
  (raw : value) (m : Manifest.t) :
  l_collabDir sp = true -> l_manifestFile sp = Some content ->
  load content = YamlValue raw -> ManifestSchema_parse raw = inl m ->
  entries_of (local_outcome sp)
  = entries_for None m (l_clock sp) (classify_status (local_status sp)).
Proof.
  intros Hd Hf Hl Hm. unfold local_outcome, load_or_throw.
  rewrite Hd, Hf, Hl, (try_entry_manifest_valid None raw _ _ Hm).
  destruct (classify_status (local_status sp)); reflexivity.
Qed.

Lemma remote_outcome_valid_manifest (sp : RemoteSpoke) (pcontent : jsstring)
  (projectYaml repo : value) (c : N) (cs : jsstring) (raw : value)
  (m : Manifest.t) :
  r_projectYamlFile sp = Some pcontent -> load pcontent = YamlValue projectYaml ->
  source_repo projectYaml = inl repo -> truthy repo = true ->
  r_manifestContent sp = Some (c :: cs) -> load (c :: cs) = YamlValue raw ->
  ManifestSchema_parse raw = inl m ->
  exists o, remote_outcome sp = inl o
            /\ entries_of o
               = entries_for (Some repo) m (r_clock sp)
                   (classify_status (remote_status sp)).
Proof.
  intros Hp Hl Hs Ht Hc Hr Hm. unfold remote_outcome.
  rewrite Hp. unfold load_or_throw at 1. rewrite Hl. cbn [try_bind].
  rewrite Hs. cbn [try_bind]. rewrite Ht, Hc.
  eexists. split; [reflexivity|].
  unfold load_or_throw at 1. rewrite Hr.
  rewrite (try_entry_manifest_valid (Some repo) raw _ _ Hm).
  destruct (classify_status (remote_status sp)); reflexivity.
Qed.

(** C4, as amended.  For every spoke whose manifest decodes and validates,
    one iteration of the aggregation loop appends to the entry list: when
    the status document is absent, the entry made of the manifest fields and
    the defaults of the status fields (phase unknown, no passing and no
    failing test, not dirty, 0 behind, last commit unknown, generated never)
    with stale true; when the status document is present and valid, the
    entry made of the manifest fields and the status fields; and when the
    status document is present but does not decode or validate, nothing:
    the spoke has no entry. *)
Theorem entry_of_valid_manifest (json : bool) (raw : value) (m : Manifest.t) :
  ManifestSchema_parse raw = inl m ->
  (forall acc sp content,
      l_collabDir sp = true -> l_manifestFile sp = Some content ->
      load content = YamlValue raw ->
      lp_spokes (pull_step_local json acc sp)
      = lp_spokes acc
        ++ entries_for None m (l_clock sp) (classify_status (local_status sp)))
  /\ (forall acc sp pcontent projectYaml repo c cs,
        r_projectYamlFile sp = Some pcontent ->
        load pcontent = YamlValue projectYaml ->
        source_repo projectYaml = inl repo -> truthy repo = true ->
        r_manifestContent sp = Some (c :: cs) -> load (c :: cs) = YamlValue raw ->
        exists r, pull_step_remote json acc sp = inl r
                  /\ rp_spokes r
                     = rp_spokes acc
                       ++ entries_for (Some repo) m (r_clock sp)
                            (classify_status (remote_status sp)))
  /\ (forall repo now,
        entries_for repo m now StatusAbsent
        = [SpokeEntry.mk (Manifest.project m) repo (Manifest.maintainer m)
             (js "unknown") (SpokeStatus.mkTests 0 0) false 0%Z (js "unknown")
             (js "never") (Manifest.license m)
             (Manifest.reflexes (Manifest.security m)) true])
  /\ (forall repo now st,
        exists e, entries_for repo m now (StatusValid st) = [e]
                  /\ SpokeEntry.phase e = SpokeStatus.phase st
                  /\ SpokeEntry.tests e = SpokeStatus.tests st
                  /\ SpokeEntry.generatedAt e = SpokeStatus.generatedAt st
                  /\ SpokeEntry.project e = Manifest.project m)
  /\ (forall repo now err, entries_for repo m now (StatusUnparseable err) = [])
  /\ (forall sp, classify_status (local_status sp) = StatusAbsent
                 <-> l_statusFile sp = None)
  /\ (forall sp, classify_status (remote_status sp) = StatusAbsent
                 <-> r_statusContent sp = None \/ r_statusContent sp = Some []).
Proof.
  intros Hm. split; [|split; [|split; [|split; [|split; [|split]]]]].
  - intros acc sp content Hd Hf Hl.
    rewrite pull_step_local_outcome. cbn zeta. simpl. f_equal.
    now apply local_outcome_valid_manifest with (content := content) (raw := raw).
  - intros acc sp pcontent projectYaml repo c cs Hp Hl Hs Ht Hc Hr.
    destruct (remote_outcome_valid_manifest sp Hp Hl Hs Ht Hc Hr Hm) as (o & Ho & He).
    pose proof (pull_step_remote_outcome json acc sp) as Hstep.
    rewrite Ho in Hstep. destruct Hstep as (r & Er & S1 & _).
    exists r. split; [assumption|]. now rewrite S1, He.
  - reflexivity.
  - intros repo now st. eexists. split; [reflexivity|]. repeat split.
  - reflexivity.
  - intros sp. unfold local_status, classify_status, loadYaml, load_or_throw.
    destruct (l_statusFile sp) as [content|]; split; try reflexivity; try discriminate.
    destruct (load content) as [msg|sraw]; [discriminate|].
    destruct (StatusSchema_parse sraw); discriminate.
  - intros sp. unfold remote_status, classify_status, load_or_throw.
    destruct (r_statusContent sp) as [[|c cs]|]; split; auto;
      try (intros [H|H]; discriminate).
    destruct (load (c :: cs)) as [msg|sraw]; [discriminate|].
    destruct (StatusSchema_parse sraw); discriminate.
Qed.

Lemma filter_flat_map {A B} (f : B -> bool) (g : A -> list B) (l : list A) :
  filter f (flat_map g l) = flat_map (fun x => filter f (g x)) l.
Proof.
  induction l as [|x l IH]; simpl; [reflexivity|].
  now rewrite filter_app, IH.
Qed.

Lemma local_failure_lines (json : bool) (sp : LocalSpoke) :
  filter is_failure (when_not json (local_line (l_project sp) (local_outcome sp)))
  = failure_lines json (l_project sp) (local_outcome sp).
Proof.
  rewrite filter_when_not. unfold failure_lines.
  destruct json; [reflexivity|]. now destruct (local_outcome sp).
Qed.

Lemma count_split {A} (f : A -> bool) (l : list A) :
  count (fun x => negb (f x)) l + count f l = List.length l.
Proof.
  unfold count. induction l as [|x l IH]; simpl; [reflexivity|].
  destruct (f x); simpl; lia.
Qed.

(** C9, as amended.  An aggregation run over any collection of spokes does
    not abort because of a manifest: the hub checkout variant always
    completes, and the spoke repository variant aborts exactly when reading
    some [PROJECT.yaml] throws.  The result is assembled spoke by spoke, each
    spoke contributing according to its own documents only: a spoke without
    manifest is counted as without declaration; a spoke whose manifest does
    not decode or validate has no entry and, outside JSON mode, one failure
    line on the console (in JSON mode nothing is recorded for it); and a
    spoke with a valid manifest contributes the entry that its status
    document determines (none when the status document is present and does
    not decode or validate). *)
Theorem pull_isolates_failures (json : bool) :
  (forall dirs,
      exists r,
        pull_local json (Some dirs) = inl r
        /\ lp_spokes r = flat_map (fun sp => entries_of (local_outcome sp)) dirs
        /\ lp_withoutCollab r
           = count (fun sp => is_no_declaration (local_outcome sp)) dirs
        /\ lp_withCollab r + lp_withoutCollab r = List.length dirs
        /\ filter is_failure (lp_console r)
           = flat_map (fun sp => failure_lines json (l_project sp) (local_outcome sp))
               dirs)
  /\ (forall dirs,
        match try_map remote_outcome dirs with
        | inr e => pull_remote json (Some dirs) = inr e
        | inl os =>
            exists r,
              pull_remote json (Some dirs) = inl r
              /\ rp_spokes r = flat_map entries_of os
              /\ rp_fetched r = count is_declared os
              /\ rp_noRepo r = count is_no_source_repo os
              /\ rp_noCollab r = count is_no_declaration os
              /\ filter is_failure (rp_console r)
                 = flat_map
                     (fun so => failure_lines json (r_project (fst so)) (snd so))
                     (combine dirs os)
        end)
  /\ (forall sp,
        match r_projectYamlFile sp with
        | None => remote_outcome sp = inl NoSourceRepo
        | Some content =>
            match load content with
            | YamlThrows msg => remote_outcome sp = inr (YamlException msg)
            | YamlValue projectYaml =>
                match source_repo projectYaml with
                | inr e => remote_outcome sp = inr e
                | inl _ => exists o, remote_outcome sp = inl o
                end
            end
        end)
  /\ (forall sp,
        match l_collabDir sp, l_manifestFile sp with
        | true, Some content =>
            match load content with
            | YamlThrows msg => local_outcome sp = Unparseable (YamlException msg)
            | YamlValue raw =>
                match ManifestSchema_parse raw with
                | inr err => local_outcome sp = Unparseable (ZodError err)
                | inl m =>
                    entries_of (local_outcome sp)
                    = entries_for None m (l_clock sp)
                        (classify_status (local_status sp))
                end
            end
        | _, _ => local_outcome sp = NoDeclaration
        end).
Proof.
  split; [|split; [|split]].
  - intros dirs. eexists. split; [reflexivity|].
    destruct (pull_fold_local json dirs (mkLocalPull [] 0 0 [])) as (I1 & I2 & I3 & I4).
    cbn zeta in *. rewrite I1, I2, I3, I4. simpl.
    split; [reflexivity|]. split; [reflexivity|]. split.
    + apply count_split with (f := fun sp => is_no_declaration (local_outcome sp)).
    + rewrite filter_flat_map. apply flat_map_ext. intros sp.
      apply local_failure_lines.
  - intros dirs. unfold pull_remote.
    pose proof (pull_fold_remote json dirs (mkRemotePull [] 0 0 0 [])) as H.
    destruct (try_map remote_outcome dirs) as [os|e]; [|exact H].
    destruct H as (r & Er & I1 & I2 & I3 & I4 & I5).
    exists r. simpl in *. repeat split; assumption.
  - intros sp. unfold remote_outcome, load_or_throw.
    destruct (r_projectYamlFile sp) as [content|]; [|reflexivity].
    destruct (load content) as [msg|projectYaml]; [reflexivity|].
    cbn [try_bind]. destruct (source_repo projectYaml) as [repo|e]; [|reflexivity].
    cbn [try_bind]. destruct (truthy repo); [|now eexists].
    destruct (r_manifestContent sp) as [[|c cs]|]; now eexists.
  - intros sp. destruct (l_collabDir sp) eqn:Hd;
      [|unfold local_outcome; now rewrite Hd].
    destruct (l_manifestFile sp) as [content|] eqn:Hf;
      [|unfold local_outcome; now rewrite Hd, Hf].
    destruct (load content) as [msg|raw] eqn:Hl.
    + unfold local_outcome, load_or_throw. now rewrite Hd, Hf, Hl.
    + destruct (ManifestSchema_parse raw) as [m|err] eqn:Hm.
      * now apply local_outcome_valid_manifest with (content := content) (raw := raw).
      * unfold local_outcome, load_or_throw. rewrite Hd, Hf, Hl.
        now rewrite (try_entry_manifest_invalid None raw _ _ Hm).
Qed.

(** ** Verification *)

Lemma fingerprint_nonempty (fp : option jsstring) :
  fingerprint_ok fp -> no_fingerprint fp = true <-> fp = None.
Proof.
  intros H. destruct fp as [[|c s]|]; simpl; split; try reflexivity; try discriminate.
  intros _. specialize (H [] eq_refl). discriminate.
Qed.

Lemma verify_manifest_issues (local : bool) (project : jsstring)
  (repo : option value) (reg : JsMap AllowedSigner) (m : Manifest.t) :
  Manifest_valid m ->
  VerifyResult.issues (verify_manifest local project repo reg m)
  = expected_issues local reg m.
Proof.
  intros (_ & _ & _ & _ & _ & _ & _ & Hfp & _).
  unfold verify_manifest, expected_issues, key_matched, issue_not_registered.
  cbn [VerifyResult.issues].
  pose proof (fingerprint_nonempty Hfp) as F.
  destruct (Manifest.fingerprint (Manifest.identity m)) as [fp|] eqn:E.
  - destruct (no_fingerprint (Some fp)) eqn:N.
    + assert (Some fp = None) as Hn by now apply F. discriminate.
    + destruct local; destruct (inAllowedSigners _); simpl; reflexivity.
  - destruct local; destruct (inAllowedSigners _); simpl; reflexivity.
Qed.

Lemma summarize_counts (rs : list VerifyResult.t) :
  total (summarize rs) = List.length rs
  /\ results (summarize rs) = rs
  /\ verified (summarize rs) + unverified (summarize rs) = total (summarize rs)
  /\ verified (summarize rs)
     = List.length (filter (fun r => match VerifyResult.issues r with
                                     | [] => true
                                     | _ :: _ => false
                                     end) rs).
Proof.
  unfold summarize. cbn [total results verified unverified].
  assert (count_verified rs <= List.length rs) as Hle
    by (unfold count_verified; apply filter_length_le).
  repeat split; try lia.
  unfold count_verified. f_equal. apply filter_ext. intros r.
  now destruct (VerifyResult.issues r).
Qed.

Lemma verify_step_local_cases (reg : JsMap AllowedSigner)
  (acc : list VerifyResult.t) (sp : LocalSpoke) :
  verify_step_local reg acc sp = acc
  \/ verify_step_local reg acc sp = acc ++ [invalid_result (l_project sp) None]
  \/ exists raw m,
       ManifestSchema_parse raw = inl m
       /\ verify_step_local reg acc sp
          = acc ++ [verify_manifest true (l_project sp) None reg m].
Proof.
  unfold verify_step_local. destruct (l_manifestFile sp) as [content|]; [|now left].
  right. unfold loadYaml, load_or_throw, parse_or_throw.
  destruct (load content) as [msg|raw]; [now left|]. cbn [try_bind].
  destruct (ManifestSchema_parse raw) as [m|err] eqn:Hm; [|now left].
  right. now exists raw, m.
Qed.

Lemma verify_step_remote_cases (reg : JsMap AllowedSigner)
  (acc : list VerifyResult.t) (sp : RemoteSpoke) :
  (exists e, verify_step_remote reg acc sp = inr e)
  \/ verify_step_remote reg acc sp = inl acc
  \/ (exists repo,
        verify_step_remote reg acc sp
        = inl (acc ++ [invalid_result (r_project sp) (Some repo)]))
  \/ exists repo raw m,
       ManifestSchema_parse raw = inl m
       /\ verify_step_remote reg acc sp
          = inl (acc ++ [verify_manifest false (r_project sp) (Some repo) reg m]).
Proof.
  unfold verify_step_remote.
  destruct (r_projectYamlFile sp) as [content|]; [|right; now left].
  destruct (loadYaml (Some content)) as [projectYaml|e]; [|left; now exists e].
  cbn [try_bind]. destruct (source_repo projectYaml) as [repo|e];
    [|left; now exists e].
  cbn [try_bind]. destruct (truthy repo); cbn [negb]; [|right; now left].
  destruct (r_manifestContent sp) as [[|c cs]|]; try (right; now left).
  right. right. unfold load_or_throw, parse_or_throw.
  destruct (load (c :: cs)) as [msg|raw]; [left; now exists repo|]. cbn [try_bind].
  destruct (ManifestSchema_parse raw) as [m|err] eqn:Hm; [|left; now exists repo].
  right. now exists repo, raw, m.
Qed.

Lemma verify_step_local_app (reg : JsMap AllowedSigner)
  (acc : list VerifyResult.t) (sp : LocalSpoke) :
  verify_step_local reg acc sp = acc ++ verify_step_local reg [] sp.
Proof.
  unfold verify_step_local.
  destruct (l_manifestFile sp) as [content|]; [|now rewrite app_nil_r].
  now destruct (try_bind _ _).
Qed.

Lemma verify_fold_local (reg : JsMap AllowedSigner) (dirs : list LocalSpoke)
  (acc : list VerifyResult.t) :
  fold_left (verify_step_local reg) dirs acc
  = acc ++ flat_map (verify_step_local reg []) dirs.
Proof.
  revert acc; induction dirs as [|sp dirs IH]; intros acc; simpl.
  - now rewrite app_nil_r.
  - now rewrite IH, verify_step_local_app, <- app_assoc.
Qed.

Lemma verify_step_remote_app (reg : JsMap AllowedSigner)
  (acc : list VerifyResult.t) (sp : RemoteSpoke) :
  verify_step_remote reg acc sp
  = match verify_step_remote reg [] sp with
    | inl rs => inl (acc ++ rs)
    | inr e => inr e
    end.
Proof.
  unfold verify_step_remote.
  destruct (r_projectYamlFile sp) as [content|]; [|now rewrite app_nil_r].
  destruct (loadYaml (Some content)) as [projectYaml|e]; [|reflexivity].
  cbn [try_bind]. destruct (source_repo projectYaml) as [repo|e]; [|reflexivity].
  cbn [try_bind]. destruct (negb (truthy repo)); [now rewrite app_nil_r|].
  destruct (r_manifestContent sp) as [[|c cs]|]; try now rewrite app_nil_r.
  now destruct (try_bind _ _).
Qed.

Lemma verify_fold_remote (reg : JsMap AllowedSigner) (dirs : list RemoteSpoke) :
  forall acc rs,
    try_fold (verify_step_remote reg) dirs acc = inl rs ->
    exists rss,
      Forall2 (fun sp r => verify_step_remote reg [] sp = inl r) dirs rss
      /\ rs = acc ++ List.concat rss.
Proof.
  induction dirs as [|sp dirs IH]; intros acc rs; simpl.
  - intros [= <-]. exists []. split; [constructor | now rewrite app_nil_r].
  - rewrite verify_step_remote_app.
    destruct (verify_step_remote reg [] sp) as [r|e] eqn:E; [|discriminate].
    cbn [try_bind]. intros H. destruct (IH _ _ H) as (rss & HF & ->).
    exists (r :: rss). split; [now constructor|].
    simpl. now rewrite app_assoc.
Qed.

(** C5.  For every spoke that a verification run processes, the result is
    that of the rules applied to the manifest of that spoke.  A spoke whose
    manifest decodes and validates gets exactly one result, under its own
    project and handle; its issue list holds the not-in-allowed-signers
    issue exactly when the scan of the registry finds no match for its key,
    followed by the no-fingerprint issue exactly when its manifest carries
    no fingerprint, and nothing else; it is verified (its issue list is
    empty) exactly when the key matched and the fingerprint is present.  A
    spoke whose manifest does not decode or validate gets the one result
    with the issue [Invalid manifest.yaml], which is not verified, and a
    spoke without manifest gets none.  The results of a run are the results
    of its spokes, in order, each independent of the others; [verified]
    counts the results with an empty issue list, and
    [verified + unverified] is the number of spokes checked. *)
Theorem verify_issue_rules (reg : JsMap AllowedSigner) (raw : value)
  (m : Manifest.t) :
  ManifestSchema_parse raw = inl m ->
  (forall local project repo,
      let r := verify_manifest local project repo reg m in
      VerifyResult.project r = project
      /\ VerifyResult.handle r = Manifest.handle (Manifest.identity m)
      /\ VerifyResult.fingerprint r = Manifest.fingerprint (Manifest.identity m)
      /\ VerifyResult.inAllowedSigners r = key_matched local reg m
      /\ VerifyResult.issues r = expected_issues local reg m
      /\ (key_matched local reg m = false ->
          In (issue_not_registered local) (VerifyResult.issues r))
      /\ (Manifest.fingerprint (Manifest.identity m) = None ->
          In issue_no_fingerprint (VerifyResult.issues r))
      /\ (forall i, In i (VerifyResult.issues r) ->
            (i = issue_not_registered local /\ key_matched local reg m = false)
            \/ (i = issue_no_fingerprint
                /\ Manifest.fingerprint (Manifest.identity m) = None))
      /\ (is_verified r <->
          key_matched local reg m = true
          /\ Manifest.fingerprint (Manifest.identity m) <> None))
  /\ (forall acc sp content,
        l_manifestFile sp = Some content -> load content = YamlValue raw ->
        verify_step_local reg acc sp
        = acc ++ [verify_manifest true (l_project sp) None reg m])
  /\ (forall acc sp pcontent projectYaml repo c cs,
        r_projectYamlFile sp = Some pcontent ->
        load pcontent = YamlValue projectYaml ->
        source_repo projectYaml = inl repo -> truthy repo = true ->
        r_manifestContent sp = Some (c :: cs) -> load (c :: cs) = YamlValue raw ->
        verify_step_remote reg acc sp
        = inl (acc ++ [verify_manifest false (r_project sp) (Some repo) reg m]))
  /\ (forall acc sp,
        (l_manifestFile sp = None -> verify_step_local reg acc sp = acc)
        /\ (forall content,
              l_manifestFile sp = Some content ->
              (forall raw', load content = YamlValue raw' ->
                            exists err, ManifestSchema_parse raw' = inr err) ->
              verify_step_local reg acc sp
              = acc ++ [invalid_result (l_project sp) None]))
  /\ (forall acc sp pcontent projectYaml repo c cs,
        r_projectYamlFile sp = Some pcontent ->
        load pcontent = YamlValue projectYaml ->
        source_repo projectYaml = inl repo -> truthy repo = true ->
        r_manifestContent sp = Some (c :: cs) ->
        (forall raw', load (c :: cs) = YamlValue raw' ->
                      exists err, ManifestSchema_parse raw' = inr err) ->
        verify_step_remote reg acc sp
        = inl (acc ++ [invalid_result (r_project sp) (Some repo)]))
  /\ (forall project repo,
        VerifyResult.issues (invalid_result project repo) = [issue_invalid_manifest]
        /\ ~ is_verified (invalid_result project repo))
  /\ (forall rs,
        total (summarize rs) = List.length rs
        /\ results (summarize rs) = rs
        /\ verified (summarize rs) + unverified (summarize rs) = total (summarize rs)
        /\ verified (summarize rs)
           = List.length (filter (fun r => match VerifyResult.issues r with
                                           | [] => true
                                           | _ :: _ => false
                                           end) rs))
  /\ (forall dirs path text,
        verify_local (Some dirs) path (Some text)
        = inl (summarize
                 (flat_map (verify_step_local (parseAllowedSigners (Some text)) [])
                    dirs)))
  /\ (forall dirs path text s,
        verify_remote (Some dirs) path (Some text) = inl s ->
        exists rss,
          Forall2 (fun sp rs =>
                     verify_step_remote (parseAllowedSigners (Some text)) [] sp
                     = inl rs) dirs rss
          /\ s = summarize (List.concat rss)).
Proof.
  intros Hm.
  pose proof (ManifestSchema_parse_spec raw) as S. rewrite Hm in S.
  destruct S as (_ & Hv & _).
  split; [|split; [|split; [|split; [|split; [|split; [|split; [|split]]]]]]].
  - intros local project repo. cbv zeta.
    pose proof (verify_manifest_issues local project repo reg Hv) as Hi.
    rewrite Hi. unfold is_verified. rewrite Hi. unfold expected_issues.
    split; [reflexivity|]. split; [reflexivity|]. split; [reflexivity|].
    split; [|split; [|split; [|split; [|split]]]].
    + unfold verify_manifest, key_matched. cbn [VerifyResult.inAllowedSigners].
      now destruct local.
    + reflexivity.
    + intros ->. now left.
    + intros ->. apply in_or_app. right. now left.
    + intros i Hin. apply in_app_or in Hin as [Hin|Hin].
      * destruct (key_matched local reg m); [contradiction|].
        destruct Hin as [<-|[]]. now left.
      * destruct (Manifest.fingerprint (Manifest.identity m)); [contradiction|].
        destruct Hin as [<-|[]]. now right.
    + destruct (key_matched local reg m),
        (Manifest.fingerprint (Manifest.identity m)); simpl; split;
        try discriminate; try (intros [H1 H2]; congruence); auto.
      split; [reflexivity | discriminate].
  - intros acc sp content Hf Hl. unfold verify_step_local.
    rewrite Hf. unfold loadYaml, load_or_throw, parse_or_throw.
    rewrite Hl. cbn [try_bind]. now rewrite Hm.
  - intros acc sp pcontent projectYaml repo c cs Hp Hl Hs Ht Hc Hr.
    unfold verify_step_remote. rewrite Hp. unfold loadYaml, load_or_throw at 1.
    rewrite Hl. cbn [try_bind]. rewrite Hs. cbn [try_bind]. rewrite Ht, Hc.
    cbn [negb]. unfold load_or_throw, parse_or_throw.
    rewrite Hr. cbn [try_bind]. now rewrite Hm.
  - intros acc sp. split.
    + intros Hf. unfold verify_step_local. now rewrite Hf.
    + intros content Hf Hbad. unfold verify_step_local.
      rewrite Hf. unfold loadYaml, load_or_throw, parse_or_throw.
      destruct (load content) as [msg|raw'] eqn:El; [reflexivity|].
      cbn [try_bind]. destruct (Hbad raw' eq_refl) as (err & ->). reflexivity.
  - intros acc sp pcontent projectYaml repo c cs Hp Hl Hs Ht Hc Hbad.
    unfold verify_step_remote. rewrite Hp. unfold loadYaml, load_or_throw at 1.
    rewrite Hl. cbn [try_bind]. rewrite Hs. cbn [try_bind]. rewrite Ht, Hc.
    cbn [negb]. unfold load_or_throw, parse_or_throw.
    destruct (load (c :: cs)) as [msg|raw'] eqn:El; [reflexivity|].
    cbn [try_bind]. destruct (Hbad raw' eq_refl) as (err & ->). reflexivity.
  - intros project repo. split; [reflexivity | discriminate].
  - apply summarize_counts.
  - intros dirs path text. unfold verify_local.
    now rewrite verify_fold_local.
  - intros dirs path text s. unfold verify_remote.
    destruct (try_fold _ dirs []) as [rs|e] eqn:E; [|discriminate].
    cbn [try_bind]. intros [= <-].
    destruct (verify_fold_remote _ _ _ E) as (rss & HF & ->).
    now exists rss.
Qed.


(** ** Cross-file consistency *)

(** C6.  The cross-file check changes nothing when the manifest or the
    operator is missing.  When both are present it compares the two handles
    and the two public keys, each by equality of the strings, independently
    of one another, and pushes one error (never a warning) per mismatch, the
    handle error first: a pair that differs in the handle only yields
    exactly the handle-mismatch error. *)
Theorem validateCrossFile_rules (manifest : option Manifest.t)
  (operator : option Operator.t) (results : ValidationResult) :
  let r := validateCrossFile manifest operator results in
  warnings r = warnings results
  /\ (manifest = None \/ operator = None -> r = results)
  /\ (forall m o, manifest = Some m -> operator = Some o ->
        exists handleErrors keyErrors,
          errors r = errors results ++ handleErrors ++ keyErrors
          /\ (Manifest.handle (Manifest.identity m) = Operator.handle o ->
              handleErrors = [])
          /\ (Manifest.handle (Manifest.identity m) <> Operator.handle o ->
              handleErrors = [handle_mismatch m o])
          /\ (Manifest.publicKey (Manifest.identity m)
              = Operator.publicKey (Operator.signing o) -> keyErrors = [])
          /\ (Manifest.publicKey (Manifest.identity m)
              <> Operator.publicKey (Operator.signing o) ->
              keyErrors = [key_mismatch])
          /\ (Manifest.handle (Manifest.identity m) <> Operator.handle o ->
              Manifest.publicKey (Manifest.identity m)
              = Operator.publicKey (Operator.signing o) ->
              errors r = errors results ++ [handle_mismatch m o])).
Proof.
  cbv zeta. split; [|split].
  - unfold validateCrossFile. destruct manifest as [m|]; [|reflexivity].
    destruct operator as [o|]; [|reflexivity].
    destruct (str_eqb _ (Operator.handle o)), (str_eqb _ (Operator.publicKey _));
      reflexivity.
  - intros [->| ->]; [reflexivity|]. now destruct manifest.
  - intros m o -> ->. unfold validateCrossFile.
    destruct (str_eqb (Manifest.handle (Manifest.identity m)) (Operator.handle o))
      eqn:Eh;
      destruct (str_eqb (Manifest.publicKey (Manifest.identity m))
                  (Operator.publicKey (Operator.signing o))) eqn:Ek;
      [apply str_eqb_eq in Eh | apply str_eqb_eq in Eh
      | apply str_eqb_neq in Eh | apply str_eqb_neq in Eh];
      [apply str_eqb_eq in Ek | apply str_eqb_neq in Ek
      | apply str_eqb_eq in Ek | apply str_eqb_neq in Ek].
    + exists [], []. simpl. rewrite app_nil_r.
      repeat split; try reflexivity; try congruence.
    + exists [], [key_mismatch]. simpl.
      repeat split; try reflexivity; try congruence.
    + exists [handle_mismatch m o], []. simpl.
      repeat split; try reflexivity; try congruence.
    + exists [handle_mismatch m o], [key_mismatch]. simpl. rewrite <- app_assoc.
      repeat split; try reflexivity; try congruence.
Qed.

(** ** The fields of a valid parse *)

Lemma parse_object_valid (shape : list (jsstring * ZodType)) (p : list PathSeg)
  (data : value) :
  distinct_keys (List.map fst shape) = true ->
  status (_parse (ZodObject shape) p data) = valid ->
  exists props out,
    data = VObj props
    /\ output (_parse (ZodObject shape) p data) = VObj out
    /\ forall k s, In (k, s) shape ->
         status (_parse s (p ++ [Key k]) (get k props)) = valid
         /\ get k out = output (_parse s (p ++ [Key k]) (get k props)).
Proof.
  intros D St. destruct data as [| | | | | | |props]; try discriminate.
  simpl in St |- *. rewrite St. exists props. eexists. split; [reflexivity|].
  split; [reflexivity|]. intros k s Hin.
  set (pairs := List.map (fun field : jsstring * ZodType =>
                            let (k0, s0) := field in
                            (k0, _parse s0 (p ++ [Key k0]) (get k0 props))) shape) in *.
  assert (In (k, _parse s (p ++ [Key k]) (get k props)) pairs) as Hp
    by (apply in_map_iff; now exists (k, s)).
  split.
  - apply merge_status_valid with (r := _parse s (p ++ [Key k]) (get k props)) in St;
      [assumption|].
    apply in_map_iff. now exists (k, _parse s (p ++ [Key k]) (get k props)).
  - apply get_kept; [|exact Hp]. unfold pairs. rewrite map_map.
    erewrite map_ext; [exact D|]. now intros [].
Qed.

Lemma parse_default_object (shape : list (jsstring * ZodType)) (p : list PathSeg)
  (v : value) :
  status (_parse (ZodDefault (ZodOptional (ZodObject shape)) (VObj [])) p v) = valid ->
  _parse (ZodDefault (ZodOptional (ZodObject shape)) (VObj [])) p v
  = _parse (ZodObject shape) p (VObj (props_of v)).
Proof. destruct v; simpl; try discriminate; reflexivity. Qed.

Lemma parse_flag (p : list PathSeg) (v : value) :
  status (_parse (ZodDefault (ZodOptional ZodBoolean) (VBool false)) p v) = valid ->
  output (_parse (ZodDefault (ZodOptional ZodBoolean) (VBool false)) p v)
  = VBool (is_true v).
Proof. destruct v; simpl; try discriminate; reflexivity. Qed.

Lemma as_Manifest_security (doc : value) (m : Manifest.t) :
  as_Manifest doc = Some m ->
  exists o, doc = VObj o
            /\ as_security (get (js "security") o) = Some (Manifest.security m).
Proof.
  unfold as_Manifest. destruct doc as [| | | | | | |o]; try discriminate.
  cbn [as_object bind]. intros H. exists o. split; [reflexivity|].
  repeat match type of H with
         | bind ?x _ = Some _ => destruct x; cbn [bind] in H; [|discriminate H]
         end.
  now injection H as <-.
Qed.

Lemma as_security_reflexes (doc : value) (sec : Manifest.security_t) :
  as_security doc = Some sec ->
  exists o, doc = VObj o
            /\ as_reflexes (get (js "reflexes") o) = Some (Manifest.reflexes sec).
Proof.
  unfold as_security. destruct doc as [| | | | | | |o]; try discriminate.
  cbn [as_object bind]. intros H. exists o. split; [reflexivity|].
  destruct (as_reflexes _); cbn [bind] in H; [|discriminate H].
  now injection H as <-.
Qed.

Lemma as_reflexes_flags (o : list (jsstring * value)) (r : Manifest.reflexes_t)
  (b1 b2 b3 b4 : bool) :
  get (js "signing") o = VBool b1 -> get (js "secretScanning") o = VBool b2 ->
  get (js "sandboxEnforcer") o = VBool b3 -> get (js "contentFilter") o = VBool b4 ->
  as_reflexes (VObj o) = Some r -> r = Manifest.mkReflexes b1 b2 b3 b4.
Proof.
  unfold as_reflexes. cbn [as_object bind]. intros -> -> -> ->.
  cbn [as_boolean bind]. now intros [= <-].
Qed.

(** The fields of a valid object parse, for a shape read off the goal. *)
Ltac object_fields_of St :=
  match type of St with
  | status (_parse (ZodObject ?sh) ?p ?d) = valid =>
      constr:(@parse_object_valid sh p d eq_refl St)
  end.

Lemma field_of_props (v : value) (key : string) :
  field_of v key = get (js key) (props_of v).
Proof. now destruct v. Qed.

Lemma parse_as_object {A} (shape : list (jsstring * ZodType))
  (read : value -> option A) (raw : value) (a : A) :
  distinct_keys (List.map fst shape) = true ->
  parse_as (ZodObject shape) read raw = inl a ->
  exists props out,
    raw = VObj props /\ read (VObj out) = Some a
    /\ forall k s, In (k, s) shape ->
         status (_parse s [Key k] (get k props)) = valid
         /\ get k out = output (_parse s [Key k] (get k props)).
Proof.
  intros D H. unfold parse_as, safeParse in H.
  destruct (status (_parse (ZodObject shape) [] raw)) eqn:St; try discriminate.
  destruct (@parse_object_valid shape [] raw D St)
    as (props & out & -> & Hout & Hf).
  rewrite Hout in H. exists props, out. split; [reflexivity|].
  split; [|exact Hf]. destruct (read (VObj out)); [congruence | discriminate].
Qed.

Lemma mapi_length {A B} (f : nat -> A -> B) (i : nat) (l : list A) :
  List.length (mapi f i l) = List.length l.
Proof.
  revert i; induction l as [|x l IH]; intros i; simpl; [reflexivity|].
  now rewrite IH.
Qed.

Lemma mapi_In {A B} (f : nat -> A -> B) (i : nat) (l : list A) (y : B) :
  In y (mapi f i l) -> exists j x, In x l /\ y = f j x.
Proof.
  revert i; induction l as [|x l IH]; intros i; simpl; [contradiction|].
  intros [<-|H].
  - exists i, x. split; [now left | reflexivity].
  - destruct (IH _ H) as (j & x' & Hx & E). exists j, x'. split; [now right | exact E].
Qed.

(** A valid array parse: every item is valid, and the output holds the
    outputs of the items in order. *)
Lemma parse_array_valid (element : ZodType) (p : list PathSeg) (data : value) :
  status (_parse (ZodArray element) p data) = valid ->
  exists items,
    data = VArr items
    /\ output (_parse (ZodArray element) p data)
       = VArr (mapi (fun i item => output (_parse element (p ++ [Index i]) item))
                 0 items)
    /\ forall r,
         In r (mapi (fun i item => _parse element (p ++ [Index i]) item) 0 items) ->
         status r = valid.
Proof.
  intros St. destruct data as [| | | | | |items|]; try discriminate.
  exists items. split; [reflexivity|]. simpl in St |- *. rewrite St.
  split; [now rewrite map_mapi|].
  now apply (proj1 (merge_status_valid _) St).
Qed.

Lemma as_Operator_fields (doc : value) (o : Operator.t) :
  as_Operator doc = Some o ->
  exists out, doc = VObj out
    /\ as_list Some (get (js "identities") out) = Some (Operator.identities o)
    /\ as_list as_string (get (js "skills") out) = Some (Operator.skills o)
    /\ as_string (get (js "availability") out) = Some (Operator.availability o)
    /\ as_list Some (get (js "hives") out) = Some (Operator.hives o).
Proof.
  unfold as_Operator. destruct doc as [| | | | | | |out]; try discriminate.
  cbn [as_object bind]. intros H. exists out. split; [reflexivity|].
  repeat match type of H with
         | bind ?x _ = Some _ => destruct x; cbn [bind] in H; [|discriminate H]
         end.
  now injection H as <-.
Qed.

Lemma as_array_Some (l : list value) : as_array Some l = Some l.
Proof. induction l as [|x l IH]; simpl; [reflexivity|]. now rewrite IH. Qed.

Lemma as_array_strings (items : list value) (l : list jsstring) :
  as_array as_string items = Some l -> List.map VStr l = items.
Proof.
  revert l; induction items as [|x items IH]; simpl; intros l H.
  - now injection H as <-.
  - destruct x; try discriminate. cbn [as_string bind] in H.
    destruct (as_array as_string items) as [l'|]; [|discriminate].
    cbn [bind] in H. injection H as <-. simpl. now rewrite (IH l' eq_refl).
Qed.

(** An unconstrained string element leaves a valid item as it is. *)
Lemma plain_strings_output (p : list PathSeg) (i : nat) (items : list value) :
  (forall r,
     In r (mapi (fun i item => _parse (ZodString []) (p ++ [Index i]) item) i items) ->
     status r = valid) ->
  mapi (fun i item => output (_parse (ZodString []) (p ++ [Index i]) item)) i items
  = items.
Proof.
  revert i; induction items as [|x items IH]; intros i H; simpl; [reflexivity|].
  rewrite IH by (intros r Hr; apply H; now right).
  specialize (H _ (or_introl eq_refl)). now destruct x.
Qed.

Lemma parse_default_optional (inner : ZodType) (d : value) (p : list PathSeg)
  (v : value) :
  v <> VUndefined ->
  _parse (ZodDefault (ZodOptional inner) d) p v = _parse inner p v.
Proof. intros H. destruct v; try reflexivity. now elim H. Qed.

(** ** The typed document of a valid input *)

Lemma leaf_output (schema : ZodType) :
  is_leaf schema = true ->
  forall p data, status (_parse schema p data) = valid ->
                 output (_parse schema p data) = data.
Proof.
  induction schema as [checks|lit|values em| |checks|shape|el IHel|inner IH
                      |inner IH d|inner IH f msg]; intros L p data St;
    try discriminate L.
  - destruct data; try discriminate St. reflexivity.
  - destruct data; try discriminate St. simpl in *.
    now destruct (str_eqb s lit).
  - destruct data; try discriminate St. simpl in *.
    now destruct (mem_str s values).
  - destruct data; try discriminate St. reflexivity.
  - destruct data as [| | |n| | | |]; try discriminate St.
    destruct n; try discriminate St; reflexivity.
  - destruct data; simpl in *; try (now apply IH). reflexivity.
  - simpl in *. specialize (IH L p data).
    destruct (_parse inner p data) as [st out iss]. simpl in *.
    destruct st; simpl in *; try discriminate St;
      destruct (f out); simpl in *; try discriminate St. now apply IH.
Qed.

Lemma strip_get_mem (keys : list jsstring) (props : list (jsstring * value))
  (k : jsstring) :
  get k (props_of (strip keys (VObj props)))
  = if mem_str k keys then get k props else VUndefined.
Proof.
  cbn [strip props_of]. induction keys as [|k0 keys IH]; [reflexivity|].
  cbn [filter_map]. unfold mem_str in *. cbn [existsb].
  destruct (str_eqb k k0) eqn:E.
  - apply str_eqb_eq in E. subst k0. cbn [orb].
    destruct (get k props) eqn:G; try (unfold get; simpl; now rewrite str_eqb_refl).
    destruct (has_key k props); [unfold get; simpl; now rewrite str_eqb_refl|].
    rewrite IH. now destruct (existsb (str_eqb k) keys).
  - cbn [orb]. rewrite str_eqb_sym in E.
    destruct (get k0 props);
      try (unfold get in *; simpl; rewrite E; exact IH).
    destruct (has_key k0 props); [unfold get in *; simpl; rewrite E|]; exact IH.
Qed.

Lemma field_of_strip (keys : list jsstring) (v : value) (k : string) :
  mem_str (js k) keys = true -> field_of (strip keys v) k = field_of v k.
Proof.
  intros M. destruct v; try reflexivity. unfold field_of.
  pose proof (strip_get_mem keys props (js k)) as H. rewrite M in H.
  exact H.
Qed.

(** A valid mapping of leaves comes out reduced to the keys of the shape. *)
Lemma object_of_leaves_output (shape : list (jsstring * ZodType))
  (p : list PathSeg) (data : value) :
  forallb (fun field => is_leaf (snd field)) shape = true ->
  status (_parse (ZodObject shape) p data) = valid ->
  output (_parse (ZodObject shape) p data) = strip (List.map fst shape) data.
Proof.
  intros L St. destruct data as [| | | | | | |props]; try discriminate St.
  simpl in St |- *. rewrite St. f_equal.
  assert (forall k s, In (k, s) shape ->
            status (_parse s (p ++ [Key k]) (get k props)) = valid) as Hv.
  { intros k s Hin.
    apply (proj1 (merge_status_valid _) St).
    apply in_map_iff. exists (k, _parse s (p ++ [Key k]) (get k props)).
    split; [reflexivity|]. apply in_map_iff. now exists (k, s). }
  clear St. induction shape as [|[k s] shape IH]; [reflexivity|].
  cbn [forallb snd] in L. apply andb_true_iff in L as [L1 L2].
  cbn [List.map filter_map fst keep].
  rewrite (leaf_output s L1 _ _ (Hv k s (or_introl eq_refl))).
  rewrite IH; [reflexivity | assumption|].
  intros k' s' Hin. apply Hv. now right.
Qed.

Lemma mapi_outputs (element : ZodType) (g : value -> value) (p : list PathSeg)
  (n : nat) (items : list value) :
  (forall q item, status (_parse element q item) = valid ->
                  output (_parse element q item) = g item) ->
  (forall r,
     In r (mapi (fun i item => _parse element (p ++ [Index i]) item) n items) ->
     status r = valid) ->
  mapi (fun i item => output (_parse element (p ++ [Index i]) item)) n items
  = List.map g items.
Proof.
  intros Hg. revert n; induction items as [|x items IH]; intros n H;
    simpl; [reflexivity|].
  rewrite IH by (intros r Hr; apply H; now right).
  now rewrite (Hg _ _ (H _ (or_introl eq_refl))).
Qed.

(** An optional array with the empty array as default. *)
Lemma default_array_output (element : ZodType) (g : value -> value)
  (p : list PathSeg) (v : value) :
  (forall q item, status (_parse element q item) = valid ->
                  output (_parse element q item) = g item) ->
  status (_parse (ZodDefault (ZodOptional (ZodArray element)) (VArr [])) p v)
  = valid ->
  items_of (output (_parse (ZodDefault (ZodOptional (ZodArray element)) (VArr []))
                      p v))
  = List.map g (items_of v).
Proof.
  intros Hg St. destruct v as [| | | | | |items|]; try discriminate St;
    [reflexivity|].
  change (_parse (ZodDefault (ZodOptional (ZodArray element)) (VArr [])) p
            (VArr items))
    with (_parse (ZodArray element) p (VArr items)) in *.
  destruct (@parse_array_valid _ _ _ St) as (items' & [= <-] & Ho & Hv).
  rewrite Ho. cbn [items_of]. now apply mapi_outputs.
Qed.

Lemma as_string_text (v : value) (s : jsstring) :
  as_string v = Some s -> text_of v = s.
Proof. destruct v; try discriminate. now intros [= <-]. Qed.

Lemma as_optional_text (v : value) (o : option jsstring) :
  as_optional as_string v = Some o -> text_opt v = o.
Proof. destruct v; try discriminate; now intros [= <-]. Qed.

Lemma as_boolean_true (v : value) (b : bool) :
  as_boolean v = Some b -> is_true v = b.
Proof. destruct v; try discriminate. now intros [= <-]. Qed.

Lemma as_integer_int (v : value) (z : Z) :
  as_integer v = Some z -> int_of v = z.
Proof.
  destruct v as [| | |n| | | |]; try discriminate.
  destruct n; try discriminate. now intros [= <-].
Qed.

Lemma as_list_items {A} (f : value -> option A) (v : value) (l : list A) :
  as_list f v = Some l -> as_array f (items_of v) = Some l.
Proof. destruct v; try discriminate. now intros H. Qed.

Ltac read_binds H :=
  repeat match type of H with
         | bind ?x _ = Some _ =>
             let E := fresh "E" in
             destruct x eqn:E; cbn [bind] in H; [|discriminate H]
         end;
  injection H as <-.

Ltac rewrite_reads :=
  repeat match goal with
         | E : as_string _ = Some _ |- _ => rewrite (as_string_text _ E); clear E
         | E : as_optional as_string _ = Some _ |- _ =>
             rewrite (as_optional_text _ E); clear E
         | E : as_boolean _ = Some _ |- _ => rewrite (as_boolean_true _ E); clear E
         | E : as_integer _ = Some _ |- _ => rewrite (as_integer_int _ E); clear E
         end.

Lemma as_identity_read (v : value) (i : Manifest.identity_t) :
  as_identity v = Some i ->
  i = Manifest.mkIdentity (text_of (field_of v "handle"))
        (text_of (field_of v "publicKey")) (text_opt (field_of v "fingerprint")).
Proof.
  unfold as_identity. destruct v as [| | | | | | |o]; try discriminate.
  cbn [as_object bind field_of]. intros H. read_binds H.
  now rewrite_reads.
Qed.

Lemma as_security_read (v : value) (sec : Manifest.security_t) :
  as_security v = Some sec ->
  let flags := field_of v "reflexes" in
  sec = Manifest.mkSecurity
          (Manifest.mkReflexes (is_true (field_of flags "signing"))
             (is_true (field_of flags "secretScanning"))
             (is_true (field_of flags "sandboxEnforcer"))
             (is_true (field_of flags "contentFilter"))).
Proof.
  unfold as_security. destruct v as [| | | | | | |o]; try discriminate.
  cbn [as_object bind field_of]. intros H. read_binds H.
  unfold as_reflexes in E.
  destruct (get (js "reflexes") o) as [| | | | | | |flagso]; try discriminate.
  cbn [as_object bind field_of] in E |- *. read_binds E.
  now rewrite_reads.
Qed.

Lemma as_manifest_status_read (v : value) (o : option Manifest.status_t) :
  as_optional as_manifest_status v = Some o ->
  o = match v with
      | VUndefined => None
      | st => Some (Manifest.mkStatus (text_opt (field_of st "test"))
                      (text_opt (field_of st "healthCheck")))
      end.
Proof.
  destruct v as [| | | | | | |st]; try discriminate; [now intros [= <-]|].
  cbn [as_optional as_manifest_status as_object bind field_of]. intros H.
  read_binds H. read_binds E.
  now rewrite_reads.
Qed.

Lemma as_Manifest_read (doc : value) (m : Manifest.t) :
  as_Manifest doc = Some m -> m = read_Manifest doc.
Proof.
  unfold as_Manifest. destruct doc as [| | | | | | |o]; try discriminate.
  cbn [as_object bind]. intros H. read_binds H.
  unfold read_Manifest. cbn [field_of].
  repeat match goal with
         | E : as_identity _ = Some _ |- _ =>
             rewrite (as_identity_read _ E); clear E
         | E : as_security _ = Some _ |- _ =>
             let S := fresh "S" in
             pose proof (as_security_read _ E) as S; cbv zeta in S;
             rewrite S; clear S E
         | E : as_optional as_manifest_status _ = Some _ |- _ =>
             rewrite (as_manifest_status_read _ E); clear E
         end.
  rewrite_reads. now destruct (get (js "status") o).
Qed.

Lemma as_SpokeStatus_read (doc : value) (st : SpokeStatus.t) :
  as_SpokeStatus doc = Some st -> st = read_SpokeStatus doc.
Proof.
  unfold as_SpokeStatus. destruct doc as [| | | | | | |o]; try discriminate.
  cbn [as_object bind]. intros H. read_binds H.
  unfold read_SpokeStatus. cbn [field_of].
  repeat match goal with
         | E : as_tests _ = Some _ |- _ => unfold as_tests in E
         | E : as_git _ = Some _ |- _ => unfold as_git in E
         end.
  destruct (get (js "tests") o) as [| | | | | | |testso]; try discriminate.
  destruct (get (js "git") o) as [| | | | | | |gito]; try discriminate.
  cbn [as_object bind field_of] in *.
  repeat match goal with
         | E : bind _ _ = Some _ |- _ => read_binds E
         end.
  now rewrite_reads.
Qed.

Lemma as_list_Some_items (v : value) (l : list value) :
  as_list Some v = Some l -> l = items_of v.
Proof.
  destruct v; try discriminate. cbn [as_list items_of].
  rewrite as_array_Some. now intros [= <-].
Qed.

Lemma as_list_texts (v : value) (l : list jsstring) :
  as_list as_string v = Some l -> l = List.map text_of (items_of v).
Proof.
  destruct v; try discriminate. cbn [as_list items_of]. intros H.
  apply as_array_strings in H. subst items. rewrite map_map. cbn [text_of].
  now rewrite map_id.
Qed.

Lemma as_Operator_read (doc : value) (o : Operator.t) :
  as_Operator doc = Some o ->
  exists out,
    doc = VObj out
    /\ o = Operator.mk (text_of (get (js "handle") out))
             (text_opt (get (js "name") out))
             (Operator.mkSigning
                (text_of (field_of (get (js "signing") out) "publicKey"))
                (text_opt (field_of (get (js "signing") out) "fingerprint")))
             (items_of (get (js "identities") out))
             (List.map text_of (items_of (get (js "skills") out)))
             (text_of (get (js "availability") out))
             (items_of (get (js "hives") out)).
Proof.
  unfold as_Operator. destruct doc as [| | | | | | |out]; try discriminate.
  cbn [as_object bind]. intros H. exists out. split; [reflexivity|].
  read_binds H.
  repeat match goal with
         | E : as_signing _ = Some _ |- _ => unfold as_signing in E
         end.
  destruct (get (js "signing") out) as [| | | | | | |so]; try discriminate.
  cbn [as_object bind field_of] in *.
  repeat match goal with
         | E : bind _ _ = Some _ |- _ => read_binds E
         | E : as_list Some _ = Some _ |- _ =>
             rewrite (as_list_Some_items _ E); clear E
         | E : as_list as_string _ = Some _ |- _ =>
             rewrite (as_list_texts _ E); clear E
         end.
  now rewrite_reads.
Qed.

(** The fields of a valid parse of a schema, for a shape read off the
    hypothesis. *)
Tactic Notation "parsed_fields" hyp(H) ident(props) ident(out) ident(Hr)
  ident(Hf) :=
  match type of H with
  | parse_as (ZodObject ?sh) ?read ?raw = inl ?a =>
      destruct (@parse_as_object _ sh read raw a eq_refl H)
        as (props & out & -> & Hr & Hf)
  end.

(** A leaf field of a valid parse holds the value of the input. *)
Tactic Notation "leaf_field" hyp(Hf) constr(key) ident(G) :=
  let S := fresh "S" in
  let S' := fresh "S" in
  match type of Hf with
  | forall k s, In (k, s) ?shape -> _ =>
      match shape with
      | context [(js key, ?s)] =>
          assert (In (js key, s) shape) as S by (simpl; tauto);
          destruct (Hf (js key) s S) as [S' G]; clear S;
          rewrite (@leaf_output s eq_refl _ _ S') in G; clear S'
      end
  end.

(** A field of a valid parse that is a mapping of leaves. *)
Tactic Notation "leaves_field" hyp(Hf) constr(key) ident(G) :=
  let S := fresh "S" in
  let S' := fresh "S" in
  match type of Hf with
  | forall k s, In (k, s) ?shape -> _ =>
      match shape with
      | context [(js key, ZodObject ?sh)] =>
          assert (In (js key, ZodObject sh) shape) as S by (simpl; tauto);
          destruct (Hf (js key) (ZodObject sh) S) as [S' G]; clear S;
          rewrite (@object_of_leaves_output sh _ _ eq_refl S') in G; clear S';
          cbn [List.map fst] in G
      end
  end.

Lemma flag_default_output (sshape rshape : list (jsstring * ZodType))
  (p : list PathSeg) (v : value) (k : string) :
  distinct_keys (List.map fst sshape) = true ->
  distinct_keys (List.map fst rshape) = true ->
  In (js "reflexes", ZodDefault (ZodOptional (ZodObject rshape)) (VObj [])) sshape ->
  In (js k, ZodDefault (ZodOptional ZodBoolean) (VBool false)) rshape ->
  status (_parse (ZodDefault (ZodOptional (ZodObject sshape)) (VObj [])) p v)
  = valid ->
  is_true
    (field_of
       (field_of
          (output (_parse (ZodDefault (ZodOptional (ZodObject sshape)) (VObj []))
                     p v)) "reflexes") k)
  = is_true (field_of (field_of v "reflexes") k).
Proof.
  intros D1 D2 I1 I2 St.
  pose proof (parse_default_object _ _ _ St) as E1. rewrite E1 in St |- *.
  destruct (@parse_object_valid sshape p _ D1 St) as (sp & sout & Es & Ho & Hf).
  injection Es as <-. rewrite Ho. cbn [field_of].
  destruct (Hf _ _ I1) as [St2 G2]. rewrite G2.
  pose proof (parse_default_object _ _ _ St2) as E2. rewrite E2 in St2 |- *.
  destruct (@parse_object_valid rshape _ _ D2 St2) as (rp & rout & Er & Ho2 & Hf2).
  injection Er as <-. rewrite Ho2. cbn [field_of].
  destruct (Hf2 _ _ I2) as [St3 G3]. rewrite G3, (parse_flag _ _ St3).
  cbn [is_true]. now rewrite !field_of_props.
Qed.

Lemma read_status_strip (keys : list jsstring) (v : value) :
  mem_str (js "test") keys = true -> mem_str (js "healthCheck") keys = true ->
  match strip keys v with
  | VUndefined => None
  | st => Some (Manifest.mkStatus (text_opt (field_of st "test"))
                  (text_opt (field_of st "healthCheck")))
  end
  = match v with
    | VUndefined => None
    | st => Some (Manifest.mkStatus (text_opt (field_of st "test"))
                    (text_opt (field_of st "healthCheck")))
    end.
Proof.
  intros M1 M2. destruct v; try reflexivity.
  rewrite <- (field_of_strip keys (VObj props) "test" M1).
  rewrite <- (field_of_strip keys (VObj props) "healthCheck" M2).
  reflexivity.
Qed.

(** The typed manifest of a valid raw input holds the values of the raw
    input. *)
Lemma ManifestSchema_parse_reads (raw : value) (m : Manifest.t) :
  ManifestSchema_parse raw = inl m -> m = read_Manifest raw.
Proof.
  intros H. unfold ManifestSchema_parse, ManifestSchema in H.
  parsed_fields H props out Hr Hf.
  apply as_Manifest_read in Hr. subst m.
  unfold read_Manifest. cbn [field_of].
  leaf_field Hf "name"%string G1. leaf_field Hf "hub"%string G2.
  leaf_field Hf "project"%string G3. leaf_field Hf "maintainer"%string G4.
  leaf_field Hf "license"%string G5. leaves_field Hf "identity"%string G6.
  rewrite G1, G2, G3, G4, G5, G6.
  rewrite !field_of_strip by reflexivity.
  f_equal.
  - f_equal. f_equal.
    all: match goal with
         | |- is_true (field_of (field_of (get (js "security") _) _) ?k) = _ =>
             destruct (Hf (js "security") _
                         ltac:(do 7 right; left; reflexivity)) as [Ss Gs];
             rewrite Gs;
             match type of Ss with
             | status (_parse (ZodDefault (ZodOptional (ZodObject ?ss)) _) _ _)
               = _ =>
                 match ss with
                 | context [(js "reflexes",
                             ZodDefault (ZodOptional (ZodObject ?rs)) _)] =>
                     apply (@flag_default_output ss rs _ _ k eq_refl eq_refl);
                     [left; reflexivity | simpl; tauto | exact Ss]
                 end
             end
         end.
  - destruct (Hf (js "status") _ ltac:(do 8 right; left; reflexivity)) as [Ss Gs].
    rewrite Gs. clear Gs.
    destruct (get (js "status") props) eqn:Es; try discriminate Ss;
      [reflexivity|].
    change (_parse (ZodOptional ?s) ?p (VObj ?x)) with (_parse s p (VObj x)) in *.
    match type of Ss with
    | status (_parse (ZodObject ?sh) _ _) = _ =>
        rewrite (@object_of_leaves_output sh _ _ eq_refl Ss)
    end.
    apply read_status_strip; reflexivity.
Qed.

Lemma StatusSchema_parse_reads (raw : value) (st : SpokeStatus.t) :
  StatusSchema_parse raw = inl st -> st = read_SpokeStatus raw.
Proof.
  intros H. unfold StatusSchema_parse, StatusSchema in H.
  parsed_fields H props out Hr Hf.
  apply as_SpokeStatus_read in Hr. subst st.
  unfold read_SpokeStatus. cbn [field_of].
  leaf_field Hf "generatedAt"%string G1. leaf_field Hf "generatedBy"%string G2.
  leaf_field Hf "phase"%string G3. leaves_field Hf "tests"%string G4.
  leaves_field Hf "git"%string G5.
  rewrite G1, G2, G3, G4, G5.
  now rewrite !field_of_strip by reflexivity.
Qed.

Lemma identity_entry_output (q : list PathSeg) (item : value) :
  status (_parse IdentityEntrySchema q item) = valid ->
  output (_parse IdentityEntrySchema q item) = strip identity_keys item.
Proof.
  intros St.
  match type of St with
  | status (_parse ?schema _ _) = _ =>
      let sc := eval hnf in schema in
      match sc with
      | ZodObject ?sh => exact (@object_of_leaves_output sh q item eq_refl St)
      end
  end.
Qed.

Lemma hive_entry_output (q : list PathSeg) (item : value) :
  status (_parse HiveEntrySchema q item) = valid ->
  output (_parse HiveEntrySchema q item) = strip hive_keys item.
Proof.
  intros St.
  match type of St with
  | status (_parse ?schema _ _) = _ =>
      let sc := eval hnf in schema in
      match sc with
      | ZodObject ?sh => exact (@object_of_leaves_output sh q item eq_refl St)
      end
  end.
Qed.

Lemma OperatorSchema_parse_reads (raw : value) (o : Operator.t) :
  OperatorSchema_parse raw = inl o -> o = read_Operator raw.
Proof.
  intros H. unfold OperatorSchema_parse in H.
  rewrite OperatorSchema_shape in H.
  unfold OperatorTier1Shape, OperatorTier2Shape in H. cbn [app] in H.
  parsed_fields H props out Hr Hf.
  apply as_Operator_read in Hr as (out' & Eo & ->).
  injection Eo as <-.
  unfold read_Operator. cbn [field_of].
  leaf_field Hf "handle"%string G1. leaf_field Hf "name"%string G2.
  leaves_field Hf "signing"%string G3.
  destruct (Hf (js "identities") _ ltac:(do 4 right; left; reflexivity))
    as [S4 G4].
  destruct (Hf (js "skills") _ ltac:(do 5 right; left; reflexivity)) as [S5 G5].
  destruct (Hf (js "availability") _ ltac:(do 6 right; left; reflexivity))
    as [S6 G6].
  destruct (Hf (js "hives") _ ltac:(do 7 right; left; reflexivity)) as [S7 G7].
  rewrite G1, G2, G3, G4, G5, G6, G7.
  rewrite !field_of_strip by reflexivity.
  rewrite (@default_array_output IdentityEntrySchema (strip identity_keys) _ _
             identity_entry_output S4).
  rewrite (@default_array_output HiveEntrySchema (strip hive_keys) _ _
             hive_entry_output S7).
  rewrite (@default_array_output (ZodString []) (fun x => x) _ _
             (@leaf_output (ZodString []) eq_refl) S5).
  rewrite map_id. f_equal.
  destruct (get (js "availability") props) eqn:Ea; try discriminate S6;
    [reflexivity|].
  rewrite parse_default_optional in S6 |- * by discriminate.
  cbn [_parse] in S6 |- *.
  destruct (mem_str s [js "open"; js "busy"; js "offline"]);
    [reflexivity | discriminate S6].
Qed.

Lemma loaded_parse_inl {A} (parse : value -> A + list ZodIssue)
  (content : jsstring) (raw : value) (a : A) :
  load content = YamlValue raw -> parse raw = inl a ->
  (let! raw0 := loadYaml (Some content) in parse_or_throw parse raw0) = inl a.
Proof.
  intros Hl Hp. unfold loadYaml, load_or_throw, parse_or_throw.
  rewrite Hl. cbn [try_bind]. now rewrite Hp.
Qed.

(** ** Schema validation *)

Lemma fold_push_error (f : ZodIssue -> jsstring) (err : list ZodIssue)
  (results : ValidationResult) :
  fold_left (fun r i => push_error (f i) r) err results
  = mkValidationResult (errors results ++ List.map f err) (warnings results).
Proof.
  revert results; induction err as [|i err IH]; intros results; simpl.
  - rewrite app_nil_r. now destruct results.
  - rewrite IH. unfold push_error. simpl. now rewrite <- app_assoc.
Qed.

Lemma breaks_rejected {A} (schema : ZodType) (read : value -> option A)
  (raw : value) (p : list PathSeg) (c : Constraint) (v : value) :
  breaks schema raw p c v ->
  exists err, parse_as schema read raw = inr err /\ In (issue_of c v p) err.
Proof.
  intros Hb. apply breaks_reported in Hb. unfold parse_as, safeParse.
  destruct (status (_parse schema [] raw)) eqn:St.
  - apply parse_valid_iff in St. rewrite St in Hb. contradiction.
  - eexists. split; [reflexivity | exact Hb].
  - eexists. split; [reflexivity | exact Hb].
Qed.

Lemma loaded_parse_inr {A} (parse : value -> A + list ZodIssue)
  (content : jsstring) (raw : value) (err : list ZodIssue) :
  load content = YamlValue raw -> parse raw = inr err ->
  (let! raw0 := loadYaml (Some content) in parse_or_throw parse raw0)
  = inr (ZodError err).
Proof.
  intros Hl Hp. unfold loadYaml, load_or_throw, parse_or_throw.
  rewrite Hl. cbn [try_bind]. now rewrite Hp.
Qed.

Lemma validateManifest_report (content : jsstring) (raw : value)
  (results : ValidationResult) :
  load content = YamlValue raw ->
  validation_report ManifestSchema_parse (js "manifest.yaml") raw results
    (validateManifest (Some content) results).
Proof.
  intros Hl. unfold validation_report, validateManifest.
  destruct (ManifestSchema_parse raw) as [m|err] eqn:E.
  - rewrite (@loaded_parse_inl _ _ _ _ _ Hl E). cbn [fst snd]. split; [reflexivity|].
    now destruct (includes _ placeholder).
  - rewrite (@loaded_parse_inr _ _ _ _ _ Hl E). f_equal. apply fold_push_error.
Qed.

Lemma validateStatus_report (content : jsstring) (raw : value) (now : Z)
  (results : ValidationResult) :
  load content = YamlValue raw ->
  validation_report StatusSchema_parse (js "status.yaml") raw results
    (validateStatus (Some content) now results).
Proof.
  intros Hl. unfold validation_report, validateStatus.
  destruct (StatusSchema_parse raw) as [st|err] eqn:E.
  - rewrite (@loaded_parse_inl _ _ _ _ _ Hl E). cbn [fst snd]. split; [reflexivity|].
    destruct (Date_parse _); [|reflexivity]. cbv zeta.
    now destruct (negb _).
  - rewrite (@loaded_parse_inr _ _ _ _ _ Hl E). f_equal. apply fold_push_error.
Qed.

Lemma validateOperator_report (content : jsstring) (raw : value)
  (results : ValidationResult) :
  load content = YamlValue raw ->
  validation_report OperatorSchema_parse (js "operator.yaml") raw results
    (validateOperator (Some content) results).
Proof.
  intros Hl. unfold validation_report, validateOperator.
  destruct (OperatorSchema_parse raw) as [o|err] eqn:E.
  - rewrite (@loaded_parse_inl _ _ _ _ _ Hl E). now split.
  - rewrite (@loaded_parse_inr _ _ _ _ _ Hl E). f_equal. apply fold_push_error.
Qed.

(** The error line of a broken constraint is in the report. *)
Lemma broken_constraint_line {A} (schema : ZodType) (read : value -> option A)
  (file : jsstring) (raw : value) (results : ValidationResult)
  (run : option A * ValidationResult) (p : list PathSeg) (c : Constraint)
  (v : value) :
  validation_report (parse_as schema read) file raw results run ->
  breaks schema raw p c v ->
  In (issue_line file (issue_of c v p)) (errors (snd run)).
Proof.
  intros Hr Hb. destruct (breaks_rejected read Hb) as (err & E & Hin).
  unfold validation_report in Hr. rewrite E in Hr. subst run.
  cbn [snd errors]. apply in_or_app. right.
  apply in_map_iff. exists (issue_of c v p). split; [reflexivity | exact Hin].
Qed.

(** C7.  For each of the three document schemas and every raw input, the
    validation either finds no broken constraint and returns the typed
    document, or returns a list of violations that is not empty and holds
    the violation of every constraint that a field of the input breaks, and
    nothing else: no broken constraint is left out because another one
    failed before it, on the same field or on another.  A violation carries
    the path of its field and the message that the schema gives for the
    constraint, or else the text that the default error map of the library
    composes from the code and the data of the violation.  The typed
    document that is returned satisfies the constraints of the data model
    and holds the values of the raw input: every declared field, the default
    of an absent field that has one, and no undeclared field.  The report of
    [validate] has, for each of the three files, one error line per
    violation: the name of the file, the path of the field with its segments
    joined by dots, an em dash, and the message. *)
Theorem schema_validation_collects_all (raw : value) :
  reports_every_violation ManifestSchema raw
  /\ reports_every_violation StatusSchema raw
  /\ reports_every_violation OperatorSchema raw
  /\ (forall c v p,
        path (issue_of c v p) = p
        /\ issue_message (issue_of c v p)
           = match constraint_message c with
             | Some m => m
             | None => defaultErrorMap (code (issue_of c v p))
             end)
  /\ match ManifestSchema_parse raw with
     | inl m => Manifest_valid m /\ m = read_Manifest raw
                /\ exists doc, safeParse ManifestSchema raw = inl doc
                               /\ as_Manifest doc = Some m
     | inr err => err <> [] /\ safeParse ManifestSchema raw = inr err
     end
  /\ match StatusSchema_parse raw with
     | inl st => Status_valid st /\ st = read_SpokeStatus raw
                 /\ exists doc, safeParse StatusSchema raw = inl doc
                                /\ as_SpokeStatus doc = Some st
     | inr err => err <> [] /\ safeParse StatusSchema raw = inr err
     end
  /\ match OperatorSchema_parse raw with
     | inl o => Operator_valid o /\ o = read_Operator raw
                /\ exists doc, safeParse OperatorSchema raw = inl doc
                               /\ as_Operator doc = Some o
     | inr err => err <> [] /\ safeParse OperatorSchema raw = inr err
     end
  /\ (forall content now results,
        load content = YamlValue raw ->
        validation_report ManifestSchema_parse (js "manifest.yaml") raw results
          (validateManifest (Some content) results)
        /\ validation_report StatusSchema_parse (js "status.yaml") raw results
             (validateStatus (Some content) now results)
        /\ validation_report OperatorSchema_parse (js "operator.yaml") raw results
             (validateOperator (Some content) results))
  /\ (dotted [] = []
      /\ (forall k, dotted [Key k] = k)
      /\ (forall n, dotted [Index n] = nat_text n)
      /\ (forall seg seg' p,
            dotted (seg :: seg' :: p)
            = dotted [seg] ++ js "." ++ dotted (seg' :: p)))
  /\ (forall content results props identity key,
        load content = YamlValue raw -> raw = VObj props ->
        get (js "identity") props = VObj identity ->
        get (js "publicKey") identity = VStr key ->
        startsWith key ed25519_prefix = false ->
        In (js "manifest.yaml: identity.publicKey " ++ em_dash
            ++ js " Public key must be an Ed25519 SSH key")
          (errors (snd (validateManifest (Some content) results))))
  /\ (forall content now results props tests passing,
        load content = YamlValue raw -> raw = VObj props ->
        get (js "tests") props = VObj tests ->
        get (js "passing") tests = VNum (NumInt passing) ->
        (passing < 0)%Z ->
        In (js "status.yaml: tests.passing " ++ em_dash ++ js " "
            ++ defaultErrorMap (too_small sized_number 0 true))
          (errors (snd (validateStatus (Some content) now results))))
  /\ (forall content results props hives n hive role,
        load content = YamlValue raw -> raw = VObj props ->
        get (js "hives") props = VArr hives ->
        nth_error hives n = Some (VObj hive) ->
        get (js "role") hive = VStr role ->
        mem_str role [js "contributor"; js "reviewer"; js "maintainer"] = false ->
        In (js "operator.yaml: hives." ++ nat_text n ++ js ".role " ++ em_dash
            ++ js " "
            ++ defaultErrorMap
                 (invalid_enum_value
                    [js "contributor"; js "reviewer"; js "maintainer"] role))
          (errors (snd (validateOperator (Some content) results)))).
Proof.
  split; [apply safeParse_reports, wf_ManifestSchema|].
  split; [apply safeParse_reports, wf_StatusSchema|].
  split; [apply safeParse_reports, wf_OperatorSchema|].
  split.
  { intros c v p. split; [apply issue_of_path|].
    unfold issue_message. now rewrite issue_of_message. }
  split.
  { pose proof (ManifestSchema_parse_spec raw) as S.
    destruct (ManifestSchema_parse raw) as [m|err] eqn:E; [|exact S].
    destruct S as (_ & Hv & Hd). split; [exact Hv|].
    split; [now apply ManifestSchema_parse_reads | exact Hd]. }
  split.
  { pose proof (StatusSchema_parse_spec raw) as S.
    destruct (StatusSchema_parse raw) as [st|err] eqn:E; [|exact S].
    destruct S as (_ & Hv & Hd). split; [exact Hv|].
    split; [now apply StatusSchema_parse_reads | exact Hd]. }
  split.
  { pose proof (OperatorSchema_parse_spec raw) as S.
    destruct (OperatorSchema_parse raw) as [o|err] eqn:E; [|exact S].
    destruct S as (_ & Hv & Hd). split; [exact Hv|].
    split; [now apply OperatorSchema_parse_reads | exact Hd]. }
  split.
  { intros content now results Hl.
    split; [now apply validateManifest_report|].
    split; [now apply validateStatus_report | now apply validateOperator_report]. }
  split.
  { split; [reflexivity|]. split; [reflexivity|].
    split; [reflexivity|]. reflexivity. }
  split; [|split].
  - intros content results props identity key Hl -> Hi Hk Hs.
    apply (@broken_constraint_line _ ManifestSchema as_Manifest
             (js "manifest.yaml") _ results _
             [Key (js "identity"); Key (js "publicKey")]
             (string_check
                (StartsWith ed25519_prefix
                   (Some (js "Public key must be an Ed25519 SSH key"))))
             (VStr key) (@validateManifest_report content _ results Hl)).
    eapply br_object_field; [do 6 right; left; reflexivity|]. rewrite Hi.
    eapply br_object_field; [right; left; reflexivity|]. rewrite Hk.
    apply br_string_check; [left; reflexivity | exact Hs].
  - intros content now results props tests passing Hl -> Ht Hp Hneg.
    apply (@broken_constraint_line _ StatusSchema as_SpokeStatus
             (js "status.yaml") _ results _
             [Key (js "tests"); Key (js "passing")]
             (number_check Nonnegative) (VNum (NumInt passing))
             (@validateStatus_report content _ now results Hl)).
    eapply br_object_field; [do 4 right; left; reflexivity|]. rewrite Ht.
    eapply br_object_field; [left; reflexivity|]. rewrite Hp.
    apply br_number_check; [discriminate | right; left; reflexivity|].
    cbn [number_check_ok]. now apply Z.leb_gt.
  - intros content results props hives n hive role Hl -> Hh Hn Hr Hm.
    pose proof (@broken_constraint_line _ OperatorSchema as_Operator
                  (js "operator.yaml") _ results _
                  [Key (js "hives"); Index n; Key (js "role")]
                  (one_of_enum
                     [js "contributor"; js "reviewer"; js "maintainer"] None)
                  (VStr role) (@validateOperator_report content _ results Hl))
      as L.
    assert (breaks OperatorSchema (VObj props)
              [Key (js "hives"); Index n; Key (js "role")]
              (one_of_enum [js "contributor"; js "reviewer"; js "maintainer"] None)
              (VStr role)) as Hb.
    { unfold OperatorSchema.
      eapply br_object_field; [do 7 right; left; reflexivity|]. rewrite Hh.
      apply br_default_present; [discriminate|].
      apply br_optional; [discriminate|].
      eapply br_array_item; [exact Hn|].
      eapply br_object_field; [right; left; reflexivity|]. rewrite Hr.
      apply br_optional; [discriminate|]. now apply br_enum. }
    specialize (L Hb).
    unfold issue_line, issue_message, dotted in L.
    cbn [issue_of path message code List.map path_segment join] in L.
    fold (nat_text n) in L.
    rewrite <- !app_assoc in L. exact L.
Qed.

Lemma safeParse_issues (schema : ZodType) (raw : value) (err : list ZodIssue) :
  safeParse schema raw = inr err -> err = issues (_parse schema [] raw).
Proof.
  unfold safeParse. destruct (status (_parse schema [] raw)); congruence.
Qed.

Lemma manifest_violation_rejected (raw : value) (p : list PathSeg) :
  violates ManifestSchema raw p ->
  exists err i, ManifestSchema_parse raw = inr err /\ In i err /\ path i = p.
Proof.
  intros Hv. apply violates_reported in Hv as (i & Hi & Hp).
  pose proof (ManifestSchema_parse_spec raw) as S.
  destruct (ManifestSchema_parse raw) as [m|err].
  - destruct S as (E & _). rewrite E in Hi. contradiction.
  - destruct S as (_ & S). apply safeParse_issues in S. subst err.
    now exists (issues (_parse ManifestSchema [] raw)), i.
Qed.

Lemma not_object_violates (shape : list (jsstring * ZodType)) (raw : value) :
  (forall props, raw <> VObj props) -> violates (ZodObject shape) raw [].
Proof. apply viol_object_type. Qed.

(** The violations of a raw input that is not a mapping: the one at the
    root. *)
Lemma not_object_rejected (raw : value) :
  (forall props, raw <> VObj props) ->
  ManifestSchema_parse raw
  = inr [mkIssue (invalid_type (a_type t_object) (getParsedType raw)) [] None].
Proof.
  intros H. destruct raw; try reflexivity. now destruct (H props).
Qed.

Lemma distinct_keys_unique (shape : list (jsstring * ZodType)) (k : jsstring)
  (s s' : ZodType) :
  distinct_keys (List.map fst shape) = true ->
  In (k, s) shape -> In (k, s') shape -> s = s'.
Proof.
  induction shape as [|[k0 s0] shape IH]; [contradiction|].
  cbn [List.map fst distinct_keys]. intros D H1 H2.
  apply andb_true_iff in D as [D1 D2]. apply negb_true_iff in D1.
  assert (forall x, In (k0, x) shape -> False) as Fresh.
  { intros x Hx.
    assert (mem_str k0 (List.map fst shape) = true) as M
      by (apply mem_str_In; apply in_map_iff; now exists (k0, x)).
    congruence. }
  destruct H1 as [E1|H1], H2 as [E2|H2].
  - congruence.
  - injection E1 as -> ->. now destruct (Fresh _ H2).
  - injection E2 as -> ->. now destruct (Fresh _ H1).
  - now apply IH.
Qed.

(** Below a field that should be a mapping and is not, nothing is
    reported. *)
Lemma field_not_object_no_subpath (shape ishape : list (jsstring * ZodType))
  (props : list (jsstring * value)) (k : jsstring) (q : list PathSeg)
  (i : ZodIssue) :
  distinct_keys (List.map fst shape) = true ->
  In (k, ZodObject ishape) shape ->
  (forall ip, get k props <> VObj ip) ->
  In i (issues (_parse (ZodObject shape) [] (VObj props))) ->
  path i = Key k :: q -> q = [].
Proof.
  intros D Hk Hn Hin Hp.
  apply parse_object_issues in Hin as (k' & s & i0 & Hin & Hi0 & ->).
  cbn [at_path path app] in Hp. injection Hp as -> Hq.
  rewrite (@distinct_keys_unique shape k s (ZodObject ishape) D Hin Hk) in Hi0.
  destruct (get k props) eqn:E;
    try (destruct Hi0 as [<-|[]]; now rewrite <- Hq).
  now destruct (Hn props0).
Qed.

(** C8, as amended.  A raw manifest that is a mapping is rejected with a
    violation at the path of the offending field: at [hub] when the hub is
    missing or does not have the owner/repo shape, at [license] when the
    license is not one of the six accepted licenses, and at
    [identity.publicKey] when [identity] is a mapping whose key does not
    begin with [ssh-ed25519 ].  When [identity] is not a mapping the
    violation is at [identity] and there is none at [identity.publicKey];
    when the raw input is not a mapping, the validation fails with the one
    violation at the root and none at any field. *)
Theorem manifest_rejects_offending_fields (raw : value) :
  (forall props,
      raw = VObj props ->
      (missing_or_bad_hub raw -> rejected_with_path raw [Key (js "hub")])
      /\ (bad_license raw -> rejected_with_path raw [Key (js "license")])
      /\ (forall identity,
            get (js "identity") props = VObj identity ->
            bad_publicKey raw ->
            rejected_with_path raw [Key (js "identity"); Key (js "publicKey")])
      /\ ((forall identity, get (js "identity") props <> VObj identity) ->
          rejected_with_path raw [Key (js "identity")]
          /\ ~ rejected_with_path raw [Key (js "identity"); Key (js "publicKey")]))
  /\ ((forall props, raw <> VObj props) ->
      ManifestSchema_parse raw
      = inr [mkIssue (invalid_type (a_type t_object) (getParsedType raw)) [] None]
      /\ forall p, rejected_with_path raw p -> p = [])
  /\ (dotted [Key (js "hub")] = js "hub"
      /\ dotted [Key (js "license")] = js "license"
      /\ dotted [Key (js "identity"); Key (js "publicKey")]
         = js "identity.publicKey"
      /\ dotted [Key (js "identity")] = js "identity"
      /\ dotted [] = []).
Proof.
  split; [|split].
  - intros props ->. split; [|split; [|split]].
    + intros H. apply manifest_violation_rejected.
      unfold missing_or_bad_hub, field_of in H.
      eapply viol_object_field; [right; right; left; reflexivity|].
      destruct (get (js "hub") props) eqn:E;
        try (apply viol_string_type; discriminate).
      eapply viol_string_check; [left; reflexivity|]. now apply H.
    + intros H. apply manifest_violation_rejected.
      unfold bad_license, field_of in H.
      eapply viol_object_field; [do 5 right; left; reflexivity|].
      apply viol_enum. intros s E.
      destruct (mem_str s ACCEPTED_LICENSES) eqn:M; [|reflexivity].
      apply mem_str_In in M. now destruct (H s E).
    + intros identity Hi H. apply manifest_violation_rejected.
      unfold bad_publicKey in H. cbn [field_of] in H. rewrite Hi in H.
      cbn [field_of] in H.
      eapply viol_object_field; [do 6 right; left; reflexivity|]. rewrite Hi.
      eapply viol_object_field; [right; left; reflexivity|].
      destruct (get (js "publicKey") identity) eqn:E';
        try (apply viol_string_type; discriminate).
      eapply viol_string_check; [left; reflexivity|].
      cbn [string_check_ok].
      destruct (startsWith s ed25519_prefix) eqn:P; [|reflexivity].
      apply startsWith_prefix in P. now destruct (H s eq_refl).
    + intros Hi. split.
      * apply manifest_violation_rejected.
        eapply viol_object_field; [do 6 right; left; reflexivity|].
        now apply not_object_violates.
      * intros (err & i & E & Hin & Hp).
        pose proof (ManifestSchema_parse_spec (VObj props)) as S.
        rewrite E in S. destruct S as (_ & S).
        apply safeParse_issues in S. subst err. unfold ManifestSchema in Hin.
        match type of Hin with
        | In _ (issues (_parse (ZodObject ?sh) _ _)) =>
            match sh with
            | context [(js "identity", ZodObject ?ish)] =>
                pose proof (@field_not_object_no_subpath sh ish props
                              (js "identity") [Key (js "publicKey")] i eq_refl
                              ltac:(do 6 right; left; reflexivity) Hi Hin Hp) as F
            end
        end.
        discriminate F.
  - intros H. split; [now apply not_object_rejected|].
    intros p (err & i & E & Hin & <-).
    rewrite (not_object_rejected H) in E. injection E as <-.
    now destruct Hin as [<-|[]].
  - repeat split; reflexivity.
Qed.


(* ================================================================== *)
(** * Further properties of the code *)
(* ================================================================== *)

(** ** The registry and the keys it holds *)

Lemma words_tokens (s w : jsstring) : In w (words s) -> token w.
Proof.
  unfold token. revert w; induction s as [|c s IH]; intros w; simpl; [contradiction|].
  destruct (is_ws c) eqn:Wc; [apply IH|].
  destruct s as [|c' s']; [intros [<-|[]]; simpl; rewrite Wc; now split|].
  destruct (is_ws c') eqn:Wc'.
  - intros [<-|Hin]; [simpl; rewrite Wc; now split | now apply IH].
  - destruct (words (c' :: s')) as [|t ts] eqn:E.
    + intros [<-|[]]. simpl. rewrite Wc. now split.
    + intros [<-|Hin].
      * destruct (IH t (or_introl eq_refl)) as [_ Ht].
        split; [discriminate|]. simpl. now rewrite Wc, Ht.
      * apply IH. now right.
Qed.

Lemma split_ws_nonnil (s : jsstring) : split_ws s <> [].
Proof.
  induction s as [|c s IH]; simpl; [discriminate|].
  destruct (is_ws c).
  - destruct s as [|c' s']; [discriminate|]. destruct (is_ws c'); [exact IH | discriminate].
  - destruct (split_ws s); discriminate.
Qed.

Lemma split_ws_ws_head (c : N) (s : jsstring) :
  is_ws c = true ->
  exists t, split_ws (c :: s) = [] :: t /\ (starts_ws s = false -> t = split_ws s).
Proof.
  revert c; induction s as [|c' s IH]; intros c Wc.
  - exists [[]]. simpl. rewrite Wc. now split.
  - destruct (is_ws c') eqn:Wc'.
    + destruct (IH c' Wc') as (t & E & _). exists t. split.
      * change (split_ws (c :: c' :: s))
          with (let r := split_ws (c' :: s) in
                if is_ws c then if is_ws c' then r else [] :: r
                else match r with t0 :: ts => (c :: t0) :: ts | [] => [[c]] end).
        cbv zeta. now rewrite Wc, Wc'.
      * simpl. rewrite Wc'. discriminate.
    + exists (split_ws (c' :: s)). split; [|reflexivity].
      change (split_ws (c :: c' :: s))
        with (let r := split_ws (c' :: s) in
              if is_ws c then if is_ws c' then r else [] :: r
              else match r with t0 :: ts => (c :: t0) :: ts | [] => [[c]] end).
      cbv zeta. now rewrite Wc, Wc'.
Qed.

Lemma split_ws_token_ws (w : jsstring) (c : N) (s : jsstring) :
  forallb (fun x => negb (is_ws x)) w = true -> is_ws c = true ->
  split_ws (w ++ c :: s) = w :: tl (split_ws (c :: s)).
Proof.
  intros Hw Wc. induction w as [|x w IH].
  - destruct (@split_ws_ws_head c s Wc) as (t & E & _). simpl app. now rewrite E.
  - simpl in Hw. apply andb_true_iff in Hw as [Hx Hw]. apply negb_true_iff in Hx.
    specialize (IH Hw).
    change (split_ws ((x :: w) ++ c :: s))
      with (let r := split_ws (w ++ c :: s) in
            if is_ws x
            then match w ++ c :: s with
                 | c' :: _ => if is_ws c' then r else [] :: r
                 | [] => [] :: r
                 end
            else match r with t0 :: ts => (x :: t0) :: ts | [] => [[x]] end).
    cbv zeta. now rewrite Hx, IH.
Qed.

Lemma split_ws_token (w : jsstring) :
  forallb (fun x => negb (is_ws x)) w = true -> split_ws w = [w].
Proof.
  induction w as [|x w IH]; intros Hw; [reflexivity|].
  simpl in Hw. apply andb_true_iff in Hw as [Hx Hw]. apply negb_true_iff in Hx.
  simpl. now rewrite Hx, (IH Hw).
Qed.

Lemma Map_set_In {V} (k k' : jsstring) (v v' : V) (m : JsMap V) :
  In (k, v) (Map_set k' v' m) -> In (k, v) m \/ (k = k' /\ v = v').
Proof.
  induction m as [|[k0 v0] m IH]; simpl.
  - intros [[= <- <-]|[]]. now right.
  - destruct (str_eqb k0 k') eqn:E.
    + apply str_eqb_eq in E. subst k0.
      intros [[= <- <-]|H]; [now right | left; now right].
    + intros [H|H]; [left; now left|].
      destruct (IH H) as [H'|H']; [left; now right | now right].
Qed.

Lemma fold_file_entry_In (l : list AllowedSigner) (m : JsMap AllowedSigner)
  (k : jsstring) (s : AllowedSigner) :
  In (k, s) (fold_left file_entry l m) -> In (k, s) m \/ (k = email s /\ In s l).
Proof.
  revert m; induction l as [|x l IH]; intros m; simpl; [now left|].
  intros H. apply IH in H as [H|[-> H]]; [|right; split; [reflexivity | now right]].
  unfold file_entry in H. apply Map_set_In in H as [H|[-> ->]];
    [now left | right; split; [reflexivity | now left]].
Qed.

Lemma filter_map_In {A B} (f : A -> option B) (l : list A) (y : B) :
  In y (filter_map f l) -> exists x, In x l /\ f x = Some y.
Proof.
  induction l as [|x l IH]; simpl; [contradiction|].
  destruct (f x) as [y'|] eqn:E.
  - intros [<-|H]; [exists x; split; [now left | assumption]|].
    destruct (IH H) as (x' & Hin & E'). exists x'. split; [now right | assumption].
  - intros H. destruct (IH H) as (x' & Hin & E'). exists x'.
    split; [now right | assumption].
Qed.

Lemma line_entry_some (line : jsstring) (s : AllowedSigner) :
  line_entry line = Some s ->
  exists e kt kd rest,
    words line = e :: kt :: kd :: rest /\ s = mkSigner e kt (kt ++ space ++ kd).
Proof.
  unfold line_entry. destruct (is_comment line); [discriminate|].
  destruct (words line) as [|e [|kt [|kd rest]]]; try discriminate.
  intros [= <-]. now exists e, kt, kd, rest.
Qed.

Lemma registry_entry_line (text k : jsstring) (s : AllowedSigner) :
  In (k, s) (parseAllowedSigners (Some text)) ->
  k = email s
  /\ exists line, In line (split_on newline text) /\ line_entry line = Some s.
Proof.
  rewrite parseAllowedSigners_fold. intros H.
  apply fold_file_entry_In in H as [[]|[-> H]]. split; [reflexivity|].
  unfold line_entries in H. now apply filter_map_In in H.
Qed.

Lemma key_pieces (kt kd comment : jsstring) :
  token kt -> token kd -> comment = [] \/ starts_ws comment = true ->
  exists r, split_ws (kt ++ space ++ kd ++ comment) = kt :: kd :: r
            /\ (comment = [] -> r = []).
Proof.
  intros [_ Hkt] [Nkd Hkd] Hc. unfold space. simpl app.
  rewrite (@split_ws_token_ws kt 32%N (kd ++ comment) Hkt eq_refl).
  destruct (@split_ws_ws_head 32%N (kd ++ comment) eq_refl) as (t & E & Ht).
  rewrite E. cbn [tl]. rewrite Ht.
  - destruct Hc as [->|Hc].
    + rewrite app_nil_r, (split_ws_token kd Hkd). now exists [].
    + destruct comment as [|c comment]; [discriminate|]. simpl in Hc.
      rewrite (@split_ws_token_ws kd c comment Hkd Hc).
      eexists. split; [reflexivity | discriminate].
  - destruct kd as [|x kd]; [now destruct Nkd|]. simpl in Hkd |- *.
    apply andb_true_iff in Hkd as [Hx _]. now apply negb_true_iff in Hx.
Qed.

Lemma registry_keys_NoDup (file : option jsstring) :
  NoDup (Map_keys (parseAllowedSigners file)).
Proof.
  destruct file as [text|]; [|constructor].
  rewrite parseAllowedSigners_fold, fold_file_entry_keys. simpl.
  apply distinct_acc_NoDup.
Qed.

(** X1.  The registry that [parseAllowedSigners] builds is well formed.  Every
    entry is filed under its own email; the email, the key type and the key
    data are tokens (not empty, no white space); the stored comparison key is
    the key type, one space, and the key data, and it splits on white space
    into exactly these two pieces.  No email is filed twice. *)
Theorem registry_entries_wellformed (text k : jsstring) (s : AllowedSigner) :
  In (k, s) (parseAllowedSigners (Some text)) ->
  k = email s
  /\ token (email s) /\ token (keyType s)
  /\ (exists keyData,
         token keyData
         /\ publicKey s = keyType s ++ space ++ keyData
         /\ split_ws (publicKey s) = [keyType s; keyData])
  /\ NoDup (Map_keys (parseAllowedSigners (Some text))).
Proof.
  intros H. apply registry_entry_line in H as (-> & line & _ & E).
  apply line_entry_some in E as (e & kt & kd & rest & W & ->). cbn [email keyType publicKey].
  assert (token e /\ token kt /\ token kd) as (Te & Tkt & Tkd).
  { repeat split; apply (@words_tokens line); rewrite W; simpl; auto. }
  split; [reflexivity|]. split; [exact Te|]. split; [exact Tkt|].
  split; [|apply registry_keys_NoDup].
  exists kd. split; [exact Tkd|]. split; [reflexivity|].
  destruct (@key_pieces kt kd [] Tkt Tkd (or_introl eq_refl)) as (r & E & Hr).
  rewrite app_nil_r in E. rewrite E. now rewrite (Hr eq_refl).
Qed.

Lemma scan_finds (t : AllowedSigner -> bool) (entries : JsMap AllowedSigner)
  (n : nat) (kv : jsstring * AllowedSigner) :
  In kv entries -> t (snd kv) = true -> inAllowedSigners (scan t entries n) = true.
Proof.
  revert n; induction entries as [|[k s] rest IH]; intros n; simpl; [contradiction|].
  intros [<-|Hin] Ht.
  - simpl in Ht. now rewrite Ht.
  - destruct (t s); [reflexivity | now apply IH].
Qed.

(** X2.  A key that is registered verifies.  A spoke key that begins with the
    comparison key of some entry of the registry is found by the variant that
    reads the hub checkout; a spoke key that is the comparison key of some
    entry, alone or followed by white space and a comment, is found by both
    variants. *)
Theorem registered_key_is_matched (text k : jsstring) (s : AllowedSigner) :
  In (k, s) (parseAllowedSigners (Some text)) ->
  (forall rest,
      inAllowedSigners
        (matchLoop_local (publicKey s ++ rest) (parseAllowedSigners (Some text)) 0)
      = true)
  /\ (forall comment,
        comment = [] \/ starts_ws comment = true ->
        inAllowedSigners
          (matchLoop_local (publicKey s ++ comment) (parseAllowedSigners (Some text)) 0)
        = true
        /\ inAllowedSigners
             (matchLoop_remote (publicKey s ++ comment)
                (parseAllowedSigners (Some text)) 0)
           = true).
Proof.
  intros Hin.
  assert (forall rest,
             inAllowedSigners
               (matchLoop_local (publicKey s ++ rest) (parseAllowedSigners (Some text)) 0)
             = true) as Hlocal.
  { intros rest. rewrite matchLoop_local_scan.
    apply scan_finds with (kv := (k, s)); [exact Hin|]. cbn [snd].
    apply orb_true_iff. left. apply startsWith_prefix. now exists rest. }
  split; [exact Hlocal|]. intros comment Hc. split; [apply Hlocal|].
  rewrite matchLoop_remote_scan.
  apply scan_finds with (kv := (k, s)); [exact Hin|]. cbn [snd].
  apply keyPartsMatch_pieces.
  pose proof Hin as Hl. apply registry_entry_line in Hl as (_ & line & _ & E).
  apply line_entry_some in E as (e & kt & kd & rest & W & ->). cbn [publicKey].
  assert (token kt /\ token kd) as (Tkt & Tkd).
  { split; apply (@words_tokens line); rewrite W; simpl; auto. }
  destruct (@key_pieces kt kd comment Tkt Tkd Hc) as (r & E & _).
  destruct (@key_pieces kt kd [] Tkt Tkd (or_introl eq_refl)) as (r' & E' & _).
  rewrite app_nil_r in E'. exists kt, kd, r, r'.
  rewrite <- !app_assoc. now split.
Qed.

(** ** White space around the lines of the registry *)

Lemma trimStart_all_ws (w : jsstring) : forallb is_ws w = true -> trimStart w = [].
Proof.
  induction w as [|c w IH]; simpl; [reflexivity|].
  intros H. apply andb_true_iff in H as [Hc Hw]. rewrite Hc. now apply IH.
Qed.

Lemma trimStart_ws_app (w l : jsstring) :
  forallb is_ws w = true -> trimStart (w ++ l) = trimStart l.
Proof.
  induction w as [|c w IH]; simpl; [reflexivity|].
  intros H. apply andb_true_iff in H as [Hc Hw]. rewrite Hc. now apply IH.
Qed.

Lemma is_comment_app_ws (l w : jsstring) :
  forallb is_ws w = true -> is_comment (l ++ w) = is_comment l.
Proof.
  intros Hw. unfold is_comment. induction l as [|c l IH]; simpl.
  - now rewrite (trimStart_all_ws w Hw).
  - destruct (is_ws c); [exact IH | reflexivity].
Qed.

Lemma line_entry_padding (w1 l w2 : jsstring) :
  forallb is_ws w1 = true -> forallb is_ws w2 = true ->
  line_entry (w1 ++ l ++ w2) = line_entry l.
Proof.
  intros H1 H2. unfold line_entry.
  assert (is_comment (w1 ++ l ++ w2) = is_comment l) as ->.
  { unfold is_comment at 1. rewrite (@trimStart_ws_app w1 (l ++ w2) H1).
    now apply is_comment_app_ws. }
  assert (words (w1 ++ l ++ w2) = words l) as ->; [|reflexivity].
  rewrite <- words_trimStart, (@trimStart_ws_app w1 (l ++ w2) H1), words_trimStart.
  now apply words_app_ws.
Qed.

Lemma split_on_nonnil (sep : N) (s : jsstring) : split_on sep s <> [].
Proof.
  induction s as [|c s IH]; simpl; [discriminate|].
  destruct (N.eqb c sep); [discriminate|]. destruct (split_on sep s); discriminate.
Qed.

Lemma split_on_to_crlf (text : jsstring) :
  Forall2 padded (split_on newline text) (split_on newline (to_crlf text)).
Proof.
  induction text as [|c text IH].
  - simpl. constructor; [|constructor]. now exists [].
  - unfold to_crlf. cbn [flat_map]. fold (to_crlf text).
    destruct (N.eqb c newline) eqn:E.
    + apply N.eqb_eq in E. subst c. simpl.
      constructor; [|exact IH]. now exists [13%N].
    + cbn [app]. cbn [split_on]. rewrite E.
      destruct IH as [|l l' ls ls' (w & Hw & ->) Hrest]; simpl.
      * constructor; [|constructor]. now exists [].
      * constructor; [|exact Hrest]. now exists w.
Qed.

Lemma fold_parse_line_padded (ls ls' : list jsstring) :
  Forall2 padded ls ls' ->
  forall m, fold_left parse_line ls' m = fold_left parse_line ls m.
Proof.
  induction 1 as [|l l' ls ls' (w & Hw & ->) _ IH]; intros m; simpl; [reflexivity|].
  rewrite IH. f_equal. rewrite !parse_line_entry.
  pose proof (@line_entry_padding [] l w eq_refl Hw) as E. cbn [app] in E.
  now rewrite E.
Qed.

(** X3.  White space at either end of a line of the allowed-signers file is
    immaterial, and so are the line endings: a file with carriage return, line
    feed at the end of its lines yields the registry of the same file with
    line feeds. *)
Theorem parseAllowedSigners_ignores_padding (text : jsstring) :
  parseAllowedSigners (Some (to_crlf text)) = parseAllowedSigners (Some text)
  /\ (forall m w1 l w2,
        forallb is_ws w1 = true -> forallb is_ws w2 = true ->
        parse_line m (w1 ++ l ++ w2) = parse_line m l).
Proof.
  split.
  - unfold parseAllowedSigners. apply fold_parse_line_padded, split_on_to_crlf.
  - intros m w1 l w2 H1 H2. rewrite !parse_line_entry.
    now rewrite (@line_entry_padding w1 l w2 H1 H2).
Qed.

(** ** Runs of [verify] *)

Lemma try_fold_invariant {A S} (step : S -> A -> Try S) (P : S -> Prop)
  (l : list A) :
  (forall acc x acc', P acc -> step acc x = inl acc' -> P acc') ->
  forall acc r, P acc -> try_fold step l acc = inl r -> P r.
Proof.
  intros Hstep. induction l as [|x l IH]; intros acc r Hacc; simpl.
  - now intros [= <-].
  - destruct (step acc x) as [acc'|e] eqn:E; cbn [try_bind]; [|discriminate].
    apply IH. now apply (Hstep acc x).
Qed.

Lemma fold_left_invariant {A S} (step : S -> A -> S) (P : S -> Prop) (l : list A) :
  (forall acc x, P acc -> P (step acc x)) ->
  forall acc, P acc -> P (fold_left step l acc).
Proof.
  intros Hstep. induction l as [|x l IH]; intros acc Hacc; simpl; [exact Hacc|].
  apply IH, Hstep, Hacc.
Qed.

Lemma verify_manifest_empty_registry (local : bool) (project : jsstring)
  (repo : option value) (m : Manifest.t) :
  unmatched (verify_manifest local project repo [] m).
Proof.
  unfold unmatched, verify_manifest.
  cbn [VerifyResult.inAllowedSigners VerifyResult.issues].
  split; [now destruct local|].
  destruct local; cbn [matchLoop_local matchLoop_remote inAllowedSigners negb];
    destruct (no_fingerprint _); discriminate.
Qed.

Lemma count_verified_unmatched (rs : list VerifyResult.t) :
  Forall unmatched rs -> count_verified rs = 0.
Proof.
  unfold count_verified. induction 1 as [|r rs [_ Hr] _ IH]; simpl; [reflexivity|].
  destruct (VerifyResult.issues r); [now destruct Hr | exact IH].
Qed.

Lemma Forall_snoc {A} (P : A -> Prop) (l : list A) (x : A) :
  Forall P l -> P x -> Forall P (l ++ [x]).
Proof. intros Hl Hx. apply Forall_app. split; [exact Hl | now constructor]. Qed.

(** X4.  A registry without entries verifies nobody: whatever the spokes
    declare, every result of a run has [inAllowedSigners] false, none is
    verified, and the verdict counts every checked spoke as unverified. *)
Theorem verify_empty_registry (path text : jsstring) :
  parseAllowedSigners (Some text) = [] ->
  (forall dirs,
      exists s, verify_local (Some dirs) path (Some text) = inl s
                /\ Forall unmatched (results s)
                /\ verified s = 0 /\ unverified s = total s)
  /\ (forall dirs s,
        verify_remote (Some dirs) path (Some text) = inl s ->
        Forall unmatched (results s) /\ verified s = 0 /\ unverified s = total s).
Proof.
  intros Hreg.
  assert (forall rs, Forall unmatched rs ->
                     Forall unmatched (results (summarize rs))
                     /\ verified (summarize rs) = 0
                     /\ unverified (summarize rs) = total (summarize rs)) as Hsum.
  { intros rs Hrs. unfold summarize. cbn [results verified unverified total].
    rewrite (count_verified_unmatched Hrs). repeat split; [exact Hrs | lia]. }
  split.
  - intros dirs. unfold verify_local. rewrite Hreg. eexists. split; [reflexivity|].
    apply Hsum. apply fold_left_invariant; [|constructor].
    intros acc sp Hacc.
    destruct (verify_step_local_cases [] acc sp) as [->|[->|(raw & m & _ & ->)]].
    + exact Hacc.
    + apply Forall_snoc; [exact Hacc|]. split; [reflexivity | discriminate].
    + apply Forall_snoc; [exact Hacc | apply verify_manifest_empty_registry].
  - intros dirs s. unfold verify_remote. rewrite Hreg.
    destruct (try_fold (verify_step_remote []) dirs []) as [rs|e] eqn:E;
      cbn [try_bind]; [|discriminate].
    intros [= <-]. apply Hsum.
    refine (@try_fold_invariant _ _ (verify_step_remote []) (Forall unmatched) dirs
              _ [] rs (Forall_nil _) E).
    intros acc sp acc' Hacc Hstep.
    destruct (verify_step_remote_cases [] acc sp)
      as [(e & He)|[He|[(repo & He)|(repo & raw & m & _ & He)]]];
      rewrite He in Hstep; try discriminate; injection Hstep as <-.
    + exact Hacc.
    + apply Forall_snoc; [exact Hacc|]. split; [reflexivity | discriminate].
    + apply Forall_snoc; [exact Hacc | apply verify_manifest_empty_registry].
Qed.

Lemma verify_step_local_project (reg : JsMap AllowedSigner)
  (acc : list VerifyResult.t) (sp : LocalSpoke) :
  List.map VerifyResult.project (verify_step_local reg acc sp)
  = List.map VerifyResult.project acc
    ++ (if has_manifest sp then [l_project sp] else []).
Proof.
  unfold verify_step_local, has_manifest.
  destruct (l_manifestFile sp) as [content|]; [|now rewrite app_nil_r].
  destruct (try_bind _ _); now rewrite map_app.
Qed.

(** X5.  The variant of [verify] that reads the hub checkout, once the
    [projects/] directory and the allowed-signers file exist, always
    completes.  The result of a spoke does not depend on the other spokes, and
    the run reports exactly one result for every project directory that holds
    a manifest, in the order of the directories and under the name of the
    directory: a manifest that does not load or validate is reported, never
    skipped, and a directory without manifest is never reported. *)
Theorem verify_local_one_result_per_manifest (dirs : list LocalSpoke)
  (path text : jsstring) :
  exists s,
    verify_local (Some dirs) path (Some text) = inl s
    /\ results s
       = flat_map (verify_step_local (parseAllowedSigners (Some text)) []) dirs
    /\ List.map VerifyResult.project (results s)
       = List.map l_project (filter has_manifest dirs)
    /\ total s = count has_manifest dirs.
Proof.
  unfold verify_local. eexists. split; [reflexivity|].
  unfold summarize. cbn [results total]. rewrite verify_fold_local. cbn [app].
  set (reg := parseAllowedSigners (Some text)).
  assert (List.map VerifyResult.project (flat_map (verify_step_local reg []) dirs)
          = List.map l_project (filter has_manifest dirs)) as Hp.
  { induction dirs as [|sp dirs IH]; simpl; [reflexivity|].
    rewrite map_app, IH, verify_step_local_project. cbn [List.map app].
    now destruct (has_manifest sp). }
  split; [reflexivity|]. split; [exact Hp|].
  unfold count. rewrite <- (length_map l_project), <- Hp. now rewrite length_map.
Qed.

(** ** Counters and console of [pull] *)

Lemma local_outcome_kinds (sp : LocalSpoke) :
  flag (negb (is_no_declaration (local_outcome sp)))
  = List.length (entries_of (local_outcome sp))
    + flag (is_unparseable (local_outcome sp)).
Proof.
  unfold local_outcome. destruct (l_collabDir sp); [|reflexivity].
  destruct (l_manifestFile sp) as [content|]; [|reflexivity].
  now destruct (try_entry _ _ _ _) as [[entry status]|err].
Qed.

Lemma count_cons {A} (f : A -> bool) (x : A) (l : list A) :
  count f (x :: l) = flag (f x) + count f l.
Proof. unfold count. simpl. now destruct (f x). Qed.

Lemma try_map_length {A B} (f : A -> Try B) (l : list A) (ys : list B) :
  try_map f l = inl ys -> List.length ys = List.length l.
Proof.
  revert ys; induction l as [|x l IH]; intros ys; simpl; [now intros [= <-]|].
  destruct (f x) as [y|e]; cbn [try_bind]; [|discriminate].
  destruct (try_map f l) as [ys'|e]; cbn [try_bind]; [|discriminate].
  intros [= <-]. simpl. now rewrite (IH ys' eq_refl).
Qed.

Lemma outcome_kinds (os : list Outcome) :
  count is_declared os + count is_no_source_repo os + count is_no_declaration os
  + count is_unparseable os = List.length os
  /\ List.length (flat_map entries_of os) = count is_declared os.
Proof.
  induction os as [|o os [IH1 IH2]]; [now split|].
  rewrite !count_cons. simpl. rewrite length_app, IH2.
  destruct o; simpl; split; lia.
Qed.

Lemma pull_step_remote_console (json : bool) (acc r : RemotePull) (sp : RemoteSpoke) :
  pull_step_remote json acc sp = inl r ->
  exists line, rp_console r = rp_console acc ++ when_not json line.
Proof.
  unfold pull_step_remote.
  destruct (r_projectYamlFile sp) as [content|];
    [|intros [= <-]; now eexists].
  destruct (loadYaml (Some content)) as [projectYaml|e]; [|discriminate].
  cbn [try_bind]. destruct (source_repo projectYaml) as [repo|e]; [|discriminate].
  cbn [try_bind]. destruct (truthy repo); cbn [negb];
    [|intros [= <-]; now eexists].
  destruct (r_manifestContent sp) as [[|c cs]|];
    try (intros [= <-]; now eexists).
  destruct (try_entry (Some repo) _ _ (r_clock sp)) as [[entry status]|err];
    intros [= <-]; now eexists.
Qed.

Lemma pull_remote_console (json : bool) (dirs : list RemoteSpoke)
  (acc r : RemotePull) :
  try_fold (pull_step_remote json) dirs acc = inl r ->
  List.length (rp_console r)
  = List.length (rp_console acc) + (if json then 0 else List.length dirs).
Proof.
  revert acc; induction dirs as [|sp dirs IH]; intros acc; simpl.
  - intros [= <-]. destruct json; lia.
  - destruct (pull_step_remote json acc sp) as [acc'|e] eqn:E; cbn [try_bind];
      [|discriminate].
    intros H. rewrite (IH acc' H).
    destruct (pull_step_remote_console json acc sp E) as (line & ->).
    rewrite length_app. destruct json; simpl; lia.
Qed.

(** X6.  The counters of an aggregation run add up.  In the variant that reads
    the hub checkout, [withCollab] counts the spokes with an entry and the
    spokes whose documents failed, so the number of failed spokes is
    [withCollab] minus the number of entries.  In the variant that fetches
    from the spoke repositories, [fetched] is the number of entries, and the
    three counters leave out exactly the failed spokes.  Inside the loop a run
    in JSON mode prints nothing, and a run outside JSON mode prints exactly
    one line per project directory. *)
Theorem pull_counters (json : bool) :
  (forall dirs r,
      pull_local json (Some dirs) = inl r ->
      lp_withCollab r
      = List.length (lp_spokes r)
        + count (fun sp => is_unparseable (local_outcome sp)) dirs
      /\ lp_console r
         = (if json then []
            else List.map (fun sp => local_line (l_project sp) (local_outcome sp))
                   dirs))
  /\ (forall dirs r,
        pull_remote json (Some dirs) = inl r ->
        rp_fetched r = List.length (rp_spokes r)
        /\ (exists os,
               try_map remote_outcome dirs = inl os
               /\ rp_fetched r + rp_noRepo r + rp_noCollab r
                  + count is_unparseable os = List.length dirs)
        /\ List.length (rp_console r) = (if json then 0 else List.length dirs)).
Proof.
  split.
  - intros dirs r [= <-].
    destruct (pull_fold_local json dirs (mkLocalPull [] 0 0 []))
      as (Hs & Hw & _ & Hc).
    rewrite Hs, Hw, Hc. cbn [lp_spokes lp_withCollab lp_console app Nat.add].
    clear Hs Hw Hc. split.
    + induction dirs as [|sp dirs IH]; [reflexivity|].
      rewrite !count_cons. cbn [flat_map]. rewrite length_app, IH.
      rewrite local_outcome_kinds. lia.
    + destruct json; cbn [when_not].
      * induction dirs as [|sp dirs IH]; [reflexivity | exact IH].
      * induction dirs as [|sp dirs IH]; [reflexivity|]. simpl. now rewrite IH.
  - intros dirs r H. unfold pull_remote in H.
    pose proof (pull_fold_remote json dirs (mkRemotePull [] 0 0 0 [])) as F.
    pose proof (pull_remote_console json dirs _ H) as C.
    destruct (try_map remote_outcome dirs) as [os|e] eqn:E; [|congruence].
    destruct F as (r' & Hr & Hs & Hf & Hn & Hc & _).
    rewrite H in Hr. injection Hr as <-.
    cbn [rp_spokes rp_fetched rp_noRepo rp_noCollab app Nat.add] in Hs, Hf, Hn, Hc.
    destruct (outcome_kinds os) as [K1 K2].
    split; [now rewrite Hs, Hf, K2|]. split; [|exact C].
    exists os. split; [reflexivity|].
    rewrite Hf, Hn, Hc, K1. now apply try_map_length with (f := remote_outcome).
Qed.

(** ** The checks of [validate] *)

Lemma add_no_results (r : ValidationResult) : add_results r no_results = r.
Proof. unfold add_results. simpl. rewrite !app_nil_r. now destruct r. Qed.

Lemma add_results_assoc (a b c : ValidationResult) :
  add_results (add_results a b) c = add_results a (add_results b c).
Proof. unfold add_results. simpl. now rewrite !app_assoc. Qed.

Lemma push_error_add (msg : jsstring) (r : ValidationResult) :
  push_error msg r = add_results r (mkValidationResult [msg] []).
Proof. unfold push_error, add_results. simpl. now rewrite app_nil_r. Qed.

Lemma push_warning_add (msg : jsstring) (r : ValidationResult) :
  push_warning msg r = add_results r (mkValidationResult [] [msg]).
Proof. unfold push_warning, add_results. simpl. now rewrite app_nil_r. Qed.

Lemma fold_push_error_add (f : ZodIssue -> jsstring) (err : list ZodIssue)
  (r : ValidationResult) :
  fold_left (fun r i => push_error (f i) r) err r
  = add_results r (mkValidationResult (List.map f err) []).
Proof. rewrite fold_push_error. unfold add_results. simpl. now rewrite app_nil_r. Qed.

Ltac frame_results :=
  rewrite ?push_error_add, ?push_warning_add, ?fold_push_error_add,
    ?add_no_results;
  unfold add_results; simpl; rewrite ?app_nil_r; try reflexivity.

Lemma validateManifest_frame (file : option jsstring) (results : ValidationResult) :
  validateManifest file results
  = (accepted ManifestSchema_parse file,
     add_results results (snd (validateManifest file no_results))).
Proof.
  unfold validateManifest, accepted. destruct file as [content|].
  - destruct (try_bind _ _) as [m|[err|msg|msg|msg]]; cbn [snd]; f_equal.
    + destruct (includes _ placeholder); frame_results; now destruct results.
    + frame_results.
    + frame_results.
    + frame_results.
    + frame_results.
  - cbn [snd]. f_equal. frame_results.
Qed.

Lemma validateStatus_frame (file : option jsstring) (now : Z)
  (results : ValidationResult) :
  validateStatus file now results
  = (accepted StatusSchema_parse file,
     add_results results (snd (validateStatus file now no_results))).
Proof.
  unfold validateStatus, accepted. destruct file as [content|].
  - destruct (try_bind _ _) as [st|[err|msg|msg|msg]]; cbn [snd]; f_equal.
    + destruct (Date_parse _) as [generated|]; cbv zeta;
        [destruct (negb _)|]; frame_results; now destruct results.
    + frame_results.
    + frame_results.
    + frame_results.
    + frame_results.
  - cbn [snd]. f_equal. frame_results.
Qed.

Lemma validateOperator_frame (file : option jsstring) (results : ValidationResult) :
  validateOperator file results
  = (accepted OperatorSchema_parse file,
     add_results results (snd (validateOperator file no_results))).
Proof.
  unfold validateOperator, accepted. destruct file as [content|].
  - destruct (try_bind _ _) as [o|[err|msg|msg|msg]]; cbn [snd]; f_equal.
    + frame_results; now destruct results.
    + frame_results.
    + frame_results.
    + frame_results.
    + frame_results.
  - cbn [snd]. f_equal. frame_results.
Qed.

Lemma daysSince_gt7 (now generated : Z) :
  negb (QArith_base.Qle_bool (daysSince now generated) (QArith_base.inject_Z 7))
  = (now - generated >? 7 * 24 * 60 * 60 * 1000)%Z.
Proof.
  unfold daysSince, QArith_base.Qle_bool, QArith_base.Qdiv, QArith_base.Qmult,
    QArith_base.Qinv, QArith_base.inject_Z.
  simpl. rewrite Z.gtb_ltb, Z.ltb_antisym. f_equal. now rewrite !Z.mul_1_r.
Qed.

Lemma daysSince_floor (now generated : Z) :
  Qround.Qfloor (daysSince now generated) = ((now - generated) / 86400000)%Z.
Proof.
  unfold daysSince, Qround.Qfloor, QArith_base.Qdiv, QArith_base.Qmult,
    QArith_base.Qinv, QArith_base.inject_Z.
  simpl. now rewrite !Z.mul_1_r.
Qed.


(** X7.  [validate] warns about the age of a valid status exactly when [pull]
    flags the same status as stale at the same instant: when more than seven
    days (604,800,000 ms) have passed since [generatedAt].  The warning names
    the number of whole days, which is at least seven; a valid status never
    adds an error. *)
Theorem validateStatus_freshness (content : jsstring) (raw : value)
  (st : SpokeStatus.t) (now : Z) (results : ValidationResult) :
  load content = YamlValue raw -> StatusSchema_parse raw = inl st ->
  exists generated,
    Date_parse (SpokeStatus.generatedAt st) = Some generated
    /\ fst (validateStatus (Some content) now results) = Some st
    /\ errors (snd (validateStatus (Some content) now results)) = errors results
    /\ (isStale now (SpokeStatus.generatedAt st) 7 = true ->
        warnings (snd (validateStatus (Some content) now results))
        = warnings results
          ++ [js "status.yaml: generated "
              ++ int_text ((now - generated) / 86400000) ++ js " days ago "
              ++ em_dash ++ js " consider regenerating"]
        /\ (7 <= (now - generated) / 86400000)%Z)
    /\ (isStale now (SpokeStatus.generatedAt st) 7 = false ->
        snd (validateStatus (Some content) now results) = results)
    /\ (isStale now (SpokeStatus.generatedAt st) 7 = true
        <-> (now - generated > 604800000)%Z).
Proof.
  intros Hl Hp.
  pose proof (StatusSchema_parse_spec raw) as S. rewrite Hp in S.
  destruct S as (_ & ((generated & Hg) & _) & _).
  exists generated. split; [exact Hg|].
  unfold validateStatus. rewrite (@loaded_parse_inl _ StatusSchema_parse content raw st Hl Hp).
  cbn [fst snd]. rewrite Hg. cbv zeta. rewrite daysSince_gt7.
  unfold isStale. rewrite Hg. cbv zeta.
  split; [reflexivity|].
  destruct (now - generated >? 7 * 24 * 60 * 60 * 1000)%Z eqn:E.
  - split; [reflexivity|]. split; [|split; [discriminate|]].
    + intros _. unfold push_warning, status_age_warning. cbn [warnings].
      rewrite daysSince_floor. split; [reflexivity|].
      apply Z.gtb_lt in E. apply Z.div_le_lower_bound; lia.
    + split; [intros _; apply Z.gtb_lt in E; lia | reflexivity].
  - split; [reflexivity|]. split; [discriminate|]. split; [reflexivity|].
    split; [discriminate|]. intros H. rewrite Z.gtb_ltb in E.
    apply Z.ltb_ge in E. lia.
Qed.

Lemma validateSigning_frame (manifest : option Manifest.t)
  (signing : SigningConfig.t) (results : ValidationResult) :
  validateSigning manifest signing results
  = add_results results (validateSigning manifest signing no_results).
Proof.
  unfold validateSigning.
  destruct (SigningConfig.format signing) as [f|]; [destruct (str_eqb f _)|];
    destruct (SigningConfig.gpgSign signing);
    destruct (truthy_string _);
    destruct (SigningConfig.fingerprint signing) as [[|c fp]|];
    destruct manifest as [m|];
    try destruct (Manifest.fingerprint (Manifest.identity m)) as [[|c' fp']|];
    try destruct (str_eqb (c :: fp) (c' :: fp'));
    unfold push_warning, add_results, no_results; simpl;
    rewrite ?app_nil_r, <- ?app_assoc; simpl;
    try reflexivity; now destruct results.
Qed.

Lemma validateSigning_closed (manifest : option Manifest.t)
  (signing : SigningConfig.t) :
  validateSigning manifest signing no_results
  = mkValidationResult []
      ((if format_is_ssh signing then [] else [warn_format])
       ++ (if SigningConfig.gpgSign signing then [] else [warn_gpgSign])
       ++ (if truthy_string (SigningConfig.signingKey signing) then []
           else [warn_no_signing_key])
       ++ (if fingerprint_conflict manifest signing
           then [warn_fingerprint_mismatch] else [])).
Proof.
  unfold validateSigning, format_is_ssh, fingerprint_conflict.
  destruct (SigningConfig.format signing) as [f|]; [destruct (str_eqb f _)|];
    destruct (SigningConfig.gpgSign signing);
    destruct (truthy_string _);
    destruct (SigningConfig.fingerprint signing) as [[|c fp]|];
    destruct manifest as [m|];
    try destruct (Manifest.fingerprint (Manifest.identity m)) as [[|c' fp']|];
    try destruct (str_eqb (c :: fp) (c' :: fp'));
    reflexivity.
Qed.

Lemma fingerprint_conflict_spec (manifest : option Manifest.t)
  (signing : SigningConfig.t) :
  fingerprint_conflict manifest signing = true
  <-> fingerprints_differ manifest signing.
Proof.
  unfold fingerprint_conflict, fingerprints_differ. split.
  - destruct (SigningConfig.fingerprint signing) as [[|c fp]|]; try discriminate.
    destruct manifest as [m|]; try discriminate.
    destruct (Manifest.fingerprint (Manifest.identity m)) as [[|c' fp']|] eqn:E;
      try discriminate.
    intros H. apply negb_true_iff, str_eqb_neq in H.
    exists m, (c :: fp), (c' :: fp'). repeat split; try assumption; discriminate.
  - intros (m & fp & fp' & -> & -> & Hm & Hfp & Hfp' & Hne). rewrite Hm.
    destruct fp as [|c fp]; [now destruct Hfp|].
    destruct fp' as [|c' fp']; [now destruct Hfp'|].
    now apply negb_true_iff, str_eqb_neq.
Qed.

Lemma format_is_ssh_spec (signing : SigningConfig.t) :
  format_is_ssh signing = true <-> SigningConfig.format signing = Some (js "ssh").
Proof.
  unfold format_is_ssh. destruct (SigningConfig.format signing) as [f|].
  - rewrite str_eqb_eq. split; [now intros -> | now intros [= ->]].
  - split; discriminate.
Qed.

(** X8.  The check of the signing configuration never adds an error.  It adds
    at most four warnings: none exactly when the format is SSH, automatic
    signing is on, a signing key is configured, and the fingerprint of the key
    does not contradict the manifest; a fingerprint that differs from the one
    the manifest declares is a warning, exactly then. *)
Theorem validateSigning_only_warns (manifest : option Manifest.t)
  (signing : SigningConfig.t) (results : ValidationResult) :
  let r := validateSigning manifest signing results in
  errors r = errors results
  /\ exists w,
       warnings r = warnings results ++ w
       /\ List.length w <= 4
       /\ (w = [] <-> signing_configured signing
                      /\ ~ fingerprints_differ manifest signing)
       /\ (In warn_fingerprint_mismatch w <-> fingerprints_differ manifest signing).
Proof.
  cbv zeta. rewrite validateSigning_frame, validateSigning_closed.
  unfold add_results. cbn [errors warnings]. split; [now rewrite app_nil_r|].
  eexists. split; [reflexivity|].
  unfold signing_configured.
  rewrite <- fingerprint_conflict_spec, <- format_is_ssh_spec.
  destruct (format_is_ssh signing), (SigningConfig.gpgSign signing),
    (truthy_string (SigningConfig.signingKey signing)),
    (fingerprint_conflict manifest signing); simpl;
    (split; [lia|]);
    (split; [split; [try discriminate; intros _; repeat split; discriminate
                    | intros [(? & ? & ?) ?]; try discriminate; try reflexivity;
                      exfalso; auto]
            |split; [intros H; repeat (destruct H as [H|H]; try discriminate H);
                     try reflexivity; try contradiction
                    | intros H; try discriminate H; auto 6]]).
Qed.

Lemma validate_unfold (strict : bool) (mf sf opf : option jsstring)
  (signing : SigningConfig.t) (now : Z) :
  validate strict mf sf opf signing now
  = validate_summary strict
      (validateCrossFile (accepted ManifestSchema_parse mf)
         (accepted OperatorSchema_parse opf)
         (add_results
            (add_results
               (add_results (snd (validateManifest mf no_results))
                  (snd (validateStatus sf now no_results)))
               (snd (validateOperator opf no_results)))
            (validateSigning (accepted ManifestSchema_parse mf) signing no_results))).
Proof.
  unfold validate. fold no_results.
  pose proof (validateManifest_frame mf no_results) as Fm.
  set (Rm := snd (validateManifest mf no_results)) in *.
  set (Rs := snd (validateStatus sf now no_results)).
  set (Ro := snd (validateOperator opf no_results)).
  set (Rg := validateSigning (accepted ManifestSchema_parse mf) signing no_results).
  rewrite Fm.
  rewrite (validateStatus_frame sf now (add_results no_results Rm)). fold Rs.
  rewrite (validateOperator_frame opf
             (add_results (add_results no_results Rm) Rs)). fold Ro.
  rewrite validateSigning_frame. fold Rg.
  replace (add_results no_results Rm) with Rm; [reflexivity|].
  unfold add_results, no_results. simpl. now destruct Rm.
Qed.

Lemma parse_loaded_cases {A} (parse : value -> A + list ZodIssue)
  (content : jsstring) :
  (exists msg, load content = YamlThrows msg
               /\ (let! raw := loadYaml (Some content) in parse_or_throw parse raw)
                  = inr (YamlException msg))
  \/ (exists raw a, load content = YamlValue raw /\ parse raw = inl a
                    /\ (let! raw0 := loadYaml (Some content) in
                        parse_or_throw parse raw0) = inl a)
  \/ (exists raw err, load content = YamlValue raw /\ parse raw = inr err
                      /\ (let! raw0 := loadYaml (Some content) in
                          parse_or_throw parse raw0) = inr (ZodError err)).
Proof.
  unfold loadYaml, load_or_throw, parse_or_throw.
  destruct (load content) as [msg|raw]; [left; now exists msg|]. right.
  cbn [try_bind]. destruct (parse raw) as [a|err] eqn:E.
  - left. now exists raw, a.
  - right. now exists raw, err.
Qed.

Lemma manifest_errors_nil (mf : option jsstring) :
  errors (snd (validateManifest mf no_results)) = []
  <-> exists m, accepted ManifestSchema_parse mf = Some m.
Proof.
  unfold validateManifest, accepted. destruct mf as [content|];
    [|split; [discriminate | intros (m & H); discriminate]].
  destruct (parse_loaded_cases ManifestSchema_parse content)
    as [(msg & _ & ->)|[(raw & m & _ & _ & ->)|(raw & err & _ & Hp & ->)]].
  - split; [discriminate | intros (m & H); discriminate].
  - split; [now exists m|]. intros _. cbn [snd]. now destruct (includes _ _).
  - split; [|intros (m & H); discriminate].
    rewrite fold_push_error. cbn [snd errors app].
    pose proof (ManifestSchema_parse_spec raw) as S. rewrite Hp in S.
    destruct S as [Hne _]. destruct err; [now destruct Hne | discriminate].
Qed.

Lemma status_errors_nil (sf : option jsstring) (now : Z) :
  errors (snd (validateStatus sf now no_results)) = []
  <-> ~ rejected StatusSchema_parse sf.
Proof.
  unfold validateStatus, rejected. destruct sf as [content|];
    [|split; [intros _ (c & e & H & _); discriminate | reflexivity]].
  destruct (parse_loaded_cases StatusSchema_parse content)
    as [(msg & _ & ->)|[(raw & st & _ & _ & ->)|(raw & err & _ & Hp & ->)]].
  - split; [discriminate|]. intros H. exfalso. apply H. now eexists _, _.
  - split; [intros _ (c & e & _ & H); discriminate|]. intros _. cbn [snd].
    destruct (Date_parse _); cbv zeta; [destruct (negb _)|]; reflexivity.
  - split; [|intros H; exfalso; apply H; now eexists _, _].
    rewrite fold_push_error. cbn [snd errors app].
    pose proof (StatusSchema_parse_spec raw) as S. rewrite Hp in S.
    destruct S as [Hne _]. destruct err; [now destruct Hne | discriminate].
Qed.

Lemma operator_errors_nil (opf : option jsstring) :
  errors (snd (validateOperator opf no_results)) = []
  <-> ~ rejected OperatorSchema_parse opf.
Proof.
  unfold validateOperator, rejected. destruct opf as [content|];
    [|split; [intros _ (c & e & H & _); discriminate | reflexivity]].
  destruct (parse_loaded_cases OperatorSchema_parse content)
    as [(msg & _ & ->)|[(raw & o & _ & _ & ->)|(raw & err & _ & Hp & ->)]].
  - split; [discriminate|]. intros H. exfalso. apply H. now eexists _, _.
  - split; [intros _ (c & e & _ & H); discriminate | reflexivity].
  - split; [|intros H; exfalso; apply H; now eexists _, _].
    rewrite fold_push_error. cbn [snd errors app].
    pose proof (OperatorSchema_parse_spec raw) as S. rewrite Hp in S.
    destruct S as [Hne _]. destruct err; [now destruct Hne | discriminate].
Qed.

Lemma crossFile_errors (manifest : option Manifest.t) (operator : option Operator.t)
  (results : ValidationResult) :
  warnings (validateCrossFile manifest operator results) = warnings results
  /\ (errors (validateCrossFile manifest operator results) = []
      <-> errors results = []
          /\ ~ exists m o, manifest = Some m /\ operator = Some o
                           /\ cross_mismatch m o).
Proof.
  unfold validateCrossFile, cross_mismatch.
  destruct manifest as [m|];
    [|split; [reflexivity|]; split;
      [intros H; split; [exact H | intros (? & ? & ? & _); discriminate] | tauto]].
  destruct operator as [o|];
    [|split; [reflexivity|]; split;
      [intros H; split; [exact H | intros (? & ? & _ & ? & _); discriminate]
      | tauto]].
  destruct (str_eqb (Manifest.handle (Manifest.identity m)) (Operator.handle o))
    eqn:Eh;
    destruct (str_eqb (Manifest.publicKey (Manifest.identity m))
                (Operator.publicKey (Operator.signing o))) eqn:Ek;
    [apply str_eqb_eq in Eh | apply str_eqb_eq in Eh
    | apply str_eqb_neq in Eh | apply str_eqb_neq in Eh];
    [apply str_eqb_eq in Ek | apply str_eqb_neq in Ek
    | apply str_eqb_eq in Ek | apply str_eqb_neq in Ek];
    (split; [reflexivity|]); unfold push_error; cbn [errors]; split.
  - intros H. split; [exact H|]. intros (m' & o' & [= <-] & [= <-] & [C|C]); auto.
  - tauto.
  - intros H. now apply app_eq_nil in H as [_ H].
  - intros [_ H]. exfalso. apply H. exists m, o. auto.
  - intros H. now apply app_eq_nil in H as [_ H].
  - intros [_ H]. exfalso. apply H. exists m, o. auto.
  - intros H. now apply app_eq_nil in H as [_ H].
  - intros [_ H]. exfalso. apply H. exists m, o. auto.
Qed.

Lemma validate_summary_exit (strict : bool) (r : ValidationResult) :
  v_results (validate_summary strict r) = r
  /\ (v_exitCode (validate_summary strict r) = Some 1 <-> errors r <> [])
  /\ (v_exitCode (validate_summary strict r) = Some 2
      <-> errors r = [] /\ strict = true /\ warnings r <> [])
  /\ (v_exitCode (validate_summary strict r) = None
      <-> errors r = [] /\ (strict = false \/ warnings r = []))
  /\ (v_passed (validate_summary strict r) = true
      <-> v_exitCode (validate_summary strict r) = None).
Proof.
  unfold validate_summary. destruct r as [es ws]. cbn [errors warnings].
  destruct es as [|e es], ws as [|w ws], strict; simpl;
    (split; [reflexivity|]); repeat split;
    try discriminate; try reflexivity; try tauto;
    try (intros [H1 H2]; try discriminate; try (destruct H2; discriminate));
    try (intros (H1 & H2 & H3); try discriminate; try (now destruct H3));
    try (intros H; now destruct H); auto.
Qed.

Lemma rejected_dec {A} (parse : value -> A + list ZodIssue) (file : option jsstring) :
  rejected parse file \/ ~ rejected parse file.
Proof.
  unfold rejected. destruct file as [content|];
    [|right; intros (c & e & H & _); discriminate].
  destruct (try_bind (loadYaml (Some content)) _) as [a|e] eqn:E.
  - right. intros (c & e & _ & H). discriminate.
  - left. now exists content, e.
Qed.

Lemma cross_mismatch_dec (m : Manifest.t) (o : Operator.t) :
  cross_mismatch m o \/ ~ cross_mismatch m o.
Proof.
  unfold cross_mismatch.
  destruct (str_eqb (Manifest.handle (Manifest.identity m)) (Operator.handle o))
    eqn:Eh; [apply str_eqb_eq in Eh | apply str_eqb_neq in Eh; now left; left].
  destruct (str_eqb (Manifest.publicKey (Manifest.identity m))
              (Operator.publicKey (Operator.signing o))) eqn:Ek;
    [apply str_eqb_eq in Ek | apply str_eqb_neq in Ek; now left; right].
  right. intros [H|H]; contradiction.
Qed.

Lemma validate_errors_nil (strict : bool) (mf sf opf : option jsstring)
  (signing : SigningConfig.t) (now : Z) :
  errors (v_results (validate strict mf sf opf signing now)) = []
  <-> (exists m, accepted ManifestSchema_parse mf = Some m)
      /\ ~ rejected StatusSchema_parse sf
      /\ ~ rejected OperatorSchema_parse opf
      /\ ~ (exists m o, accepted ManifestSchema_parse mf = Some m
                        /\ accepted OperatorSchema_parse opf = Some o
                        /\ cross_mismatch m o).
Proof.
  rewrite validate_unfold.
  destruct (validate_summary_exit strict
              (validateCrossFile (accepted ManifestSchema_parse mf)
                 (accepted OperatorSchema_parse opf)
                 (add_results
                    (add_results
                       (add_results (snd (validateManifest mf no_results))
                          (snd (validateStatus sf now no_results)))
                       (snd (validateOperator opf no_results)))
                    (validateSigning (accepted ManifestSchema_parse mf) signing
                       no_results)))) as (-> & _).
  rewrite (proj2 (crossFile_errors _ _ _)).
  rewrite validateSigning_closed. unfold add_results. cbn [errors].
  rewrite app_nil_r, <- manifest_errors_nil, <- (status_errors_nil sf now),
    <- operator_errors_nil.
  split.
  - intros [H Hx]. apply app_eq_nil in H as [H Ho]. apply app_eq_nil in H as [Hm Hs].
    auto.
  - intros (Hm & Hs & Ho & Hx). split; [|exact Hx]. now rewrite Hm, Hs, Ho.
Qed.

(** X9.  The exit code of [validate].  The run fails with exit code 1 exactly
    when the manifest is missing or does not load or validate, or the status
    or the operator profile exists and does not load or validate, or the
    manifest and the operator profile disagree on the handle or the public
    key.  Nothing else is an error: a missing status or operator profile, an
    old status, a placeholder key and the signing configuration only warn.
    Warnings fail the run, with exit code 2, only under [--strict] and only
    when there is no error; otherwise the run passes and leaves the exit code
    alone. *)
Theorem validate_exit_code (strict : bool) (mf sf opf : option jsstring)
  (signing : SigningConfig.t) (now : Z) :
  let run := validate strict mf sf opf signing now in
  (v_exitCode run = Some 1
   <-> accepted ManifestSchema_parse mf = None
       \/ rejected StatusSchema_parse sf
       \/ rejected OperatorSchema_parse opf
       \/ exists m o, accepted ManifestSchema_parse mf = Some m
                      /\ accepted OperatorSchema_parse opf = Some o
                      /\ cross_mismatch m o)
  /\ (v_exitCode run = Some 1 <-> errors (v_results run) <> [])
  /\ (v_exitCode run = Some 2
      <-> errors (v_results run) = [] /\ strict = true
          /\ warnings (v_results run) <> [])
  /\ (v_exitCode run = None
      <-> errors (v_results run) = []
          /\ (strict = false \/ warnings (v_results run) = []))
  /\ (v_passed run = true <-> v_exitCode run = None).
Proof.
  cbv zeta.
  pose proof (validate_errors_nil strict mf sf opf signing now) as Hnil.
  assert (v_exitCode (validate strict mf sf opf signing now) = Some 1
          <-> errors (v_results (validate strict mf sf opf signing now)) <> [])
    as H1.
  { rewrite validate_unfold.
    destruct (validate_summary_exit strict
                (validateCrossFile (accepted ManifestSchema_parse mf)
                   (accepted OperatorSchema_parse opf)
                   (add_results
                      (add_results
                         (add_results (snd (validateManifest mf no_results))
                            (snd (validateStatus sf now no_results)))
                         (snd (validateOperator opf no_results)))
                      (validateSigning (accepted ManifestSchema_parse mf) signing
                         no_results)))) as (-> & H & _).
    exact H. }
  split; [|split; [exact H1|]].
  - rewrite H1, Hnil. split.
    + intros Hn.
      destruct (accepted ManifestSchema_parse mf) as [m|] eqn:Em; [|now left].
      right. destruct (rejected_dec StatusSchema_parse sf) as [Hs|Hs]; [now left|].
      right. destruct (rejected_dec OperatorSchema_parse opf) as [Ho|Ho]; [now left|].
      right. destruct (accepted OperatorSchema_parse opf) as [o|] eqn:Eo.
      * destruct (cross_mismatch_dec m o) as [Hx|Hx]; [now exists m, o|].
        exfalso. apply Hn. split; [now exists m|]. split; [exact Hs|].
        split; [exact Ho|]. intros (m' & o' & [= <-] & [= <-] & Hx'). contradiction.
      * exfalso. apply Hn. split; [now exists m|]. split; [exact Hs|].
        split; [exact Ho|]. intros (m' & o' & _ & H & _). discriminate.
    + intros [H|[H|[H|H]]] ((m & Hm) & Hs & Ho & Hx);
        [congruence | contradiction | contradiction | contradiction].
  - rewrite validate_unfold.
    destruct (validate_summary_exit strict
                (validateCrossFile (accepted ManifestSchema_parse mf)
                   (accepted OperatorSchema_parse opf)
                   (add_results
                      (add_results
                         (add_results (snd (validateManifest mf no_results))
                            (snd (validateStatus sf now no_results)))
                         (snd (validateOperator opf no_results)))
                      (validateSigning (accepted ManifestSchema_parse mf) signing
                         no_results)))) as (-> & _ & H2 & H3 & H4).
    split; [exact H2|]. split; [exact H3 | exact H4].
Qed.

Lemma accepted_or_rejected {A} (parse : value -> A + list ZodIssue)
  (file : option jsstring) :
  file <> None -> ~ rejected parse file -> exists a, accepted parse file = Some a.
Proof.
  unfold rejected, accepted. destruct file as [content|]; [|now intros H]. intros _ H.
  destruct (try_bind (loadYaml (Some content)) _) as [a|e] eqn:E; [now exists a|].
  exfalso. apply H. now exists content, e.
Qed.

Lemma accepted_not_rejected {A} (parse : value -> A + list ZodIssue)
  (file : option jsstring) (a : A) :
  accepted parse file = Some a -> file <> None /\ ~ rejected parse file.
Proof.
  unfold rejected, accepted. destruct file as [content|]; [|discriminate].
  destruct (try_bind (loadYaml (Some content)) _) as [a'|e] eqn:E; [|discriminate].
  intros _. split; [discriminate|]. intros (c & e & [= <-] & H). congruence.
Qed.

Lemma manifest_warnings_nil (mf : option jsstring) :
  warnings (snd (validateManifest mf no_results)) = []
  <-> forall m, accepted ManifestSchema_parse mf = Some m ->
                includes (Manifest.publicKey (Manifest.identity m)) placeholder
                = false.
Proof.
  unfold validateManifest, accepted. destruct mf as [content|];
    [|split; [discriminate | reflexivity]].
  destruct (try_bind _ _) as [m|[err|msg|msg|msg]]; cbn [snd];
    rewrite ?fold_push_error; try (split; [discriminate | reflexivity]).
  destruct (includes _ placeholder) eqn:E; cbn [warnings no_results push_warning app].
  - split; [discriminate|]. intros H. specialize (H m eq_refl). congruence.
  - split; [now intros _ m' [= <-] | reflexivity].
Qed.

Lemma status_warnings_nil (sf : option jsstring) (now : Z) :
  warnings (snd (validateStatus sf now no_results)) = []
  <-> sf <> None
      /\ forall st, accepted StatusSchema_parse sf = Some st ->
                    isStale now (SpokeStatus.generatedAt st) 7 = false.
Proof.
  unfold validateStatus, accepted. destruct sf as [content|];
    [|split; [discriminate | now intros [H _]]].
  destruct (try_bind _ _) as [st|[err|msg|msg|msg]]; cbn [snd];
    rewrite ?fold_push_error;
    try (split; [split; [discriminate | discriminate] | reflexivity]).
  unfold isStale.
  destruct (Date_parse (SpokeStatus.generatedAt st)) as [generated|] eqn:Eg;
    cbv zeta.
  - rewrite daysSince_gt7.
    destruct (now - generated >? 7 * 24 * 60 * 60 * 1000)%Z eqn:E;
      cbn [warnings no_results push_warning app].
    + split; [discriminate|]. intros [_ H]. specialize (H st eq_refl).
      rewrite Eg, E in H. discriminate.
    + split; [|reflexivity]. intros _. split; [discriminate|].
      intros st' [= <-]. now rewrite Eg.
  - split; [|reflexivity]. intros _. split; [discriminate|].
    intros st' [= <-]. now rewrite Eg.
Qed.

Lemma operator_warnings_nil (opf : option jsstring) :
  warnings (snd (validateOperator opf no_results)) = [] <-> opf <> None.
Proof.
  unfold validateOperator. destruct opf as [content|];
    [|split; [discriminate | now intros H]].
  destruct (try_bind _ _) as [o|[err|msg|msg|msg]]; cbn [snd];
    rewrite ?fold_push_error; split; try discriminate; reflexivity.
Qed.

Lemma signing_warnings_nil (manifest : option Manifest.t)
  (signing : SigningConfig.t) :
  warnings (validateSigning manifest signing no_results) = []
  <-> signing_configured signing /\ ~ fingerprints_differ manifest signing.
Proof.
  rewrite validateSigning_closed. cbn [warnings]. unfold signing_configured.
  rewrite <- fingerprint_conflict_spec, <- format_is_ssh_spec.
  destruct (format_is_ssh signing), (SigningConfig.gpgSign signing),
    (truthy_string (SigningConfig.signingKey signing)),
    (fingerprint_conflict manifest signing); simpl;
    (split; [try discriminate; intros _; repeat split; discriminate
            | intros [(? & ? & ?) ?]; try discriminate; try reflexivity;
              exfalso; auto]).
Qed.

(** X10.  A run of [validate --strict] passes exactly when all three documents
    exist, load and validate, the manifest and the operator profile agree on
    the handle and on the public key, the public key is not the placeholder of
    [init], the status is at most seven days old, the signing configuration is
    complete, and the fingerprint of the signing key does not contradict the
    manifest. *)
Theorem validate_strict_pass (mf sf opf : option jsstring)
  (signing : SigningConfig.t) (now : Z) :
  v_exitCode (validate true mf sf opf signing now) = None
  <-> exists m st o,
        accepted ManifestSchema_parse mf = Some m
        /\ accepted StatusSchema_parse sf = Some st
        /\ accepted OperatorSchema_parse opf = Some o
        /\ ~ cross_mismatch m o
        /\ includes (Manifest.publicKey (Manifest.identity m)) placeholder = false
        /\ isStale now (SpokeStatus.generatedAt st) 7 = false
        /\ signing_configured signing
        /\ ~ fingerprints_differ (Some m) signing.
Proof.
  pose proof (validate_errors_nil true mf sf opf signing now) as Hnil.
  assert (v_exitCode (validate true mf sf opf signing now) = None
          <-> errors (v_results (validate true mf sf opf signing now)) = []
              /\ warnings (v_results (validate true mf sf opf signing now)) = [])
    as H0.
  { rewrite validate_unfold.
    destruct (validate_summary_exit true
                (validateCrossFile (accepted ManifestSchema_parse mf)
                   (accepted OperatorSchema_parse opf)
                   (add_results
                      (add_results
                         (add_results (snd (validateManifest mf no_results))
                            (snd (validateStatus sf now no_results)))
                         (snd (validateOperator opf no_results)))
                      (validateSigning (accepted ManifestSchema_parse mf) signing
                         no_results)))) as (-> & _ & _ & H & _).
    rewrite H. split; [intros [He [Hs|Hw]]; [discriminate | now split]|].
    intros [He Hw]. split; [exact He | now right]. }
  assert (warnings (v_results (validate true mf sf opf signing now)) = []
          <-> warnings (snd (validateManifest mf no_results)) = []
              /\ warnings (snd (validateStatus sf now no_results)) = []
              /\ warnings (snd (validateOperator opf no_results)) = []
              /\ warnings (validateSigning (accepted ManifestSchema_parse mf)
                             signing no_results) = []) as Hw.
  { rewrite validate_unfold.
    destruct (validate_summary_exit true
                (validateCrossFile (accepted ManifestSchema_parse mf)
                   (accepted OperatorSchema_parse opf)
                   (add_results
                      (add_results
                         (add_results (snd (validateManifest mf no_results))
                            (snd (validateStatus sf now no_results)))
                         (snd (validateOperator opf no_results)))
                      (validateSigning (accepted ManifestSchema_parse mf) signing
                         no_results)))) as (-> & _).
    rewrite (proj1 (crossFile_errors _ _ _)). unfold add_results. cbn [warnings].
    split.
    - intros H. apply app_eq_nil in H as [H Hg]. apply app_eq_nil in H as [H Ho].
      apply app_eq_nil in H as [Hm Hs]. auto.
    - intros (-> & -> & -> & ->). reflexivity. }
  rewrite H0, Hnil, Hw, manifest_warnings_nil, status_warnings_nil,
    operator_warnings_nil, signing_warnings_nil.
  split.
  - intros (((m & Hm) & Hs & Ho & Hx) & Hp & (Hsf & Hst) & Hopf & Hg & Hfp).
    destruct (@accepted_or_rejected _ StatusSchema_parse sf Hsf Hs) as (st & Est).
    destruct (@accepted_or_rejected _ OperatorSchema_parse opf Hopf Ho) as (o & Eo).
    exists m, st, o. rewrite Hm in Hfp. repeat split; auto; try apply Hg.
    intros C. apply Hx. now exists m, o.
  - intros (m & st & o & Hm & Hst & Ho & Hx & Hp & Hstale & Hg & Hfp).
    destruct (@accepted_not_rejected _ StatusSchema_parse sf st Hst) as [Hsf Hsr].
    destruct (@accepted_not_rejected _ OperatorSchema_parse opf o Ho) as [Hof Hor].
    rewrite Hm. repeat split; auto.
    + now exists m.
    + intros (m' & o' & [= <-] & Eo & C). rewrite Ho in Eo. injection Eo as <-.
      contradiction.
    + now intros m' [= <-].
    + intros st' E. rewrite Hst in E. now injection E as <-.
    + apply Hg.
    + apply Hg.
    + apply Hg.
Qed.

(** ** Regular expressions *)

Lemma nullable_matches (r : regexp) : nullable r = true <-> matches r [].
Proof.
  induction r as [| |f|a IHa b IHb|a IHa b IHb|a IHa]; simpl.
  - split; [discriminate | inversion 1].
  - split; [constructor | reflexivity].
  - split; [discriminate | inversion 1].
  - rewrite andb_true_iff, IHa, IHb. split.
    + intros [Ha Hb]. now apply (m_seq Ha Hb).
    + inversion 1 as [| |a' b' s1 s2 Ha Hb| | | |]; subst.
      match goal with E : _ ++ _ = [] |- _ => apply app_eq_nil in E as [-> ->] end.
      now split.
  - rewrite orb_true_iff, IHa, IHb. split.
    + intros [H|H]; [now apply m_alt_l | now apply m_alt_r].
    + inversion 1; subst; [now left | now right].
  - split; [constructor | reflexivity].
Qed.

Lemma matches_cons_deriv (r : regexp) (s' : jsstring) :
  matches r s' -> forall c s, s' = c :: s -> matches (deriv c r) s.
Proof.
  induction 1 as [|f c0 Hf|a b s1 s2 Ha IHa Hb IHb|a b s0 Ha IHa|a b s0 Hb IHb
                 |a|a s1 s2 Ha IHa Hs IHs]; intros c s E; simpl.
  - discriminate.
  - injection E as <- <-. rewrite Hf. constructor.
  - destruct s1 as [|c1 s1].
    + simpl in E. subst s2. apply nullable_matches in Ha. rewrite Ha.
      apply m_alt_r. now apply IHb.
    + injection E as <- <-.
      assert (matches (Seq (deriv c1 a) b) (s1 ++ s2)) as Hseq
        by (apply m_seq; [now apply IHa | exact Hb]).
      destruct (nullable a); [now apply m_alt_l | exact Hseq].
  - apply m_alt_l. now apply IHa.
  - apply m_alt_r. now apply IHb.
  - discriminate.
  - destruct s1 as [|c1 s1]; [now apply IHs|].
    injection E as <- <-. apply m_seq; [now apply IHa | exact Hs].
Qed.

Lemma deriv_matches_cons (r : regexp) :
  forall c s, matches (deriv c r) s -> matches r (c :: s).
Proof.
  induction r as [| |f|a IHa b IHb|a IHa b IHb|a IHa]; intros c s; simpl.
  - inversion 1.
  - inversion 1.
  - destruct (f c) eqn:Hf; inversion 1; subst. now constructor.
  - destruct (nullable a) eqn:Na.
    + inversion 1 as [| | |a' b' s' H1|a' b' s' H1| |]; subst.
      * inversion H1 as [| |a' b' s1 s2 Ha Hb| | | |]; subst.
        change (c :: s1 ++ s2) with ((c :: s1) ++ s2).
        apply m_seq; [now apply IHa | exact Hb].
      * change (c :: s) with ([] ++ c :: s).
        apply m_seq; [now apply nullable_matches | now apply IHb].
    + inversion 1 as [| |a' b' s1 s2 Ha Hb| | | |]; subst.
      change (c :: s1 ++ s2) with ((c :: s1) ++ s2).
      apply m_seq; [now apply IHa | exact Hb].
  - inversion 1; subst; [apply m_alt_l; now apply IHa | apply m_alt_r; now apply IHb].
  - inversion 1 as [| |a' b' s1 s2 Ha Hb| | | |]; subst.
    change (c :: s1 ++ s2) with ((c :: s1) ++ s2).
    apply m_star_app; [now apply IHa | exact Hb].
Qed.

Lemma test_matches (r : regexp) (s : jsstring) : test r s = true <-> matches r s.
Proof.
  revert r; induction s as [|c s IH]; intros r; simpl.
  - apply nullable_matches.
  - rewrite IH. split; [apply deriv_matches_cons|].
    intros H. now apply (matches_cons_deriv H).
Qed.

Lemma matches_Lit (l s : jsstring) : matches (Lit l) s <-> s = l.
Proof.
  revert s; induction l as [|c l IH]; intros s; simpl.
  - split; [now inversion 1 | intros ->; constructor].
  - split.
    + inversion 1 as [| |a b s1 s2 Ha Hb| | | |]; subst.
      inversion Ha as [|f c0 Hf| | | | |]; subst. apply N.eqb_eq in Hf. subst c0.
      apply IH in Hb. now subst.
    + intros ->. change (c :: l) with ([c] ++ l).
      apply m_seq; [constructor; apply N.eqb_refl | now apply IH].
Qed.

Lemma matches_star_class (f : N -> bool) (s : jsstring) :
  matches (Star (Class f)) s <-> forallb f s = true.
Proof.
  split.
  - remember (Star (Class f)) as r eqn:E. induction 1; try discriminate.
    + reflexivity.
    + injection E as ->. specialize (IHmatches2 eq_refl).
      match goal with H : matches (Class f) _ |- _ => inversion H; subst end.
      simpl. rewrite IHmatches2.
      match goal with H : f _ = true |- _ => now rewrite H end.
  - induction s as [|c s IH]; simpl; [constructor|].
    intros H. apply andb_true_iff in H as [Hc Hs].
    change (c :: s) with ([c] ++ s). apply m_star_app; [now constructor | now apply IH].
Qed.

Lemma matches_plus_class (f : N -> bool) (s : jsstring) :
  matches (Plus (Class f)) s <-> run_of f s.
Proof.
  unfold Plus, run_of. split.
  - inversion 1 as [| |a b s1 s2 Ha Hb| | | |]; subst.
    inversion Ha; subst. apply matches_star_class in Hb.
    split; [discriminate|]. simpl.
    match goal with H : f _ = true |- _ => now rewrite H end.
  - intros [Hne H]. destruct s as [|c s]; [now destruct Hne|].
    simpl in H. apply andb_true_iff in H as [Hc Hs].
    change (c :: s) with ([c] ++ s).
    apply m_seq; [now constructor | now apply matches_star_class].
Qed.

Lemma re_fingerprint_spec (s : jsstring) :
  test re_fingerprint s = true
  <-> exists run, s = js "SHA256:" ++ run /\ run_of base64_char run.
Proof.
  rewrite test_matches. unfold re_fingerprint. split.
  - inversion 1 as [| |a b s1 s2 Ha Hb| | | |]; subst.
    apply (proj1 (matches_Lit (js "SHA256:") s1)) in Ha. subst s1.
    exists s2. split; [reflexivity|].
    now apply (proj1 (matches_plus_class base64_char s2)) in Hb.
  - intros (run & -> & Hrun).
    apply m_seq; [now apply matches_Lit | now apply (matches_plus_class base64_char)].
Qed.

Lemma re_handle_spec (s : jsstring) :
  test re_handle s = true <-> run_of handle_char s.
Proof. rewrite test_matches. apply (matches_plus_class handle_char). Qed.

Lemma re_org_repo_spec (s : jsstring) :
  test re_org_repo s = true
  <-> exists owner repo,
        s = owner ++ js "/" ++ repo
        /\ run_of owner_char owner /\ run_of repo_char repo.
Proof.
  rewrite test_matches. unfold re_org_repo. split.
  - inversion 1 as [| |a b s1 s2 Ha Hb| | | |]; subst.
    inversion Hb as [| |a b s3 s4 Hc Hd| | | |]; subst.
    apply (proj1 (matches_Lit (js "/") s3)) in Hc. subst s3.
    exists s1, s4. split; [reflexivity|].
    split; [now apply (proj1 (matches_plus_class owner_char s1)) in Ha
           | now apply (proj1 (matches_plus_class repo_char s4)) in Hd].
  - intros (owner & repo & -> & Ho & Hr).
    apply m_seq; [now apply (matches_plus_class owner_char)|].
    apply m_seq; [now apply matches_Lit | now apply (matches_plus_class repo_char)].
Qed.

Lemma run_of_not_In (f : N -> bool) (c : N) (s : jsstring) :
  f c = false -> forallb f s = true -> ~ In c s.
Proof.
  intros Hc Hs Hin. rewrite forallb_forall in Hs. specialize (Hs c Hin). congruence.
Qed.

(** X11.  What the three patterns of the schemas accept.  A hub (and a hive)
    is an owner, one slash and a repository name, the owner a run of letters,
    digits, underscores and hyphens, the name a run of these and dots, so that
    the string holds exactly one slash and no white space; a maintainer handle
    is a run of letters, digits and hyphens; a fingerprint is [SHA256:]
    followed by a run of letters, digits, [+], [/] and [=]. *)
Theorem schema_patterns (s : jsstring) :
  (test re_org_repo s = true
   <-> exists owner repo,
         s = owner ++ js "/" ++ repo
         /\ run_of owner_char owner /\ run_of repo_char repo)
  /\ (test re_org_repo s = true ->
      exists owner repo,
        s = owner ++ js "/" ++ repo /\ ~ In 47%N owner /\ ~ In 47%N repo
        /\ forallb (fun c => negb (is_ws c)) s = true)
  /\ (test re_handle s = true <-> run_of handle_char s)
  /\ (test re_fingerprint s = true
      <-> exists run, s = js "SHA256:" ++ run /\ run_of base64_char run).
Proof.
  split; [apply re_org_repo_spec|]. split; [|split;
    [apply re_handle_spec | apply re_fingerprint_spec]].
  intros H. apply re_org_repo_spec in H as (owner & repo & -> & [_ Ho] & [_ Hr]).
  exists owner, repo. split; [reflexivity|].
  split; [now apply (@run_of_not_In owner_char)|].
  split; [now apply (@run_of_not_In repo_char)|].
  rewrite !forallb_app. apply andb_true_iff. split; [|apply andb_true_iff; split].
  - rewrite forallb_forall in Ho |- *. intros c Hc. specialize (Ho c Hc).
    destruct (is_ws c) eqn:W; [|reflexivity]. exfalso. revert Ho W.
    unfold owner_char, word, alnum, in_range, one_of, is_ws. simpl.
    rewrite !orb_true_iff, !andb_true_iff, !N.leb_le, !N.eqb_eq. lia.
  - reflexivity.
  - rewrite forallb_forall in Hr |- *. intros c Hc. specialize (Hr c Hc).
    destruct (is_ws c) eqn:W; [|reflexivity]. exfalso. revert Hr W.
    unfold repo_char, word, alnum, in_range, one_of, is_ws. simpl.
    rewrite !orb_true_iff, !andb_true_iff, !N.leb_le, !N.eqb_eq. lia.
Qed.

(** ** The helpers of [utils/git.ts] *)

Lemma take_while_spec (f : N -> bool) (s : jsstring) :
  exists rest,
    s = take_while f s ++ rest
    /\ forallb f (take_while f s) = true
    /\ match rest with c :: _ => f c = false | [] => True end.
Proof.
  induction s as [|c s (rest & E & Hall & Hrest)]; simpl.
  - now exists [].
  - destruct (f c) eqn:Hc.
    + exists rest. simpl. rewrite Hc, Hall. repeat split; [now f_equal | exact Hrest].
    + exists (c :: s). now repeat split.
Qed.

Lemma startsWith_skipn (s p : jsstring) :
  startsWith s p = true -> s = p ++ skipn (List.length p) s.
Proof.
  intros H. apply startsWith_prefix in H as (rest & ->).
  now rewrite skipn_app, skipn_all, Nat.sub_diag.
Qed.

Lemma match_fingerprint_some (result fp : jsstring) :
  match_fingerprint result = Some fp ->
  exists before run after,
    result = before ++ fp ++ after
    /\ fp = js "SHA256:" ++ run /\ run_of base64_char run
    /\ match after with c :: _ => base64_char c = false | [] => True end.
Proof.
  induction result as [|c rest IH]; [discriminate|].
  assert (match_fingerprint rest = Some fp ->
          exists before run after,
            c :: rest = before ++ fp ++ after
            /\ fp = js "SHA256:" ++ run /\ run_of base64_char run
            /\ match after with c :: _ => base64_char c = false | [] => True end)
    as Hrest.
  { intros H. destruct (IH H) as (before & run & after & -> & Hfp & Hrun & Hafter).
    now exists (c :: before), run, after. }
  cbn [match_fingerprint].
  destruct (startsWith (c :: rest) (js "SHA256:")) eqn:Hs; [|exact Hrest].
  destruct (take_while_spec base64_char (skipn 7 (c :: rest)))
    as (after & E & Hall & Hafter).
  destruct (take_while base64_char (skipn 7 (c :: rest))) as [|d run] eqn:Et;
    [exact Hrest|].
  intros [= <-]. exists [], (d :: run), after.
  split; [|split; [reflexivity|split; [split; [discriminate | exact Hall] | exact Hafter]]].
  rewrite (startsWith_skipn _ _ Hs) at 1.
  change (List.length (js "SHA256:")) with 7. rewrite E. reflexivity.
Qed.

Lemma match_fingerprint_none (result : jsstring) :
  match_fingerprint result = None <-> ~ has_fingerprint result.
Proof.
  split.
  - induction result as [|c rest IH]; intros Hn (before & d & after & E & Hd).
    + destruct before; discriminate.
    + cbn [match_fingerprint] in Hn. destruct before as [|b before].
      * cbn [app] in E.
        assert (startsWith (c :: rest) (js "SHA256:") = true) as Hs
          by (apply startsWith_prefix; now exists (d :: after)).
        rewrite Hs in Hn.
        assert (skipn 7 (c :: rest) = d :: after) as Hk by (rewrite E; reflexivity).
        rewrite Hk in Hn. cbn [take_while] in Hn. rewrite Hd in Hn.
        discriminate.
      * injection E as <- E.
        assert (match_fingerprint rest = None) as Hr.
        { destruct (startsWith (c :: rest) (js "SHA256:")); [|exact Hn].
          now destruct (take_while base64_char (skipn 7 (c :: rest))). }
        apply (IH Hr). now exists before, d, after.
  - intros Hn. destruct (match_fingerprint result) as [fp|] eqn:E; [|reflexivity].
    exfalso. apply Hn.
    apply match_fingerprint_some in E
      as (before & run & after & -> & -> & [Hne Hall] & _).
    destruct run as [|d run]; [now destruct Hne|].
    simpl in Hall. apply andb_true_iff in Hall as [Hd _].
    exists before, d, (run ++ after). split; [|exact Hd].
    now rewrite <- !app_assoc.
Qed.

(** X12.  The fingerprint that [getSigningConfig] extracts from the output of
    [ssh-keygen].  There is one exactly when the output holds [SHA256:]
    followed by a character of the class; it is a piece of the output, it is
    the longest run of characters of the class after [SHA256:], and it
    satisfies the fingerprint pattern of the manifest and operator schemas, so
    that a fingerprint [init] writes is never rejected by [validate]. *)
Theorem match_fingerprint_valid (result : jsstring) :
  (match_fingerprint result = None <-> ~ has_fingerprint result)
  /\ (forall fp,
        match_fingerprint result = Some fp ->
        test re_fingerprint fp = true
        /\ exists before after,
             result = before ++ fp ++ after
             /\ match after with c :: _ => base64_char c = false | [] => True end).
Proof.
  split; [apply match_fingerprint_none|]. intros fp H.
  apply match_fingerprint_some in H as (before & run & after & E & -> & Hrun & Ha).
  split; [apply re_fingerprint_spec; now exists run | now exists before, after].
Qed.

Lemma startsWith_app_l (x y p : jsstring) :
  List.length p <= List.length x ->
  startsWith (x ++ y) p = startsWith x p.
Proof.
  revert x; induction p as [|c p IH]; intros x Hlen; [reflexivity|].
  destruct x as [|d x]; [simpl in Hlen; lia|]. simpl.
  rewrite IH; [reflexivity | simpl in Hlen; lia].
Qed.

Lemma includes_false_head (s p : jsstring) :
  includes s p = false ->
  startsWith s p = false
  /\ match s with [] => True | _ :: s' => includes s' p = false end.
Proof.
  destruct s as [|c s]; simpl; intros H; apply orb_false_iff in H as [H1 H2];
    now split.
Qed.

Lemma find_first_at (a p b : jsstring) :
  p <> [] ->
  includes (a ++ firstn (List.length p - 1) p) p = false ->
  find_first (a ++ p ++ b) p = Some (a, b).
Proof.
  intros Hp. induction a as [|c a IH]; intros Hn.
  - cbn [app]. destruct (p ++ b) as [|x s] eqn:E.
    + destruct p; [now destruct Hp | discriminate].
    + cbn [find_first]. rewrite <- E.
      assert (startsWith (p ++ b) p = true) as ->
        by (apply startsWith_prefix; now exists b).
      now rewrite skipn_app, skipn_all, Nat.sub_diag.
  - apply includes_false_head in Hn as [Hs Hn]. cbn [app find_first].
    assert (startsWith (c :: a ++ p ++ b) p = false) as ->.
    { rewrite <- (firstn_skipn (List.length p - 1) p) at 1.
      rewrite <- app_assoc, app_assoc.
      change (c :: (a ++ firstn (List.length p - 1) p)
                   ++ skipn (List.length p - 1) p ++ b)
        with ((c :: a ++ firstn (List.length p - 1) p)
              ++ skipn (List.length p - 1) p ++ b).
      rewrite startsWith_app_l; [exact Hs|].
      cbn [List.length]. rewrite length_app, length_firstn.
      destruct p; [now destruct Hp | simpl; lia]. }
    now rewrite (IH Hn).
Qed.

Lemma find_first_none (s p : jsstring) :
  includes s p = false -> find_first s p = None.
Proof.
  induction s as [|c s IH]; intros H; apply includes_false_head in H as [Hs Hn].
  - cbn [find_first]. now rewrite Hs.
  - cbn [find_first]. rewrite Hs. now rewrite (IH Hn).
Qed.

Lemma GetSubstitution_plain (matched before after r : jsstring) :
  ~ In 36%N r -> GetSubstitution matched before after r = r.
Proof.
  induction r as [|c r IH]; intros H; [reflexivity|]. cbn [GetSubstitution].
  destruct (N.eqb c 36) eqn:E.
  - apply N.eqb_eq in E. subst c. exfalso. apply H. now left.
  - f_equal. apply IH. intros Hin. apply H. now right.
Qed.

Lemma includes_char (c : N) (s : jsstring) :
  ~ In c s -> includes s [c] = false.
Proof.
  induction s as [|d s IH]; intros H; [reflexivity|]. simpl.
  destruct (N.eqb d c) eqn:E;
    [apply N.eqb_eq in E; subst d; exfalso; apply H; now left|].
  simpl. apply IH. intros Hin. apply H. now right.
Qed.

(** X13.  The two paths [getSigningConfig] derives from [user.signingKey].
    The first tilde of the key is replaced by the home directory, and only the
    first; a key without tilde is taken as it is.  The private key path is the
    key path without its first [.pub], wherever that stands: a key path that
    ends in [.pub] loses the ending only if [.pub] does not occur earlier in
    it. *)
Theorem key_paths (h : GitHost) :
  (forall key, ~ In 126%N key -> keyPath_of h key = key)
  /\ (forall before after home,
        ~ In 126%N before -> env_HOME h = Some home -> ~ In 36%N home ->
        keyPath_of h (before ++ js "~" ++ after) = before ++ home ++ after)
  /\ (forall path, includes path (js ".pub") = false -> privKeyPath_of path = path)
  /\ (forall a b,
        includes (a ++ js ".pu") (js ".pub") = false ->
        privKeyPath_of (a ++ js ".pub" ++ b) = a ++ b).
Proof.
  unfold keyPath_of, privKeyPath_of, String_replace. repeat split.
  - intros key Hk.
    now rewrite (find_first_none key (js "~") (@includes_char 126%N key Hk)).
  - intros before after home Hb -> Hh. cbn [or_default].
    rewrite (@find_first_at before (js "~") after); [|discriminate|].
    + now rewrite (@GetSubstitution_plain (js "~") before after home Hh).
    + change (firstn (List.length (js "~") - 1) (js "~")) with (@nil N).
      rewrite app_nil_r. now apply (@includes_char 126%N).
  - intros path Hp. now rewrite (find_first_none path (js ".pub") Hp).
  - intros a b Hn. rewrite (@find_first_at a (js ".pub") b); [reflexivity|discriminate|].
    exact Hn.
Qed.

Lemma trim_or_null_spec (result t : jsstring) :
  trim_or_null result = Some t ->
  t = trim result /\ t <> [] /\ starts_ws t = false /\ ends_ws t = false.
Proof.
  unfold trim_or_null. destruct (trim result) as [|c r] eqn:E; [discriminate|].
  intros [= <-]. rewrite <- E.
  repeat split; [now rewrite E | apply trim_starts | apply trim_ends].
Qed.

(** X14.  What [getSigningConfig] returns is normalised.  The format and the
    signing key, when set, are trimmed and not empty; [gpgSign] is on exactly
    when [git config commit.gpgSign] prints [true], up to white space around
    it; the public key is trimmed; the fingerprint satisfies the pattern of
    the schemas; and without a signing key there is neither a public key nor a
    fingerprint, whatever the key files hold. *)
Theorem getSigningConfig_normalised (h : GitHost) :
  let cfg := getSigningConfig h in
  (forall k, SigningConfig.signingKey cfg = Some k ->
             k <> [] /\ starts_ws k = false /\ ends_ws k = false)
  /\ (forall f, SigningConfig.format cfg = Some f ->
                f <> [] /\ starts_ws f = false /\ ends_ws f = false)
  /\ (SigningConfig.gpgSign cfg = true
      <-> exists out, git_config h (js "commit.gpgSign") = Some out
                      /\ trim out = js "true")
  /\ (SigningConfig.signingKey cfg = None ->
      SigningConfig.publicKey cfg = None /\ SigningConfig.fingerprint cfg = None)
  /\ (forall pk, SigningConfig.publicKey cfg = Some pk ->
                 starts_ws pk = false /\ ends_ws pk = false)
  /\ (forall fp, SigningConfig.fingerprint cfg = Some fp ->
                 test re_fingerprint fp = true)
  /\ (forall h',
        (forall key, git_config h' key = git_config h key) ->
        getConfig h (js "user.signingKey") = None ->
        getSigningConfig h' = getSigningConfig h).
Proof.
  cbv zeta.
  assert (forall key t, getConfig h key = Some t ->
                        t <> [] /\ starts_ws t = false /\ ends_ws t = false) as Hc.
  { intros key t. unfold getConfig. destruct (git_config h key); [|discriminate].
    intros H. now apply trim_or_null_spec in H as (_ & ? & ? & ?). }
  assert ((match getConfig h (js "commit.gpgSign") with
           | Some v => str_eqb v (js "true")
           | None => false
           end) = true
          <-> exists out, git_config h (js "commit.gpgSign") = Some out
                          /\ trim out = js "true") as Hg.
  { unfold getConfig, trim_or_null.
    destruct (git_config h (js "commit.gpgSign")) as [out|];
      [|split; [discriminate | intros (out & H & _); discriminate]].
    destruct (trim out) as [|c r] eqn:E.
    - split; [discriminate | intros (out' & [= <-] & H)]. rewrite E in H. discriminate.
    - rewrite str_eqb_eq. split.
      + intros H. exists out. now rewrite E.
      + intros (out' & [= <-] & H). now rewrite <- E. }
  unfold getSigningConfig.
  destruct (getConfig h (js "user.signingKey")) as [[|c key]|] eqn:Ek.
  - destruct (Hc _ _ Ek) as [Hne _]. now destruct Hne.
  - cbn [SigningConfig.signingKey SigningConfig.format SigningConfig.gpgSign
           SigningConfig.publicKey SigningConfig.fingerprint].
    split; [intros k [= <-]; exact (Hc _ _ Ek)|].
    split; [intros f; apply Hc|]. split; [exact Hg|].
    split; [discriminate|]. split; [|split].
    + intros pk. destruct (file_text h _) as [keyContent|]; [|discriminate].
      intros [= <-]. split; [apply trim_starts | apply trim_ends].
    + intros fp. destruct (ssh_keygen_l h _) as [result|]; [|discriminate].
      intros H. apply match_fingerprint_some in H as (_ & run & _ & _ & -> & Hrun & _).
      apply re_fingerprint_spec. now exists run.
    + discriminate.
  - cbn [SigningConfig.signingKey SigningConfig.format SigningConfig.gpgSign
           SigningConfig.publicKey SigningConfig.fingerprint].
    split; [discriminate|]. split; [intros f; apply Hc|]. split; [exact Hg|].
    split; [now split|]. split; [discriminate|]. split; [discriminate|].
    intros h' Hsame _. unfold getSigningConfig, getConfig.
    rewrite !Hsame. fold (getConfig h (js "user.signingKey")). now rewrite Ek.
Qed.

(** ** The documents of [init] *)

Lemma no_violation_of_parse {A} (schema : ZodType) (read : value -> option A)
  (raw : value) (a : A) (p : list PathSeg) :
  parse_as schema read raw = inl a -> ~ violates schema raw p.
Proof.
  unfold parse_as, safeParse. intros H Hv.
  apply violates_reported in Hv as (i & Hi & _).
  destruct (status (_parse schema [] raw)) eqn:E; try discriminate H.
  apply parse_valid_iff in E. rewrite E in Hi. contradiction.
Qed.

Lemma viol_field (shape : list (jsstring * ZodType))
  (props : list (jsstring * value)) (k : jsstring) (s : ZodType) (v : value)
  (p : list PathSeg) :
  In (k, s) shape -> get k props = v -> violates s v p ->
  violates (ZodObject shape) (VObj props) (Key k :: p).
Proof. intros Hin <- Hv. now apply viol_object_field with (s := s). Qed.

Ltac init_compute :=
  lazy -[test re_org_repo re_handle re_fingerprint startsWith Nat.leb List.length
         init_publicKey ed25519_prefix].

Lemma init_manifest_parse_ok (hub repoName handle : jsstring)
  (signing : SigningConfig.t) :
  test re_org_repo hub = true ->
  repoName <> [] ->
  test re_handle handle = true ->
  startsWith (init_publicKey signing) ed25519_prefix = true ->
  signing_fingerprint_ok signing ->
  ManifestSchema_parse (init_manifest hub repoName handle signing)
  = inl (init_manifest_typed hub repoName handle signing).
Proof.
  intros Hhub Hname Hre Hpk Hfp.
  assert ((1 <=? List.length repoName) = true) as Hn
    by (destruct repoName; [now destruct Hname | reflexivity]).
  assert ((1 <=? List.length handle) = true) as Hh.
  { apply re_handle_spec in Hre as [Hne _].
    destruct handle; [now destruct Hne | reflexivity]. }
  unfold signing_fingerprint_ok, init_fingerprint in Hfp.
  unfold ManifestSchema_parse, parse_as, safeParse, init_manifest,
    init_manifest_typed, fingerprint_field, init_fingerprint.
  destruct (SigningConfig.fingerprint signing) as [[|c fp]|];
    try specialize (Hfp _ eq_refl);
    init_compute; rewrite ?Hhub, ?Hn, ?Hre, ?Hh, ?Hpk, ?Hfp; reflexivity.
Qed.

Lemma init_manifest_parse_inv (hub repoName handle : jsstring)
  (signing : SigningConfig.t) (m : Manifest.t) :
  ManifestSchema_parse (init_manifest hub repoName handle signing) = inl m ->
  test re_org_repo hub = true
  /\ repoName <> []
  /\ test re_handle handle = true
  /\ startsWith (init_publicKey signing) ed25519_prefix = true
  /\ signing_fingerprint_ok signing.
Proof.
  intros H.
  assert (forall p, ~ violates ManifestSchema
                        (init_manifest hub repoName handle signing) p) as Hv
    by (intros p; exact (@no_violation_of_parse _ ManifestSchema as_Manifest
                           _ m p H)).
  unfold ManifestSchema, init_manifest in Hv.
  split; [|split; [|split; [|split]]].
  - destruct (test re_org_repo hub) eqn:E; [reflexivity|]. exfalso.
    eapply Hv, viol_field; [do 2 right; left; reflexivity | reflexivity|].
    eapply viol_string_check; [left; reflexivity | exact E].
  - intros ->. 
    eapply Hv, viol_field; [right; left; reflexivity | reflexivity|].
    eapply viol_string_check; [left; reflexivity | reflexivity].
  - destruct (test re_handle handle) eqn:E; [reflexivity|]. exfalso.
    eapply Hv, viol_field; [do 4 right; left; reflexivity | reflexivity|].
    eapply viol_string_check; [left; reflexivity | exact E].
  - destruct (startsWith (init_publicKey signing) ed25519_prefix) eqn:E;
      [reflexivity|]. exfalso.
    eapply Hv, viol_field; [do 6 right; left; reflexivity | reflexivity|].
    eapply viol_field; [right; left; reflexivity | reflexivity|].
    eapply viol_string_check; [left; reflexivity | exact E].
  - unfold signing_fingerprint_ok, init_fingerprint. intros fp Hfp.
    destruct (test re_fingerprint fp) eqn:E; [reflexivity|]. exfalso.
    unfold fingerprint_field in Hv.
    destruct (SigningConfig.fingerprint signing) as [[|c fp']|]; try discriminate.
    injection Hfp as <-.
    eapply Hv, viol_field; [do 6 right; left; reflexivity | reflexivity|].
    eapply viol_field; [do 2 right; left; reflexivity | reflexivity|].
    apply viol_optional; [discriminate|].
    eapply viol_string_check; [left; reflexivity | exact E].
Qed.

Lemma init_status_parse_ok (generatedAt lastCommit version : jsstring) :
  parses generatedAt -> parses lastCommit ->
  StatusSchema_parse (init_status generatedAt lastCommit version)
  = inl (init_status_typed generatedAt lastCommit version).
Proof.
  intros (t1 & H1) (t2 & H2).
  unfold StatusSchema_parse, parse_as, safeParse, init_status, init_status_typed.
  lazy. rewrite H1, H2. reflexivity.
Qed.

Lemma init_status_parse_inv (generatedAt lastCommit version : jsstring)
  (st : SpokeStatus.t) :
  StatusSchema_parse (init_status generatedAt lastCommit version) = inl st ->
  parses generatedAt /\ parses lastCommit.
Proof.
  unfold StatusSchema_parse, parse_as, safeParse, init_status, parses.
  lazy.
  destruct (Date_parse generatedAt) as [t1|], (Date_parse lastCommit) as [t2|];
    intros H; try discriminate H.
  split; eexists; reflexivity.
Qed.

Lemma init_operator_parse_ok (hub handle displayName : jsstring)
  (ghHandle : option jsstring) (signing : SigningConfig.t)
  (verified_at joined : jsstring) :
  test re_org_repo hub = true ->
  handle <> [] ->
  startsWith (init_publicKey signing) ed25519_prefix = true ->
  signing_fingerprint_ok signing ->
  parses joined ->
  (truthy_string ghHandle = true -> parses verified_at) ->
  OperatorSchema_parse
    (init_operator hub handle displayName ghHandle signing verified_at joined)
  = inl (init_operator_typed hub handle displayName ghHandle signing verified_at
           joined).
Proof.
  intros Hhub Hne Hpk Hfp (t & Hj) Hv.
  assert ((1 <=? List.length handle) = true) as Hh
    by (destruct handle; [now destruct Hne | reflexivity]).
  unfold signing_fingerprint_ok, init_fingerprint in Hfp.
  unfold OperatorSchema_parse, parse_as, safeParse, init_operator,
    init_operator_typed, init_identities, init_hive, fingerprint_field,
    init_fingerprint.
  destruct (SigningConfig.fingerprint signing) as [[|c fp]|];
    try specialize (Hfp _ eq_refl);
    destruct ghHandle as [[|d gh]|];
    try (destruct (Hv eq_refl) as (t' & Hv'));
    init_compute; rewrite ?Hhub, ?Hh, ?Hpk, ?Hfp, ?Hj, ?Hv'; reflexivity.
Qed.

Lemma not_parses (s : jsstring) : ~ parses s -> date_parses (VStr s) = false.
Proof.
  unfold parses, date_parses. destruct (Date_parse s) as [t|]; [|reflexivity].
  intros H. exfalso. apply H. now exists t.
Qed.

Lemma parses_dec (s : jsstring) : parses s \/ ~ parses s.
Proof.
  unfold parses. destruct (Date_parse s) as [t|]; [left; now exists t|].
  right. intros (t & H). discriminate.
Qed.

Lemma viol_date (msg : option jsstring) (s : jsstring) :
  ~ parses s -> violates (ZodEffects (ZodString []) date_parses msg) (VStr s) [].
Proof.
  intros H. apply viol_effects; [discriminate|]. now apply not_parses.
Qed.

Lemma init_operator_parse_inv (hub handle displayName : jsstring)
  (ghHandle : option jsstring) (signing : SigningConfig.t)
  (verified_at joined : jsstring) (o : Operator.t) :
  OperatorSchema_parse
    (init_operator hub handle displayName ghHandle signing verified_at joined)
  = inl o ->
  test re_org_repo hub = true
  /\ handle <> []
  /\ startsWith (init_publicKey signing) ed25519_prefix = true
  /\ signing_fingerprint_ok signing
  /\ parses joined
  /\ (truthy_string ghHandle = true -> parses verified_at).
Proof.
  intros H.
  assert (forall p,
             ~ violates OperatorSchema
                 (init_operator hub handle displayName ghHandle signing verified_at
                    joined) p) as Hv
    by (intros p; exact (@no_violation_of_parse _ OperatorSchema as_Operator
                           _ o p H)).
  rewrite OperatorSchema_shape in Hv.
  unfold OperatorTier1Shape, OperatorTier2Shape, init_operator in Hv.
  cbn [app] in Hv.
  split; [|split; [|split; [|split; [|split]]]].
  - destruct (test re_org_repo hub) eqn:E; [reflexivity|]. exfalso.
    eapply Hv, viol_field; [do 7 right; left; reflexivity | reflexivity|].
    apply viol_default_present; [discriminate|].
    apply viol_optional; [discriminate|].
    eapply viol_array_item with (i := 0); [reflexivity|].
    eapply viol_field; [left; reflexivity | reflexivity|].
    eapply viol_string_check; [left; reflexivity | exact E].
  - intros ->.
    eapply Hv, viol_field; [right; left; reflexivity | reflexivity|].
    eapply viol_string_check; [left; reflexivity | reflexivity].
  - destruct (startsWith (init_publicKey signing) ed25519_prefix) eqn:E;
      [reflexivity|]. exfalso.
    eapply Hv, viol_field; [do 3 right; left; reflexivity | reflexivity|].
    eapply viol_field; [left; reflexivity | reflexivity|].
    eapply viol_string_check; [left; reflexivity | exact E].
  - unfold signing_fingerprint_ok, init_fingerprint. intros fp Hfp.
    destruct (test re_fingerprint fp) eqn:E; [reflexivity|]. exfalso.
    unfold fingerprint_field in Hv.
    destruct (SigningConfig.fingerprint signing) as [[|c fp']|]; try discriminate.
    injection Hfp as <-.
    eapply Hv, viol_field; [do 3 right; left; reflexivity | reflexivity|].
    eapply viol_field; [right; left; reflexivity | reflexivity|].
    apply viol_optional; [discriminate|].
    eapply viol_string_check; [left; reflexivity | exact E].
  - destruct (parses_dec joined) as [Hp|Hp]; [exact Hp|]. exfalso.
    eapply Hv, viol_field; [do 7 right; left; reflexivity | reflexivity|].
    apply viol_default_present; [discriminate|].
    apply viol_optional; [discriminate|].
    eapply viol_array_item with (i := 0); [reflexivity|].
    eapply viol_field; [do 4 right; left; reflexivity | reflexivity|].
    apply viol_optional; [discriminate|]. now apply viol_date.
  - intros Hgh. destruct (parses_dec verified_at) as [Hp|Hp]; [exact Hp|]. exfalso.
    destruct ghHandle as [[|d gh]|]; try discriminate.
    eapply Hv, viol_field; [do 4 right; left; reflexivity | reflexivity|].
    apply viol_default_present; [discriminate|].
    apply viol_optional; [discriminate|].
    eapply viol_array_item with (i := 0); [reflexivity|].
    eapply viol_field; [do 3 right; left; reflexivity | reflexivity|].
    apply viol_optional; [discriminate|]. now apply viol_date.
Qed.

Lemma getSigningConfig_fingerprint_ok (g : GitHost) :
  signing_fingerprint_ok (getSigningConfig g).
Proof.
  unfold signing_fingerprint_ok, init_fingerprint, getSigningConfig. intros fp.
  destruct (getConfig g (js "user.signingKey")) as [[|c key]|];
    cbn [SigningConfig.fingerprint]; try discriminate.
  destruct (ssh_keygen_l g _) as [result|]; [|discriminate].
  destruct (match_fingerprint result) as [[|d fp']|] eqn:E; try discriminate.
  intros [= <-].
  apply match_fingerprint_some in E as (_ & run & _ & _ & -> & Hrun & _).
  apply re_fingerprint_spec. now exists run.
Qed.

Lemma init_handle_cases (g : GitHost) :
  init_maintainerHandle g
  = match getGitHubHandle g with
    | Some gh => gh
    | None => match getGitUserName g with
              | Some n => n
              | None => js "operator"
              end
    end.
Proof.
  unfold init_maintainerHandle, init_gitName.
  destruct (getGitHubHandle g) as [gh|]; [reflexivity|].
  now destruct (getGitUserName g).
Qed.

Lemma init_handle_token (g : GitHost) :
  init_maintainerHandle g <> []
  /\ starts_ws (init_maintainerHandle g) = false
  /\ ends_ws (init_maintainerHandle g) = false.
Proof.
  rewrite init_handle_cases. unfold getGitHubHandle, getGitUserName.
  destruct (gh_login g) as [out|].
  - destruct (trim_or_null out) as [gh|] eqn:E.
    + now apply trim_or_null_spec in E as (_ & ? & ? & ?).
    + destruct (git_config g (js "user.name")) as [out'|];
        [|repeat split; discriminate].
      destruct (trim_or_null out') as [n|] eqn:E';
        [|repeat split; discriminate].
      now apply trim_or_null_spec in E' as (_ & ? & ? & ?).
  - destruct (git_config g (js "user.name")) as [out'|];
      [|repeat split; discriminate].
    destruct (trim_or_null out') as [n|] eqn:E';
      [|repeat split; discriminate].
    now apply trim_or_null_spec in E' as (_ & ? & ? & ?).
Qed.

(** X15.  The handle that [init] writes as maintainer, identity handle and
    operator handle.  It is the GitHub login when [gh] yields one, otherwise
    the name of [git config user.name], otherwise [operator]; it is never
    empty and carries no white space at its ends.  The email address of [git
    config user.email] never enters it: the fall-back on the part of the
    address before the at sign is never reached. *)
Theorem init_maintainer_handle (g : GitHost) :
  init_maintainerHandle g <> []
  /\ starts_ws (init_maintainerHandle g) = false
  /\ ends_ws (init_maintainerHandle g) = false
  /\ init_maintainerHandle g
     = match getGitHubHandle g with
       | Some gh => gh
       | None => match getGitUserName g with
                 | Some n => n
                 | None => js "operator"
                 end
       end
  /\ (forall g',
        (forall key, key <> js "user.email" -> git_config g' key = git_config g key) ->
        gh_login g' = gh_login g ->
        init_maintainerHandle g' = init_maintainerHandle g).
Proof.
  destruct (init_handle_token g) as (H1 & H2 & H3).
  split; [exact H1|]. split; [exact H2|]. split; [exact H3|].
  split; [apply init_handle_cases|].
  intros g' Hsame Hgh. rewrite !init_handle_cases.
  unfold getGitHubHandle, getGitUserName. rewrite Hgh, Hsame; [reflexivity|].
  discriminate.
Qed.

Lemma init_inl (opts : InitOptions.t) (host : InitHost) (r : InitResult) :
  init opts host = inl r ->
  test re_org_repo (InitOptions.hub opts) = true
  /\ isGitRepo (i_rev_parse host) = true
  /\ (i_collabExists host = true -> InitOptions.overwrite opts = true)
  /\ r = mkInitResult
           (init_manifest (InitOptions.hub opts)
              (init_repoName opts (i_cwd host))
              (init_maintainerHandle (i_git host))
              (getSigningConfig (i_git host)))
           (init_status (i_generatedAt host) (i_lastCommit host) (i_version host))
           (init_operator (InitOptions.hub opts)
              (init_maintainerHandle (i_git host))
              (or_default (InitOptions.name opts) (init_gitName (i_git host)))
              (getGitHubHandle (i_git host)) (getSigningConfig (i_git host))
              (i_verified_at host) (i_joined host)).
Proof.
  unfold init. destruct (isGitRepo (i_rev_parse host)); [|discriminate].
  destruct (test re_org_repo (InitOptions.hub opts)); [|discriminate].
  destruct (i_collabExists host), (InitOptions.overwrite opts); try discriminate;
    cbn [negb andb]; intros [= <-]; repeat split; auto; discriminate.
Qed.

(** X16.  Whether the manifest object that [init] hands to [writeYaml]
    satisfies the manifest schema, the one [validate] applies to the document
    it loads.  It does exactly when the project name is not empty, the derived
    handle is a run of letters, digits and hyphens, and the public key begins
    with [ssh-ed25519 ]; the hub, the license, the fingerprint and the other
    fields never stand in the way.  The validated manifest then carries the
    values [init] chose.  Without a readable key file the key is the
    placeholder, which passes the schema and which [validate] recognises. *)
Theorem init_manifest_validates (opts : InitOptions.t) (host : InitHost)
  (r : InitResult) :
  init opts host = inl r ->
  let repoName := init_repoName opts (i_cwd host) in
  let maintainerHandle := init_maintainerHandle (i_git host) in
  let signing := getSigningConfig (i_git host) in
  ((exists m, ManifestSchema_parse (manifest_yaml r) = inl m)
   <-> repoName <> []
       /\ run_of handle_char maintainerHandle
       /\ prefix_match (init_publicKey signing) ed25519_prefix)
  /\ (forall m,
        ManifestSchema_parse (manifest_yaml r) = inl m ->
        m = init_manifest_typed (InitOptions.hub opts) repoName maintainerHandle
              signing)
  /\ (SigningConfig.publicKey signing = None ->
      prefix_match (init_publicKey signing) ed25519_prefix
      /\ includes (init_publicKey signing) placeholder = true).
Proof.
  intros H. apply init_inl in H as (Hhub & _ & _ & ->). cbv zeta.
  cbn [manifest_yaml].
  split; [|split].
  - split.
    + intros (m & Hm). apply init_manifest_parse_inv in Hm as (_ & Hn & Hh & Hp & _).
      split; [exact Hn|]. split; [now apply re_handle_spec|].
      now apply startsWith_prefix.
    + intros (Hn & Hh & Hp). eexists. apply init_manifest_parse_ok; try assumption.
      * now apply re_handle_spec.
      * now apply startsWith_prefix.
      * apply getSigningConfig_fingerprint_ok.
  - intros m Hm. pose proof Hm as Hi.
    apply init_manifest_parse_inv in Hi as (_ & Hn & Hh & Hp & Hf).
    rewrite (@init_manifest_parse_ok _ _ _ _ Hhub Hn Hh Hp Hf) in Hm.
    now injection Hm as <-.
  - intros Hk. unfold init_publicKey. rewrite Hk. cbn [or_default].
    split; [apply startsWith_prefix; reflexivity | reflexivity].
Qed.

(** X17.  The status and the operator profile that [init] hands to
    [writeYaml], against the schemas of [validate].  The status object
    satisfies the status schema exactly when the two timestamps are texts that
    [Date.parse] reads, and it then declares the phase [specify], no tests and
    a clean [main] branch.  The operator object satisfies the operator schema
    exactly when the public key begins with [ssh-ed25519 ] and its timestamps
    parse: its handle is never empty, and the hive it joins is the hub that
    [init] accepted. *)
Theorem init_status_operator_validate (opts : InitOptions.t) (host : InitHost)
  (r : InitResult) :
  init opts host = inl r ->
  let signing := getSigningConfig (i_git host) in
  let ghHandle := getGitHubHandle (i_git host) in
  ((exists st, StatusSchema_parse (status_yaml r) = inl st)
   <-> parses (i_generatedAt host) /\ parses (i_lastCommit host))
  /\ (forall st,
        StatusSchema_parse (status_yaml r) = inl st ->
        st = init_status_typed (i_generatedAt host) (i_lastCommit host)
               (i_version host))
  /\ ((exists o, OperatorSchema_parse (operator_yaml r) = inl o)
      <-> prefix_match (init_publicKey signing) ed25519_prefix
          /\ parses (i_joined host)
          /\ (truthy_string ghHandle = true -> parses (i_verified_at host)))
  /\ (forall o,
        OperatorSchema_parse (operator_yaml r) = inl o ->
        o = init_operator_typed (InitOptions.hub opts)
              (init_maintainerHandle (i_git host))
              (or_default (InitOptions.name opts) (init_gitName (i_git host)))
              ghHandle signing (i_verified_at host) (i_joined host)).
Proof.
  intros H. apply init_inl in H as (Hhub & _ & _ & ->). cbv zeta.
  cbn [status_yaml operator_yaml].
  destruct (init_handle_token (i_git host)) as (Hne & _).
  pose proof (getSigningConfig_fingerprint_ok (i_git host)) as Hfp.
  split; [|split; [|split]].
  - split.
    + intros (st & Hst). now apply init_status_parse_inv in Hst.
    + intros (H1 & H2). eexists. now apply init_status_parse_ok.
  - intros st Hst. pose proof Hst as Hi. apply init_status_parse_inv in Hi as (H1 & H2).
    rewrite (@init_status_parse_ok _ _ (i_version host) H1 H2) in Hst.
    now injection Hst as <-.
  - split.
    + intros (o & Ho). apply init_operator_parse_inv in Ho as (_ & _ & Hp & _ & Hj & Hv).
      split; [now apply startsWith_prefix|]. now split.
    + intros (Hp & Hj & Hv). eexists.
      apply init_operator_parse_ok; try assumption. now apply startsWith_prefix.
  - intros o Ho. pose proof Ho as Hi.
    apply init_operator_parse_inv in Hi as (_ & _ & Hp & _ & Hj & Hv).
    rewrite (@init_operator_parse_ok _ _ _ _ _ _ _ Hhub Hne Hp Hfp Hj Hv) in Ho.
    now injection Ho as <-.
Qed.

(** X18.  The documents that [init] scaffolds agree with one another and with
    the signing configuration they were drawn from: when the manifest object
    and the operator object validate, the two carry the same handle, public
    key and fingerprint, so the cross-file check of [validate] finds nothing,
    and the fingerprint of the manifest cannot differ from that of the signing
    key. *)
Theorem init_documents_consistent (opts : InitOptions.t) (host : InitHost)
  (r : InitResult) (m : Manifest.t) (o : Operator.t) (results : ValidationResult) :
  init opts host = inl r ->
  ManifestSchema_parse (manifest_yaml r) = inl m ->
  OperatorSchema_parse (operator_yaml r) = inl o ->
  Manifest.handle (Manifest.identity m) = Operator.handle o
  /\ Manifest.handle (Manifest.identity m) = Manifest.maintainer m
  /\ Manifest.publicKey (Manifest.identity m)
     = Operator.publicKey (Operator.signing o)
  /\ Manifest.fingerprint (Manifest.identity m)
     = Operator.fingerprint (Operator.signing o)
  /\ validateCrossFile (Some m) (Some o) results = results
  /\ ~ fingerprints_differ (Some m) (getSigningConfig (i_git host)).
Proof.
  intros H Hm Ho. apply init_inl in H as (Hhub & _ & _ & ->).
  cbn [manifest_yaml operator_yaml] in Hm, Ho.
  destruct (init_handle_token (i_git host)) as (Hne & _).
  pose proof (getSigningConfig_fingerprint_ok (i_git host)) as Hfp.
  pose proof Hm as Hi. apply init_manifest_parse_inv in Hi as (_ & Hn & Hh & Hp & _).
  rewrite (@init_manifest_parse_ok _ _ _ _ Hhub Hn Hh Hp Hfp) in Hm.
  injection Hm as <-.
  pose proof Ho as Hi. apply init_operator_parse_inv in Hi as (_ & _ & _ & _ & Hj & Hv).
  rewrite (@init_operator_parse_ok _ _ _ _ _ _ _ Hhub Hne Hp Hfp Hj Hv) in Ho.
  injection Ho as <-.
  unfold init_manifest_typed, init_operator_typed, validateCrossFile.
  cbn [Manifest.handle Manifest.identity Manifest.maintainer Manifest.publicKey
       Manifest.fingerprint Operator.handle Operator.signing Operator.publicKey
       Operator.fingerprint].
  rewrite !str_eqb_refl. repeat split.
  intros (m' & fp & fp' & [= <-] & Hs & Hm' & Hfp1 & Hfp2 & Hd).
  cbn [Manifest.fingerprint Manifest.identity] in Hm'.
  unfold init_fingerprint in Hm'. rewrite Hs in Hm'.
  destruct fp as [|c fp]; [now destruct Hfp1|]. now injection Hm' as <-.
Qed.

(** ** Defaults of the schemas *)

(** X19.  The security reflexes of a validated manifest are what the raw
    document says and nothing more: a flag is on exactly when the raw document
    holds [true] for it under [security.reflexes], and it is off when the
    flag, the [reflexes] mapping or the [security] mapping is absent.  The
    entry that [pull] builds shows these flags. *)
Theorem manifest_reflexes_from_raw (raw : value) (m : Manifest.t) :
  ManifestSchema_parse raw = inl m ->
  let flags := field_of (field_of raw "security") "reflexes" in
  Manifest.reflexes (Manifest.security m)
  = Manifest.mkReflexes
      (is_true (field_of flags "signing"))
      (is_true (field_of flags "secretScanning"))
      (is_true (field_of flags "sandboxEnforcer"))
      (is_true (field_of flags "contentFilter"))
  /\ (forall repo status stale,
        SpokeEntry.reflexes (make_entry repo m status stale)
        = Manifest.reflexes (Manifest.security m)).
Proof.
  intros Hm. cbv zeta. split; [|reflexivity].
  pose proof (ManifestSchema_parse_spec raw) as S. rewrite Hm in S.
  destruct S as (_ & _ & doc & Hs & Ha).
  unfold safeParse in Hs.
  destruct (status (_parse ManifestSchema [] raw)) eqn:St; try discriminate.
  assert (doc = output (_parse ManifestSchema [] raw)) as -> by congruence.
  clear Hs. unfold ManifestSchema in St, Ha.
  let F := object_fields_of St in destruct F as (props & out & -> & Hout & Hf).
  rewrite Hout in Ha. apply as_Manifest_security in Ha as (o & Eo & Hsec).
  assert (o = out) as -> by congruence. clear Eo.
  destruct (Hf (js "security") _ (or_intror (or_intror (or_intror (or_intror
              (or_intror (or_intror (or_intror (or_introl eq_refl)))))))))
    as [St1 G1].
  rewrite G1 in Hsec. pose proof (parse_default_object _ _ _ St1) as D1.
  rewrite D1 in St1, Hsec.
  let F := object_fields_of St1 in destruct F as (sprops & sout & Es & Hout1 & Hf1).
  assert (sprops = props_of (get (js "security") props)) as -> by congruence.
  clear Es. rewrite Hout1 in Hsec.
  apply as_security_reflexes in Hsec as (o1 & Eo & Href).
  assert (o1 = sout) as -> by congruence. clear Eo.
  destruct (Hf1 (js "reflexes") _ (or_introl eq_refl)) as [St2 G2].
  rewrite G2 in Href. pose proof (parse_default_object _ _ _ St2) as D2.
  rewrite D2 in St2, Href.
  let F := object_fields_of St2 in destruct F as (rprops & rout & Er & Hout2 & Hf2).
  assert (rprops
          = props_of (get (js "reflexes") (props_of (get (js "security") props))))
    as -> by congruence.
  clear Er. rewrite Hout2 in Href.
  destruct (Hf2 (js "signing") _ (or_introl eq_refl)) as [S1 F1].
  destruct (Hf2 (js "secretScanning") _ (or_intror (or_introl eq_refl))) as [S2 F2].
  destruct (Hf2 (js "sandboxEnforcer") _
              (or_intror (or_intror (or_introl eq_refl)))) as [S3 F3].
  destruct (Hf2 (js "contentFilter") _
              (or_intror (or_intror (or_intror (or_introl eq_refl))))) as [S4 F4].
  rewrite (parse_flag _ _ S1) in F1. rewrite (parse_flag _ _ S2) in F2.
  rewrite (parse_flag _ _ S3) in F3. rewrite (parse_flag _ _ S4) in F4.
  rewrite (as_reflexes_flags _ F1 F2 F3 F4 Href).
  cbn [field_of]. now rewrite !field_of_props.
Qed.

(** X20.  What [OperatorSchema.parse] hands to [validateOperator] for the
    fields the schema gives defaults: an operator document without [skills],
    [hives] or [identities] validates to empty lists, and without
    [availability] to [open]; the skills and the availability that are present
    come out unchanged, and [hives] keeps one entry for each entry of the
    document. *)
Theorem operator_defaults (raw : value) (o : Operator.t) :
  OperatorSchema_parse raw = inl o ->
  (field_of raw "skills" = VUndefined -> Operator.skills o = [])
  /\ (forall items, field_of raw "skills" = VArr items ->
        List.map VStr (Operator.skills o) = items)
  /\ (field_of raw "hives" = VUndefined -> Operator.hives o = [])
  /\ (forall items, field_of raw "hives" = VArr items ->
        List.length (Operator.hives o) = List.length items)
  /\ (field_of raw "identities" = VUndefined -> Operator.identities o = [])
  /\ (field_of raw "availability" = VUndefined ->
        Operator.availability o = js "open")
  /\ (forall a, field_of raw "availability" = VStr a ->
        Operator.availability o = a).
Proof.
  intros H. unfold OperatorSchema_parse, OperatorSchema in H.
  destruct (@parse_as_object _ (merge_shapes OperatorTier1Shape OperatorTier2Shape)
              as_Operator raw o eq_refl H)
    as (props & out & -> & Hr & Hf).
  apply as_Operator_fields in Hr as (out' & Eo & Hid & Hsk & Hav & Hhi).
  assert (out' = out) as -> by congruence. clear Eo H.
  cbn [field_of].
  destruct (Hf (js "identities") _
              ltac:(do 4 right; left; reflexivity)) as [Sid Gid].
  destruct (Hf (js "skills") _ ltac:(do 5 right; left; reflexivity)) as [Ssk Gsk].
  destruct (Hf (js "availability") _
              ltac:(do 6 right; left; reflexivity)) as [Sav Gav].
  destruct (Hf (js "hives") _ ltac:(do 7 right; left; reflexivity)) as [Shi Ghi].
  clear Hf. cbn [OperatorTier2Shape fst snd] in Shi, Ghi. rewrite Gid in Hid. rewrite Gsk in Hsk. rewrite Gav in Hav.
  rewrite Ghi in Hhi. clear Gid Gsk Gav Ghi.
  repeat split.
  - intros E. rewrite E in Hsk. simpl in Hsk. congruence.
  - intros items E. rewrite E in Hsk, Ssk.
    rewrite parse_default_optional in Hsk, Ssk by discriminate.
    destruct (@parse_array_valid _ _ _ Ssk)
      as (items' & Ei & Ho & Hv).
    assert (items' = items) as -> by congruence. clear Ei.
    rewrite Ho, (plain_strings_output _ _ _ Hv) in Hsk.
    now apply as_array_strings.
  - intros E. rewrite E in Hhi. simpl in Hhi. congruence.
  - intros items E. rewrite E in Hhi, Shi.
    rewrite parse_default_optional in Hhi, Shi by discriminate.
    destruct (@parse_array_valid _ _ _ Shi)
      as (items' & Ei & Ho & Hv).
    assert (items' = items) as -> by congruence. clear Ei.
    rewrite Ho in Hhi. cbn [as_list] in Hhi. rewrite as_array_Some in Hhi.
    assert (Operator.hives o
            = mapi (fun i item =>
                      output (_parse HiveEntrySchema ([Key (js "hives")] ++ [Index i])
                                item)) 0 items) as -> by congruence.
    apply mapi_length.
  - intros E. rewrite E in Hid. simpl in Hid. congruence.
  - intros E. rewrite E in Hav. simpl in Hav. congruence.
  - intros a E. rewrite E in Hav, Sav.
    rewrite parse_default_optional in Hav, Sav by discriminate.
    cbn [_parse] in Hav, Sav.
    destruct (mem_str a _); [|discriminate]. simpl in Hav. congruence.
Qed.

End Host.

(* ================================================================== *)
(** * The properties at the sample documents *)
(* ================================================================== *)

Example minimal_manifest_parses :
  ManifestSchema_parse minimal_manifest = inl minimal_manifest_typed.
Proof. vm_compute. reflexivity. Qed.

Example alice_manifest_parses :
  ManifestSchema_parse alice_manifest = inl alice_manifest_typed.
Proof. vm_compute. reflexivity. Qed.

Example valid_status_parses :
  StatusSchema_parse sample_Date_parse valid_status = inl valid_status_typed.
Proof. vm_compute. reflexivity. Qed.

(** C3 at a status generated seven days and one second before [now]. *)
Lemma stale_flag_boundary_witness :
  let now := (sample_instant + 7 * 86400000 + 1000)%Z in
  let entry := status_entry sample_Date_parse None minimal_manifest_typed
                 valid_status_typed now in
  try_entry sample_Date_parse None (inl minimal_manifest)
    (Some (inl valid_status)) now = inl (entry, Some valid_status_typed)
  /\ SpokeEntry.stale entry = true.
Proof.
  cbv zeta.
  assert (try_entry sample_Date_parse None (inl minimal_manifest)
            (Some (inl valid_status)) (sample_instant + 7 * 86400000 + 1000)
          = inl (status_entry sample_Date_parse None minimal_manifest_typed
                   valid_status_typed (sample_instant + 7 * 86400000 + 1000),
                 Some valid_status_typed)) as H
    by (vm_compute; reflexivity).
  split; [exact H|].
  destruct (stale_flag_boundary sample_Date_parse sample_load) as (Hs & _).
  destruct (Hs None (inl minimal_manifest) (Some (inl valid_status))
              (sample_instant + 7 * 86400000 + 1000)%Z _ _ H)
    as (_ & _ & H3).
  destruct (H3 valid_status_typed eq_refl) as (t & Ht & _ & _ & Hb & _).
  apply Hb. vm_compute in Ht. injection Ht as <-. reflexivity.
Defined.

(** C4 at the minimal manifest: without status the iteration appends the
    entry with the defaults. *)
Lemma entry_of_valid_manifest_witness :
  ManifestSchema_parse minimal_manifest = inl minimal_manifest_typed
  /\ lp_spokes (pull_step_local sample_Date_parse sample_load false empty_pull
                  spoke_without_status)
     = [default_entry None minimal_manifest_typed].
Proof.
  assert (ManifestSchema_parse minimal_manifest = inl minimal_manifest_typed) as H
    by (vm_compute; reflexivity).
  split; [exact H|].
  destruct (entry_of_valid_manifest sample_Date_parse sample_load false
              minimal_manifest H) as (Hl & _).
  rewrite (Hl empty_pull spoke_without_status minimal_manifest_yaml);
    reflexivity.
Defined.

(** C4, counterexample.  The manifest of the spoke is valid and its status
    document is present but does not validate (respectively does not
    decode): the iteration appends no entry, and the run has no entry for
    the spoke. *)
Lemma valid_manifest_bad_status_has_no_entry :
  sample_load minimal_manifest_yaml = YamlValue minimal_manifest
  /\ ManifestSchema_parse minimal_manifest = inl minimal_manifest_typed
  /\ l_manifestFile spoke_bad_status = Some minimal_manifest_yaml
  /\ l_statusFile spoke_bad_status = Some bad_phase_yaml
  /\ lp_spokes (pull_step_local sample_Date_parse sample_load false empty_pull
                  spoke_bad_status) = []
  /\ lp_spokes (pull_step_local sample_Date_parse sample_load false empty_pull
                  spoke_undecodable_status) = []
  /\ exists r, pull_local sample_Date_parse sample_load false
                 (Some [spoke_bad_status]) = inl r
               /\ lp_spokes r = [].
Proof.
  repeat split; try (vm_compute; reflexivity).
  eexists. split; vm_compute; reflexivity.
Qed.

(** C9 at three spokes, the second with a manifest that does not decode:
    the run completes with the entries of the first and the third spoke and
    one failure line for the second. *)
Lemma pull_isolates_failures_witness :
  exists r,
    pull_local sample_Date_parse sample_load false
      (Some [spoke_without_status; spoke_bad_manifest; spoke_with_status]) = inl r
    /\ lp_spokes r
       = [default_entry None minimal_manifest_typed;
          status_entry sample_Date_parse None minimal_manifest_typed
            valid_status_typed (sample_instant + 6 * 86400000)]
    /\ filter is_failure (lp_console r)
       = [line_fail (js "spoke-2") (YamlException (js "YAMLException"))]
    /\ lp_withCollab r = 3 /\ lp_withoutCollab r = 0.
Proof.
  destruct (pull_isolates_failures sample_Date_parse sample_load false) as (H & _).
  destruct (H [spoke_without_status; spoke_bad_manifest; spoke_with_status])
    as (r & E & Hs & Hn & Hc & Hf).
  exists r. split; [exact E|].
  rewrite Hs, Hf. split; [vm_compute; reflexivity|].
  split; [vm_compute; reflexivity|].
  assert (lp_withoutCollab r = 0) as H0 by (rewrite Hn; vm_compute; reflexivity).
  rewrite H0 in *. simpl in Hc. split; [lia | reflexivity].
Defined.

(** C9, counterexample.  In JSON mode a spoke whose manifest does not decode
    leaves no record of its failure: no entry, no line, and a count among
    the spokes with a declaration.  Outside JSON mode a spoke with a valid
    manifest and a status that does not decode yields no entry. *)
Lemma pull_failure_unrecorded_and_entry_lost :
  pull_local sample_Date_parse sample_load true (Some [spoke_bad_manifest])
  = inl (mkLocalPull [] 1 0 [])
  /\ (ManifestSchema_parse minimal_manifest = inl minimal_manifest_typed
      /\ sample_load minimal_manifest_yaml = YamlValue minimal_manifest
      /\ l_manifestFile spoke_undecodable_status = Some minimal_manifest_yaml
      /\ exists r, pull_local sample_Date_parse sample_load false
                     (Some [spoke_undecodable_status]) = inl r
                   /\ lp_spokes r = []).
Proof.
  split; [vm_compute; reflexivity|].
  repeat split; try (vm_compute; reflexivity).
  eexists. split; vm_compute; reflexivity.
Qed.

(** C5 at alice: her key is in the registry and her manifest carries a
    fingerprint, so the iteration of her spoke, in the run over the hub
    checkout, appends the one result of her own manifest, and that result is
    verified.  In a run over her spoke and a spoke whose manifest does not
    decode, the results are the invalid-manifest result of the one and the
    result of her manifest. *)
Lemma verify_issue_rules_witness :
  let alice := mkLocalSpoke (js "alice") true (Some alice_manifest_yaml) None 0 in
  let result :=
    verify_manifest true (js "alice") None alice_registry alice_manifest_typed in
  ManifestSchema_parse alice_manifest = inl alice_manifest_typed
  /\ verify_step_local sample_load alice_registry [] alice = [result]
  /\ VerifyResult.issues result = []
  /\ is_verified (verify_manifest false (js "alice") None alice_registry
                    alice_manifest_typed)
  /\ verify_local sample_load (Some [spoke_bad_manifest; alice])
       (js ".hive/allowed-signers")
       (Some (js "alice@example.com ssh-ed25519 AAAA123"))
     = inl (mkVerifySummary 2 1 1 [invalid_result (js "spoke-2") None; result]).
Proof.
  cbv zeta.
  assert (ManifestSchema_parse alice_manifest = inl alice_manifest_typed) as H
    by (vm_compute; reflexivity).
  destruct (verify_issue_rules sample_load alice_registry alice_manifest H)
    as (Hr & Hl & _ & Hinv & _ & _ & _ & Hrun & _).
  pose proof (Hl [] (mkLocalSpoke (js "alice") true (Some alice_manifest_yaml)
                       None 0) alice_manifest_yaml eq_refl eq_refl) as Ha.
  cbn [app l_project] in Ha.
  assert (VerifyResult.issues
            (verify_manifest true (js "alice") None alice_registry
               alice_manifest_typed) = []) as Hv.
  { destruct (Hr true (js "alice") None) as (_ & _ & _ & _ & _ & _ & _ & _ & Hv).
    apply Hv. split; [reflexivity | discriminate]. }
  split; [exact H|]. split; [exact Ha|]. split; [exact Hv|]. split.
  - destruct (Hr false (js "alice") None) as (_ & _ & _ & _ & _ & _ & _ & _ & Hv').
    apply Hv'. split; [reflexivity | discriminate].
  - rewrite Hrun. fold alice_registry. cbn [flat_map]. rewrite Ha.
    rewrite (proj2 (Hinv [] spoke_bad_manifest) unclosed_yaml eq_refl)
      by (intros raw' E; vm_compute in E; discriminate E).
    unfold spoke_bad_manifest, summarize, count_verified, invalid_result.
    cbn [app l_project filter VerifyResult.issues List.length Nat.eqb].
    rewrite Hv. reflexivity.
Defined.

Example verify_minimal_manifest_issues :
  VerifyResult.issues
    (verify_manifest false (js "test") None alice_registry minimal_manifest_typed)
  = [issue_not_registered_remote; issue_no_fingerprint].
Proof. vm_compute. reflexivity. Qed.

Example verify_run_counts :
  exists s,
    verify_local sample_load
      (Some [spoke_without_status; spoke_bad_manifest;
             mkLocalSpoke (js "alice") true (Some alice_manifest_yaml) None 0])
      (js ".hive/allowed-signers")
      (Some (js "alice@example.com ssh-ed25519 AAAA123")) = inl s
    /\ total s = 3 /\ verified s = 1 /\ unverified s = 2.
Proof. eexists. repeat split; vm_compute; reflexivity. Qed.

(** C6 at the manifest of alice and the operator bob, who has the key of
    alice: exactly the handle-mismatch error, and no warning. *)
Lemma validateCrossFile_rules_witness :
  errors (validateCrossFile (Some alice_manifest_typed) (Some bob_operator)
            (mkValidationResult [] []))
  = [handle_mismatch alice_manifest_typed bob_operator]
  /\ warnings (validateCrossFile (Some alice_manifest_typed) (Some bob_operator)
                 (mkValidationResult [] [])) = [].
Proof.
  destruct (validateCrossFile_rules (Some alice_manifest_typed) (Some bob_operator)
              (mkValidationResult [] [])) as (Hw & _ & He).
  destruct (He alice_manifest_typed bob_operator eq_refl eq_refl)
    as (hs & ks & _ & _ & _ & _ & _ & Hone).
  split; [|exact Hw]. apply Hone; [discriminate | reflexivity].
Defined.

Example crossfile_is_case_sensitive :
  let Alice := Operator.mk (js "Alice") None
                 (Operator.mkSigning (js "ssh-ed25519 AAAA123") None) [] []
                 (js "open") [] in
  List.length (errors (validateCrossFile (Some alice_manifest_typed) (Some Alice)
                         (mkValidationResult [] []))) = 1.
Proof. reflexivity. Qed.

(** C7 at a manifest with three broken fields: the three broken
    constraints, and nothing else, are the violations, and the typed minimal
    manifest is read off its raw input.  At an operator profile whose hive
    has an unknown role and at a status with a negative count, the line of
    the report carries the text that the default error map composes from
    the data of the violation. *)
Lemma schema_validation_collects_all_witness :
  (exists err,
      safeParse ManifestSchema broken_manifest = inr err
      /\ List.length err = 3
      /\ In (mkIssue (invalid_string v_regex) [Key (js "hub")]
               (Some (js "Hub must be in org/repo format"))) err
      /\ ~ violates ManifestSchema broken_manifest [Key (js "name")])
  /\ minimal_manifest_typed = read_Manifest minimal_manifest
  /\ In (js "operator.yaml: hives.0.role " ++ em_dash
         ++ js " Invalid enum value. Expected 'contributor' | 'reviewer' | "
         ++ js "'maintainer', received 'admin'")
       (errors (snd (validateOperator sample_Date_parse
                       (fun _ => YamlValue bad_role_operator)
                       sample_defaultErrorMap (Some (js "operator"))
                       (mkValidationResult [] []))))
  /\ In (js "status.yaml: tests.passing " ++ em_dash
         ++ js " Number must be greater than or equal to 0")
       (errors (snd (validateStatus sample_Date_parse
                       (fun _ => YamlValue negative_tests_status)
                       sample_defaultErrorMap (Some (js "status")) 0
                       (mkValidationResult [] [])))).
Proof.
  split; [|split; [|split]].
  - destruct (schema_validation_collects_all sample_Date_parse sample_load
                sample_defaultErrorMap broken_manifest) as (Hm & _).
    unfold reports_every_violation in Hm.
    destruct (safeParse ManifestSchema broken_manifest) as [doc|err] eqn:E;
      [vm_compute in E; discriminate|].
    destruct Hm as (_ & Hb & _ & Hv). exists err. split; [reflexivity|].
    split; [vm_compute in E; injection E as <-; reflexivity|].
    split.
    + apply (Hb [Key (js "hub")]
               (string_check
                  (Regex re_org_repo (Some (js "Hub must be in org/repo format"))))
               (VStr (js "not-a-valid-hub"))).
      eapply br_object_field; [right; right; left; reflexivity|].
      apply br_string_check; [left; reflexivity | vm_compute; reflexivity].
    + intros H. apply Hv in H as (i & Hi & Hp).
      vm_compute in E. injection E as <-.
      destruct Hi as [<-|[<-|[<-|[]]]]; vm_compute in Hp; discriminate.
  - pose proof (schema_validation_collects_all sample_Date_parse sample_load
                  sample_defaultErrorMap minimal_manifest)
      as (_ & _ & _ & _ & Hm & _).
    destruct (ManifestSchema_parse minimal_manifest) as [m|err] eqn:E;
      [|vm_compute in E; discriminate].
    destruct Hm as (_ & <- & _). vm_compute in E. now injection E as <-.
  - pose proof (schema_validation_collects_all sample_Date_parse
                  (fun _ => YamlValue bad_role_operator) sample_defaultErrorMap
                  bad_role_operator)
      as (_ & _ & _ & _ & _ & _ & _ & _ & _ & _ & _ & Ho).
    exact (Ho (js "operator") (mkValidationResult [] []) _ _ 0 _ (js "admin")
             eq_refl eq_refl eq_refl eq_refl eq_refl eq_refl).
  - pose proof (schema_validation_collects_all sample_Date_parse
                  (fun _ => YamlValue negative_tests_status) sample_defaultErrorMap
                  negative_tests_status)
      as (_ & _ & _ & _ & _ & _ & _ & _ & _ & _ & Hs & _).
    exact (Hs (js "status") 0%Z (mkValidationResult [] []) _ _ (-1)%Z
             eq_refl eq_refl eq_refl eq_refl eq_refl).
Defined.

(** C8 at the same manifest, a mapping whose [identity] is a mapping: each
    of the three offending fields has a violation at its own path. *)
Lemma manifest_rejects_offending_fields_witness :
  rejected_with_path broken_manifest [Key (js "hub")]
  /\ rejected_with_path broken_manifest [Key (js "license")]
  /\ rejected_with_path broken_manifest [Key (js "identity"); Key (js "publicKey")].
Proof.
  destruct (manifest_rejects_offending_fields broken_manifest) as (H & _).
  destruct (H _ eq_refl) as (Hh & Hl & Hk & _).
  split; [|split].
  - apply Hh. intros s E. vm_compute in E. injection E as <-. reflexivity.
  - apply Hl. intros s E. vm_compute in E. injection E as <-.
    intros Hin. simpl in Hin.
    repeat (destruct Hin as [Hin|Hin]; [vm_compute in Hin; discriminate|]).
    exact Hin.
  - apply (Hk _ eq_refl). intros s E. vm_compute in E. injection E as <-.
    intros (rest & Hr). vm_compute in Hr. discriminate.
Defined.

(** C8, counterexample.  An empty [manifest.yaml] decodes to [undefined]:
    the hub is missing, the license is none of the six and the key has no
    prefix, yet the validation fails with the single violation at the root,
    and the report of [validate] has the one line that names no field.  A
    manifest whose [identity] is a string has a key without the prefix and
    no violation at [identity.publicKey]. *)
Lemma empty_manifest_violation_names_no_field :
  sample_load [] = YamlValue VUndefined
  /\ missing_or_bad_hub VUndefined /\ bad_license VUndefined
  /\ bad_publicKey VUndefined
  /\ (exists i, ManifestSchema_parse VUndefined = inr [i] /\ path i = [])
  /\ ~ rejected_with_path VUndefined [Key (js "hub")]
  /\ ~ rejected_with_path VUndefined [Key (js "license")]
  /\ ~ rejected_with_path VUndefined [Key (js "identity"); Key (js "publicKey")]
  /\ errors (snd (validateManifest sample_load sample_defaultErrorMap (Some [])
                    (mkValidationResult [] [])))
     = [js "manifest.yaml:  " ++ em_dash ++ js " Required"]
  /\ (bad_publicKey flat_identity_manifest
      /\ ~ rejected_with_path flat_identity_manifest
            [Key (js "identity"); Key (js "publicKey")]).
Proof.
  assert (forall p, rejected_with_path VUndefined p -> p = []) as Root.
  { intros p (err & i & E & Hin & <-). vm_compute in E. injection E as <-.
    now destruct Hin as [<-|[]]. }
  split; [reflexivity|].
  split; [intros s E; discriminate E|].
  split; [intros s E; discriminate E|].
  split; [intros s E; discriminate E|].
  split; [eexists; split; vm_compute; reflexivity|].
  split; [intros H; apply Root in H; discriminate H|].
  split; [intros H; apply Root in H; discriminate H|].
  split; [intros H; apply Root in H; discriminate H|].
  split; [vm_compute; reflexivity|].
  split; [intros s E; vm_compute in E; discriminate E|].
  intros (err & i & E & Hin & Hp). vm_compute in E. injection E as <-.
  destruct Hin as [<-|[]]. vm_compute in Hp. discriminate Hp.
Qed.

(** The report of [validate] on that manifest, and on an empty file. *)
Example validate_broken_manifest :
  validateManifest sample_load sample_defaultErrorMap (Some broken_manifest_yaml)
    (mkValidationResult [] [])
  = (None,
     mkValidationResult
       [js "manifest.yaml: hub " ++ em_dash ++ js " Hub must be in org/repo format";
        js "manifest.yaml: license " ++ em_dash
        ++ js " License must be one of: MIT, Apache-2.0, BSD-2-Clause, BSD-3-Clause, CC-BY-4.0, AGPL-3.0";
        js "manifest.yaml: identity.publicKey " ++ em_dash
        ++ js " Public key must be an Ed25519 SSH key"]
       []).
Proof. vm_compute. reflexivity. Qed.

Example validate_empty_manifest :
  validateManifest sample_load sample_defaultErrorMap (Some [])
    (mkValidationResult [] [])
  = (None,
     mkValidationResult [js "manifest.yaml:  " ++ em_dash ++ js " Required"] []).
Proof. vm_compute. reflexivity. Qed.

(** The violations of that manifest, with their paths. *)
Example broken_manifest_reports_three :
  exists err,
    ManifestSchema_parse broken_manifest = inr err
    /\ List.map path err
       = [[Key (js "hub")]; [Key (js "license")];
          [Key (js "identity"); Key (js "publicKey")]]
    /\ List.map (fun i => dotted (path i)) err
       = [js "hub"; js "license"; js "identity.publicKey"].
Proof. eexists. repeat split; vm_compute; reflexivity. Qed.

Example empty_document_rejected_at_root :
  exists i, ManifestSchema_parse VUndefined = inr [i] /\ path i = [].
Proof. eexists. split; vm_compute; reflexivity. Qed.

(** ** The further properties at the sample documents *)

(** X1, witness.  The registry of alice holds her entry, well formed. *)
Lemma registry_entries_wellformed_witness :
  In (js "alice@example.com",
      mkSigner (js "alice@example.com") (js "ssh-ed25519") alice_key)
    alice_registry
  /\ token (js "alice@example.com")
  /\ split_ws alice_key = [js "ssh-ed25519"; js "AAAA123"]
  /\ NoDup (Map_keys alice_registry).
Proof.
  assert (In (js "alice@example.com",
              mkSigner (js "alice@example.com") (js "ssh-ed25519") alice_key)
            (parseAllowedSigners (Some (js "alice@example.com ssh-ed25519 AAAA123"))))
    as H by (vm_compute; left; reflexivity).
  split; [exact H|].
  destruct (registry_entries_wellformed _ _ _ H) as (_ & Ht & _ & _ & Hn).
  split; [exact Ht|]. split; [reflexivity | exact Hn].
Defined.

(** X2, witness.  The key of alice, followed by a comment, is found by both
    variants. *)
Lemma registered_key_is_matched_witness :
  inAllowedSigners
    (matchLoop_local (alice_key ++ js " alice@laptop") alice_registry 0) = true
  /\ inAllowedSigners
       (matchLoop_remote (alice_key ++ js " alice@laptop") alice_registry 0) = true.
Proof.
  assert (In (js "alice@example.com",
              mkSigner (js "alice@example.com") (js "ssh-ed25519") alice_key)
            (parseAllowedSigners (Some (js "alice@example.com ssh-ed25519 AAAA123"))))
    as H by (vm_compute; left; reflexivity).
  destruct (registered_key_is_matched _ _ _ H) as (_ & Hc).
  exact (Hc (js " alice@laptop") (or_intror eq_refl)).
Defined.

(** X4, witness.  A trust anchor that holds a comment only verifies nobody. *)
Lemma verify_empty_registry_witness :
  parseAllowedSigners (Some (js "# no signers yet")) = []
  /\ exists s,
       verify_local sample_load (Some [spoke_without_status]) (js "signers")
         (Some (js "# no signers yet")) = inl s
       /\ verified s = 0 /\ unverified s = total s.
Proof.
  assert (parseAllowedSigners (Some (js "# no signers yet")) = []) as H
    by (vm_compute; reflexivity).
  split; [exact H|].
  destruct (verify_empty_registry sample_load (js "signers") _ H) as (Hl & _).
  destruct (Hl [spoke_without_status]) as (s & E & _ & Hv & Hu).
  exists s. split; [exact E|]. split; assumption.
Defined.

(** X7, witness.  The valid status, read eight days after it was generated. *)
Lemma validateStatus_freshness_witness :
  warnings
    (snd (validateStatus sample_Date_parse sample_load sample_defaultErrorMap
            (Some valid_status_yaml) (sample_instant + 8 * 86400000 + 5)
            no_results))
  = [js "status.yaml: generated 8 days ago " ++ em_dash
     ++ js " consider regenerating"].
Proof.
  assert (sample_load valid_status_yaml = YamlValue valid_status) as Hl
    by (vm_compute; reflexivity).
  assert (StatusSchema_parse sample_Date_parse valid_status = inl valid_status_typed)
    as Hp by (vm_compute; reflexivity).
  destruct (validateStatus_freshness sample_Date_parse sample_load
              sample_defaultErrorMap valid_status_yaml
              (sample_instant + 8 * 86400000 + 5) no_results Hl Hp)
    as (g & Hg & _ & _ & Hw & _).
  vm_compute in Hg. injection Hg as <-.
  destruct (Hw eq_refl) as [W _]. rewrite W. vm_compute. reflexivity.
Defined.

(** X16, witness.  On the sample machine [init] scaffolds a manifest that
    validates. *)
Lemma init_manifest_validates_witness :
  init sample_init_options sample_init_host = inl sample_init_result
  /\ ManifestSchema_parse (manifest_yaml sample_init_result)
     = inl (init_manifest_typed (js "mellanon/pai-collab") (js "my-spoke")
              (js "alice") (getSigningConfig sample_git)).
Proof.
  assert (init sample_init_options sample_init_host = inl sample_init_result) as H
    by (vm_compute; reflexivity).
  split; [exact H|].
  destruct (init_manifest_validates sample_init_options sample_init_host H)
    as (Hiff & Hm & _).
  destruct (proj2 Hiff) as (m & Pm).
  - split; [vm_compute; discriminate|].
    split; [split; [vm_compute; discriminate | vm_compute; reflexivity]|].
    exists (js "AAAA123 alice@laptop"). vm_compute. reflexivity.
  - rewrite Pm. f_equal. exact (Hm m Pm).
Defined.

(** X17, witness.  On the sample machine the status and the operator profile
    validate. *)
Lemma init_status_operator_validate_witness :
  (exists st, StatusSchema_parse sample_Date_parse (status_yaml sample_init_result)
              = inl st)
  /\ exists o, OperatorSchema_parse sample_Date_parse (operator_yaml sample_init_result)
               = inl o.
Proof.
  assert (init sample_init_options sample_init_host = inl sample_init_result) as H
    by (vm_compute; reflexivity).
  assert (parses sample_Date_parse (js "2026-02-07T00:00:00Z")) as Hd
    by (exists sample_instant; vm_compute; reflexivity).
  destruct (init_status_operator_validate sample_Date_parse sample_init_options
              sample_init_host H) as (Hs & _ & Ho & _).
  split.
  - apply Hs. split; exact Hd.
  - apply Ho. split; [|split; [exact Hd | intros _; exact Hd]].
    exists (js "AAAA123 alice@laptop"). vm_compute. reflexivity.
Defined.

(** X18, witness.  The documents of the sample machine pass the cross-file
    check. *)
Lemma init_documents_consistent_witness :
  exists m o,
    ManifestSchema_parse (manifest_yaml sample_init_result) = inl m
    /\ OperatorSchema_parse sample_Date_parse (operator_yaml sample_init_result)
       = inl o
    /\ validateCrossFile (Some m) (Some o) no_results = no_results.
Proof.
  assert (init sample_init_options sample_init_host = inl sample_init_result) as H
    by (vm_compute; reflexivity).
  assert (exists m, ManifestSchema_parse (manifest_yaml sample_init_result) = inl m)
    as [m Pm] by (eexists; vm_compute; reflexivity).
  assert (exists o, OperatorSchema_parse sample_Date_parse
                      (operator_yaml sample_init_result) = inl o)
    as [o Po] by (eexists; vm_compute; reflexivity).
  exists m, o. split; [exact Pm|]. split; [exact Po|].
  destruct (init_documents_consistent sample_Date_parse sample_init_options
              sample_init_host no_results H Pm Po) as (_ & _ & _ & _ & Hc & _).
  exact Hc.
Defined.

(** X19, witness.  A manifest that sets [signing] only has the other reflexes
    off. *)
Lemma manifest_reflexes_from_raw_witness :
  exists m,
    ManifestSchema_parse signing_manifest = inl m
    /\ Manifest.reflexes (Manifest.security m)
       = Manifest.mkReflexes true false false false.
Proof.
  assert (exists m, ManifestSchema_parse signing_manifest = inl m) as [m H]
    by (eexists; vm_compute; reflexivity).
  exists m. split; [exact H|].
  pose proof (manifest_reflexes_from_raw signing_manifest H) as P.
  cbv zeta in P. destruct P as [P _]. rewrite P. reflexivity.
Defined.

(** X20, witness.  The minimal operator profile gets the defaults; the skills
    of the other profile come out as written. *)
Lemma operator_defaults_witness :
  (exists o, OperatorSchema_parse sample_Date_parse minimal_operator = inl o
             /\ Operator.skills o = [] /\ Operator.hives o = []
             /\ Operator.availability o = js "open")
  /\ exists o, OperatorSchema_parse sample_Date_parse skilled_operator = inl o
               /\ Operator.skills o = [js "protocol-design"; js "specflow"]
               /\ List.length (Operator.hives o) = 1
               /\ Operator.availability o = js "busy".
Proof.
  split.
  - assert (exists o, OperatorSchema_parse sample_Date_parse minimal_operator = inl o)
      as [o H] by (eexists; vm_compute; reflexivity).
    exists o. split; [exact H|].
    destruct (operator_defaults sample_Date_parse minimal_operator H)
      as (Hs & _ & Hh & _ & _ & Ha & _).
    split; [now apply Hs|]. split; [now apply Hh | now apply Ha].
  - assert (exists o, OperatorSchema_parse sample_Date_parse skilled_operator = inl o)
      as [o H] by (eexists; vm_compute; reflexivity).
    exists o. split; [exact H|].
    destruct (operator_defaults sample_Date_parse skilled_operator H)
      as (_ & Hs & _ & Hh & _ & _ & Ha).
    split; [|split; [exact (Hh _ eq_refl) | exact (Ha _ eq_refl)]].
    specialize (Hs _ eq_refl).
    destruct (Operator.skills o) as [|a [|b [|c l]]]; try discriminate.
    now injection Hs as -> ->.
Defined.
